(** * Cross-border payment API: orchestration engine, fee engine, rate oracle
      and webhook notifier.

    Shallow embedding of the TypeScript services:
    - [FeeEngine]            (services/feeEngine.ts)
    - [ExchangeRateService]  (services/exchangeRateService.ts)
    - [WebhookService]       (services/webhookService.ts)
    - [OnrampService], [OfframpService]
    - [PaymentOrchestrator]  (services/paymentOrchestrator.ts)
    - the Temporal activities and [paymentWorkflow].

    Conventions of the embedding.
    - A JavaScript [number] is an IEEE-754 binary64 value, represented by the
      rational it is.  [JS.num q] is the number a decimal literal [q] denotes,
      and [JS.add], [JS.sub], [JS.mul] and [JS.div] round the exact result to
      the nearest binary64 value, ties to even, with gradual underflow.
      Comparisons and [Math.round] are exact.  [Infinity] and [NaN] are not
      represented: overflow and division by zero are outside the model.
      Equalities between numbers are stated with [==].
    - SQL tables are lists of rows in insertion order.  A column that SQLite
      fills with [CURRENT_TIMESTAMP] ([created_at], [updated_at], [sent_at])
      holds the time in whole seconds; the times JavaScript computes
      ([Date.now()], [expires_at], the due time of a timer) are in
      milliseconds.  Among rows of the same second, [ORDER BY created_at]
      keeps the order of the table.
    - [uuidv4()] draws the next handle of a counter kept in the world.
    - Every handler of the event loop (an API call, a timer callback, the
      completion of an HTTP request) runs to completion before the next one
      starts, except that the schedules of [Suspended] let other handlers
      run between the read and the update of a [cancelPayment] call;
      database statements succeed unless the source catches their failure on
      the spot. *)

From Stdlib Require Import ZArith NArith QArith Qround Qminmax Qabs Qpower Lqa.
From Stdlib Require Import String Ascii DecimalString List Bool Lia Arith.
From Stdlib Require Import Permutation Sorted.
Import ListNotations.

Set Implicit Arguments.

Close Scope Q_scope.

(* ================================================================== *)
(** ** JavaScript numbers and objects *)

Module JS.
Local Open Scope Q_scope.

  (** *** binary64 *)

  (** [floor (log2 x)] for a positive [x]. *)
Definition ilog2 (x : Q) : Z :=
    let e := (Z.log2 (Qnum x) - Z.log2 (Zpos (Qden x)))%Z in
    if Qle_bool (2 ^ e) x then e else (e - 1)%Z.

  (** Nearest integer, halves to the even one. *)
Definition rne (q : Q) : Z :=
    let f := Qfloor q in
    match Qcompare (q - inject_Z f) (1 # 2) with
    | Lt => f
    | Gt => (f + 1)%Z
    | Eq => if Z.even f then f else (f + 1)%Z
    end.

  (** The exponent of the last place of the binary64 values around [x]:
      53 significant bits, and no exponent below that of the subnormals. *)
Definition scale (x : Q) : Z := Z.max (ilog2 x - 52) (-1074).

Definition rnd_pos (x : Q) : Q :=
    inject_Z (rne (x * 2 ^ (- scale x))) * 2 ^ scale x.

  (** The binary64 value nearest to [x] (round to nearest, ties to even). *)
Definition rnd (x : Q) : Q :=
    let x := Qred x in
    match Qcompare x 0 with
    | Eq => 0
    | Gt => Qred (rnd_pos x)
    | Lt => Qred (- rnd_pos (- x))
    end.

  (** The number denoted by the decimal literal [q]. *)
Definition num (q : Q) : Q := rnd q.

  (** [a + b], [a - b], [a * b], [a / b] *)
Definition add (a b : Q) : Q := rnd (a + b).
Definition sub (a b : Q) : Q := rnd (a - b).
Definition mul (a b : Q) : Q := rnd (a * b).
Definition div (a b : Q) : Q := rnd (a / b).

  (** [Math.round]: nearest integer, halves towards +infinity. *)
Definition Math_round (x : Q) : Z := Qfloor (x + 0.5).

Definition Math_max (a b : Q) : Q := if Qle_bool a b then b else a.

Definition gt (a b : Q) : bool := negb (Qle_bool a b).
Definition lt (a b : Q) : bool := negb (Qle_bool b a).
Definition ge (a b : Q) : bool := Qle_bool b a.
Definition le (a b : Q) : bool := Qle_bool a b.

  (** Truthiness of a number: everything except [0] (and [NaN]). *)
Definition truthy (x : Q) : bool := negb (Qeq_bool x 0).

  (** Truthiness of [number | undefined]; [NaN] is represented by [None]. *)
Definition truthy_opt (x : option Q) : bool :=
    match x with Some q => truthy q | None => false end.

  (** [x || d] on [number | undefined]. *)
Definition or_else (x : option Q) (d : Q) : Q :=
    match x with
    | Some q => if truthy q then q else d
    | None => d
    end.

  (** [1 / x] on [number | undefined]: [1 / undefined] is [NaN]. *)
Definition inv_opt (x : option Q) : option Q :=
    match x with Some q => Some (div 1 q) | None => None end.

  (** [Math.round(x * 100) / 100] and [Math.round(x * 100000) / 100000]. *)
Definition round2 (x : Q) : Q := div (inject_Z (Math_round (mul x 100))) 100.
Definition round5 (x : Q) : Q := div (inject_Z (Math_round (mul x 100000))) 100000.

  (** [String.prototype.toUpperCase] on ASCII letters. *)
Definition upper_ascii (c : ascii) : ascii :=
    let n := nat_of_ascii c in
    if (97 <=? n)%nat && (n <=? 122)%nat then ascii_of_nat (n - 32) else c.

Fixpoint toUpperCase (s : string) : string :=
    match s with
    | EmptyString => EmptyString
    | String c r => String (upper_ascii c) (toUpperCase r)
    end.

  (** [String.prototype.includes]. *)
Definition includes (s pat : string) : bool :=
    match String.index 0 pat s with Some _ => true | None => false end.

  (** A plain object used as a dictionary: keys in insertion order. *)
Definition Obj (V : Type) := list (string * V).

Fixpoint get {V} (o : Obj V) (k : string) : option V :=
    match o with
    | [] => None
    | (k', v) :: r => if String.eqb k' k then Some v else get r k
    end.

Fixpoint set {V} (o : Obj V) (k : string) (v : V) : Obj V :=
    match o with
    | [] => [(k, v)]
    | (k', v') :: r =>
        if String.eqb k' k then (k', v) :: r else (k', v') :: set r k v
    end.

  (** [o[a]?.[b]] *)
Definition get2 (o : Obj (Obj Q)) (a b : string) : option Q :=
    match get o a with Some row => get row b | None => None end.

End JS.

(* ================================================================== *)
(** ** Results of calls that may throw *)

Inductive Result (A : Type) : Type :=
| Ok (a : A)
| Throw (message : string).
Arguments Ok {A} a.
Arguments Throw {A} message.

Definition is_ok {A} (r : Result A) : bool :=
  match r with Ok _ => true | Throw _ => false end.

(* ================================================================== *)
(** ** types/payment.ts *)

Definition Id := nat.

Module PaymentStatus.
Inductive t :=
  | PENDING | PROCESSING | ONRAMP_COMPLETE | OFFRAMP_PROCESSING
  | COMPLETED | FAILED | CANCELLED.

Definition eqb (a b : t) : bool :=
    match a, b with
    | PENDING, PENDING | PROCESSING, PROCESSING
    | ONRAMP_COMPLETE, ONRAMP_COMPLETE
    | OFFRAMP_PROCESSING, OFFRAMP_PROCESSING
    | COMPLETED, COMPLETED | FAILED, FAILED | CANCELLED, CANCELLED => true
    | _, _ => false
    end.
End PaymentStatus.

Module TransactionStatus.
Inductive t := PENDING | PROCESSING | COMPLETED | FAILED.

Definition eqb (a b : t) : bool :=
    match a, b with
    | PENDING, PENDING | PROCESSING, PROCESSING
    | COMPLETED, COMPLETED | FAILED, FAILED => true
    | _, _ => false
    end.
End TransactionStatus.

Module TransactionType.
Inductive t := ONRAMP | OFFRAMP | FEE.

Definition eqb (a b : t) : bool :=
    match a, b with
    | ONRAMP, ONRAMP | OFFRAMP, OFFRAMP | FEE, FEE => true
    | _, _ => false
    end.
End TransactionType.

Module WebhookStatus.
Inductive t := PENDING | SENT | FAILED.

Definition eqb (a b : t) : bool :=
    match a, b with
    | PENDING, PENDING | SENT, SENT | FAILED, FAILED => true
    | _, _ => false
    end.
End WebhookStatus.

Module WebhookEventType.
Inductive t :=
  | PAYMENT_CREATED | PAYMENT_PROCESSING | PAYMENT_COMPLETED
  | PAYMENT_FAILED | ONRAMP_COMPLETED | OFFRAMP_COMPLETED.

Definition eqb (a b : t) : bool :=
    match a, b with
    | PAYMENT_CREATED, PAYMENT_CREATED | PAYMENT_PROCESSING, PAYMENT_PROCESSING
    | PAYMENT_COMPLETED, PAYMENT_COMPLETED | PAYMENT_FAILED, PAYMENT_FAILED
    | ONRAMP_COMPLETED, ONRAMP_COMPLETED | OFFRAMP_COMPLETED, OFFRAMP_COMPLETED => true
    | _, _ => false
    end.
End WebhookEventType.

Module Payment.
Record t := mk {
    id : Id;
    user_id : string;
    idempotency_key : string;
    source_amount : Q;
    source_currency : string;
    destination_amount : Q;
    destination_currency : string;
    exchange_rate : Q;
    status : PaymentStatus.t;
    onramp_reference : option string;
    offramp_reference : option string;
    fee_amount : Q;
    total_amount : Q;
    created_at : N;
    updated_at : N
  }.

Definition with_status (s : PaymentStatus.t) (now : N) (p : t) : t :=
    mk (id p) (user_id p) (idempotency_key p) (source_amount p)
       (source_currency p) (destination_amount p) (destination_currency p)
       (exchange_rate p) s (onramp_reference p) (offramp_reference p)
       (fee_amount p) (total_amount p) (created_at p) now.

Definition with_onramp_reference (r : string) (now : N) (p : t) : t :=
    mk (id p) (user_id p) (idempotency_key p) (source_amount p)
       (source_currency p) (destination_amount p) (destination_currency p)
       (exchange_rate p) (status p) (Some r) (offramp_reference p)
       (fee_amount p) (total_amount p) (created_at p) now.

Definition with_offramp_reference (r : string) (now : N) (p : t) : t :=
    mk (id p) (user_id p) (idempotency_key p) (source_amount p)
       (source_currency p) (destination_amount p) (destination_currency p)
       (exchange_rate p) (status p) (onramp_reference p) (Some r)
       (fee_amount p) (total_amount p) (created_at p) now.
End Payment.

Module CreatePaymentRequest.
Record t := mk {
    user_id : string;
    idempotency_key : string;
    source_amount : Q;
    source_currency : string;
    destination_currency : string;
    webhook_url : option string
  }.
End CreatePaymentRequest.

Module PaymentResponse.
Record t := mk {
    id : Id;
    status : PaymentStatus.t;
    source_amount : Q;
    source_currency : string;
    destination_amount : Q;
    destination_currency : string;
    exchange_rate : Q;
    fee_amount : Q;
    total_amount : Q;
    estimated_completion : N;
    created_at : N
  }.
End PaymentResponse.

Module FeeConfig.
Record t := mk {
    id : nat;
    currency : string;
    base_fee : Q;
    percentage_fee : Q;
    minimum_fee : Q;
    maximum_fee : option Q;
    created_at : N
  }.
End FeeConfig.

Module FeeCalculation.
Record t := mk {
    base_fee : Q;
    percentage_fee : Q;
    total_fee : Q;
    currency : string
  }.
End FeeCalculation.

Module Transaction.
Record t := mk {
    id : Id;
    payment_id : option Id;
    type : TransactionType.t;
    amount : Q;
    currency : string;
    status : TransactionStatus.t;
    external_reference : string;
    provider : string;
    created_at : N;
    updated_at : N
  }.

Definition with_status (s : TransactionStatus.t) (now : N) (x : t) : t :=
    mk (id x) (payment_id x) (type x) (amount x) (currency x) s
       (external_reference x) (provider x) (created_at x) now.
End Transaction.

(** The [data] member of a webhook body, as the orchestrator builds it. *)
Inductive WebhookData :=
| DataCreated (payment : Payment.t) (webhook_url : string)
| DataTransaction (transaction : Id)
| DataStatus (status : PaymentStatus.t)
| DataFailure (error : string) (status : PaymentStatus.t) (webhook_url : string)
| DataStatusUrl (status : PaymentStatus.t) (transaction : option Id) (webhook_url : string).

(** [payload.webhook_url] *)
Definition data_webhook_url (d : WebhookData) : option string :=
  match d with
  | DataCreated _ u => Some u
  | DataFailure _ _ u => Some u
  | DataStatusUrl _ _ u => Some u
  | DataTransaction _ | DataStatus _ => None
  end.

Module WebhookPayload.
Record t := mk {
    id : Id;
    payment_id : Id;
    event_type : WebhookEventType.t;
    timestamp : N;
    data : WebhookData
  }.
End WebhookPayload.

Module Webhook.
Record t := mk {
    id : Id;
    payment_id : Id;
    event_type : WebhookEventType.t;
    status : WebhookStatus.t;
    payload : WebhookPayload.t;
    response : option bool;      (* last response: [Some true] a 2xx reply, [Some false] an error *)
    retry_count : nat;
    created_at : N;
    sent_at : option N
  }.
End Webhook.

Module ExchangeRate.
Record t := mk {
    from_currency : string;
    to_currency : string;
    rate : Q;
    provider : string;
    created_at : N;
    expires_at : N
  }.
End ExchangeRate.

(* ================================================================== *)
(** ** The world: database, service state and the event loop's queues *)

(** What a timer runs when it fires. *)
Inductive Job :=
| JProcessPayment (paymentId : Id)
    (* the detached call [this.processPayment(paymentId)] *)
| JOnrampPoll (paymentId onrampTransactionId : Id)
    (* body of the [setInterval] in [monitorOnrampCompletion] *)
| JOfframpPoll (paymentId offrampTransactionId : Id)
    (* body of the [setInterval] in [monitorOfframpCompletion] *)
| JClearInterval (checkInterval : nat)
    (* [setTimeout(() => clearInterval(checkInterval), ...)] *)
| JResolve (transactionId : Id) (success_rate : Q)
    (* [simulateAsyncProcessing] of either settlement service *)
| JWebhookRetry (webhookId : Id) (url : string).
    (* the retry scheduled by [handleWebhookFailure] *)

Module Timer.
Record t := mk {
    id : nat;
    due : N;                   (* absolute time, milliseconds *)
    period : option N;       (* [Some p] for [setInterval(_, p)] *)
    job : Job
  }.
End Timer.

(** An HTTP request issued by [sendWebhookRequest], awaiting its outcome. *)
Module Request.
Record t := mk { webhookId : Id; url : string }.
End Request.

Record World := mkWorld {
  clock : N;                                 (* [Date.now()] *)
  uuid_next : Id;                            (* supply of [uuidv4()] *)
  payments : list Payment.t;
  fee_configs : list FeeConfig.t;
  transactions : list Transaction.t;
  webhooks : list Webhook.t;
  exchange_rates : list ExchangeRate.t;
  mockRates : JS.Obj (JS.Obj Q);             (* [ExchangeRateService.mockRates] *)
  timers : list Timer.t;
  timer_next : nat;
  inflight : list Request.t;
  DEFAULT_WEBHOOK_URL : option string        (* [process.env.DEFAULT_WEBHOOK_URL] *)
}.

Definition set_clock (v : N) (w : World) : World :=
  mkWorld v (uuid_next w) (payments w) (fee_configs w) (transactions w)
    (webhooks w) (exchange_rates w) (mockRates w) (timers w) (timer_next w)
    (inflight w) (DEFAULT_WEBHOOK_URL w).
Definition set_uuid_next (v : Id) (w : World) : World :=
  mkWorld (clock w) v (payments w) (fee_configs w) (transactions w)
    (webhooks w) (exchange_rates w) (mockRates w) (timers w) (timer_next w)
    (inflight w) (DEFAULT_WEBHOOK_URL w).
Definition set_payments (v : list Payment.t) (w : World) : World :=
  mkWorld (clock w) (uuid_next w) v (fee_configs w) (transactions w)
    (webhooks w) (exchange_rates w) (mockRates w) (timers w) (timer_next w)
    (inflight w) (DEFAULT_WEBHOOK_URL w).
Definition set_fee_configs (v : list FeeConfig.t) (w : World) : World :=
  mkWorld (clock w) (uuid_next w) (payments w) v (transactions w)
    (webhooks w) (exchange_rates w) (mockRates w) (timers w) (timer_next w)
    (inflight w) (DEFAULT_WEBHOOK_URL w).
Definition set_transactions (v : list Transaction.t) (w : World) : World :=
  mkWorld (clock w) (uuid_next w) (payments w) (fee_configs w) v
    (webhooks w) (exchange_rates w) (mockRates w) (timers w) (timer_next w)
    (inflight w) (DEFAULT_WEBHOOK_URL w).
Definition set_webhooks (v : list Webhook.t) (w : World) : World :=
  mkWorld (clock w) (uuid_next w) (payments w) (fee_configs w) (transactions w)
    v (exchange_rates w) (mockRates w) (timers w) (timer_next w)
    (inflight w) (DEFAULT_WEBHOOK_URL w).
Definition set_exchange_rates (v : list ExchangeRate.t) (w : World) : World :=
  mkWorld (clock w) (uuid_next w) (payments w) (fee_configs w) (transactions w)
    (webhooks w) v (mockRates w) (timers w) (timer_next w)
    (inflight w) (DEFAULT_WEBHOOK_URL w).
Definition set_timers (v : list Timer.t) (w : World) : World :=
  mkWorld (clock w) (uuid_next w) (payments w) (fee_configs w) (transactions w)
    (webhooks w) (exchange_rates w) (mockRates w) v (timer_next w)
    (inflight w) (DEFAULT_WEBHOOK_URL w).
Definition set_timer_next (v : nat) (w : World) : World :=
  mkWorld (clock w) (uuid_next w) (payments w) (fee_configs w) (transactions w)
    (webhooks w) (exchange_rates w) (mockRates w) (timers w) v
    (inflight w) (DEFAULT_WEBHOOK_URL w).
Definition set_inflight (v : list Request.t) (w : World) : World :=
  mkWorld (clock w) (uuid_next w) (payments w) (fee_configs w) (transactions w)
    (webhooks w) (exchange_rates w) (mockRates w) (timers w) (timer_next w)
    v (DEFAULT_WEBHOOK_URL w).

(** *** A state-and-exception monad over the world

    Effects performed before a [throw] stay performed, as in the source. *)

Definition M (A : Type) : Type := World -> Result A * World.

Definition ret {A} (a : A) : M A := fun w => (Ok a, w).
Definition throw {A} (message : string) : M A := fun w => (Throw message, w).

Definition bind {A B} (m : M A) (k : A -> M B) : M B :=
  fun w =>
    match m w with
    | (Ok a, w') => k a w'
    | (Throw e, w') => (Throw e, w')
    end.

Definition try_catch {A} (m : M A) (handler : string -> M A) : M A :=
  fun w =>
    match m w with
    | (Ok a, w') => (Ok a, w')
    | (Throw e, w') => handler e w'
    end.

(** [try { m } finally { f }] *)
Definition finally {A} (m : M A) (f : M unit) : M A :=
  fun w =>
    match m w with
    | (r, w') =>
        match f w' with
        | (Ok _, w'') => (r, w'')
        | (Throw e, w'') => (Throw e, w'')
        end
    end.

Definition gets {A} (f : World -> A) : M A := fun w => (Ok (f w), w).
Definition modify (f : World -> World) : M unit := fun w => (Ok tt, f w).
Definition lift {A} (r : Result A) : M A := fun w => (r, w).

Declare Scope monad_scope.
Delimit Scope monad_scope with monad.
Notation "x <- m ;; k" := (bind m (fun x => k))
  (at level 61, m at next level, right associativity) : monad_scope.
Notation "m ;;; k" := (bind m (fun _ => k))
  (at level 61, right associativity) : monad_scope.
Open Scope monad_scope.

Definition exec {A} (m : M A) (w : World) : World := snd (m w).
Definition eval {A} (m : M A) (w : World) : Result A := fst (m w).

Definition uuidv4 : M Id :=
  fun w => (Ok (uuid_next w), set_uuid_next (S (uuid_next w)) w).

Definition Date_now : M N := gets clock.

(** SQL's [CURRENT_TIMESTAMP]: the time in whole seconds. *)
Definition CURRENT_TIMESTAMP (w : World) : N := (clock w / 1000)%N.

(** [setTimeout] / [setInterval] / [clearInterval] *)
Definition setTimeout (j : Job) (delay : N) : M nat :=
  fun w =>
    let t := Timer.mk (timer_next w) (clock w + delay)%N None j in
    (Ok (timer_next w), set_timer_next (S (timer_next w)) (set_timers (timers w ++ [t]) w)).

Definition setInterval (j : Job) (delay : N) : M nat :=
  fun w =>
    let t := Timer.mk (timer_next w) (clock w + delay)%N (Some delay) j in
    (Ok (timer_next w), set_timer_next (S (timer_next w)) (set_timers (timers w ++ [t]) w)).

Definition clearInterval (handle : nat) : M unit :=
  modify (fun w =>
    set_timers (filter (fun t => negb (Timer.id t =? handle)) (timers w)) w).

(** The answers of [calculateTotalAmount] and [getFeeEstimate]. *)
Module TotalAmount.
Record t := mk {
    destinationAmount : Q;
    feeAmount : Q;
    totalAmount : Q
  }.
End TotalAmount.

Module FeeEstimate.
Record t := mk {
    source_amount : Q;
    source_currency : string;
    destination_amount : Q;
    destination_currency : string;
    exchange_rate : Q;
    fee_breakdown : FeeCalculation.t;
    total_cost : Q
  }.
End FeeEstimate.

(** The answer of [getUserPayments]. *)
Module UserPayments.
Record t := mk {
    payments : list PaymentResponse.t;
    total : nat;
    hasMore : bool
  }.
End UserPayments.

(** The answer of [getWebhookStats]. *)
Module WebhookStats.
Record t := mk {
    total : nat;
    sent : nat;
    failed : nat;
    pending : nat;
    by_event_type : list (WebhookEventType.t * nat)
  }.
End WebhookStats.

(* ================================================================== *)
(** ** services/feeEngine.ts *)

Module FeeEngine.
Local Open Scope Q_scope.

  (** [SELECT * FROM fee_configs WHERE currency = ? ORDER BY created_at DESC
      LIMIT 1]: the newest row of the currency. *)
Fixpoint newest (rows : list FeeConfig.t) (best : option FeeConfig.t)
    : option FeeConfig.t :=
    match rows with
    | [] => best
    | r :: rest =>
        match best with
        | Some b =>
            if (FeeConfig.created_at b <? FeeConfig.created_at r)%N
            then newest rest (Some r) else newest rest best
        | None => newest rest (Some r)
        end
    end.

Definition select (rows : list FeeConfig.t) (currency : string)
    : option FeeConfig.t :=
    newest (filter (fun r => String.eqb (FeeConfig.currency r) currency) rows) None.

Definition getFeeConfig (currency : string) : M (option FeeConfig.t) :=
    gets (fun w => select (fee_configs w) (JS.toUpperCase currency)).

  (** The arithmetic of [calculateFees] once the schedule is known. *)
Definition totalFee (feeConfig : FeeConfig.t) (destinationAmount : Q) : Q :=
    let baseFee := FeeConfig.base_fee feeConfig in
    let percentageFeeAmount := JS.mul destinationAmount (FeeConfig.percentage_fee feeConfig) in
    let rawTotalFee := JS.add baseFee percentageFeeAmount in
    let totalFee := JS.Math_max rawTotalFee (FeeConfig.minimum_fee feeConfig) in
    let totalFee :=
      match FeeConfig.maximum_fee feeConfig with
      | Some maximum_fee =>
          if JS.truthy maximum_fee && JS.gt totalFee maximum_fee
          then maximum_fee else totalFee
      | None => totalFee
      end in
    JS.round2 totalFee.

Definition calculateFees (destinationCurrency : string) (destinationAmount : Q)
    : M FeeCalculation.t :=
    feeConfig <- getFeeConfig destinationCurrency ;;
    match feeConfig with
    | None =>
        throw ("Fee configuration not found for currency: " ++ destinationCurrency)
    | Some feeConfig =>
        ret (FeeCalculation.mk
               (FeeConfig.base_fee feeConfig)
               (JS.mul destinationAmount (FeeConfig.percentage_fee feeConfig))
               (totalFee feeConfig destinationAmount)
               destinationCurrency)
    end.

Definition isCurrencySupported (currency : string) : M bool :=
    config <- getFeeConfig currency ;;
    ret (match config with Some _ => true | None => false end).

  (** [INSERT OR REPLACE INTO fee_configs ...]: the table has no uniqueness
      constraint on [currency], so a row is always added. *)
Definition updateFeeConfig (currency : string)
      (baseFee percentageFee minimumFee : Q) (maximumFee : option Q) : M unit :=
    modify (fun w =>
      set_fee_configs
        (fee_configs w ++
           [FeeConfig.mk (S (List.length (fee_configs w))) (JS.toUpperCase currency)
              baseFee percentageFee minimumFee maximumFee (CURRENT_TIMESTAMP w)]) w).

  (** Total amount including fees (for display purposes). *)
Definition calculateTotalAmount (sourceAmount : Q)
      (sourceCurrency destinationCurrency : string) (exchangeRate : Q)
    : M TotalAmount.t :=
    let destinationAmount := JS.mul sourceAmount exchangeRate in
    feeCalculation <- calculateFees destinationCurrency destinationAmount ;;
    ret (TotalAmount.mk
           (JS.round2 destinationAmount)
           (FeeCalculation.total_fee feeCalculation)
           (JS.round2 (JS.add sourceAmount
                         (JS.div (FeeCalculation.total_fee feeCalculation)
                                 exchangeRate)))).

Definition getFeeEstimate (sourceAmount : Q)
      (sourceCurrency destinationCurrency : string) (exchangeRate : Q)
    : M FeeEstimate.t :=
    let destinationAmount := JS.mul sourceAmount exchangeRate in
    feeCalculation <- calculateFees destinationCurrency destinationAmount ;;
    (* Calculate total cost in source currency (including fees converted back) *)
    let feeInSourceCurrency :=
      JS.div (FeeCalculation.total_fee feeCalculation) exchangeRate in
    let totalCost := JS.add sourceAmount feeInSourceCurrency in
    ret (FeeEstimate.mk sourceAmount sourceCurrency
           (JS.round2 destinationAmount) destinationCurrency exchangeRate
           feeCalculation (JS.round2 totalCost)).

End FeeEngine.

(** [Database.insertDefaultFeeConfigs] *)
Definition defaultFeeConfigs : list FeeConfig.t :=
  [ FeeConfig.mk 1 "EUR" 2.50 (JS.num 0.0299) 1.00 (Some 50.00) 0;
    FeeConfig.mk 2 "GBP" 2.00 (JS.num 0.0299) 1.00 (Some 50.00) 0;
    FeeConfig.mk 3 "CAD" 3.00 (JS.num 0.0349) 1.50 (Some 75.00) 0;
    FeeConfig.mk 4 "AUD" 3.50 (JS.num 0.0349) 1.50 (Some 75.00) 0;
    FeeConfig.mk 5 "JPY" 300 (JS.num 0.0399) 100 (Some 7500) 0;
    FeeConfig.mk 6 "INR" 200 (JS.num 0.0399) 100 (Some 5000) 0;
    FeeConfig.mk 7 "BRL" 15 (JS.num 0.0449) 5 (Some 300) 0;
    FeeConfig.mk 8 "MXN" 50 (JS.num 0.0449) 20 (Some 1000) 0 ]%Q%string.

(* ================================================================== *)
(** ** services/exchangeRateService.ts *)

Module ExchangeRateService.
Local Open Scope Q_scope.

Definition cacheExpiryMinutes : N := 15.

Definition mockRates0 : JS.Obj (JS.Obj Q) :=
    [ ("USD",
       [ ("EUR", JS.num 0.85); ("GBP", JS.num 0.73); ("CAD", 1.25);
         ("AUD", JS.num 1.35); ("JPY", 110.0); ("INR", 74.5);
         ("BRL", JS.num 5.2); ("MXN", JS.num 20.1); ("CHF", JS.num 0.92);
         ("SEK", JS.num 8.7); ("NOK", JS.num 8.9) ]) ]%string.

  (** Adds the reverse of every USD rate. *)
Definition initializeBaseCurrencies (rates : JS.Obj (JS.Obj Q))
    : JS.Obj (JS.Obj Q) :=
    fold_left
      (fun rates (entry : string * Q) =>
         let (currency, rate) := entry in
         let row := match JS.get rates currency with Some r => r | None => [] end in
         JS.set rates currency (JS.set row "USD"%string (JS.div 1 rate)))
      (match JS.get rates "USD"%string with Some usd => usd | None => [] end)
      rates.

  (** The instance state after the constructor has run. *)
Definition initialRates : JS.Obj (JS.Obj Q) := initializeBaseCurrencies mockRates0.

Definition getBaseRate (rates : JS.Obj (JS.Obj Q))
      (sourceCurrency destinationCurrency : string) : Q :=
    (* Direct rate *)
    if JS.truthy_opt (JS.get2 rates sourceCurrency destinationCurrency) then
      JS.or_else (JS.get2 rates sourceCurrency destinationCurrency) 0
    (* Inverse rate *)
    else if JS.truthy_opt (JS.get2 rates destinationCurrency sourceCurrency) then
      JS.div 1 (JS.or_else (JS.get2 rates destinationCurrency sourceCurrency) 0)
    (* Cross rate via USD *)
    else if negb (String.eqb sourceCurrency "USD") &&
            negb (String.eqb destinationCurrency "USD") then
      let sourceToUSD :=
        JS.or_else (JS.get2 rates sourceCurrency "USD"%string)
          (JS.or_else (JS.inv_opt (JS.get2 rates "USD"%string sourceCurrency)) 1) in
      let usdToDestination :=
        JS.or_else (JS.get2 rates "USD"%string destinationCurrency)
          (JS.or_else (JS.inv_opt (JS.get2 rates destinationCurrency "USD"%string)) 1) in
      JS.mul sourceToUSD usdToDestination
    (* Default fallback *)
    else 1.0.

  (** [random] is the value returned by [Math.random()], in [0, 1). *)
Definition fetchExchangeRate (rates : JS.Obj (JS.Obj Q))
      (sourceCurrency destinationCurrency : string) (random : Q) : Q :=
    let baseRate := getBaseRate rates sourceCurrency destinationCurrency in
    let variation := JS.add 1 (JS.mul (JS.sub random 0.5) (JS.num 0.04)) in
    JS.round5 (JS.mul baseRate variation).

  (** [SELECT * FROM exchange_rates WHERE from_currency = ? AND to_currency = ?
      AND expires_at > ? ORDER BY created_at DESC LIMIT 1] *)
Fixpoint newest (rows : list ExchangeRate.t) (best : option ExchangeRate.t)
    : option ExchangeRate.t :=
    match rows with
    | [] => best
    | r :: rest =>
        match best with
        | Some b =>
            if (ExchangeRate.created_at b <? ExchangeRate.created_at r)%N
            then newest rest (Some r) else newest rest best
        | None => newest rest (Some r)
        end
    end.

Definition getCachedRate (sourceCurrency destinationCurrency : string)
    : M (option ExchangeRate.t) :=
    gets (fun w =>
      newest
        (filter (fun r =>
           String.eqb (ExchangeRate.from_currency r) sourceCurrency &&
           String.eqb (ExchangeRate.to_currency r) destinationCurrency &&
           (clock w <? ExchangeRate.expires_at r)%N)
           (exchange_rates w))
        None).

  (** [INSERT OR REPLACE] under [UNIQUE(from_currency, to_currency, provider)]. *)
Definition cacheRate (sourceCurrency destinationCurrency : string) (rate : Q)
    : M unit :=
    modify (fun w =>
      let expiresAt := (clock w + cacheExpiryMinutes * 60000)%N in
      let others :=
        filter (fun r =>
          negb (String.eqb (ExchangeRate.from_currency r) sourceCurrency &&
                String.eqb (ExchangeRate.to_currency r) destinationCurrency &&
                String.eqb (ExchangeRate.provider r) "mock_provider"))
          (exchange_rates w) in
      set_exchange_rates
        (others ++ [ExchangeRate.mk sourceCurrency destinationCurrency rate
                      "mock_provider" (CURRENT_TIMESTAMP w) expiresAt]) w).

Definition getExchangeRate (sourceCurrency destinationCurrency : string)
      (random : Q) : M Q :=
    (* Same currency *)
    if String.eqb sourceCurrency destinationCurrency then ret 1.0
    else
      (* Check cache first *)
      cachedRate <- getCachedRate sourceCurrency destinationCurrency ;;
      match cachedRate with
      | Some cachedRate => ret (ExchangeRate.rate cachedRate)
      | None =>
          (* Fetch new rate *)
          rates <- gets mockRates ;;
          let rate := fetchExchangeRate rates sourceCurrency destinationCurrency random in
          (* Cache the rate *)
          cacheRate sourceCurrency destinationCurrency rate ;;;
          ret rate
      end.

  (** [DELETE FROM exchange_rates WHERE expires_at < ?] with the current
      time; the answer is the number of rows deleted. *)
Definition cleanupExpiredRates : M nat :=
    fun w =>
      let kept :=
        filter (fun r => negb (ExchangeRate.expires_at r <? clock w)%N)
               (exchange_rates w) in
      (Ok (List.length (exchange_rates w) - List.length kept)%nat,
       set_exchange_rates kept w).

End ExchangeRateService.

(* ================================================================== *)
(** ** database/database.ts: the statements the services issue *)

Module Database.

  (** [INSERT INTO payments]: [id] is the primary key and
      [idempotency_key TEXT UNIQUE NOT NULL]. *)
Definition insert_payment (p : Payment.t) : M unit :=
    fun w =>
      if existsb (fun r => (Payment.id r =? Payment.id p) ||
                           String.eqb (Payment.idempotency_key r)
                                      (Payment.idempotency_key p))
                 (payments w)
      then (Throw "SQLITE_CONSTRAINT", w)
      else (Ok tt, set_payments (payments w ++ [p]) w).

  (** [UPDATE payments SET ... WHERE id = ?] *)
Definition update_payment (paymentId : Id) (f : Payment.t -> Payment.t) : M unit :=
    modify (fun w =>
      set_payments
        (map (fun r => if Payment.id r =? paymentId then f r else r) (payments w)) w).

Definition insert_transaction (x : Transaction.t) : M unit :=
    modify (fun w => set_transactions (transactions w ++ [x]) w).

Definition update_transaction (transactionId : Id)
      (f : Transaction.t -> Transaction.t) : M unit :=
    modify (fun w =>
      set_transactions
        (map (fun r => if Transaction.id r =? transactionId then f r else r)
             (transactions w)) w).

Definition select_transaction (transactionId : Id) : M (option Transaction.t) :=
    gets (fun w => find (fun r => Transaction.id r =? transactionId) (transactions w)).

Definition insert_webhook (x : Webhook.t) : M unit :=
    modify (fun w => set_webhooks (webhooks w ++ [x]) w).

Definition update_webhook (webhookId : Id) (f : Webhook.t -> Webhook.t) : M unit :=
    modify (fun w =>
      set_webhooks
        (map (fun r => if Webhook.id r =? webhookId then f r else r) (webhooks w)) w).

Definition select_webhook (webhookId : Id) : M (option Webhook.t) :=
    gets (fun w => find (fun r => Webhook.id r =? webhookId) (webhooks w)).

  (** [insertDefaultFeeConfigs], run by [initialize]: [INSERT OR IGNORE] into
      a table whose only key is the autoincremented [id], so every row is
      inserted. *)
Definition insertDefaultFeeConfigs : M unit :=
    let feeConfigs : list (string * Q * Q * Q * Q) :=
      [ ("EUR", 2.50, JS.num 0.0299, 1.00, 50.00);
        ("GBP", 2.00, JS.num 0.0299, 1.00, 50.00);
        ("CAD", 3.00, JS.num 0.0349, 1.50, 75.00);
        ("AUD", 3.50, JS.num 0.0349, 1.50, 75.00);
        ("JPY", 300, JS.num 0.0399, 100, 7500);
        ("INR", 200, JS.num 0.0399, 100, 5000);
        ("BRL", 15, JS.num 0.0449, 5, 300);
        ("MXN", 50, JS.num 0.0449, 20, 1000) ]%Q%string in
    modify (fun w =>
      set_fee_configs
        (fold_left
           (fun rows (config : string * Q * Q * Q * Q) =>
              let '(currency, base_fee, percentage_fee, minimum_fee, maximum_fee) :=
                config in
              rows ++ [FeeConfig.mk (S (List.length rows)) currency base_fee
                         percentage_fee minimum_fee (Some maximum_fee)
                         (CURRENT_TIMESTAMP w)])
           feeConfigs (fee_configs w)) w).

End Database.

(* ================================================================== *)
(** ** services/webhookService.ts *)

Module WebhookService.

Definition maxRetries : nat := 3.
Definition retryDelays : list N := [5000; 15000; 60000]%N.

  (** [a || d] on [string | undefined]: the empty string is falsy. *)
Definition str_or (a : option string) (d : string) : string :=
    match a with
    | Some EmptyString | None => d
    | Some s => s
    end.

  (** [sendWebhookAsync] up to its first suspension: the POST is on the wire.
      Its continuation is [onResponse]. *)
Definition sendWebhookAsync (webhookId : Id) (url : string) : M unit :=
    modify (fun w => set_inflight (inflight w ++ [Request.mk webhookId url]) w).

Definition scheduleWebhook (paymentId : Id) (eventType : WebhookEventType.t)
      (payload : WebhookData) : M Id :=
    webhookId <- uuidv4 ;;
    now <- Date_now ;;
    let webhookPayload := WebhookPayload.mk webhookId paymentId eventType now payload in
    created <- gets CURRENT_TIMESTAMP ;;
    Database.insert_webhook
      (Webhook.mk webhookId paymentId eventType WebhookStatus.PENDING
                  webhookPayload None 0 created None) ;;;
    env <- gets DEFAULT_WEBHOOK_URL ;;
    let webhookUrl :=
      str_or (data_webhook_url payload) (str_or env "https://webhook.site/test") in
    sendWebhookAsync webhookId webhookUrl ;;;
    ret webhookId.

Definition handleWebhookFailure (webhookId : Id) (url : string) : M unit :=
    webhook <- Database.select_webhook webhookId ;;
    match webhook with
    | None => ret tt
    | Some webhook =>
        let retryCount := Webhook.retry_count webhook + 1 in
        Database.update_webhook webhookId (fun r =>
          Webhook.mk (Webhook.id r) (Webhook.payment_id r) (Webhook.event_type r)
            (if retryCount <=? maxRetries then WebhookStatus.PENDING
             else WebhookStatus.FAILED)
            (Webhook.payload r) (Some false) retryCount
            (Webhook.created_at r) (Webhook.sent_at r)) ;;;
        if retryCount <=? maxRetries then
          let retryDelay :=
            match nth_error retryDelays (retryCount - 1) with
            | Some d => if (d =? 0)%N then 60000%N else d
            | None => 60000%N
            end in
          setTimeout (JWebhookRetry webhookId url) retryDelay ;;; ret tt
        else ret tt
    end.

  (** The rest of [sendWebhookAsync], once the request has been answered
      ([ok]: a 2xx status) or has failed ([ok = false]: any other status, a
      network error or the 10 s timeout). *)
Definition onResponse (r : Request.t) (ok : bool) : M unit :=
    if ok then
      now <- gets CURRENT_TIMESTAMP ;;
      Database.update_webhook (Request.webhookId r) (fun x =>
        Webhook.mk (Webhook.id x) (Webhook.payment_id x) (Webhook.event_type x)
          WebhookStatus.SENT (Webhook.payload x) (Some true)
          (Webhook.retry_count x) (Webhook.created_at x) (Some now))
    else handleWebhookFailure (Request.webhookId r) (Request.url r).

Definition getWebhookStatus (webhookId : Id) : M (option Webhook.t) :=
    Database.select_webhook webhookId.

  (** [(webhook.payload as any)?.webhook_url]: the stored body has the members
      [id], [payment_id], [event_type], [timestamp] and [data] only. *)
Definition payload_webhook_url (p : WebhookPayload.t) : option string := None.

Definition retryWebhook (webhookId : Id) (newUrl : option string) : M bool :=
    webhook <- getWebhookStatus webhookId ;;
    match webhook with
    | None => ret false
    | Some webhook =>
        if WebhookStatus.eqb (Webhook.status webhook) WebhookStatus.SENT then ret false
        else
          (* Reset retry count and status *)
          Database.update_webhook webhookId (fun r =>
            Webhook.mk (Webhook.id r) (Webhook.payment_id r) (Webhook.event_type r)
              WebhookStatus.PENDING (Webhook.payload r) (Webhook.response r) 0
              (Webhook.created_at r) (Webhook.sent_at r)) ;;;
          let url :=
            str_or newUrl
              (str_or (payload_webhook_url (Webhook.payload webhook))
                      "https://webhook.site/test") in
          sendWebhookAsync webhookId url ;;;
          ret true
    end.




End WebhookService.

(* ================================================================== *)
(** ** services/onrampService.ts

    The free-form [metadata] column and the provider fee that is only stored
    in it are not represented; the random and time-stamp parts of an external
    reference are left out of the string. *)

Module ProviderInfo.
Record t := mk {
    provider : string;
    name : string;
    limits_min : Q;
    limits_max : Q;
    processing_time : string;
    payment_methods : list string;
    success_rate : Q
  }.
End ProviderInfo.

Module OnrampRequest.
Record t := mk {
    payment_id : Id;
    amount : Q;
    currency : string;
    user_id : string;
    payment_method : option string      (* [payment_method?.type] *)
  }.
End OnrampRequest.

Module SettlementResponse.
  (** [OnrampResponse] and [OfframpResponse] *)
Record t := mk {
    transaction_id : Id;
    external_reference : string;
    status : TransactionStatus.t;
    amount : Q;
    currency : string;
    provider : string
  }.
End SettlementResponse.

Module OnrampService.
Local Open Scope Q_scope.

Definition providers : list ProviderInfo.t :=
    [ ProviderInfo.mk "stripe" "Stripe" 1 10000 "5 minutes"
        ["card"; "digital_wallet"] (JS.num 0.98);
      ProviderInfo.mk "circle" "Circle" 100 100000 "30 minutes"
        ["bank_transfer"; "stablecoin"] (JS.num 0.99);
      ProviderInfo.mk "wire_transfer" "Wire Transfer" 50000 1000000 "24 hours"
        ["wire"] (JS.num 0.95) ]%string.

Definition in_limits (amount : Q) (p : ProviderInfo.t) : bool :=
    JS.ge amount (ProviderInfo.limits_min p) && JS.le amount (ProviderInfo.limits_max p).

Definition validateRequest (request : OnrampRequest.t) : M unit :=
    if JS.le (OnrampRequest.amount request) 0 then throw "Amount must be positive"
    else if negb (String.eqb (OnrampRequest.currency request) "USD")
    then throw "Only USD is supported for onramp"
    else if JS.lt (OnrampRequest.amount request) 1 then throw "Minimum amount is $1"
    else ret tt.

Definition validateAmount (amount : Q) (provider : ProviderInfo.t) : M unit :=
    if JS.lt amount (ProviderInfo.limits_min provider)
    then throw ("Amount must be at least the minimum for " ++ ProviderInfo.name provider)
    else if JS.gt amount (ProviderInfo.limits_max provider)
    then throw ("Amount cannot exceed the maximum for " ++ ProviderInfo.name provider)
    else ret tt.

Definition selectProvider (request : OnrampRequest.t) : M ProviderInfo.t :=
    let amount := OnrampRequest.amount request in
    let availableProviders :=
      match OnrampRequest.payment_method request with
      | Some type =>
          filter (fun p => existsb (String.eqb type) (ProviderInfo.payment_methods p))
                 providers
      | None => providers
      end in
    match availableProviders with
    | [] => throw "No providers available for payment method"
    | first :: rest =>
        (* Select provider based on amount *)
        match find (in_limits amount) availableProviders with
        | Some provider => ret provider
        | None =>
            (* If no exact match, find the best fit *)
            ret (fold_left
                   (fun best current =>
                      if in_limits amount current then current
                      else if in_limits amount best then best
                      else if JS.gt (ProviderInfo.limits_max current)
                                    (ProviderInfo.limits_max best)
                           then current else best)
                   rest first)
        end
    end.

Definition generateExternalReference (provider : string) : string :=
    if String.eqb provider "stripe" then "pi_"
    else if String.eqb provider "circle" then "circle_"
    else if String.eqb provider "wire_transfer" then "wire_"
    else "txn_".

Definition getProcessingDelay (provider : string) : N :=
    if String.eqb provider "stripe" then 5000
    else if String.eqb provider "circle" then 30000
    else if String.eqb provider "wire_transfer" then 60000
    else 15000.

Definition simulateAsyncProcessing (transactionId : Id) (provider : ProviderInfo.t)
    : M unit :=
    let delay := getProcessingDelay (ProviderInfo.provider provider) in
    setTimeout (JResolve transactionId (ProviderInfo.success_rate provider)) delay ;;;
    ret tt.

Definition processUSDCollection (request : OnrampRequest.t)
    : M SettlementResponse.t :=
    validateRequest request ;;;
    provider <- selectProvider request ;;
    validateAmount (OnrampRequest.amount request) provider ;;;
    let externalReference := generateExternalReference (ProviderInfo.provider provider) in
    transactionId <- uuidv4 ;;
    now <- gets CURRENT_TIMESTAMP ;;
    Database.insert_transaction
      (Transaction.mk transactionId (Some (OnrampRequest.payment_id request))
         TransactionType.ONRAMP (OnrampRequest.amount request)
         (OnrampRequest.currency request) TransactionStatus.PROCESSING
         externalReference (ProviderInfo.provider provider) now now) ;;;
    simulateAsyncProcessing transactionId provider ;;;
    ret (SettlementResponse.mk transactionId externalReference
           TransactionStatus.PROCESSING (OnrampRequest.amount request)
           (OnrampRequest.currency request) (ProviderInfo.provider provider)).

  (** Only the [status] of the answer is read by the callers. *)
Definition getTransactionStatus (transactionId : Id) : M (option Transaction.t) :=
    Database.select_transaction transactionId.

  (** Cancel a transaction (if still processing). *)
Definition cancelTransaction (transactionId : Id) : M bool :=
    transaction <- getTransactionStatus transactionId ;;
    match transaction with
    | None => ret false
    | Some transaction =>
        if negb (TransactionStatus.eqb (Transaction.status transaction)
                                       TransactionStatus.PROCESSING)
        then ret false
        else
          now <- gets CURRENT_TIMESTAMP ;;
          Database.update_transaction transactionId
            (Transaction.with_status TransactionStatus.FAILED now) ;;;
          ret true
    end.

End OnrampService.

(** The callback of [simulateAsyncProcessing] (same text in both settlement
    services).  [random] is [Math.random()]; [db_ok = false] is the case where
    the [UPDATE] rejects and the callback logs the error and goes on. *)
Definition resolveTransaction (transactionId : Id) (success_rate : Q)
    (random : Q) (db_ok : bool) : M unit :=
  let isSuccess := JS.lt random success_rate in
  let status :=
    if isSuccess then TransactionStatus.COMPLETED else TransactionStatus.FAILED in
  if db_ok then
    now <- gets CURRENT_TIMESTAMP ;;
    Database.update_transaction transactionId (Transaction.with_status status now)
  else ret tt.

(* ================================================================== *)
(** ** services/offrampService.ts *)

Module OfframpProviderInfo.
Record t := mk {
    provider : string;
    name : string;
    supported_currencies : list string;
    processing_time : string;
    limits_min : Q;
    limits_max : Q;
    success_rate : Q
  }.
End OfframpProviderInfo.

Module OfframpRequest.
Record t := mk {
    payment_id : Id;
    amount : Q;
    source_currency : string;
    destination_currency : string;
    exchange_rate : Q;
    user_id : string;
    recipient_name : string;
    recipient_country : string
  }.
End OfframpRequest.

Module OfframpService.
Local Open Scope Q_scope.

Definition providers : list OfframpProviderInfo.t :=
    [ OfframpProviderInfo.mk "local_bank_network" "Local Bank Network"
        ["EUR"; "GBP"; "CAD"; "AUD"; "JPY"; "CHF"; "NOK"; "SEK"]
        "1-2 business days" 10 50000 (JS.num 0.99);
      OfframpProviderInfo.mk "swift_wire" "SWIFT Wire Transfer"
        ["EUR"; "GBP"; "USD"; "CHF"] "2-3 business days" 1000 1000000 (JS.num 0.98);
      OfframpProviderInfo.mk "digital_wallet" "Digital Wallet"
        ["INR"; "MXN"; "BRL"] "Instant to 24 hours" 1 10000 (JS.num 0.97);
      OfframpProviderInfo.mk "neobank_partner" "Neobank Partner"
        ["EUR"; "GBP"; "BRL"] "Same day" 10 100000 (JS.num 0.99);
      OfframpProviderInfo.mk "instant_payout" "Instant Payout"
        ["EUR"; "GBP"; "USD"] "Instant" 1 25000 (JS.num 0.96);
      OfframpProviderInfo.mk "crypto_payout" "Crypto Payout"
        ["BTC"; "ETH"; "USDC"; "USDT"] "5-30 minutes" 10 100000 (JS.num 0.94) ]%string.

Definition validateRequest (request : OfframpRequest.t) : M unit :=
    if JS.le (OfframpRequest.amount request) 0 then throw "Amount must be positive"
    else if String.eqb (OfframpRequest.recipient_name request) ""
    then throw "Recipient name is required"
    else if String.eqb (OfframpRequest.recipient_country request) ""
    then throw "Recipient country is required"
    else if JS.le (OfframpRequest.exchange_rate request) 0
    then throw "Exchange rate must be positive"
    else ret tt.

Definition validateAmount (amount : Q) (provider : OfframpProviderInfo.t) : M unit :=
    if JS.lt amount (OfframpProviderInfo.limits_min provider)
    then throw ("Amount must be at least the minimum for " ++ OfframpProviderInfo.name provider)
    else if JS.gt amount (OfframpProviderInfo.limits_max provider)
    then throw ("Amount cannot exceed the maximum for " ++ OfframpProviderInfo.name provider)
    else ret tt.

  (** Processing time in minutes. *)
Definition parseProcessingTime (timeString : string) : N :=
    if JS.includes timeString "Instant" then 0
    else if JS.includes timeString "Same day" then 480
    else if JS.includes timeString "1-2 business days" then 1440
    else if JS.includes timeString "2-3 business days" then 2880
    else if JS.includes timeString "5-30 minutes" then 30
    else if JS.includes timeString "24 hours" then 1440
    else 1440.

Definition selectProvider (request : OfframpRequest.t) : M OfframpProviderInfo.t :=
    let destination_currency := OfframpRequest.destination_currency request in
    let destinationAmount :=
      JS.mul (OfframpRequest.amount request) (OfframpRequest.exchange_rate request) in
    (* Filter providers that support the destination currency *)
    let availableProviders :=
      filter (fun p => existsb (String.eqb destination_currency)
                               (OfframpProviderInfo.supported_currencies p))
             providers in
    match availableProviders with
    | [] => throw ("No providers available for currency: " ++ destination_currency)
    | _ =>
        (* Find providers that can handle the amount *)
        let suitableProviders :=
          filter (fun p => JS.ge destinationAmount (OfframpProviderInfo.limits_min p) &&
                           JS.le destinationAmount (OfframpProviderInfo.limits_max p))
                 availableProviders in
        match suitableProviders with
        | [] => throw ("No providers can handle the amount for currency " ++ destination_currency)
        | first :: rest =>
            (* Select the best provider based on success rate and processing time *)
            ret (fold_left
                   (fun best current =>
                      if JS.gt (OfframpProviderInfo.success_rate current)
                               (OfframpProviderInfo.success_rate best)
                      then current
                      else if Qeq_bool (OfframpProviderInfo.success_rate current)
                                       (OfframpProviderInfo.success_rate best)
                      then
                        (* Prefer faster processing *)
                        let currentTime :=
                          parseProcessingTime (OfframpProviderInfo.processing_time current) in
                        let bestTime :=
                          parseProcessingTime (OfframpProviderInfo.processing_time best) in
                        if (currentTime <? bestTime)%N then current else best
                      else best)
                   rest first)
        end
    end.

Definition generateExternalReference (provider currency : string) : string :=
    (if String.eqb provider "local_bank_network" then "LBN" ++ currency
     else if String.eqb provider "swift_wire" then "SW"
     else if String.eqb provider "digital_wallet" then "DW_" ++ currency ++ "_"
     else if String.eqb provider "neobank_partner" then "NEO_" ++ currency ++ "_"
     else if String.eqb provider "instant_payout" then "IP_" ++ currency ++ "_"
     else if String.eqb provider "crypto_payout" then "CP_" ++ currency ++ "_"
     else "OFF")%string.

Definition getProcessingDelay (provider : string) : N :=
    if String.eqb provider "local_bank_network" then 30000
    else if String.eqb provider "swift_wire" then 60000
    else if String.eqb provider "digital_wallet" then 15000
    else if String.eqb provider "crypto_exchange" then 20000
    else if String.eqb provider "neobank_partner" then 25000
    else 30000.

Definition simulateAsyncProcessing (transactionId : Id)
      (provider : OfframpProviderInfo.t) : M unit :=
    let delay := getProcessingDelay (OfframpProviderInfo.provider provider) in
    setTimeout (JResolve transactionId (OfframpProviderInfo.success_rate provider)) delay ;;;
    ret tt.

Definition processLocalCurrencyPayout (request : OfframpRequest.t)
    : M SettlementResponse.t :=
    validateRequest request ;;;
    provider <- selectProvider request ;;
    validateAmount
      (JS.mul (OfframpRequest.amount request) (OfframpRequest.exchange_rate request))
      provider ;;;
    let externalReference :=
      generateExternalReference (OfframpProviderInfo.provider provider)
                                (OfframpRequest.destination_currency request) in
    transactionId <- uuidv4 ;;
    let destinationAmount :=
      JS.mul (OfframpRequest.amount request) (OfframpRequest.exchange_rate request) in
    now <- gets CURRENT_TIMESTAMP ;;
    Database.insert_transaction
      (Transaction.mk transactionId (Some (OfframpRequest.payment_id request))
         TransactionType.OFFRAMP destinationAmount
         (OfframpRequest.destination_currency request) TransactionStatus.PROCESSING
         externalReference (OfframpProviderInfo.provider provider) now now) ;;;
    simulateAsyncProcessing transactionId provider ;;;
    ret (SettlementResponse.mk transactionId externalReference
           TransactionStatus.PROCESSING (JS.round2 destinationAmount)
           (OfframpRequest.destination_currency request)
           (OfframpProviderInfo.provider provider)).

Definition getTransactionStatus (transactionId : Id) : M (option Transaction.t) :=
    Database.select_transaction transactionId.

  (** Cancel a transaction (if still processing). *)
Definition cancelTransaction (transactionId : Id) : M bool :=
    transaction <- getTransactionStatus transactionId ;;
    match transaction with
    | None => ret false
    | Some transaction =>
        if negb (TransactionStatus.eqb (Transaction.status transaction)
                                       TransactionStatus.PROCESSING)
        then ret false
        else
          now <- gets CURRENT_TIMESTAMP ;;
          Database.update_transaction transactionId
            (Transaction.with_status TransactionStatus.FAILED now) ;;;
          ret true
    end.

End OfframpService.

(* ================================================================== *)
(** ** services/paymentOrchestrator.ts (polling orchestrator) *)

Module PaymentOrchestrator.
Local Open Scope Q_scope.

Definition getPaymentById (paymentId : Id) : M (option Payment.t) :=
    gets (fun w => find (fun r => Payment.id r =? paymentId)%nat (payments w)).

Definition getPaymentByIdempotencyKey (idempotencyKey : string)
    : M (option Payment.t) :=
    gets (fun w =>
      find (fun r => String.eqb (Payment.idempotency_key r) idempotencyKey) (payments w)).

Definition paymentToResponse (payment : Payment.t) : M PaymentResponse.t :=
    now <- Date_now ;;
    let estimatedCompletion := (now + 2 * 60 * 60 * 1000)%N in
    ret (PaymentResponse.mk
           (Payment.id payment) (Payment.status payment)
           (Payment.source_amount payment) (Payment.source_currency payment)
           (Payment.destination_amount payment) (Payment.destination_currency payment)
           (Payment.exchange_rate payment) (Payment.fee_amount payment)
           (Payment.total_amount payment) estimatedCompletion
           (Payment.created_at payment)).

Definition getWebhookEventForStatus (status : PaymentStatus.t) : WebhookEventType.t :=
    match status with
    | PaymentStatus.PROCESSING => WebhookEventType.PAYMENT_PROCESSING
    | PaymentStatus.COMPLETED => WebhookEventType.PAYMENT_COMPLETED
    | PaymentStatus.FAILED => WebhookEventType.PAYMENT_FAILED
    | _ => WebhookEventType.PAYMENT_PROCESSING
    end.

Definition updatePaymentStatus (paymentId : Id) (status : PaymentStatus.t) : M unit :=
    now <- gets CURRENT_TIMESTAMP ;;
    Database.update_payment paymentId (Payment.with_status status now) ;;;
    (* Trigger status webhook *)
    WebhookService.scheduleWebhook paymentId (getWebhookEventForStatus status)
      (DataStatus status) ;;;
    ret tt.

Definition getCurrencyCountry (currency : string) : string :=
    let currencyToCountry : JS.Obj string :=
      [ ("EUR", "DE"); ("GBP", "GB"); ("CAD", "CA"); ("AUD", "AU");
        ("JPY", "JP"); ("INR", "IN"); ("BRL", "BR"); ("MXN", "MX") ]%string in
    WebhookService.str_or (JS.get currencyToCountry currency) "US".

  (** Registers the 5 s poll and the 30 min timer that stops it. *)
Definition monitorOnrampCompletion (paymentId onrampTransactionId : Id) : M unit :=
    checkInterval <- setInterval (JOnrampPoll paymentId onrampTransactionId) 5000 ;;
    setTimeout (JClearInterval checkInterval) (30 * 60 * 1000) ;;;
    ret tt.

Definition monitorOfframpCompletion (paymentId offrampTransactionId : Id) : M unit :=
    checkInterval <- setInterval (JOfframpPoll paymentId offrampTransactionId) 5000 ;;
    setTimeout (JClearInterval checkInterval) (2 * 60 * 60 * 1000) ;;;
    ret tt.

Definition processOfframp (paymentId : Id) : M unit :=
    try_catch
      (updatePaymentStatus paymentId PaymentStatus.OFFRAMP_PROCESSING ;;;
       payment <- getPaymentById paymentId ;;
       match payment with
       | None => throw "Payment not found"
       | Some payment =>
           let offrampRequest :=
             OfframpRequest.mk paymentId (Payment.destination_amount payment)
               "USDC" (Payment.destination_currency payment) 1
               (Payment.user_id payment)
               ("User " ++ Payment.user_id payment)
               (getCurrencyCountry (Payment.destination_currency payment)) in
           offrampResponse <- OfframpService.processLocalCurrencyPayout offrampRequest ;;
           now <- gets CURRENT_TIMESTAMP ;;
           Database.update_payment paymentId
             (Payment.with_offramp_reference
                (SettlementResponse.external_reference offrampResponse) now) ;;;
           monitorOfframpCompletion paymentId
             (SettlementResponse.transaction_id offrampResponse)
       end)
      (fun _ => updatePaymentStatus paymentId PaymentStatus.FAILED).

  (** One run of the callback given to [setInterval] in
      [monitorOnrampCompletion]; [checkInterval] is the handle it clears. *)
Definition onrampPoll (checkInterval : nat) (paymentId onrampTransactionId : Id)
    : M unit :=
    try_catch
      (onrampTransaction <- OnrampService.getTransactionStatus onrampTransactionId ;;
       match onrampTransaction with
       | None =>
           clearInterval checkInterval ;;;
           updatePaymentStatus paymentId PaymentStatus.FAILED
       | Some onrampTransaction =>
           if TransactionStatus.eqb (Transaction.status onrampTransaction)
                                    TransactionStatus.COMPLETED then
             clearInterval checkInterval ;;;
             updatePaymentStatus paymentId PaymentStatus.ONRAMP_COMPLETE ;;;
             WebhookService.scheduleWebhook paymentId WebhookEventType.ONRAMP_COMPLETED
               (DataTransaction (Transaction.id onrampTransaction)) ;;;
             processOfframp paymentId
           else if TransactionStatus.eqb (Transaction.status onrampTransaction)
                                         TransactionStatus.FAILED then
             clearInterval checkInterval ;;;
             updatePaymentStatus paymentId PaymentStatus.FAILED
           else ret tt
       end)
      (fun _ =>
         clearInterval checkInterval ;;;
         updatePaymentStatus paymentId PaymentStatus.FAILED).

Definition offrampPoll (checkInterval : nat) (paymentId offrampTransactionId : Id)
    : M unit :=
    try_catch
      (offrampTransaction <- OfframpService.getTransactionStatus offrampTransactionId ;;
       match offrampTransaction with
       | None =>
           clearInterval checkInterval ;;;
           updatePaymentStatus paymentId PaymentStatus.FAILED
       | Some offrampTransaction =>
           if TransactionStatus.eqb (Transaction.status offrampTransaction)
                                    TransactionStatus.COMPLETED then
             clearInterval checkInterval ;;;
             updatePaymentStatus paymentId PaymentStatus.COMPLETED ;;;
             WebhookService.scheduleWebhook paymentId WebhookEventType.PAYMENT_COMPLETED
               (DataTransaction (Transaction.id offrampTransaction)) ;;;
             ret tt
           else if TransactionStatus.eqb (Transaction.status offrampTransaction)
                                         TransactionStatus.FAILED then
             clearInterval checkInterval ;;;
             updatePaymentStatus paymentId PaymentStatus.FAILED
           else ret tt
       end)
      (fun _ =>
         clearInterval checkInterval ;;;
         updatePaymentStatus paymentId PaymentStatus.FAILED).

Definition processPayment (paymentId : Id) : M unit :=
    try_catch
      ((* Update status to processing *)
       updatePaymentStatus paymentId PaymentStatus.PROCESSING ;;;
       payment <- getPaymentById paymentId ;;
       match payment with
       | None => throw "Payment not found"
       | Some payment =>
           (* Step 1: Process USD collection (onramp) *)
           let onrampRequest :=
             OnrampRequest.mk paymentId (Payment.total_amount payment)
               (Payment.source_currency payment) (Payment.user_id payment)
               (Some "card"%string) in
           onrampResponse <- OnrampService.processUSDCollection onrampRequest ;;
           now <- gets CURRENT_TIMESTAMP ;;
           Database.update_payment paymentId
             (Payment.with_onramp_reference
                (SettlementResponse.external_reference onrampResponse) now) ;;;
           (* Monitor onramp completion *)
           monitorOnrampCompletion paymentId
             (SettlementResponse.transaction_id onrampResponse)
       end)
      (fun _ => updatePaymentStatus paymentId PaymentStatus.FAILED).

  (** [random] is the [Math.random()] drawn by [fetchExchangeRate] when the
      rate is not cached.  The detached call [this.processPayment(paymentId)]
      is queued as a timer that is due at once. *)
Definition createPayment (request : CreatePaymentRequest.t) (random : Q)
    : M PaymentResponse.t :=
    (* Check for existing payment with same idempotency key *)
    existingPayment <-
      getPaymentByIdempotencyKey (CreatePaymentRequest.idempotency_key request) ;;
    match existingPayment with
    | Some existingPayment => paymentToResponse existingPayment
    | None =>
        (* Validate currency support *)
        supported <-
          FeeEngine.isCurrencySupported (CreatePaymentRequest.destination_currency request) ;;
        if negb supported then
          throw ("Destination currency " ++
                 CreatePaymentRequest.destination_currency request ++ " is not supported")
        else
          (* Get current exchange rate *)
          exchangeRate <-
            ExchangeRateService.getExchangeRate
              (CreatePaymentRequest.source_currency request)
              (CreatePaymentRequest.destination_currency request) random ;;
          (* Calculate amounts and fees *)
          let destinationAmount :=
            JS.mul (CreatePaymentRequest.source_amount request) exchangeRate in
          feeCalculation <-
            FeeEngine.calculateFees (CreatePaymentRequest.destination_currency request)
                                    destinationAmount ;;
          (* Calculate total amount (source amount + fees converted back) *)
          let feeInSourceCurrency :=
            JS.div (FeeCalculation.total_fee feeCalculation) exchangeRate in
          let totalAmount :=
            JS.add (CreatePaymentRequest.source_amount request) feeInSourceCurrency in
          (* Create payment record *)
          paymentId <- uuidv4 ;;
          now <- gets CURRENT_TIMESTAMP ;;
          let payment :=
            Payment.mk paymentId
              (CreatePaymentRequest.user_id request)
              (CreatePaymentRequest.idempotency_key request)
              (CreatePaymentRequest.source_amount request)
              (CreatePaymentRequest.source_currency request)
              (JS.round2 destinationAmount)
              (CreatePaymentRequest.destination_currency request)
              exchangeRate
              PaymentStatus.PENDING
              None None
              (FeeCalculation.total_fee feeCalculation)
              (JS.round2 totalAmount)
              now now in
          Database.insert_payment payment ;;;
          (* Trigger webhook for payment creation *)
          match CreatePaymentRequest.webhook_url request with
          | Some (String c u) =>
              WebhookService.scheduleWebhook paymentId WebhookEventType.PAYMENT_CREATED
                (DataCreated payment (String c u)) ;;; ret tt
          | _ => ret tt
          end ;;;
          (* Start payment processing *)
          setTimeout (JProcessPayment paymentId) 0 ;;;
          createdPayment <- getPaymentById paymentId ;;
          match createdPayment with
          | Some createdPayment => paymentToResponse createdPayment
          | None => throw "TypeError: createdPayment is undefined"
          end
    end.

Definition cancelPayment (paymentId : Id) : M bool :=
    payment <- getPaymentById paymentId ;;
    match payment with
    | None => ret false
    | Some payment =>
        if PaymentStatus.eqb (Payment.status payment) PaymentStatus.COMPLETED ||
           PaymentStatus.eqb (Payment.status payment) PaymentStatus.FAILED
        then ret false
        else
          updatePaymentStatus paymentId PaymentStatus.CANCELLED ;;;
          ret true
    end.






  (** Fee estimate for a potential payment. *)
Definition getFeeEstimate (sourceAmount : Q)
      (sourceCurrency destinationCurrency : string) (random : Q) : M FeeEstimate.t :=
    exchangeRate <-
      ExchangeRateService.getExchangeRate sourceCurrency destinationCurrency random ;;
    FeeEngine.getFeeEstimate sourceAmount sourceCurrency destinationCurrency
      exchangeRate.

End PaymentOrchestrator.

(* ================================================================== *)
(** ** The event loop

    An execution is a sequence of events: calls of the public API, timers
    that fire when due, answers to the webhook requests on the wire, and the
    passing of time.  Time may not pass beyond a timer that is due. *)

Inductive Event :=
| ECreatePayment (request : CreatePaymentRequest.t) (random : Q)
| ECancelPayment (paymentId : Id)
| ERetryWebhook (webhookId : Id) (newUrl : option string)
| ETimer (handle : nat) (random : Q) (db_ok : bool)
| EResponse (index : nat) (ok : bool)
| EWait (dt : N).

Definition runJob (handle : nat) (j : Job) (random : Q) (db_ok : bool) : M unit :=
  match j with
  | JProcessPayment paymentId => PaymentOrchestrator.processPayment paymentId
  | JOnrampPoll paymentId tx => PaymentOrchestrator.onrampPoll handle paymentId tx
  | JOfframpPoll paymentId tx => PaymentOrchestrator.offrampPoll handle paymentId tx
  | JClearInterval checkInterval => clearInterval checkInterval
  | JResolve tx success_rate => resolveTransaction tx success_rate random db_ok
  | JWebhookRetry webhookId url => WebhookService.sendWebhookAsync webhookId url
  end.

(** A one-shot timer leaves the queue when it fires; an interval is re-armed
    one period later (its callback may still clear it). *)
Definition rearm (t : Timer.t) (ts : list Timer.t) : list Timer.t :=
  match Timer.period t with
  | Some p =>
      map (fun x => if Timer.id x =? Timer.id t
                    then Timer.mk (Timer.id x) (Timer.due x + p)%N (Timer.period x) (Timer.job x)
                    else x) ts
  | None => filter (fun x => negb (Timer.id x =? Timer.id t)) ts
  end.

Definition fireTimer (handle : nat) (random : Q) (db_ok : bool) (w : World)
  : option World :=
  match find (fun t => Timer.id t =? handle) (timers w) with
  | None => None
  | Some t =>
      if (Timer.due t <=? clock w)%N
      then Some (exec (runJob handle (Timer.job t) random db_ok)
                      (set_timers (rearm t (timers w)) w))
      else None
  end.

Fixpoint remove_nth {A} (n : nat) (l : list A) : list A :=
  match n, l with
  | _, [] => []
  | O, _ :: r => r
  | S n', x :: r => x :: remove_nth n' r
  end.

Definition fire (e : Event) (w : World) : option World :=
  match e with
  | ECreatePayment request random =>
      Some (exec (PaymentOrchestrator.createPayment request random) w)
  | ECancelPayment paymentId =>
      Some (exec (PaymentOrchestrator.cancelPayment paymentId) w)
  | ERetryWebhook webhookId newUrl =>
      Some (exec (WebhookService.retryWebhook webhookId newUrl) w)
  | ETimer handle random db_ok => fireTimer handle random db_ok w
  | EResponse index ok =>
      match nth_error (inflight w) index with
      | Some r =>
          Some (exec (WebhookService.onResponse r ok)
                     (set_inflight (remove_nth index (inflight w)) w))
      | None => None
      end
  | EWait dt =>
      if forallb (fun t => (clock w + dt <=? Timer.due t)%N) (timers w)
      then Some (set_clock (clock w + dt)%N w)
      else None
  end.

Fixpoint run (es : list Event) (w : World) : option World :=
  match es with
  | [] => Some w
  | e :: rest =>
      match fire e w with
      | Some w' => run rest w'
      | None => None
      end
  end.

(** The server after start-up: empty tables except the default fee
    schedules, the rate table after the constructor, nothing queued. *)
Definition initialWorld : World :=
  mkWorld 0 0 [] defaultFeeConfigs [] [] [] ExchangeRateService.initialRates
          [] 0 [] None.

Definition reachable (w : World) : Prop :=
  exists es, run es initialWorld = Some w.

(** *** Calls of [cancelPayment] suspended at their [await]

    [cancelPayment] reads the row, awaits the answer, and then updates the
    status without reading again.  Other handlers can run between the two.
    In the schedules below a call is split there: [SCancelRead] runs it up
    to the decision taken on the row it has read, [SCancelWrite] runs the
    rest of a call that has decided to go on.  The state of a schedule is
    the world together with the payments of the calls that are suspended
    between the two. *)

Module Suspended.

  (** [cancelPayment] up to its decision: [true] when the call goes on to
      the update. *)
Definition cancelPayment_read (paymentId : Id) : M bool :=
    payment <- PaymentOrchestrator.getPaymentById paymentId ;;
    match payment with
    | None => ret false
    | Some payment =>
        if PaymentStatus.eqb (Payment.status payment) PaymentStatus.COMPLETED ||
           PaymentStatus.eqb (Payment.status payment) PaymentStatus.FAILED
        then ret false
        else ret true
    end.

  (** The rest of [cancelPayment] after the decision to go on. *)
Definition cancelPayment_write (paymentId : Id) : M bool :=
    PaymentOrchestrator.updatePaymentStatus paymentId PaymentStatus.CANCELLED ;;;
    ret true.

Inductive Step :=
  | SEvent (e : Event)
  | SCancelRead (paymentId : Id)
  | SCancelWrite (paymentId : Id).

Definition State : Type := World * list Id.

Fixpoint remove_first (i : Id) (l : list Id) : list Id :=
    match l with
    | [] => []
    | j :: rest => if j =? i then rest else j :: remove_first i rest
    end.

Definition step (s : Step) (st : State) : option State :=
    match s with
    | SEvent e =>
        match fire e (fst st) with
        | Some w' => Some (w', snd st)
        | None => None
        end
    | SCancelRead paymentId =>
        match cancelPayment_read paymentId (fst st) with
        | (Ok true, w') => Some (w', paymentId :: snd st)
        | (_, w') => Some (w', snd st)
        end
    | SCancelWrite paymentId =>
        if existsb (Nat.eqb paymentId) (snd st)
        then Some (exec (cancelPayment_write paymentId) (fst st),
                   remove_first paymentId (snd st))
        else None
    end.

Fixpoint steps (ss : list Step) (st : State) : option State :=
    match ss with
    | [] => Some st
    | s :: rest =>
        match step s st with
        | Some st' => steps rest st'
        | None => None
        end
    end.

Definition reachable (st : State) : Prop :=
    exists ss, steps ss (initialWorld, []) = Some st.

End Suspended.

(* ================================================================== *)
(** ** temporal/activities/paymentActivities.ts and
       temporal/workflows/paymentWorkflow.ts

    Activities run in the worker's event loop.  While an activity sleeps
    between two polls the loop runs other handlers: [sched t] lists the
    events it runs during a sleep that starts at time [t].  Retries and
    time-outs imposed on activities by the Temporal server are not part of
    the model. *)

Module PaymentWorkflowInput.
Record t := mk {
    paymentId : Id;
    userId : string;
    idempotencyKey : string;
    sourceAmount : Q;
    sourceCurrency : string;
    destinationCurrency : string;
    webhookUrl : option string
  }.
End PaymentWorkflowInput.

Module PaymentWorkflowResult.
Record t := mk {
    success : bool;
    paymentId : Id;
    status : PaymentStatus.t;
    error : option string
  }.
End PaymentWorkflowResult.

Module FeeCalculationResult.
Record t := mk {
    destinationAmount : Q;
    exchangeRate : Q;
    feeAmount : Q;
    totalAmount : Q
  }.
End FeeCalculationResult.

(** Textual form of a uuid handle. *)
Definition uuid_string (n : Id) : string := NilEmpty.string_of_uint (Nat.to_uint n).

Module Temporal.
Section Activities.
Local Open Scope Q_scope.

Variable sched : N -> list Event.

  (** [await new Promise(resolve => setTimeout(resolve, ms))] *)
Definition sleep (ms : N) : M unit :=
    fun w =>
      let w' := match run (sched (clock w)) w with Some w' => w' | None => w end in
      (Ok tt, set_clock (N.max (clock w') (clock w + ms)) w').

Definition validatePaymentRequest (input : PaymentWorkflowInput.t) : M unit :=
    (* Check for existing payment with same idempotency key *)
    existingPayment <-
      PaymentOrchestrator.getPaymentByIdempotencyKey
        (PaymentWorkflowInput.idempotencyKey input) ;;
    match existingPayment with
    | Some _ =>
        throw ("Payment with idempotency key " ++
               PaymentWorkflowInput.idempotencyKey input ++ " already exists")
    | None =>
        supported <-
          FeeEngine.isCurrencySupported (PaymentWorkflowInput.destinationCurrency input) ;;
        if negb supported then
          throw ("Destination currency " ++
                 PaymentWorkflowInput.destinationCurrency input ++ " is not supported")
        else if JS.le (PaymentWorkflowInput.sourceAmount input) 0 then
          throw "Source amount must be greater than 0"
        else if String.eqb (PaymentWorkflowInput.sourceCurrency input)
                           (PaymentWorkflowInput.destinationCurrency input) then
          throw "Source and destination currencies must be different"
        else ret tt
    end.

Definition calculateFeesAndExchangeRate (input : PaymentWorkflowInput.t) (random : Q)
    : M FeeCalculationResult.t :=
    let paymentId := PaymentWorkflowInput.paymentId input in
    let sourceAmount := PaymentWorkflowInput.sourceAmount input in
    exchangeRate <-
      ExchangeRateService.getExchangeRate
        (PaymentWorkflowInput.sourceCurrency input)
        (PaymentWorkflowInput.destinationCurrency input) random ;;
    let destinationAmount := JS.mul sourceAmount exchangeRate in
    feeCalculation <-
      FeeEngine.calculateFees (PaymentWorkflowInput.destinationCurrency input)
                              destinationAmount ;;
    let feeInSourceCurrency :=
      JS.div (FeeCalculation.total_fee feeCalculation) exchangeRate in
    let totalAmount := JS.add sourceAmount feeInSourceCurrency in
    now <- gets CURRENT_TIMESTAMP ;;
    Database.insert_payment
      (Payment.mk paymentId
         ("user_" ++ uuid_string paymentId)
         (uuid_string paymentId)
         sourceAmount
         (PaymentWorkflowInput.sourceCurrency input)
         (JS.round2 destinationAmount)
         (PaymentWorkflowInput.destinationCurrency input)
         exchangeRate
         PaymentStatus.PENDING None None
         (FeeCalculation.total_fee feeCalculation)
         (JS.round2 totalAmount) now now) ;;;
    ret (FeeCalculationResult.mk (JS.round2 destinationAmount) exchangeRate
           (FeeCalculation.total_fee feeCalculation) (JS.round2 totalAmount)).

Definition processOnramp (paymentId : Id) (userId : string) (amount : Q)
      (currency : string) : M SettlementResponse.t :=
    let onrampRequest :=
      OnrampRequest.mk paymentId amount currency userId (Some "card"%string) in
    onrampResponse <- OnrampService.processUSDCollection onrampRequest ;;
    now <- gets CURRENT_TIMESTAMP ;;
    Database.update_payment paymentId
      (Payment.with_onramp_reference
         (SettlementResponse.external_reference onrampResponse) now) ;;;
    ret onrampResponse.

Definition processOfframp (paymentId : Id) (userId : string) (amount : Q)
      (sourceCurrency destinationCurrency : string)
      (recipientName recipientCountry : string) : M SettlementResponse.t :=
    let offrampRequest :=
      OfframpRequest.mk paymentId amount sourceCurrency destinationCurrency 1
        userId recipientName recipientCountry in
    offrampResponse <- OfframpService.processLocalCurrencyPayout offrampRequest ;;
    now <- gets CURRENT_TIMESTAMP ;;
    Database.update_payment paymentId
      (Payment.with_offramp_reference
         (SettlementResponse.external_reference offrampResponse) now) ;;;
    ret offrampResponse.

  (** The [while (Date.now() - startTime < timeoutMs)] loop of both monitors;
      [fuel] bounds the number of iterations. *)
Fixpoint monitorLoop (fuel : nat) (what : string) (startTime timeoutMs : N)
      (transactionId : Id) : M bool :=
    match fuel with
    | O => throw "monitorLoop: out of fuel"
    | S fuel' =>
        now <- Date_now ;;
        if (now - startTime <? timeoutMs)%N then
          transaction <- Database.select_transaction transactionId ;;
          match transaction with
          | None =>
              throw (what ++ " transaction " ++ uuid_string transactionId ++ " not found")
          | Some transaction =>
              if TransactionStatus.eqb (Transaction.status transaction)
                                       TransactionStatus.COMPLETED then ret true
              else if TransactionStatus.eqb (Transaction.status transaction)
                                            TransactionStatus.FAILED then
                throw (what ++ " transaction " ++ uuid_string transactionId ++ " failed")
              else
                (* Wait 5 seconds before next check *)
                sleep 5000 ;;;
                monitorLoop fuel' what startTime timeoutMs transactionId
          end
        else ret false (* Timeout *)
    end.

  (** One more iteration than the time-out has room for. *)
Definition enoughFuel (timeoutMs : N) : nat := S (S (N.to_nat (timeoutMs / 5000))).

Definition monitorOnrampStatus (paymentId transactionId : Id) (timeoutMinutes : N)
    : M bool :=
    startTime <- Date_now ;;
    let timeoutMs := (timeoutMinutes * 60 * 1000)%N in
    monitorLoop (enoughFuel timeoutMs) "Onramp" startTime timeoutMs transactionId.

Definition monitorOfframpStatus (paymentId transactionId : Id) (timeoutMinutes : N)
    : M bool :=
    startTime <- Date_now ;;
    let timeoutMs := (timeoutMinutes * 60 * 1000)%N in
    monitorLoop (enoughFuel timeoutMs) "Offramp" startTime timeoutMs transactionId.

  (** The activity [updatePaymentStatus] writes the row and nothing else. *)
Definition updatePaymentStatus (paymentId : Id) (status : PaymentStatus.t) : M unit :=
    now <- gets CURRENT_TIMESTAMP ;;
    Database.update_payment paymentId (Payment.with_status status now).

Definition sendWebhook (paymentId : Id) (eventType : WebhookEventType.t)
      (payload : WebhookData) : M unit :=
    WebhookService.scheduleWebhook paymentId eventType payload ;;; ret tt.

Definition handlePaymentFailure (paymentId : Id) (error : string)
      (webhookUrl : option string) : M unit :=
    (* Update payment status to failed *)
    updatePaymentStatus paymentId PaymentStatus.FAILED ;;;
    (* Send failure webhook if URL provided *)
    match webhookUrl with
    | Some (String c u) =>
        sendWebhook paymentId WebhookEventType.PAYMENT_FAILED
          (DataFailure error PaymentStatus.FAILED (String c u))
    | _ => ret tt
    end.

Definition cleanupPayment (paymentId : Id) : M unit := ret tt.

  (** [if (webhookUrl) await sendWebhook(...)] *)
Definition notify (webhookUrl : option string) (paymentId : Id)
      (eventType : WebhookEventType.t) (status : PaymentStatus.t)
      (transactionId : option Id) : M unit :=
    match webhookUrl with
    | Some (String c u) =>
        sendWebhook paymentId eventType (DataStatusUrl status transactionId (String c u))
    | _ => ret tt
    end.

Definition paymentWorkflow (input : PaymentWorkflowInput.t) (random : Q)
    : M PaymentWorkflowResult.t :=
    let paymentId := PaymentWorkflowInput.paymentId input in
    let userId := PaymentWorkflowInput.userId input in
    let destinationCurrency := PaymentWorkflowInput.destinationCurrency input in
    let webhookUrl := PaymentWorkflowInput.webhookUrl input in
    finally
      (try_catch
         ((* Step 1: Validate payment request *)
          validatePaymentRequest input ;;;
          (* Step 2: Calculate fees and exchange rate *)
          feeCalculation <- calculateFeesAndExchangeRate input random ;;
          (* Step 3: Update status to processing *)
          updatePaymentStatus paymentId PaymentStatus.PROCESSING ;;;
          notify webhookUrl paymentId WebhookEventType.PAYMENT_PROCESSING
                 PaymentStatus.PROCESSING None ;;;
          (* Step 4: Process onramp (USD collection) *)
          onrampResult <-
            processOnramp paymentId userId
              (FeeCalculationResult.totalAmount feeCalculation)
              (PaymentWorkflowInput.sourceCurrency input) ;;
          (* Step 5: Monitor onramp completion with timeout *)
          onrampCompleted <-
            monitorOnrampStatus paymentId
              (SettlementResponse.transaction_id onrampResult) 30 ;;
          if negb onrampCompleted then throw "Onramp processing timed out"
          else
            (* Step 6: Update status to onramp complete *)
            updatePaymentStatus paymentId PaymentStatus.ONRAMP_COMPLETE ;;;
            notify webhookUrl paymentId WebhookEventType.ONRAMP_COMPLETED
                   PaymentStatus.ONRAMP_COMPLETE
                   (Some (SettlementResponse.transaction_id onrampResult)) ;;;
            (* Step 7: Process offramp (stablecoin to local currency) *)
            offrampResult <-
              processOfframp paymentId userId
                (FeeCalculationResult.destinationAmount feeCalculation)
                "USDC" destinationCurrency
                ("User " ++ userId)
                (PaymentOrchestrator.getCurrencyCountry destinationCurrency) ;;
            (* Step 8: Monitor offramp completion with timeout *)
            offrampCompleted <-
              monitorOfframpStatus paymentId
                (SettlementResponse.transaction_id offrampResult) 120 ;;
            if negb offrampCompleted then throw "Offramp processing timed out"
            else
              (* Step 9: Update status to completed *)
              updatePaymentStatus paymentId PaymentStatus.COMPLETED ;;;
              notify webhookUrl paymentId WebhookEventType.PAYMENT_COMPLETED
                     PaymentStatus.COMPLETED
                     (Some (SettlementResponse.transaction_id offrampResult)) ;;;
              ret (PaymentWorkflowResult.mk true paymentId PaymentStatus.COMPLETED None))
         (fun error =>
            (* Handle payment failure *)
            handlePaymentFailure paymentId error webhookUrl ;;;
            ret (PaymentWorkflowResult.mk false paymentId PaymentStatus.FAILED
                   (Some error))))
      ((* Cleanup any resources *)
       cleanupPayment paymentId).

End Activities.
End Temporal.

(* ================================================================== *)
(** ** Notions used in the statements *)

Module Spec.
Local Open Scope Q_scope.

  (** [clamp(x, min_fee, max_fee)], the upper bound being optional. *)
Definition clamp (x lo : Q) (hi : option Q) : Q :=
    match hi with
    | Some h => Qmin (Qmax x lo) h
    | None => Qmax x lo
    end.



  (** The upper bound [calculateFees] applies: [maximum_fee] when it is
      present and truthy. *)
Definition effective_maximum (cfg : FeeConfig.t) : option Q :=
    match FeeConfig.maximum_fee cfg with
    | Some m => if JS.truthy m then Some m else None
    | None => None
    end.

  (** No usable rate between [c] and USD in the table, in either direction. *)
Definition no_usd_leg (rates : JS.Obj (JS.Obj Q)) (c : string) : Prop :=
    JS.get2 rates c "USD" = None /\ JS.get2 rates "USD" c = None.

  (** No rate between the two currencies can be crossed via USD: one of them
      is USD itself, or one of them has no rate against USD. *)
Definition no_cross_rate (rates : JS.Obj (JS.Obj Q)) (src dst : string) : Prop :=
    src = "USD"%string \/ dst = "USD"%string \/
    no_usd_leg rates src \/ no_usd_leg rates dst.

  (** The base rate such a pair gets: the one leg that is configured, if
      any, and 1 otherwise. *)
Definition fallback_rate (rates : JS.Obj (JS.Obj Q)) (src dst : string) : Q :=
    if String.eqb src "USD" || String.eqb dst "USD" then 1
    else
      match JS.get2 rates src "USD", JS.get2 rates "USD" dst with
      | Some a, None => a
      | None, Some b => b
      | _, _ => 1
      end.


  (** [Math.random()] returns a number in [0, 1). *)
Definition is_random (u : Q) : Prop := 0 <= u /\ u < 1.

  (** The two conservation equations of a payment row, as the code
      evaluates them. *)
Definition conserved (p : Payment.t) : Prop :=
    Payment.destination_amount p ==
      JS.round2 (JS.mul (Payment.source_amount p) (Payment.exchange_rate p)) /\
    Payment.total_amount p ==
      JS.round2 (JS.add (Payment.source_amount p)
                        (JS.div (Payment.fee_amount p) (Payment.exchange_rate p))).
End Spec.

(** *** Hoare triples over [M] *)

Definition triple {A} (P : World -> Prop) (m : M A)
    (Q : Result A -> World -> Prop) : Prop :=
  forall w, P w -> Q (fst (m w)) (snd (m w)).

(** [m] keeps [P], whatever it returns. *)
Definition preserves {A} (P : World -> Prop) (m : M A) : Prop :=
  forall w, P w -> P (snd (m w)).

(** [m] keeps [P] and, when it returns normally, its result satisfies [R]. *)
Definition yields {A} (P : World -> Prop) (m : M A) (R : A -> World -> Prop) : Prop :=
  forall w, P w ->
    P (snd (m w)) /\
    match fst (m w) with Ok a => R a (snd (m w)) | Throw _ => True end.

(** *** Predicates on the world *)

(** The payment found under idempotency key [k] has id [i]. *)
Definition key_id (k : string) (i : Id) (w : World) : Prop :=
  exists p,
    find (fun r => String.eqb (Payment.idempotency_key r) k) (payments w) = Some p /\
    Payment.id p = i.

Definition all_conserved (w : World) : Prop := Forall Spec.conserved (payments w).

(** Every payment id was drawn from the uuid supply. *)
Definition ids_drawn (w : World) : Prop :=
  Forall (fun p => Payment.id p < uuid_next w) (payments w).

(** An update that leaves the identity and the amounts of a row alone. *)
Definition keeps (f : Payment.t -> Payment.t) : Prop :=
  forall p,
    Payment.id (f p) = Payment.id p /\
    Payment.idempotency_key (f p) = Payment.idempotency_key p /\
    Payment.source_amount (f p) = Payment.source_amount p /\
    Payment.destination_amount (f p) = Payment.destination_amount p /\
    Payment.exchange_rate (f p) = Payment.exchange_rate p /\
    Payment.fee_amount (f p) = Payment.fee_amount p /\
    Payment.total_amount (f p) = Payment.total_amount p.

(** The status stored for a payment. *)
Definition status_of (paymentId : Id) (w : World) : option PaymentStatus.t :=
  option_map Payment.status (find (fun r => Payment.id r =? paymentId) (payments w)).

(** The request of scenario A. *)
Definition scenarioA (user key : string) (url : option string)
  : CreatePaymentRequest.t :=
  CreatePaymentRequest.mk user key 100 "USD" "EUR" url.

(** The row [createPayment] inserts for a new idempotency key. *)
Definition new_payment (request : CreatePaymentRequest.t) (rate : Q)
    (cfg : FeeConfig.t) (paymentId : Id) (now : N) : Payment.t :=
  let destinationAmount := JS.mul (CreatePaymentRequest.source_amount request) rate in
  let fee := FeeEngine.totalFee cfg destinationAmount in
  Payment.mk paymentId
    (CreatePaymentRequest.user_id request)
    (CreatePaymentRequest.idempotency_key request)
    (CreatePaymentRequest.source_amount request)
    (CreatePaymentRequest.source_currency request)
    (JS.round2 destinationAmount)
    (CreatePaymentRequest.destination_currency request)
    rate PaymentStatus.PENDING None None fee
    (JS.round2 (JS.add (CreatePaymentRequest.source_amount request) (JS.div fee rate)))
    now now.

(** The projection [paymentToResponse] returns at time [now]. *)
Definition response_of (p : Payment.t) (now : N) : PaymentResponse.t :=
  PaymentResponse.mk (Payment.id p) (Payment.status p)
    (Payment.source_amount p) (Payment.source_currency p)
    (Payment.destination_amount p) (Payment.destination_currency p)
    (Payment.exchange_rate p) (Payment.fee_amount p) (Payment.total_amount p)
    (now + 2 * 60 * 60 * 1000)%N (Payment.created_at p).

(** After [m] started in a world satisfying [P], the world satisfies [Q]
    (whether [m] returned or threw). *)
Definition hoare {A} (P : World -> Prop) (m : M A) (Q : World -> Prop) : Prop :=
  forall w, P w -> Q (snd (m w)).

(** [ids_drawn] together with a list of handles known to have been drawn. *)
Definition ids_tracked (tracked : list Id) (w : World) : Prop :=
  ids_drawn w /\ Forall (fun a => a < uuid_next w) tracked.

(** The world after scenario A's request has been accepted at start-up, with
    no jitter on the rate ([Math.random() = 0.5]). *)
Definition after_scenarioA : World :=
  exec (PaymentOrchestrator.createPayment (scenarioA "u1" "key-1" None) 0.5%Q)
       initialWorld.

(** ... and after that payment has been cancelled once. *)
Definition cancelled_once : World :=
  exec (PaymentOrchestrator.cancelPayment 0) after_scenarioA.

(** *** Flows

    The processing of a payment is carried by one job at a time: the detached
    [processPayment], then the onramp poll, then the offramp poll. *)

Definition flow_job_for (paymentId : Id) (j : Job) : bool :=
  match j with
  | JProcessPayment p | JOnrampPoll p _ | JOfframpPoll p _ => p =? paymentId
  | JClearInterval _ | JResolve _ _ | JWebhookRetry _ _ => false
  end.

Definition no_flow (paymentId : Id) (w : World) : Prop :=
  forallb (fun t => negb (flow_job_for paymentId (Timer.job t))) (timers w) = true.

Definition offramp_for (paymentId : Id) (x : Transaction.t) : bool :=
  TransactionType.eqb (Transaction.type x) TransactionType.OFFRAMP &&
  match Transaction.payment_id x with Some q => q =? paymentId | None => false end.

(** No offramp settlement transaction exists for the payment. *)
Definition no_offramp (paymentId : Id) (w : World) : Prop :=
  forallb (fun x => negb (offramp_for paymentId x)) (transactions w) = true.

(** Nothing is in flight for the payment, whose status is [s]. *)
Definition quiet (paymentId : Id) (s : PaymentStatus.t) (w : World) : Prop :=
  paymentId < uuid_next w /\
  no_flow paymentId w /\
  no_offramp paymentId w /\
  status_of paymentId w = Some s.

Definition terminal (s : PaymentStatus.t) : Prop :=
  s = PaymentStatus.COMPLETED \/ s = PaymentStatus.FAILED.

(** An update of a transaction row that keeps its leg and its payment. *)
Definition keeps_leg (f : Transaction.t -> Transaction.t) : Prop :=
  forall x,
    Transaction.type (f x) = Transaction.type x /\
    Transaction.payment_id (f x) = Transaction.payment_id x.

(** *** Two executions *)

(** Scenario A is accepted and processed; the provider's resolution after
    5 s is lost (its [UPDATE] fails and the callback only logs the error), so
    the onramp transaction stays [processing]; the poll runs every 5 s until,
    at 30 min, the timer clears it. *)
Definition stuck_onramp_trace : list Event :=
  [ ECreatePayment (scenarioA "u1" "key-1" None) 0.5%Q;
    ETimer 0 0%Q true;
    EWait 5000; ETimer 1 0.5%Q false; ETimer 2 0%Q true ]
  ++ concat (repeat [EWait 5000; ETimer 2 0%Q true] 359)
  ++ [ ETimer 3 0%Q true ].

(** Scenario A is accepted and processed, the payment is cancelled, and the
    provider then resolves the onramp transaction to [completed]. *)
Definition cancel_trace : list Event :=
  [ ECreatePayment (scenarioA "u1" "key-1" None) 0.5%Q;
    ETimer 0 0%Q true;
    ECancelPayment 0;
    EWait 5000; ETimer 1 0.5%Q true ].

(** ... after which the polls run on until the payout has resolved. *)
Definition cancel_trace_rest : list Event :=
  [ ETimer 2 0%Q true ]
  ++ concat (repeat [EWait 5000; ETimer 5 0%Q true] 4)
  ++ [ EWait 5000; ETimer 4 0.5%Q true; ETimer 5 0%Q true ].

Definition world_after (es : list Event) : World :=
  match run es initialWorld with Some w => w | None => initialWorld end.

(** *** Webhook deliveries *)

Definition retry_for (webhookId : Id) (t : Timer.t) : bool :=
  match Timer.job t with
  | JWebhookRetry x _ => x =? webhookId
  | _ => false
  end.

Definition request_for (webhookId : Id) (r : Request.t) : bool :=
  Request.webhookId r =? webhookId.

(** Attempts under way or scheduled for a delivery: requests on the wire
    plus retries waiting for their delay. *)
Definition outstanding (webhookId : Id) (w : World) : nat :=
  length (filter (request_for webhookId) (inflight w)) +
  length (filter (retry_for webhookId) (timers w)).

Definition delivery_ok (w : World) (x : Webhook.t) : Prop :=
  Webhook.retry_count x <= 4 /\
  match Webhook.status x with
  | WebhookStatus.PENDING =>
      outstanding (Webhook.id x) w <= 1 /\ Webhook.retry_count x <= 3
  | WebhookStatus.SENT => outstanding (Webhook.id x) w = 0
  | WebhookStatus.FAILED =>
      outstanding (Webhook.id x) w = 0 /\ Webhook.retry_count x = 4
  end.

Definition is_retry (j : Job) : bool :=
  match j with JWebhookRetry _ _ => true | _ => false end.

Definition deliveries_ok (w : World) : Prop :=
  (forall x, In x (webhooks w) -> Webhook.id x < uuid_next w /\ delivery_ok w x) /\
  (forall wid, uuid_next w <= wid -> outstanding wid w = 0) /\
  (forall t, In t (timers w) -> is_retry (Timer.job t) = true -> Timer.period t = None).

Definition manual_retry (e : Event) : bool :=
  match e with ERetryWebhook _ _ => true | _ => false end.

(** A payment that cannot be collected (20 000 USD is above the card
    provider's limit) is created and fails at once; the webhook announcing
    [payment.processing] is then refused four times, each retry running
    after its delay. *)
Definition refused_webhook_trace : list Event :=
  [ ECreatePayment (CreatePaymentRequest.mk "u1" "key-1" 20000 "USD" "EUR" None) 0.5%Q;
    ETimer 0 0%Q true;
    EResponse 0 false; EWait 5000; ETimer 1 0%Q true;
    EResponse 1 false; EWait 15000; ETimer 2 0%Q true;
    EResponse 1 false; EWait 60000; ETimer 3 0%Q true;
    EResponse 1 false ].

(** *** The flow invariant *)

Definition flow_timer (paymentId : Id) (t : Timer.t) : bool :=
  flow_job_for paymentId (Timer.job t).

Definition flow_count (paymentId : Id) (w : World) : nat :=
  length (filter (flow_timer paymentId) (timers w)).

(** Jobs of the stages that precede the payout. *)
Definition early_job (paymentId : Id) (j : Job) : bool :=
  match j with
  | JProcessPayment p | JOnrampPoll p _ => p =? paymentId
  | JOfframpPoll _ _ | JClearInterval _ | JResolve _ _ | JWebhookRetry _ _ => false
  end.

(** The detached call of [processPayment] runs once. *)
Definition one_shot_ok (t : Timer.t) : Prop :=
  match Timer.job t with
  | JProcessPayment _ => Timer.period t = None
  | _ => True
  end.

(** At most one job carries a payment; while it is in a stage before the
    payout the payment has no offramp transaction; handles not yet drawn have
    neither jobs nor offramp transactions. *)
Definition flows_ok (w : World) : Prop :=
  (forall pid, flow_count pid w <= 1) /\
  (forall t pid, In t (timers w) -> early_job pid (Timer.job t) = true ->
                 no_offramp pid w) /\
  (forall pid, uuid_next w <= pid -> no_flow pid w /\ no_offramp pid w) /\
  (forall t, In t (timers w) -> one_shot_ok t).

(** [flows_ok] while a handler runs on behalf of payment [q], whose own job
    is not in the queue; [early] tells that the payout has not started. *)
Definition flows_ok_at (st : option (Id * bool)) (w : World) : Prop :=
  flows_ok w /\
  match st with
  | None => True
  | Some (q, early) =>
      no_flow q w /\ q < uuid_next w /\ (early = true -> no_offramp q w)
  end.

(** [flows_ok] when the job of timer [handle] starts to run for payment [q]
    in a stage before the payout: every job of [q] still queued is that
    timer. *)
Definition flows_ok_own (handle : nat) (q : Id) (w : World) : Prop :=
  flows_ok w /\ q < uuid_next w /\ no_offramp q w /\
  forall t, In t (timers w) -> flow_timer q t = true -> Timer.id t = handle.

(** *** A failed collection *)

(** Scenario A is accepted and processed; after 5 s the provider resolves the
    onramp transaction to [failed] ([Math.random() = 0.99], above the
    provider's success rate). *)
Definition failed_onramp_trace : list Event :=
  [ ECreatePayment (scenarioA "u1" "key-1" None) 0.5%Q;
    ETimer 0 0%Q true;
    EWait 5000; ETimer 1 0.99%Q true ].

(** *** Payout providers *)

(** The provider can pay out [amount] in [currency]. *)
Definition suits (currency : string) (amount : Q) (p : OfframpProviderInfo.t) : bool :=
  existsb (String.eqb currency) (OfframpProviderInfo.supported_currencies p) &&
  (JS.ge amount (OfframpProviderInfo.limits_min p) &&
   JS.le amount (OfframpProviderInfo.limits_max p)).

(** The callback of the [reduce] in [OfframpService.selectProvider]. *)
Definition better (best current : OfframpProviderInfo.t) : OfframpProviderInfo.t :=
  if JS.gt (OfframpProviderInfo.success_rate current)
           (OfframpProviderInfo.success_rate best)
  then current
  else if Qeq_bool (OfframpProviderInfo.success_rate current)
                   (OfframpProviderInfo.success_rate best)
  then
    if (OfframpService.parseProcessingTime (OfframpProviderInfo.processing_time current) <?
        OfframpService.parseProcessingTime (OfframpProviderInfo.processing_time best))%N
    then current else best
  else best.

(** *** What is fixed when a payment is created *)

Definition same_terms (p q : Payment.t) : Prop :=
  Payment.id q = Payment.id p /\
  Payment.idempotency_key q = Payment.idempotency_key p /\
  Payment.source_amount q = Payment.source_amount p /\
  Payment.destination_amount q = Payment.destination_amount p /\
  Payment.exchange_rate q = Payment.exchange_rate p /\
  Payment.fee_amount q = Payment.fee_amount p /\
  Payment.total_amount q = Payment.total_amount p.

(** The row of payment [p] is stored with the terms of [p]. *)
Definition stored (p : Payment.t) (w : World) : Prop :=
  exists q,
    find (fun r => Payment.id r =? Payment.id p) (payments w) = Some q /\
    same_terms p q.

(** Ids and idempotency keys identify payment rows. *)
Definition unique_payments (w : World) : Prop :=
  NoDup (map Payment.id (payments w)) /\
  NoDup (map Payment.idempotency_key (payments w)).

(** *** Final statuses *)

Definition terminalb (s : PaymentStatus.t) : bool :=
  match s with
  | PaymentStatus.COMPLETED | PaymentStatus.FAILED => true
  | _ => false
  end.

(** The payment is not in a final status (or has no row). *)
Definition live (q : Id) (w : World) : Prop :=
  forall s, status_of q w = Some s -> terminalb s = false.

(** Every queued stage job belongs to a payment that is not final. *)
Definition live_jobs (w : World) : Prop :=
  forall t q, In t (timers w) -> flow_job_for q (Timer.job t) = true -> live q w.

(** [live_jobs] while a handler runs for payment [q], none of whose jobs is
    queued; [l] tells that [q] is known not to be final. *)
Definition live_at (st : option (Id * bool)) (w : World) : Prop :=
  live_jobs w /\
  match st with
  | None => True
  | Some (q, l) => no_flow q w /\ (l = true -> live q w)
  end.

(** [live_jobs] when the job of timer [handle] starts to run for payment
    [q]: every job of [q] still queued is that timer. *)
Definition live_own (handle : nat) (q : Id) (w : World) : Prop :=
  live_jobs w /\
  forall t, In t (timers w) -> flow_timer q t = true -> Timer.id t = handle.

(** Nothing is queued for the payment, whose status is [s]. *)
Definition settled (paymentId : Id) (s : PaymentStatus.t) (w : World) : Prop :=
  paymentId < uuid_next w /\
  no_flow paymentId w /\
  status_of paymentId w = Some s.

(** What holds after a computation, by the way it ended. *)
Definition outcome {A} (Qok Qthrow : World -> Prop) : Result A -> World -> Prop :=
  fun r w => match r with Ok _ => Qok w | Throw _ => Qthrow w end.

Definition never_throws {A} (m : M A) : Prop :=
  forall w, exists a, fst (m w) = Ok a.

Definition impossible : World -> Prop := fun _ => False.

(** What a monitor may answer, and when. *)
Definition monitor_answer (what : string) (transactionId : Id) (deadline : N)
    (r : Result bool) (w : World) : Prop :=
  match r with
  | Ok true =>
      exists x,
        find (fun r => Transaction.id r =? transactionId) (transactions w) = Some x /\
        Transaction.status x = TransactionStatus.COMPLETED
  | Ok false => (deadline <= clock w)%N
  | Throw e =>
      (find (fun r => Transaction.id r =? transactionId) (transactions w) = None /\
       e = (what ++ " transaction " ++ uuid_string transactionId ++ " not found")%string)
      \/
      (exists x,
          find (fun r => Transaction.id r =? transactionId) (transactions w) = Some x /\
          Transaction.status x = TransactionStatus.FAILED /\
          e = (what ++ " transaction " ++ uuid_string transactionId ++ " failed")%string)
  end.

(** The rate table is the one the constructor built. *)
Definition rates_intact (w : World) : Prop :=
  mockRates w = ExchangeRateService.initialRates.

(** Every rate of a table is a positive binary64 value. *)
Definition rates_positive (rates : JS.Obj (JS.Obj Q)) : bool :=
  forallb (fun row : string * JS.Obj Q =>
             forallb (fun entry : string * Q =>
                        negb (Qle_bool (snd entry) 0) &&
                        Qeq_bool (JS.rnd (snd entry)) (snd entry))
                     (snd row))
          rates.

(** Every currency other than USD that has a row has a rate to USD. *)
Definition rows_reach_usd (rates : JS.Obj (JS.Obj Q)) : bool :=
  forallb (fun row : string * JS.Obj Q =>
             String.eqb (fst row) "USD" ||
             match JS.get (snd row) "USD" with Some _ => true | None => false end)
          rates.




(** *** Schedules with suspended cancellations *)

(** The payment is accepted and processed; a [cancelPayment] call reads its
    row (PROCESSING) and is suspended; the provider then fails the onramp
    transaction and the next tick of the onramp poll marks the payment
    FAILED. *)
Definition cancel_race : list Suspended.Step :=
  [ Suspended.SEvent (ECreatePayment (scenarioA "u1" "key-1" None) 0.5%Q);
    Suspended.SEvent (ETimer 0 0%Q true);
    Suspended.SCancelRead 0;
    Suspended.SEvent (EWait 5000);
    Suspended.SEvent (ETimer 1 0.99%Q true);
    Suspended.SEvent (ETimer 2 0%Q true) ].

(** The same up to the tick that finds the onramp transaction failed. *)
Definition cancel_race_before_tick : list Suspended.Step := removelast cancel_race.

(** The payment is accepted and runs to the last tick of its offramp poll,
    a [cancelPayment] call having read its row (PROCESSING) on the way. *)
Definition cancel_race_payout : list Suspended.Step :=
  [ Suspended.SEvent (ECreatePayment (scenarioA "u1" "key-1" None) 0.5%Q);
    Suspended.SEvent (ETimer 0 0%Q true);
    Suspended.SCancelRead 0 ]
  ++ map Suspended.SEvent
       ([ EWait 5000; ETimer 1 0.5%Q true ] ++ removelast cancel_trace_rest).

Definition state_after (ss : list Suspended.Step) : Suspended.State :=
  match Suspended.steps ss (initialWorld, []) with
  | Some st => st
  | None => (initialWorld, [])
  end.

(** The payment has nothing queued and its status is [s], or CANCELLED. *)
Definition settled_or_cancelled (paymentId : Id) (s : PaymentStatus.t) (w : World)
  : Prop :=
  settled paymentId s w \/ settled paymentId PaymentStatus.CANCELLED w.

Definition quiet_or_cancelled (paymentId : Id) (s : PaymentStatus.t) (w : World)
  : Prop :=
  quiet paymentId s w \/ quiet paymentId PaymentStatus.CANCELLED w.
(* ================================================================== *)
(** * Properties *)

Unset Implicit Arguments.

(** ** binary64 arithmetic *)

Section Binary64.
Local Open Scope Q_scope.

Lemma two_pos : 0 < 2. Proof. reflexivity. Qed.
Lemma two_gt1 : 1 < 2. Proof. reflexivity. Qed.
Lemma two_ne0 : ~ 2 == 0. Proof. discriminate. Qed.

Lemma pow2_pos (e : Z) : 0 < 2 ^ e.
Proof. apply Qpower_0_lt. reflexivity. Qed.

Lemma pow2_plus (a b : Z) : 2 ^ (a + b) == 2 ^ a * 2 ^ b.
Proof. apply Qpower_plus. discriminate. Qed.

Lemma pow2_le (a b : Z) : (a <= b)%Z -> 2 ^ a <= 2 ^ b.
Proof. intros H. apply Qpower_le_compat_l; [exact H | discriminate]. Qed.

Lemma pow2_lt (a b : Z) : (a < b)%Z -> 2 ^ a < 2 ^ b.
Proof. intros H. apply Qpower_lt_compat_l; [exact H | reflexivity]. Qed.

Lemma pow2_lt_inv (a b : Z) : 2 ^ a < 2 ^ b -> (a < b)%Z.
Proof. intros H. apply (Qpower_lt_compat_l_inv 2); [exact H | reflexivity]. Qed.


Lemma pow2_Z (n : Z) : (0 <= n)%Z -> 2 ^ n == inject_Z (2 ^ n).
Proof. intros H. rewrite Zpower_Qpower by exact H. reflexivity. Qed.

  (** *** [ilog2] *)

Lemma Q_as_fraction (x : Q) : x == inject_Z (Qnum x) / inject_Z (Zpos (Qden x)).
Proof.
    destruct x as [n d]. unfold Qeq, Qdiv, Qmult, Qinv, inject_Z. simpl. lia.
Qed.

Lemma ilog2_spec (x : Q) : 0 < x -> 2 ^ JS.ilog2 x <= x /\ x < 2 ^ (JS.ilog2 x + 1).
Proof.
    intros Hx.
    assert (Hn : (0 < Qnum x)%Z).
    { destruct x as [n d]. unfold Qlt in Hx. simpl in *. lia. }
    set (a := Z.log2 (Qnum x)). set (b := Z.log2 (Zpos (Qden x))).
    assert (Ha : (2 ^ a <= Qnum x < 2 ^ (a + 1))%Z).
    { unfold a. pose proof (Z.log2_spec _ Hn). replace (a + 1)%Z with (Z.succ a) by lia.
      exact H. }
    assert (Hb : (2 ^ b <= Zpos (Qden x) < 2 ^ (b + 1))%Z).
    { unfold b. pose proof (Z.log2_spec (Zpos (Qden x)) eq_refl).
      replace (b + 1)%Z with (Z.succ b) by lia. exact H. }
    assert (Ha0 : (0 <= a)%Z) by apply Z.log2_nonneg.
    assert (Hb0 : (0 <= b)%Z) by apply Z.log2_nonneg.
    (* bounds in Q *)
    assert (Qa : 2 ^ a <= inject_Z (Qnum x) /\ inject_Z (Qnum x) < 2 ^ (a + 1)).
    { rewrite !pow2_Z by lia. rewrite <- Zle_Qle, <- Zlt_Qlt. exact Ha. }
    assert (Qb : 2 ^ b <= inject_Z (Zpos (Qden x)) /\ inject_Z (Zpos (Qden x)) < 2 ^ (b + 1)).
    { rewrite !pow2_Z by lia. rewrite <- Zle_Qle, <- Zlt_Qlt. exact Hb. }
    assert (Hd : 0 < inject_Z (Zpos (Qden x))) by reflexivity.
    assert (Ex : x * inject_Z (Zpos (Qden x)) == inject_Z (Qnum x)).
    { rewrite (Q_as_fraction x) at 1. field. intros C. rewrite C in Hd. discriminate. }
    (* 2^(a-b-1) < x < 2^(a-b+1) *)
    assert (Lo : 2 ^ (a - b - 1) < x).
    { apply Qnot_le_lt. intros C.
      assert (x * inject_Z (Zpos (Qden x)) < 2 ^ (a - b - 1) * 2 ^ (b + 1)).
      { apply Qle_lt_trans with (2 ^ (a - b - 1) * inject_Z (Zpos (Qden x))).
        - apply Qmult_le_compat_r; [exact C | apply Qlt_le_weak; exact Hd].
        - apply Qmult_lt_l; [apply pow2_pos | apply Qb]. }
      rewrite <- pow2_plus in H. replace (a - b - 1 + (b + 1))%Z with a in H by lia.
      rewrite Ex in H. destruct Qa as [Qa _]. apply (Qlt_not_le _ _ H Qa). }
    assert (Hi : x < 2 ^ (a - b + 1)).
    { apply Qnot_le_lt. intros C.
      assert (2 ^ (a - b + 1) * 2 ^ b <= x * inject_Z (Zpos (Qden x))).
      { apply Qle_trans with (x * 2 ^ b).
        - apply Qmult_le_compat_r; [exact C | apply Qlt_le_weak, pow2_pos].
        - apply Qmult_le_l; [exact Hx | apply Qb]. }
      rewrite <- pow2_plus in H. replace (a - b + 1 + b)%Z with (a + 1)%Z in H by lia.
      rewrite Ex in H. destruct Qa as [_ Qa]. apply (Qlt_not_le _ _ Qa H). }
    unfold JS.ilog2. fold a b.
    destruct (Qle_bool (2 ^ (a - b)) x) eqn:E.
    - apply Qle_bool_iff in E. split; [exact E | exact Hi].
    - split; [apply Qlt_le_weak; exact Lo | ].
      replace (a - b - 1 + 1)%Z with (a - b)%Z by lia.
      apply Qnot_le_lt. intros C. apply Qle_bool_iff in C. congruence.
Qed.

Lemma ilog2_unique (x : Q) (e : Z) : 2 ^ e <= x -> x < 2 ^ (e + 1) -> JS.ilog2 x = e.
Proof.
    intros L U.
    assert (Hx : 0 < x) by (eapply Qlt_le_trans; [apply (pow2_pos e) | exact L]).
    destruct (ilog2_spec x Hx) as [L' U'].
    assert (e < JS.ilog2 x + 1)%Z by (apply pow2_lt_inv; eapply Qle_lt_trans; eassumption).
    assert (JS.ilog2 x < e + 1)%Z by (apply pow2_lt_inv; eapply Qle_lt_trans; eassumption).
    lia.
Qed.

Lemma ilog2_mono (x y : Q) : 0 < x -> x <= y -> (JS.ilog2 x <= JS.ilog2 y)%Z.
Proof.
    intros Hx Hxy.
    assert (Hy : 0 < y) by (eapply Qlt_le_trans; eassumption).
    destruct (ilog2_spec x Hx) as [L _]. destruct (ilog2_spec y Hy) as [_ U].
    assert (JS.ilog2 x < JS.ilog2 y + 1)%Z.
    { apply pow2_lt_inv. eapply Qle_lt_trans; [exact L | ].
      eapply Qle_lt_trans; eassumption. }
    lia.
Qed.

  (** *** Rounding to the nearest integer, halves to even *)

Lemma rne_cases (q : Q) :
    let f := Qfloor q in
    (JS.rne q = f /\ q - inject_Z f <= 1 # 2) \/
    (JS.rne q = (f + 1)%Z /\ (1 # 2) <= q - inject_Z f).
Proof.
    intros f. unfold JS.rne. fold f.
    destruct (Qcompare_spec (q - inject_Z f) (1 # 2)) as [E | E | E].
    - destruct (Z.even f); [left | right]; split; try reflexivity;
        rewrite E; apply Qle_refl.
    - left. split; [reflexivity | apply Qlt_le_weak; exact E].
    - right. split; [reflexivity | apply Qlt_le_weak; exact E].
Qed.

Lemma floor_bounds (q : Q) : inject_Z (Qfloor q) <= q /\ q < inject_Z (Qfloor q) + 1.
Proof.
    split; [apply Qfloor_le | ].
    pose proof (Qlt_floor q) as H. rewrite inject_Z_plus in H. exact H.
Qed.


Lemma rne_Z (k : Z) : JS.rne (inject_Z k) = k.
Proof.
    unfold JS.rne. rewrite Qfloor_Z.
    assert (E : Qcompare (inject_Z k - inject_Z k) (1 # 2) = Lt).
    { apply (proj1 (Qlt_alt _ _)). lra. }
    rewrite E. reflexivity.
Qed.

Lemma rne_mono (p q : Q) : p <= q -> (JS.rne p <= JS.rne q)%Z.
Proof.
    intros H.
    pose proof (Qfloor_resp_le _ _ H) as Hf.
    destruct (floor_bounds p) as [Lp Up]. destruct (floor_bounds q) as [Lq Uq].
    destruct (Z.eq_dec (Qfloor p) (Qfloor q)) as [E | NE].
    - unfold JS.rne. rewrite <- E in Lq, Uq |- *.
      destruct (Qcompare_spec (p - inject_Z (Qfloor p)) (1 # 2)) as [Cp | Cp | Cp];
        destruct (Qcompare_spec (q - inject_Z (Qfloor p)) (1 # 2)) as [Cq | Cq | Cq];
        try (destruct (Z.even (Qfloor p))); try lia; exfalso; lra.
    - assert (Qfloor p + 1 <= Qfloor q)%Z by lia.
      destruct (rne_cases p) as [[-> _] | [-> _]];
        destruct (rne_cases q) as [[-> _] | [-> _]]; lia.
Qed.

Lemma rne_comp (p q : Q) : p == q -> JS.rne p = JS.rne q.
Proof.
    intros H. apply Z.le_antisymm; apply rne_mono; rewrite H; apply Qle_refl.
Qed.

Lemma rne_le_Z (q : Q) (k : Z) : q <= inject_Z k -> (JS.rne q <= k)%Z.
Proof. intros H. rewrite <- (rne_Z k). apply rne_mono. exact H. Qed.

Lemma rne_ge_Z (q : Q) (k : Z) : inject_Z k <= q -> (k <= JS.rne q)%Z.
Proof. intros H. rewrite <- (rne_Z k). apply rne_mono. exact H. Qed.

  (** *** Rounding a positive rational to binary64 *)

Lemma scale_ge (x : Q) : (-1074 <= JS.scale x)%Z /\ (JS.ilog2 x - 52 <= JS.scale x)%Z.
Proof. unfold JS.scale. lia. Qed.

Lemma scale_mono (x y : Q) : 0 < x -> x <= y -> (JS.scale x <= JS.scale y)%Z.
Proof. intros Hx H. pose proof (ilog2_mono x y Hx H). unfold JS.scale. lia. Qed.

Lemma ilog2_comp (x y : Q) : 0 < x -> x == y -> JS.ilog2 x = JS.ilog2 y.
Proof.
    intros Hx E. destruct (ilog2_spec x Hx) as [L U].
    symmetry. apply ilog2_unique; rewrite <- E; assumption.
Qed.


Lemma rnd_pos_comp (x y : Q) : 0 < x -> x == y -> JS.rnd_pos x == JS.rnd_pos y.
Proof.
    intros Hx E. unfold JS.rnd_pos, JS.scale.
    rewrite (ilog2_comp x y Hx E).
    rewrite (rne_comp (x * 2 ^ (- Z.max (JS.ilog2 y - 52) (-1074)))
                      (y * 2 ^ (- Z.max (JS.ilog2 y - 52) (-1074)))).
    - reflexivity.
    - rewrite E. reflexivity.
Qed.


Lemma rnd_pos_upper (x : Q) (k : Z) :
    x <= 2 ^ k -> (JS.scale x <= k)%Z -> JS.rnd_pos x <= 2 ^ k.
Proof.
    intros Hx Hs. unfold JS.rnd_pos. set (s := JS.scale x) in *.
    assert (E : 2 ^ k == inject_Z (2 ^ (k - s)) * 2 ^ s).
    { rewrite <- pow2_Z by lia. rewrite <- pow2_plus.
      replace (k - s + s)%Z with k by lia. reflexivity. }
    rewrite E. apply Qmult_le_compat_r; [ | apply Qlt_le_weak, pow2_pos].
    rewrite <- Zle_Qle. apply rne_le_Z.
    rewrite <- pow2_Z by lia.
    apply Qle_trans with (2 ^ k * 2 ^ (- s)).
    - apply Qmult_le_compat_r; [exact Hx | apply Qlt_le_weak, pow2_pos].
    - rewrite <- pow2_plus. replace (k + - s)%Z with (k - s)%Z by lia. apply Qle_refl.
Qed.

Lemma rnd_pos_lower (x : Q) (k : Z) :
    2 ^ k <= x -> (JS.scale x <= k)%Z -> 2 ^ k <= JS.rnd_pos x.
Proof.
    intros Hx Hs. unfold JS.rnd_pos. set (s := JS.scale x) in *.
    assert (E : 2 ^ k == inject_Z (2 ^ (k - s)) * 2 ^ s).
    { rewrite <- pow2_Z by lia. rewrite <- pow2_plus.
      replace (k - s + s)%Z with k by lia. reflexivity. }
    rewrite E. apply Qmult_le_compat_r; [ | apply Qlt_le_weak, pow2_pos].
    rewrite <- Zle_Qle. apply rne_ge_Z.
    rewrite <- pow2_Z by lia.
    apply Qle_trans with (2 ^ k * 2 ^ (- s)).
    - rewrite <- pow2_plus. replace (k + - s)%Z with (k - s)%Z by lia. apply Qle_refl.
    - apply Qmult_le_compat_r; [exact Hx | apply Qlt_le_weak, pow2_pos].
Qed.

Lemma rnd_pos_nonneg (x : Q) : 0 <= x -> 0 <= JS.rnd_pos x.
Proof.
    intros Hx. unfold JS.rnd_pos.
    apply Qmult_le_0_compat; [ | apply Qlt_le_weak, pow2_pos].
    change 0 with (inject_Z 0). rewrite <- Zle_Qle. apply rne_ge_Z.
    change (inject_Z 0) with 0.
    apply Qmult_le_0_compat; [exact Hx | apply Qlt_le_weak, pow2_pos].
Qed.

Lemma rnd_pos_mono (x y : Q) : 0 < x -> x <= y -> JS.rnd_pos x <= JS.rnd_pos y.
Proof.
    intros Hx Hxy.
    assert (Hy : 0 < y) by (eapply Qlt_le_trans; eassumption).
    pose proof (scale_mono x y Hx Hxy) as Hs.
    destruct (Z.eq_dec (JS.scale x) (JS.scale y)) as [E | NE].
    - unfold JS.rnd_pos. rewrite E.
      apply Qmult_le_compat_r; [ | apply Qlt_le_weak, pow2_pos].
      rewrite <- Zle_Qle. apply rne_mono.
      apply Qmult_le_compat_r; [exact Hxy | apply Qlt_le_weak, pow2_pos].
    - destruct (ilog2_spec x Hx) as [_ Ux]. destruct (ilog2_spec y Hy) as [Ly _].
      assert (Hl : (JS.ilog2 x + 1 <= JS.ilog2 y)%Z) by (unfold JS.scale in *; lia).
      assert (Hsy : (JS.scale y <= JS.ilog2 y)%Z) by (unfold JS.scale in *; lia).
      apply Qle_trans with (2 ^ JS.ilog2 y).
      + apply rnd_pos_upper; [ | lia].
        apply Qlt_le_weak. eapply Qlt_le_trans; [exact Ux | apply pow2_le; exact Hl].
      + apply rnd_pos_lower; [exact Ly | exact Hsy].
Qed.

  (** *** [rnd] *)

Lemma rnd_zero (x : Q) : x == 0 -> JS.rnd x == 0.
Proof.
    intros H. unfold JS.rnd.
    destruct (Qcompare_spec (Qred x) 0) as [E | E | E]; rewrite Qred_correct in E;
      [reflexivity | rewrite H in E; discriminate E | rewrite H in E; discriminate E].
Qed.

Lemma rnd_pos_eq (x : Q) : 0 < x -> JS.rnd x == JS.rnd_pos x.
Proof.
    intros H. unfold JS.rnd.
    destruct (Qcompare_spec (Qred x) 0) as [E | E | E]; rewrite Qred_correct in E.
    - rewrite E in H. discriminate H.
    - exfalso. apply (Qlt_irrefl 0). eapply Qlt_trans; eassumption.
    - rewrite Qred_correct. apply rnd_pos_comp; [rewrite Qred_correct; exact H | ].
      apply Qred_correct.
Qed.

Lemma rnd_neg_eq (x : Q) : x < 0 -> JS.rnd x == - JS.rnd_pos (- x).
Proof.
    intros H. unfold JS.rnd.
    destruct (Qcompare_spec (Qred x) 0) as [E | E | E]; rewrite Qred_correct in E.
    - rewrite E in H. discriminate H.
    - rewrite Qred_correct. apply Qopp_comp.
      apply rnd_pos_comp; [rewrite Qred_correct; lra | ].
      rewrite Qred_correct. reflexivity.
    - exfalso. apply (Qlt_irrefl 0). eapply Qlt_trans; eassumption.
Qed.

Lemma rnd_eq (x y : Q) : x == y -> JS.rnd x = JS.rnd y.
Proof. intros H. unfold JS.rnd. rewrite (Qred_complete x y H). reflexivity. Qed.

#[global] Instance rnd_Proper : Proper (Qeq ==> Qeq) JS.rnd.
Proof. intros x y H. rewrite (rnd_eq x y H). reflexivity. Qed.

Lemma rnd_opp (x : Q) : JS.rnd (- x) == - JS.rnd x.
Proof.
    destruct (Q_dec x 0) as [[H | H] | H].
    - rewrite (rnd_neg_eq x H). rewrite rnd_pos_eq by lra. ring.
    - rewrite (rnd_pos_eq x H). rewrite rnd_neg_eq by lra.
      rewrite (rnd_pos_comp (- - x) x); [reflexivity | lra | ring].
    - rewrite (rnd_zero x H). rewrite rnd_zero by lra. reflexivity.
Qed.

Lemma rnd_nonneg (x : Q) : 0 <= x -> 0 <= JS.rnd x.
Proof.
    intros H. destruct (Qle_lt_or_eq _ _ H) as [P | Z].
    - rewrite (rnd_pos_eq x P). apply rnd_pos_nonneg. exact H.
    - rewrite rnd_zero; [apply Qle_refl | symmetry; exact Z].
Qed.

Lemma rnd_nonpos (x : Q) : x <= 0 -> JS.rnd x <= 0.
Proof.
    intros H. assert (P : 0 <= JS.rnd (- x)) by (apply rnd_nonneg; lra).
    rewrite rnd_opp in P. lra.
Qed.

Theorem rnd_mono (x y : Q) : x <= y -> JS.rnd x <= JS.rnd y.
Proof.
    intros H.
    destruct (Qlt_le_dec 0 x) as [Px | Nx].
    - assert (Py : 0 < y) by lra.
      rewrite (rnd_pos_eq x Px), (rnd_pos_eq y Py). apply rnd_pos_mono; assumption.
    - destruct (Qlt_le_dec y 0) as [Ny | Py].
      + assert (Nx' : x < 0) by lra.
        rewrite (rnd_neg_eq x Nx'), (rnd_neg_eq y Ny).
        apply Qopp_le_compat. apply rnd_pos_mono; lra.
      + apply Qle_trans with 0; [apply rnd_nonpos; exact Nx | apply rnd_nonneg; exact Py].
Qed.



  (** *** The four operations *)

Lemma add_mono (a b c d : Q) : a <= c -> b <= d -> JS.add a b <= JS.add c d.
Proof. intros H1 H2. apply rnd_mono. lra. Qed.

Lemma sub_mono_l (a b c : Q) : a <= c -> JS.sub a b <= JS.sub c b.
Proof. intros H. apply rnd_mono. lra. Qed.

Lemma mul_mono_l (a b c : Q) : 0 <= c -> a <= b -> JS.mul a c <= JS.mul b c.
Proof. intros Hc H. apply rnd_mono. apply Qmult_le_compat_r; assumption. Qed.

Lemma mul_mono_r (a b c : Q) : 0 <= c -> a <= b -> JS.mul c a <= JS.mul c b.
Proof.
    intros Hc H. apply rnd_mono. rewrite (Qmult_comm c a), (Qmult_comm c b).
    apply Qmult_le_compat_r; assumption.
Qed.

Lemma div_mono_l (a b c : Q) : 0 < c -> a <= b -> JS.div a c <= JS.div b c.
Proof.
    intros Hc H. apply rnd_mono. unfold Qdiv.
    apply Qmult_le_compat_r; [exact H | ].
    apply Qlt_le_weak, Qinv_lt_0_compat. exact Hc.
Qed.

Lemma mul_nonneg (a b : Q) : 0 <= a -> 0 <= b -> 0 <= JS.mul a b.
Proof. intros Ha Hb. apply rnd_nonneg. apply Qmult_le_0_compat; assumption. Qed.

Lemma add_comp (a b c d : Q) : a == c -> b == d -> JS.add a b = JS.add c d.
Proof. intros H1 H2. apply rnd_eq. rewrite H1, H2. reflexivity. Qed.

Lemma mul_comp (a b c d : Q) : a == c -> b == d -> JS.mul a b = JS.mul c d.
Proof. intros H1 H2. apply rnd_eq. rewrite H1, H2. reflexivity. Qed.

Lemma div_comp (a b c d : Q) : a == c -> b == d -> JS.div a b = JS.div c d.
Proof. intros H1 H2. apply rnd_eq. rewrite H1, H2. reflexivity. Qed.



End Binary64.

(** ** Rounding *)

Section Rounding.
Local Open Scope Q_scope.

Lemma Qle_bool_false (a b : Q) : Qle_bool a b = false -> b < a.
Proof.
    intros H. apply Qnot_le_lt. intros Hle.
    apply Qle_bool_iff in Hle. congruence.
Qed.

Lemma Math_max_Qmax (a b : Q) : JS.Math_max a b == Qmax a b.
Proof.
    unfold JS.Math_max. destruct (Qle_bool a b) eqn:E.
    - apply Qle_bool_iff in E. symmetry. apply Q.max_r. exact E.
    - apply Qle_bool_false in E. symmetry. apply Q.max_l. apply Qlt_le_weak. exact E.
Qed.

Lemma truthy_true (x : Q) : JS.truthy x = true -> ~ x == 0.
Proof.
    unfold JS.truthy. intros H Hx. apply Qeq_bool_iff in Hx.
    rewrite Hx in H. discriminate.
Qed.

Lemma truthy_false (x : Q) : JS.truthy x = false -> x == 0.
Proof.
    unfold JS.truthy. intros H. apply Qeq_bool_iff.
    destruct (Qeq_bool x 0); [reflexivity | discriminate].
Qed.

Lemma Math_round_comp (x y : Q) : x == y -> JS.Math_round x = JS.Math_round y.
Proof. intros H. unfold JS.Math_round. rewrite H. reflexivity. Qed.

Lemma Math_round_mono (x y : Q) : x <= y -> (JS.Math_round x <= JS.Math_round y)%Z.
Proof.
    intros H. unfold JS.Math_round. apply Qfloor_resp_le.
    apply Qplus_le_compat; [exact H | apply Qle_refl].
Qed.


Lemma round2_comp (x y : Q) : x == y -> JS.round2 x = JS.round2 y.
Proof.
    intros H. unfold JS.round2. f_equal. f_equal. f_equal.
    apply mul_comp; [exact H | reflexivity].
Qed.

Lemma round5_comp (x y : Q) : x == y -> JS.round5 x = JS.round5 y.
Proof.
    intros H. unfold JS.round5. f_equal. f_equal. f_equal.
    apply mul_comp; [exact H | reflexivity].
Qed.

Lemma round2_mono (x y : Q) : x <= y -> JS.round2 x <= JS.round2 y.
Proof.
    intros H. unfold JS.round2. apply div_mono_l; [reflexivity | ].
    rewrite <- Zle_Qle. apply Math_round_mono.
    apply mul_mono_l; [discriminate | exact H].
Qed.

Lemma round5_mono (x y : Q) : x <= y -> JS.round5 x <= JS.round5 y.
Proof.
    intros H. unfold JS.round5. apply div_mono_l; [reflexivity | ].
    rewrite <- Zle_Qle. apply Math_round_mono.
    apply mul_mono_l; [discriminate | exact H].
Qed.

End Rounding.
(** ** Fee engine *)

Section FeeEngineFacts.
Local Open Scope Q_scope.

Lemma totalFee_clamp (cfg : FeeConfig.t) (amount : Q) :
    FeeEngine.totalFee cfg amount =
      JS.round2 (Spec.clamp
                   (JS.add (FeeConfig.base_fee cfg)
                           (JS.mul amount (FeeConfig.percentage_fee cfg)))
                   (FeeConfig.minimum_fee cfg)
                   (Spec.effective_maximum cfg)).
Proof.
    unfold FeeEngine.totalFee, Spec.clamp, Spec.effective_maximum.
    apply round2_comp.
    set (raw := JS.add (FeeConfig.base_fee cfg)
                       (JS.mul amount (FeeConfig.percentage_fee cfg))).
    pose proof (Math_max_Qmax raw (FeeConfig.minimum_fee cfg)) as Hmax.
    destruct (FeeConfig.maximum_fee cfg) as [m | ]; [ | exact Hmax].
    destruct (JS.truthy m); simpl; [ | exact Hmax].
    unfold JS.gt.
    destruct (Qle_bool (JS.Math_max raw (FeeConfig.minimum_fee cfg)) m) eqn:E; simpl.
    - apply Qle_bool_iff in E. rewrite Hmax in E.
      rewrite Hmax. symmetry. apply Q.min_l. exact E.
    - apply Qle_bool_false in E. rewrite Hmax in E.
      symmetry. apply Q.min_r. apply Qlt_le_weak. exact E.
Qed.


Lemma clamp_upper (x lo mx : Q) : Spec.clamp x lo (Some mx) <= mx.
Proof. unfold Spec.clamp. apply Q.le_min_r. Qed.





Lemma calculateFees_found (w : World) (currency : string) (amount : Q)
      (cfg : FeeConfig.t) :
    FeeEngine.select (fee_configs w) (JS.toUpperCase currency) = Some cfg ->
    FeeEngine.calculateFees currency amount w =
      (Ok (FeeCalculation.mk (FeeConfig.base_fee cfg)
             (JS.mul amount (FeeConfig.percentage_fee cfg))
             (FeeEngine.totalFee cfg amount) currency), w).
Proof.
    intros H. unfold FeeEngine.calculateFees, FeeEngine.getFeeConfig, bind, gets.
    simpl. rewrite H. reflexivity.
Qed.

Lemma calculateFees_missing (w : World) (currency : string) (amount : Q) :
    FeeEngine.select (fee_configs w) (JS.toUpperCase currency) = None ->
    FeeEngine.calculateFees currency amount w =
      (Throw ("Fee configuration not found for currency: " ++ currency), w).
Proof.
    intros H. unfold FeeEngine.calculateFees, FeeEngine.getFeeConfig, bind, gets.
    simpl. rewrite H. reflexivity.
Qed.



End FeeEngineFacts.

(** ** Reasoning rules for [M] *)

Section Rules.
Context {A B : Type}.
Variable P : World -> Prop.

Lemma preserves_ret (a : A) : preserves P (ret a).
Proof. intros w H. exact H. Qed.

Lemma preserves_throw (e : string) : preserves P (@throw A e).
Proof. intros w H. exact H. Qed.

Lemma preserves_gets (f : World -> A) : preserves P (gets f).
Proof. intros w H. exact H. Qed.

Lemma preserves_lift (r : Result A) : preserves P (lift r).
Proof. intros w H. exact H. Qed.

Lemma preserves_modify (f : World -> World) :
    (forall w, P w -> P (f w)) -> preserves P (modify f).
Proof. intros H w Hw. apply H. exact Hw. Qed.

Lemma preserves_bind (m : M A) (k : A -> M B) :
    preserves P m -> (forall a, preserves P (k a)) -> preserves P (bind m k).
Proof.
    intros Hm Hk w Hw. unfold bind. specialize (Hm w Hw).
    destruct (m w) as [[a | e] w1]; simpl in *.
    - apply Hk. exact Hm.
    - exact Hm.
Qed.

Lemma preserves_bind_yields (R : A -> World -> Prop) (m : M A) (k : A -> M B) :
    yields P m R ->
    (forall a, preserves (fun w => P w /\ R a w) (k a)) ->
    preserves P (bind m k).
Proof.
    intros Hm Hk w Hw. unfold bind. destruct (Hm w Hw) as [H1 H2].
    destruct (m w) as [[a | e] w1]; simpl in *.
    - apply (Hk a w1). split; assumption.
    - exact H1.
Qed.

Lemma preserves_try_catch (m : M A) (h : string -> M A) :
    preserves P m -> (forall e, preserves P (h e)) -> preserves P (try_catch m h).
Proof.
    intros Hm Hh w Hw. unfold try_catch. specialize (Hm w Hw).
    destruct (m w) as [[a | e] w1]; simpl in *.
    - exact Hm.
    - apply Hh. exact Hm.
Qed.

Lemma preserves_finally (m : M A) (f : M unit) :
    preserves P m -> preserves P f -> preserves P (finally m f).
Proof.
    intros Hm Hf w Hw. unfold finally. specialize (Hm w Hw).
    destruct (m w) as [r w1]; simpl in *. specialize (Hf w1 Hm).
    destruct (f w1) as [[u | e] w2]; simpl in *; exact Hf.
Qed.
End Rules.

Lemma preserves_and {A} (P Q : World -> Prop) (m : M A) :
  preserves P m -> preserves Q m -> preserves (fun w => P w /\ Q w) m.
Proof. intros HP HQ w [H1 H2]. split; [apply HP | apply HQ]; assumption. Qed.

Create HintDb pres discriminated.

(** Structural steps of a preservation proof: sequencing, handlers and case
    analysis on what the code branches on. *)
Ltac pres_step :=
  lazymatch goal with
  | |- preserves _ (ret _) => apply preserves_ret
  | |- preserves _ (throw _) => apply preserves_throw
  | |- preserves _ (gets _) => apply preserves_gets
  | |- preserves _ (lift _) => apply preserves_lift
  | |- preserves _ (bind _ _) => apply preserves_bind; [ | intro]
  | |- preserves _ (try_catch _ _) => apply preserves_try_catch; [ | intro]
  | |- preserves _ (finally _ _) => apply preserves_finally
  | |- preserves _ (if ?b then _ else _) => destruct b
  | |- preserves _ (match ?x with _ => _ end) => destruct x
  | |- preserves _ (let _ := _ in _) => cbv zeta
  end.

Ltac unfold_services :=
  unfold PaymentOrchestrator.createPayment, PaymentOrchestrator.cancelPayment,
    PaymentOrchestrator.processPayment, PaymentOrchestrator.processOfframp,
    PaymentOrchestrator.onrampPoll, PaymentOrchestrator.offrampPoll,
    PaymentOrchestrator.monitorOnrampCompletion,
    PaymentOrchestrator.monitorOfframpCompletion,
    PaymentOrchestrator.updatePaymentStatus, PaymentOrchestrator.paymentToResponse,
    PaymentOrchestrator.getPaymentById, PaymentOrchestrator.getPaymentByIdempotencyKey,
    OnrampService.processUSDCollection, OnrampService.validateRequest,
    OnrampService.selectProvider, OnrampService.validateAmount,
    OnrampService.simulateAsyncProcessing, OnrampService.getTransactionStatus,
    OfframpService.processLocalCurrencyPayout, OfframpService.validateRequest,
    OfframpService.selectProvider, OfframpService.validateAmount,
    OfframpService.simulateAsyncProcessing, OfframpService.getTransactionStatus,
    WebhookService.scheduleWebhook, WebhookService.handleWebhookFailure,
    WebhookService.onResponse, WebhookService.retryWebhook,
    WebhookService.getWebhookStatus,
    FeeEngine.calculateFees, FeeEngine.isCurrencySupported, FeeEngine.getFeeConfig,
    ExchangeRateService.getExchangeRate, ExchangeRateService.getCachedRate,
    resolveTransaction, Date_now,
    Database.select_transaction, Database.select_webhook.

(** Leaves are closed with the hints of database [pres]. *)
Ltac pres := repeat first [pres_step | progress unfold_services]; eauto with pres.

(** What every event does, reduced to what its handler does. *)
Lemma fire_preserves (P : World -> Prop) :
  (forall request random, preserves P (PaymentOrchestrator.createPayment request random)) ->
  (forall paymentId, preserves P (PaymentOrchestrator.cancelPayment paymentId)) ->
  (forall webhookId newUrl, preserves P (WebhookService.retryWebhook webhookId newUrl)) ->
  (forall handle random db_ok w t,
      P w -> find (fun t => Timer.id t =? handle) (timers w) = Some t ->
      P (exec (runJob handle (Timer.job t) random db_ok)
              (set_timers (rearm t (timers w)) w))) ->
  (forall index ok w r,
      P w -> nth_error (inflight w) index = Some r ->
      P (exec (WebhookService.onResponse r ok)
              (set_inflight (remove_nth index (inflight w)) w))) ->
  (forall dt w, P w -> P (set_clock (clock w + dt)%N w)) ->
  forall e w w', P w -> fire e w = Some w' -> P w'.
Proof.
  intros Hc Hx Hr Ht Hh Hw e w w' HP Hf. destruct e; simpl in Hf.
  - injection Hf as <-. apply Hc. exact HP.
  - injection Hf as <-. apply Hx. exact HP.
  - injection Hf as <-. apply Hr. exact HP.
  - unfold fireTimer in Hf.
    destruct (find (fun t => Timer.id t =? handle) (timers w)) as [t | ] eqn:E;
      [ | discriminate].
    destruct (Timer.due t <=? clock w)%N; [ | discriminate].
    injection Hf as <-. apply Ht; assumption.
  - destruct (nth_error (inflight w) index) as [r | ] eqn:E; [ | discriminate].
    injection Hf as <-. apply Hh; assumption.
  - destruct (forallb _ _); [ | discriminate].
    injection Hf as <-. apply Hw. exact HP.
Qed.

(** The same for a property of the database alone. *)
Lemma fire_preserves_data (P : World -> Prop) :
  (forall request random, preserves P (PaymentOrchestrator.createPayment request random)) ->
  (forall paymentId, preserves P (PaymentOrchestrator.cancelPayment paymentId)) ->
  (forall webhookId newUrl, preserves P (WebhookService.retryWebhook webhookId newUrl)) ->
  (forall handle j random db_ok, preserves P (runJob handle j random db_ok)) ->
  (forall r ok, preserves P (WebhookService.onResponse r ok)) ->
  (forall w ts, P w -> P (set_timers ts w)) ->
  (forall w rs, P w -> P (set_inflight rs w)) ->
  (forall w c, P w -> P (set_clock c w)) ->
  forall e w w', P w -> fire e w = Some w' -> P w'.
Proof.
  intros Hc Hx Hr Hj Hh Ht Hi Hk. apply fire_preserves; auto.
  - intros handle random db_ok w t HP _. apply Hj. apply Ht. exact HP.
  - intros index ok w r HP _. apply Hh. apply Hi. exact HP.
Qed.

Lemma run_preserves (P : World -> Prop) :
  (forall e w w', P w -> fire e w = Some w' -> P w') ->
  forall es w w', P w -> run es w = Some w' -> P w'.
Proof.
  intros H es. induction es as [ | e es IH]; intros w w' HP Hr; simpl in Hr.
  - injection Hr as <-. exact HP.
  - destruct (fire e w) as [w1 | ] eqn:E; [ | discriminate].
    apply (IH w1 w'); [ | exact Hr]. apply (H e w w1); assumption.
Qed.

Lemma run_app (es1 es2 : list Event) (w : World) :
  run (es1 ++ es2) w =
    match run es1 w with Some w1 => run es2 w1 | None => None end.
Proof.
  revert w. induction es1 as [ | e es1 IH]; intros w; simpl; [reflexivity | ].
  destruct (fire e w); [apply IH | reflexivity].
Qed.

Lemma reachable_initial : reachable initialWorld.
Proof. exists []. reflexivity. Qed.

Lemma reachable_run (es : list Event) (w w' : World) :
  reachable w -> run es w = Some w' -> reachable w'.
Proof.
  intros [es0 H0] H. exists (es0 ++ es). rewrite run_app, H0. exact H.
Qed.

Lemma reachable_ind (P : World -> Prop) :
  P initialWorld ->
  (forall e w w', P w -> fire e w = Some w' -> P w') ->
  forall w, reachable w -> P w.
Proof.
  intros H0 Hs w [es Hr]. eapply run_preserves; eauto.
Qed.

(** ** Creating a payment *)

Ltac unfold_leaves :=
  unfold uuidv4, setTimeout, setInterval, clearInterval,
    Database.insert_transaction, Database.update_transaction,
    Database.insert_webhook, Database.update_webhook, Database.update_payment,
    WebhookService.sendWebhookAsync, ExchangeRateService.cacheRate,
    FeeEngine.updateFeeConfig, modify, gets.

Lemma bind_ok_inv {A B} (m : M A) (k : A -> M B) (w w' : World) (b : B) :
  bind m k w = (Ok b, w') ->
  exists a w1, m w = (Ok a, w1) /\ k a w1 = (Ok b, w').
Proof.
  unfold bind. destruct (m w) as [[a | e] w1]; intros H; [ | discriminate].
  exists a, w1. split; [reflexivity | exact H].
Qed.

Lemma keeps_with_status (s : PaymentStatus.t) (now : N) : keeps (Payment.with_status s now).
Proof. intros p. simpl. repeat split. Qed.

Lemma keeps_with_onramp_reference (r : string) (now : N) :
  keeps (Payment.with_onramp_reference r now).
Proof. intros p. simpl. repeat split. Qed.

Lemma keeps_with_offramp_reference (r : string) (now : N) :
  keeps (Payment.with_offramp_reference r now).
Proof. intros p. simpl. repeat split. Qed.

#[export] Hint Resolve keeps_with_status keeps_with_onramp_reference
  keeps_with_offramp_reference : pres.

(** *** The row found under a key keeps its id *)

Lemma find_key_map (k : string) (f : Payment.t -> Payment.t) (q : Id)
    (rows : list Payment.t) (p : Payment.t) :
  keeps f ->
  find (fun r => String.eqb (Payment.idempotency_key r) k) rows = Some p ->
  exists p',
    find (fun r => String.eqb (Payment.idempotency_key r) k)
         (map (fun r => if Payment.id r =? q then f r else r) rows) = Some p' /\
    Payment.id p' = Payment.id p.
Proof.
  intros Hf. induction rows as [ | r rows IH]; simpl; [discriminate | ].
  intros H.
  assert (E : Payment.idempotency_key (if Payment.id r =? q then f r else r) =
              Payment.idempotency_key r).
  { destruct (Payment.id r =? q); [apply Hf | reflexivity]. }
  rewrite E. destruct (String.eqb (Payment.idempotency_key r) k).
  - injection H as <-. eexists. split; [reflexivity | ].
    destruct (Payment.id r =? q); [apply Hf | reflexivity].
  - apply IH. exact H.
Qed.

Lemma find_app_some {A} (f : A -> bool) (l1 l2 : list A) (x : A) :
  find f l1 = Some x -> find f (l1 ++ l2) = Some x.
Proof.
  induction l1 as [ | a l1 IH]; simpl; [discriminate | ].
  destruct (f a); [auto | exact IH].
Qed.

Lemma find_app_none {A} (f : A -> bool) (l1 l2 : list A) :
  find f l1 = None -> find f (l1 ++ l2) = find f l2.
Proof.
  induction l1 as [ | a l1 IH]; simpl; [reflexivity | ].
  destruct (f a); [discriminate | exact IH].
Qed.

Lemma key_id_update_payment (k : string) (i q : Id) (f : Payment.t -> Payment.t) :
  keeps f -> preserves (key_id k i) (Database.update_payment q f).
Proof.
  intros Hf w [p [Hp Hi]]. unfold key_id. simpl.
  destruct (find_key_map k f q _ p Hf Hp) as [p' [Hp' Hi']].
  exists p'. split; [exact Hp' | congruence].
Qed.

Lemma key_id_insert_payment (k : string) (i : Id) (p : Payment.t) :
  preserves (key_id k i) (Database.insert_payment p).
Proof.
  intros w [p0 [Hp Hi]]. unfold Database.insert_payment.
  destruct (existsb _ _); simpl; [exists p0; split; assumption | ].
  exists p0. split; [ | exact Hi]. unfold key_id. simpl.
  apply find_app_some. exact Hp.
Qed.

Ltac frame_key_id :=
  solve [ unfold_leaves; intros ? ?; unfold key_id in *; simpl; assumption ].

#[export] Hint Resolve key_id_update_payment key_id_insert_payment : pres.
#[export] Hint Extern 5 (preserves (key_id _ _) _) => frame_key_id : pres.

Lemma key_id_fire (k : string) (i : Id) (e : Event) (w w' : World) :
  key_id k i w -> fire e w = Some w' -> key_id k i w'.
Proof.
  apply fire_preserves_data; intros; try assumption; try solve [pres].
  destruct j; cbn [runJob]; pres.
Qed.

Lemma key_id_run (k : string) (i : Id) (es : list Event) (w w' : World) :
  key_id k i w -> run es w = Some w' -> key_id k i w'.
Proof. apply run_preserves. apply key_id_fire. Qed.

Lemma set_exchange_rates_same (w : World) : set_exchange_rates (exchange_rates w) w = w.
Proof. destruct w; reflexivity. Qed.

Lemma getExchangeRate_shape (src dst : string) (random : Q) (w : World) :
  exists rate rows,
    ExchangeRateService.getExchangeRate src dst random w =
      (Ok rate, set_exchange_rates rows w).
Proof.
  unfold ExchangeRateService.getExchangeRate.
  destruct (String.eqb src dst).
  - exists 1.0%Q, (exchange_rates w). rewrite set_exchange_rates_same. reflexivity.
  - unfold bind, ExchangeRateService.getCachedRate, gets. simpl.
    match goal with |- context [ExchangeRateService.newest ?l None] =>
      destruct (ExchangeRateService.newest l None) as [c | ] end.
    + exists (ExchangeRate.rate c), (exchange_rates w).
      rewrite set_exchange_rates_same. reflexivity.
    + eexists. eexists. reflexivity.
Qed.

Lemma createPayment_replay (request : CreatePaymentRequest.t) (random : Q)
    (w : World) (p : Payment.t) :
  find (fun r => String.eqb (Payment.idempotency_key r)
                            (CreatePaymentRequest.idempotency_key request))
       (payments w) = Some p ->
  PaymentOrchestrator.createPayment request random w =
    PaymentOrchestrator.paymentToResponse p w.
Proof.
  intros H. unfold PaymentOrchestrator.createPayment,
    PaymentOrchestrator.getPaymentByIdempotencyKey, bind, gets at 1.
  simpl. rewrite H. reflexivity.
Qed.

Lemma paymentToResponse_eq (p : Payment.t) (w : World) :
  PaymentOrchestrator.paymentToResponse p w = (Ok (response_of p (clock w)), w).
Proof. reflexivity. Qed.

(** Steps that leave the payments table and the clock alone. *)
Lemma payments_frame_scheduleWebhook (L : list Payment.t) (c : N) (paymentId : Id)
    (ev : WebhookEventType.t) (d : WebhookData) :
  preserves (fun w => payments w = L /\ clock w = c)
            (WebhookService.scheduleWebhook paymentId ev d).
Proof. intros w H. exact H. Qed.

Lemma existsb_false_find {A} (f g : A -> bool) (l : list A) :
  existsb (fun x => f x || g x) l = false ->
  find f l = None /\ find g l = None.
Proof.
  induction l as [ | a l IH]; simpl; [auto | ].
  intros H. apply orb_false_iff in H. destruct H as [H1 H2].
  apply orb_false_iff in H1. destruct H1 as [Hf Hg].
  rewrite Hf, Hg. apply IH. exact H2.
Qed.

Lemma find_existsb_false {A} (f g : A -> bool) (l : list A) :
  find f l = None -> find g l = None ->
  existsb (fun x => f x || g x) l = false.
Proof.
  induction l as [ | a l IH]; simpl; [auto | ].
  destruct (f a); [discriminate | ]. destruct (g a); [discriminate | ].
  simpl. exact IH.
Qed.

Lemma createPayment_fresh (request : CreatePaymentRequest.t) (random : Q)
    (w w' : World) (resp : PaymentResponse.t) :
  find (fun r => String.eqb (Payment.idempotency_key r)
                            (CreatePaymentRequest.idempotency_key request))
       (payments w) = None ->
  PaymentOrchestrator.createPayment request random w = (Ok resp, w') ->
  exists rate cfg,
    eval (ExchangeRateService.getExchangeRate
            (CreatePaymentRequest.source_currency request)
            (CreatePaymentRequest.destination_currency request) random) w = Ok rate /\
    FeeEngine.select (fee_configs w)
      (JS.toUpperCase (CreatePaymentRequest.destination_currency request)) = Some cfg /\
    payments w' = payments w ++ [new_payment request rate cfg (uuid_next w) (CURRENT_TIMESTAMP w)] /\
    resp = response_of (new_payment request rate cfg (uuid_next w) (CURRENT_TIMESTAMP w)) (clock w).
Proof.
  intros Hnone H.
  destruct (getExchangeRate_shape (CreatePaymentRequest.source_currency request)
              (CreatePaymentRequest.destination_currency request) random w)
    as (rate & rows & Hrate).
  unfold PaymentOrchestrator.createPayment in H.
  unfold PaymentOrchestrator.getPaymentByIdempotencyKey, bind at 1, gets at 1 in H.
  cbn beta iota in H. rewrite Hnone in H.
  unfold FeeEngine.isCurrencySupported, FeeEngine.getFeeConfig, bind at 1 2,
    gets at 1, ret at 1 in H.
  cbn beta iota in H.
  destruct (FeeEngine.select (fee_configs w)
              (JS.toUpperCase (CreatePaymentRequest.destination_currency request)))
    as [cfg | ] eqn:Hcfg; [ | discriminate].
  cbn [negb] in H.
  apply bind_ok_inv in H. destruct H as (rate' & w1 & H1 & H).
  rewrite Hrate in H1. injection H1 as <- <-.
  apply bind_ok_inv in H. destruct H as (fc & w2 & H2 & H).
  rewrite (calculateFees_found (set_exchange_rates rows w) _ _ cfg Hcfg) in H2. injection H2 as <- <-.
  apply bind_ok_inv in H. destruct H as (paymentId & w3 & H3 & H).
  unfold uuidv4 in H3. injection H3 as <- <-.
  apply bind_ok_inv in H. destruct H as (now & w4 & H4 & H).
  unfold gets in H4. injection H4 as <- <-.
  change (CURRENT_TIMESTAMP
            (set_uuid_next (S (uuid_next (set_exchange_rates rows w)))
               (set_exchange_rates rows w)))
    with (CURRENT_TIMESTAMP w) in H.
  apply bind_ok_inv in H. destruct H as (u & w5 & H5 & H).
  unfold Database.insert_payment in H5.
  match type of H5 with (if ?b then _ else _) = _ => destruct b eqn:Hex end;
    [discriminate | ].
  injection H5 as _ <-.
  apply existsb_false_find in Hex. destruct Hex as [Hid _].
  cbn [FeeCalculation.total_fee Payment.id payments set_uuid_next set_exchange_rates
       clock uuid_next set_payments] in *.
  fold (new_payment request rate cfg (uuid_next w) (CURRENT_TIMESTAMP w)) in H.
  set (np := new_payment request rate cfg (uuid_next w) (CURRENT_TIMESTAMP w)) in *.
  apply bind_ok_inv in H. destruct H as (u1 & w6 & H6 & H).
  assert (F6 : payments w6 = payments w ++ [np] /\ clock w6 = clock w).
  { destruct (CreatePaymentRequest.webhook_url request) as [[ | c s] | ];
      injection H6 as _ <-; split; reflexivity. }
  destruct F6 as [F6 C6].
  apply bind_ok_inv in H. destruct H as (u3 & w8 & H8 & H).
  unfold setTimeout in H8. injection H8 as _ <-.
  unfold PaymentOrchestrator.getPaymentById, bind, gets in H.
  cbn [payments set_timer_next set_timers clock fst snd] in H.
  rewrite F6 in H. rewrite (find_app_none _ _ _ Hid) in H.
  replace (find (fun r => Payment.id r =? uuid_next w) [np]) with (Some np) in H
    by (unfold np; simpl; rewrite Nat.eqb_refl; reflexivity).
  rewrite paymentToResponse_eq in H. injection H as <- <-.
  exists rate, cfg. split; [ | split; [reflexivity | split]].
  - unfold eval. rewrite Hrate. reflexivity.
  - exact F6.
  - cbn [clock set_timer_next set_timers]. rewrite C6. reflexivity.
Qed.

(** ** Basic invariants of the payments table *)

Lemma hoare_bind {A B} (P Q1 Q : World -> Prop) (m : M A) (k : A -> M B) :
  hoare P m Q1 -> (forall a, hoare Q1 (k a) Q) -> (forall w, Q1 w -> Q w) ->
  hoare P (bind m k) Q.
Proof.
  intros Hm Hk Hq w Hw. unfold bind. specialize (Hm w Hw).
  destruct (m w) as [[a | e] w1]; simpl in *.
  - apply Hk. exact Hm.
  - apply Hq. exact Hm.
Qed.

Lemma hoare_try_catch {A} (P Q1 Q : World -> Prop) (m : M A) (h : string -> M A) :
  hoare P m Q1 -> (forall e, hoare Q1 (h e) Q) -> (forall w, Q1 w -> Q w) ->
  hoare P (try_catch m h) Q.
Proof.
  intros Hm Hh Hq w Hw. unfold try_catch. specialize (Hm w Hw).
  destruct (m w) as [[a | e] w1]; simpl in *.
  - apply Hq. exact Hm.
  - apply Hh. exact Hm.
Qed.

Lemma hoare_conseq {A} (P P' Q Q' : World -> Prop) (m : M A) :
  hoare P' m Q' -> (forall w, P w -> P' w) -> (forall w, Q' w -> Q w) ->
  hoare P m Q.
Proof. intros H HP HQ w Hw. apply HQ. apply H. apply HP. exact Hw. Qed.

(** *** Conservation *)

Lemma conserved_keeps (f : Payment.t -> Payment.t) (p : Payment.t) :
  keeps f -> Spec.conserved p -> Spec.conserved (f p).
Proof.
  intros Hf [H1 H2]. destruct (Hf p) as (_ & _ & E1 & E2 & E3 & E4 & E5).
  unfold Spec.conserved. rewrite E1, E2, E3, E4, E5. split; assumption.
Qed.

Lemma all_conserved_update_payment (q : Id) (f : Payment.t -> Payment.t) :
  keeps f -> preserves all_conserved (Database.update_payment q f).
Proof.
  intros Hf w H. unfold all_conserved in *. simpl.
  apply Forall_map. eapply Forall_impl; [ | exact H].
  intros p Hp. simpl. destruct (Payment.id p =? q); [ | exact Hp].
  apply conserved_keeps; assumption.
Qed.

Lemma all_conserved_insert_payment (p : Payment.t) :
  Spec.conserved p -> preserves all_conserved (Database.insert_payment p).
Proof.
  intros Hp w H. unfold Database.insert_payment.
  destruct (existsb _ _); simpl; [exact H | ].
  unfold all_conserved. simpl. apply Forall_app. split; [exact H | ].
  constructor; [exact Hp | constructor].
Qed.

Lemma conserved_literal (i : Id) (u k : string) (a : Q) (sc : string) (dc : string)
    (rate : Q) (s : PaymentStatus.t) (r1 r2 : option string) (fee : Q) (c1 c2 : N) :
  Spec.conserved
    (Payment.mk i u k a sc (JS.round2 (JS.mul a rate)) dc rate s r1 r2 fee
                (JS.round2 (JS.add a (JS.div fee rate))) c1 c2).
Proof. split; reflexivity. Qed.

Ltac frame_all_conserved :=
  solve [ unfold_leaves; intros ? ?; unfold all_conserved in *; simpl; assumption ].

#[export] Hint Resolve all_conserved_update_payment all_conserved_insert_payment
  conserved_literal : pres.
#[export] Hint Extern 5 (preserves all_conserved _) => frame_all_conserved : pres.

Lemma all_conserved_fire (e : Event) (w w' : World) :
  all_conserved w -> fire e w = Some w' -> all_conserved w'.
Proof.
  apply fire_preserves_data; intros; try assumption; try solve [pres].
  destruct j; cbn [runJob]; pres.
Qed.

(** *** Payment ids come from the uuid supply *)

Lemma ids_tracked_weaken (a : Id) (L : list Id) (w : World) :
  ids_tracked (a :: L) w -> ids_tracked L w.
Proof. intros [H1 H2]. split; [exact H1 | ]. inversion H2; assumption. Qed.

Lemma ids_tracked_uuidv4 {B} (L : list Id) (k : Id -> M B) :
  (forall a, preserves (ids_tracked (a :: L)) (k a)) ->
  preserves (ids_tracked L) (bind uuidv4 k).
Proof.
  intros Hk w [H1 H2]. unfold bind, uuidv4.
  apply (ids_tracked_weaken (uuid_next w)). apply Hk.
  split; simpl.
  - unfold ids_drawn in *. simpl. eapply Forall_impl; [ | exact H1].
    intros p Hp. simpl in Hp. lia.
  - constructor; [lia | ]. eapply Forall_impl; [ | exact H2].
    intros p Hp. simpl in Hp. lia.
Qed.

Lemma ids_tracked_update_payment (L : list Id) (q : Id) (f : Payment.t -> Payment.t) :
  keeps f -> preserves (ids_tracked L) (Database.update_payment q f).
Proof.
  intros Hf w [H1 H2]. split; [ | exact H2].
  unfold ids_drawn in *. simpl. apply Forall_map.
  eapply Forall_impl; [ | exact H1]. intros p Hp. simpl.
  destruct (Payment.id p =? q); [ | exact Hp].
  destruct (Hf p) as [E _]. rewrite E. exact Hp.
Qed.

Lemma ids_tracked_insert_payment (L : list Id) (p : Payment.t) :
  In (Payment.id p) L -> preserves (ids_tracked L) (Database.insert_payment p).
Proof.
  intros Hin w [H1 H2]. unfold Database.insert_payment.
  destruct (existsb _ _); simpl; [split; assumption | ].
  split; [ | exact H2]. unfold ids_drawn in *. simpl.
  apply Forall_app. split; [exact H1 | ].
  constructor; [ | constructor].
  rewrite Forall_forall in H2. apply H2. exact Hin.
Qed.

Ltac frame_ids_tracked :=
  solve [ unfold_leaves; intros ? ?; unfold ids_tracked, ids_drawn in *; simpl;
          assumption ].

#[export] Hint Resolve ids_tracked_update_payment ids_tracked_insert_payment : pres.
#[export] Hint Extern 5 (preserves (ids_tracked _) _) => frame_ids_tracked : pres.
#[export] Hint Extern 1 (In _ _) => simpl; tauto : pres.

Ltac pres_ids :=
  repeat first
    [ apply ids_tracked_uuidv4; intro
    | pres_step
    | progress unfold_services ];
  eauto with pres.

Lemma ids_drawn_fire (e : Event) (w w' : World) :
  ids_drawn w -> fire e w = Some w' -> ids_drawn w'.
Proof.
  assert (E : forall w, ids_drawn w <-> ids_tracked [] w).
  { intros w0. unfold ids_tracked. intuition. }
  intros H Hf. apply E. apply E in H. revert H Hf.
  apply fire_preserves_data; intros; try assumption; try solve [pres_ids].
  destruct j; cbn [runJob]; pres_ids.
Qed.

Lemma reachable_basics (w : World) :
  reachable w -> ids_drawn w /\ all_conserved w.
Proof.
  revert w. apply (reachable_ind (fun w => ids_drawn w /\ all_conserved w)).
  - split; constructor.
  - intros e w0 w' [H1 H2] Hf. split.
    + eapply ids_drawn_fire; eassumption.
    + eapply all_conserved_fire; eassumption.
Qed.
(** ** Rate oracle *)

Section RateFacts.
Local Open Scope Q_scope.

  (** *** Lookups in an object *)

Lemma get_In {V} (o : JS.Obj V) (k : string) (v : V) :
    JS.get o k = Some v -> In (k, v) o.
Proof.
    induction o as [ | [k' v'] o IH]; simpl; [discriminate | ].
    destruct (String.eqb_spec k' k) as [-> | _].
    - intros E. injection E as ->. left. reflexivity.
    - intros E. right. apply IH. exact E.
Qed.

Lemma get_None {V} (o : JS.Obj V) (k : string) :
    JS.get o k = None <-> ~ In k (map fst o).
Proof.
    induction o as [ | [k' v'] o IH]; simpl; [tauto | ].
    destruct (String.eqb_spec k' k) as [-> | Hne].
    - split; [discriminate | intros H; exfalso; apply H; left; reflexivity].
    - rewrite IH. tauto.
Qed.

Lemma get2_In (o : JS.Obj (JS.Obj Q)) (a b : string) (v : Q) :
    JS.get2 o a b = Some v -> exists row, In (a, row) o /\ In (b, v) row.
Proof.
    unfold JS.get2. destruct (JS.get o a) as [row | ] eqn:E; [ | discriminate].
    intros H. exists row. split; apply get_In; assumption.
Qed.

  (** *** The table of the service *)

Lemma table_positive (a b : string) (v : Q) :
    JS.get2 ExchangeRateService.initialRates a b = Some v ->
    0 < v /\ JS.rnd v == v.
Proof.
    intros H. apply get2_In in H. destruct H as (row & Hrow & Hv).
    assert (G : rates_positive ExchangeRateService.initialRates = true)
      by (vm_compute; reflexivity).
    unfold rates_positive in G. rewrite forallb_forall in G.
    specialize (G _ Hrow). simpl in G. rewrite forallb_forall in G.
    specialize (G _ Hv). simpl in G. apply andb_prop in G. destruct G as [G1 G2].
    split.
    - apply Qle_bool_false. apply negb_true_iff. exact G1.
    - apply Qeq_bool_iff. exact G2.
Qed.

Lemma table_symmetric (c : string) :
    c <> "USD"%string ->
    JS.get2 ExchangeRateService.initialRates "USD" c = None ->
    JS.get2 ExchangeRateService.initialRates c "USD" = None.
Proof.
    intros Hc H.
    assert (K : map fst ExchangeRateService.initialRates =
                "USD"%string ::
                map fst (match JS.get ExchangeRateService.initialRates "USD" with
                         | Some row => row | None => [] end))
      by (vm_compute; reflexivity).
    unfold JS.get2 in *.
    destruct (JS.get ExchangeRateService.initialRates "USD") as [usd | ] eqn:Eu;
      [ | vm_compute in Eu; discriminate Eu].
    apply get_None in H.
    assert (N : JS.get ExchangeRateService.initialRates c = None).
    { apply get_None. rewrite K. simpl. intros [E | E]; [congruence | contradiction]. }
    rewrite N. reflexivity.
Qed.

Lemma mul_one_l (b : Q) : JS.rnd b == b -> JS.mul 1 b == b.
Proof. intros H. unfold JS.mul. rewrite <- H at 2. apply rnd_Proper. ring. Qed.

Lemma mul_one_r (a : Q) : JS.rnd a == a -> JS.mul a 1 == a.
Proof. intros H. unfold JS.mul. rewrite <- H at 2. apply rnd_Proper. ring. Qed.

Lemma truthy_pos (v : Q) : 0 < v -> JS.truthy v = true.
Proof.
    intros H. unfold JS.truthy. destruct (Qeq_bool v 0) eqn:E; [ | reflexivity].
    apply Qeq_bool_iff in E. rewrite E in H. discriminate H.
Qed.

  (** The base rate of a pair with no direct, inverse or cross rate. *)
Lemma getBaseRate_fallback (src dst : string) :
    JS.get2 ExchangeRateService.initialRates src dst = None ->
    JS.get2 ExchangeRateService.initialRates dst src = None ->
    Spec.no_cross_rate ExchangeRateService.initialRates src dst ->
    ExchangeRateService.getBaseRate ExchangeRateService.initialRates src dst ==
      Spec.fallback_rate ExchangeRateService.initialRates src dst.
Proof.
    intros Hd Hi Hc.
    unfold ExchangeRateService.getBaseRate, Spec.fallback_rate.
    rewrite Hd, Hi. cbn [JS.truthy_opt].
    destruct (String.eqb_spec src "USD") as [Es | Es]; cbn [negb andb orb];
      [reflexivity | ].
    destruct (String.eqb_spec dst "USD") as [Et | Et]; cbn [negb andb orb];
      [reflexivity | ].
    destruct Hc as [Hc | [Hc | [[H1 H2] | [H1 H2]]]]; try contradiction.
    - (* the source has no leg *)
      rewrite H1, H2. cbn [JS.or_else JS.inv_opt].
      destruct (JS.get2 ExchangeRateService.initialRates "USD" dst) as [b | ] eqn:Eb.
      + destruct (table_positive _ _ _ Eb) as [Pb Rb].
        cbn [JS.or_else]. rewrite (truthy_pos b Pb). apply mul_one_l. exact Rb.
      + rewrite (table_symmetric dst Et Eb). cbn [JS.or_else JS.inv_opt].
        vm_compute. reflexivity.
    - (* the destination has no leg *)
      rewrite H1, H2. cbn [JS.or_else JS.inv_opt].
      destruct (JS.get2 ExchangeRateService.initialRates src "USD") as [a | ] eqn:Ea.
      + destruct (table_positive _ _ _ Ea) as [Pa Ra].
        cbn [JS.or_else]. rewrite (truthy_pos a Pa). apply mul_one_r. exact Ra.
      + destruct (JS.get2 ExchangeRateService.initialRates "USD" src) as [a' | ] eqn:Ea'.
        * exfalso.
          assert (K : JS.get2 ExchangeRateService.initialRates src "USD" <> None).
          { intros _.
            apply get2_In in Ea'. destruct Ea' as (row & Hrow & Hv).
            assert (Ku : JS.get ExchangeRateService.initialRates "USD" = Some row).
            { revert Hrow. vm_compute.
              intros [E | E]; [injection E as <-; reflexivity | ].
              repeat (destruct E as [E | E]; [discriminate E | ]). contradiction. }
            assert (Kc : In src (map fst row)).
            { apply in_map_iff. exists (src, a'). split; [reflexivity | exact Hv]. }
            assert (Kr : rows_reach_usd ExchangeRateService.initialRates = true)
              by (vm_compute; reflexivity).
            assert (Kk : map fst ExchangeRateService.initialRates =
                         "USD"%string :: map fst row).
            { revert Ku. vm_compute. intros E. injection E as <-. reflexivity. }
            assert (Ks : In src (map fst ExchangeRateService.initialRates)).
            { rewrite Kk. right. exact Kc. }
            destruct (JS.get ExchangeRateService.initialRates src) as [r | ] eqn:Er.
            - unfold rows_reach_usd in Kr. rewrite forallb_forall in Kr.
              specialize (Kr _ (get_In _ _ _ Er)). simpl in Kr.
              destruct (String.eqb_spec src "USD"); [contradiction | ].
              simpl in Kr. unfold JS.get2 in Ea. rewrite Er in Ea.
              rewrite Ea in Kr. discriminate Kr.
            - apply get_None in Er. contradiction. }
          apply K. exact Ea.
        * cbn [JS.or_else JS.inv_opt]. vm_compute. reflexivity.
Qed.

  (** *** Jitter *)

Lemma variation_bounds (random : Q) :
    Spec.is_random random ->
    JS.num 0.98 <= JS.add 1 (JS.mul (JS.sub random 0.5) (JS.num 0.04)) /\
    JS.add 1 (JS.mul (JS.sub random 0.5) (JS.num 0.04)) <= JS.num 1.02.
Proof.
    intros [H0 H1].
    assert (P : 0 <= JS.num 0.04) by (vm_compute; discriminate).
    assert (E0 : JS.num 0.98 == JS.add 1 (JS.mul (JS.sub 0 0.5) (JS.num 0.04)))
      by (vm_compute; reflexivity).
    assert (E1 : JS.num 1.02 == JS.add 1 (JS.mul (JS.sub 1 0.5) (JS.num 0.04)))
      by (vm_compute; reflexivity).
    split.
    - rewrite E0. apply add_mono; [apply Qle_refl | ].
      apply mul_mono_l; [exact P | ]. apply sub_mono_l. exact H0.
    - rewrite E1. apply add_mono; [apply Qle_refl | ].
      apply mul_mono_l; [exact P | ]. apply sub_mono_l. apply Qlt_le_weak. exact H1.
Qed.

Lemma fetchExchangeRate_bounds (rates : JS.Obj (JS.Obj Q)) (src dst : string)
      (random : Q) :
    Spec.is_random random ->
    0 <= ExchangeRateService.getBaseRate rates src dst ->
    JS.round5 (JS.mul (ExchangeRateService.getBaseRate rates src dst) (JS.num 0.98)) <=
      ExchangeRateService.fetchExchangeRate rates src dst random /\
    ExchangeRateService.fetchExchangeRate rates src dst random <=
      JS.round5 (JS.mul (ExchangeRateService.getBaseRate rates src dst) (JS.num 1.02)).
Proof.
    intros Hr Hb. destruct (variation_bounds random Hr) as [L U].
    unfold ExchangeRateService.fetchExchangeRate. cbv zeta.
    split; apply round5_mono; apply mul_mono_r; assumption.
Qed.

Lemma getExchangeRate_miss (w : World) (src dst : string) (random : Q) :
    src <> dst ->
    eval (ExchangeRateService.getCachedRate src dst) w = Ok None ->
    eval (ExchangeRateService.getExchangeRate src dst random) w =
      Ok (ExchangeRateService.fetchExchangeRate (mockRates w) src dst random).
Proof.
    intros Hne Hmiss. unfold ExchangeRateService.getExchangeRate.
    destruct (String.eqb_spec src dst); [contradiction | ].
    unfold eval, bind in *.
    unfold ExchangeRateService.getCachedRate, gets in *. simpl in *.
    injection Hmiss as ->. reflexivity.
Qed.

  (** *** The table is never written *)

Lemma rates_intact_insert_payment (p : Payment.t) :
    preserves rates_intact (Database.insert_payment p).
Proof.
    intros w H. unfold Database.insert_payment.
    destruct (existsb _ _); simpl; exact H.
Qed.

End RateFacts.

Ltac frame_rates_intact :=
  solve [ unfold_leaves; intros ? ?; unfold rates_intact in *; simpl; assumption ].

#[export] Hint Resolve rates_intact_insert_payment : pres.
#[export] Hint Extern 5 (preserves rates_intact _) => frame_rates_intact : pres.

Lemma rates_intact_fire (e : Event) (w w' : World) :
  rates_intact w -> fire e w = Some w' -> rates_intact w'.
Proof.
  apply fire_preserves_data; intros; try assumption; try solve [pres].
  destruct j; cbn [runJob]; pres.
Qed.

Lemma reachable_rates (w : World) : reachable w -> rates_intact w.
Proof.
  revert w. apply reachable_ind; [reflexivity | apply rates_intact_fire].
Qed.

Section UnconfiguredPairs.
Local Open Scope Q_scope.

Lemma fallback_rate_nonneg (src dst : string) :
    0 <= Spec.fallback_rate ExchangeRateService.initialRates src dst.
Proof.
    unfold Spec.fallback_rate.
    destruct (String.eqb src "USD" || String.eqb dst "USD"); [discriminate | ].
    destruct (JS.get2 ExchangeRateService.initialRates src "USD") as [a | ] eqn:Ea;
      destruct (JS.get2 ExchangeRateService.initialRates "USD" dst) as [b | ] eqn:Eb;
      try discriminate.
    - apply Qlt_le_weak. apply (table_positive _ _ _ Ea).
    - apply Qlt_le_weak. apply (table_positive _ _ _ Eb).
Qed.

  (** C9 (as amended).  Take two distinct currencies with no direct rate, no
      inverse rate and no cross rate via USD in the table of the running
      service, and a value of [Math.random()] in [0, 1).  [getExchangeRate]
      does not throw.  The base rate is exactly 1.0 when one of the two is USD
      or neither has a rate against USD; when exactly one of them has a rate
      against USD the missing leg counts as 1 and the base rate is that one
      rate, not 1.0.  An unexpired cached rate for the pair is returned as it
      is; otherwise the answer is the base rate times a factor between 0.98
      and 1.02, rounded to five decimals, and it is cached. *)
Theorem getExchangeRate_unconfigured_pair :
    forall (w : World) (src dst : string) (random : Q),
      reachable w ->
      src <> dst ->
      Spec.is_random random ->
      JS.get2 (mockRates w) src dst = None ->
      JS.get2 (mockRates w) dst src = None ->
      Spec.no_cross_rate (mockRates w) src dst ->
      ExchangeRateService.getBaseRate (mockRates w) src dst ==
        Spec.fallback_rate (mockRates w) src dst /\
      (src = "USD"%string \/ dst = "USD"%string \/
         (Spec.no_usd_leg (mockRates w) src /\ Spec.no_usd_leg (mockRates w) dst) ->
       ExchangeRateService.getBaseRate (mockRates w) src dst == 1) /\
      exists r w',
        ExchangeRateService.getExchangeRate src dst random w = (Ok r, w') /\
        match eval (ExchangeRateService.getCachedRate src dst) w with
        | Ok (Some cached) => r = ExchangeRate.rate cached /\ w' = w
        | _ =>
            (exists v,
                JS.num 0.98 <= v /\ v <= JS.num 1.02 /\
                r = JS.round5
                      (JS.mul (ExchangeRateService.getBaseRate (mockRates w) src dst) v)) /\
            JS.round5 (JS.mul (ExchangeRateService.getBaseRate (mockRates w) src dst)
                              (JS.num 0.98)) <= r /\
            r <= JS.round5 (JS.mul (ExchangeRateService.getBaseRate (mockRates w) src dst)
                                   (JS.num 1.02)) /\
            w' = exec (ExchangeRateService.cacheRate src dst r) w
        end.
Proof.
    intros w src dst random Hreach Hne Hr Hd Hi Hc.
    pose proof (reachable_rates w Hreach) as Hrates. unfold rates_intact in Hrates.
    rewrite Hrates in *.
    pose proof (getBaseRate_fallback src dst Hd Hi Hc) as Hb.
    split; [exact Hb | ]. split.
    - intros Hone. rewrite Hb. unfold Spec.fallback_rate.
      destruct (String.eqb_spec src "USD") as [Es | Es]; cbn [orb]; [reflexivity | ].
      destruct (String.eqb_spec dst "USD") as [Et | Et]; cbn [orb]; [reflexivity | ].
      destruct Hone as [H | [H | [[H1 _] [_ H2]]]]; try contradiction.
      rewrite H1, H2. reflexivity.
    - assert (Eg : ExchangeRateService.getExchangeRate src dst random w =
                   match eval (ExchangeRateService.getCachedRate src dst) w with
                   | Ok (Some c) => (Ok (ExchangeRate.rate c), w)
                   | _ =>
                       (Ok (ExchangeRateService.fetchExchangeRate
                              ExchangeRateService.initialRates src dst random),
                        exec (ExchangeRateService.cacheRate src dst
                                (ExchangeRateService.fetchExchangeRate
                                   ExchangeRateService.initialRates src dst random)) w)
                   end).
      { unfold ExchangeRateService.getExchangeRate.
        destruct (String.eqb_spec src dst) as [E | _]; [contradiction | ].
        unfold eval, exec, bind, ExchangeRateService.getCachedRate, gets, ret.
        cbn [fst snd].
        match goal with |- context [ExchangeRateService.newest ?l None] =>
          destruct (ExchangeRateService.newest l None) as [c | ] end;
          [reflexivity | ].
        rewrite Hrates. reflexivity. }
      rewrite Eg.
      destruct (eval (ExchangeRateService.getCachedRate src dst) w) as [[c | ] | e].
      + exists (ExchangeRate.rate c), w. split; [reflexivity | split; reflexivity].
      + eexists. eexists. split; [reflexivity | ].
        assert (Hpos : 0 <= ExchangeRateService.getBaseRate
                              ExchangeRateService.initialRates src dst).
        { rewrite Hb. apply fallback_rate_nonneg. }
        destruct (fetchExchangeRate_bounds ExchangeRateService.initialRates src dst
                    random Hr Hpos) as [L U].
        split; [ | split; [exact L | split; [exact U | reflexivity]]].
        exists (JS.add 1 (JS.mul (JS.sub random 0.5) (JS.num 0.04))).
        destruct (variation_bounds random Hr) as [Lv Uv].
        split; [exact Lv | split; [exact Uv | reflexivity]].
      + eexists. eexists. split; [reflexivity | ].
        assert (Hpos : 0 <= ExchangeRateService.getBaseRate
                              ExchangeRateService.initialRates src dst).
        { rewrite Hb. apply fallback_rate_nonneg. }
        destruct (fetchExchangeRate_bounds ExchangeRateService.initialRates src dst
                    random Hr Hpos) as [L U].
        split; [ | split; [exact L | split; [exact U | reflexivity]]].
        exists (JS.add 1 (JS.mul (JS.sub random 0.5) (JS.num 0.04))).
        destruct (variation_bounds random Hr) as [Lv Uv].
        split; [exact Lv | split; [exact Uv | reflexivity]].
Qed.

Lemma getExchangeRate_unconfigured_pair_witness :
    ExchangeRateService.getBaseRate (mockRates initialWorld) "XYZ" "ABC" == 1 /\
    exists r w',
      ExchangeRateService.getExchangeRate "XYZ" "ABC" 0.25 initialWorld = (Ok r, w') /\
      JS.round5 (JS.mul (ExchangeRateService.getBaseRate (mockRates initialWorld)
                           "XYZ" "ABC") (JS.num 0.98)) <= r.
Proof.
    assert (Hne : "XYZ"%string <> "ABC"%string) by discriminate.
    assert (Hr : Spec.is_random 0.25) by (split; [discriminate | reflexivity]).
    assert (Hc : Spec.no_cross_rate (mockRates initialWorld) "XYZ" "ABC").
    { right. right. left. split; vm_compute; reflexivity. }
    assert (Hd : JS.get2 (mockRates initialWorld) "XYZ" "ABC" = None)
      by (vm_compute; reflexivity).
    assert (Hi : JS.get2 (mockRates initialWorld) "ABC" "XYZ" = None)
      by (vm_compute; reflexivity).
    destruct (getExchangeRate_unconfigured_pair initialWorld "XYZ" "ABC" 0.25
                reachable_initial Hne Hr Hd Hi Hc) as (_ & H1 & r & w' & E & H).
    split.
    - apply H1. right. right. split; split; vm_compute; reflexivity.
    - exists r, w'. split; [exact E | ].
      assert (Hm : eval (ExchangeRateService.getCachedRate "XYZ" "ABC") initialWorld
                   = Ok None) by (vm_compute; reflexivity).
      rewrite Hm in H. destruct H as (_ & L & _). exact L.
Defined.

  (** C9, counterexample: XYZ has no rate at all and EUR only a USD rate, so
      the table holds no direct, inverse or cross rate for XYZ to EUR; the
      base rate is 0.85, not 1.0, and with no jitter ([random = 0.5]) the rate
      returned is 0.85, outside 1.0 +- 2%. *)
Lemma getBaseRate_half_configured :
    JS.get2 ExchangeRateService.initialRates "XYZ" "EUR" = None /\
    JS.get2 ExchangeRateService.initialRates "EUR" "XYZ" = None /\
    Spec.no_usd_leg ExchangeRateService.initialRates "XYZ" /\
    ~ (ExchangeRateService.getBaseRate ExchangeRateService.initialRates "XYZ" "EUR" == 1.0) /\
    match eval (ExchangeRateService.getExchangeRate "XYZ" "EUR" 0.5) initialWorld with
    | Ok r => r == JS.num 0.85 /\ ~ (JS.num 0.98 <= r)
    | Throw _ => False
    end.
Proof.
    split; [vm_compute; reflexivity | ]. split; [vm_compute; reflexivity | ].
    split; [split; vm_compute; reflexivity | ].
    split; [vm_compute; discriminate | ].
    vm_compute. split; [reflexivity | ]. intros H. apply H. reflexivity.
Qed.
End UnconfiguredPairs.

(** ** Claims about [createPayment] and [cancelPayment] *)

Lemma ids_drawn_no_row (w : World) :
  ids_drawn w -> find (fun r => Payment.id r =? uuid_next w) (payments w) = None.
Proof.
  unfold ids_drawn. induction (payments w) as [ | p l IH]; simpl; [reflexivity | ].
  intros H. inversion H as [ | ? ? Hp Hl]; subst.
  destruct (Nat.eqb_spec (Payment.id p) (uuid_next w)); [lia | ].
  apply IH. exact Hl.
Qed.

Lemma createPayment_succeeds (request : CreatePaymentRequest.t) (random : Q)
    (w : World) (cfg : FeeConfig.t) :
  ids_drawn w ->
  FeeEngine.select (fee_configs w)
    (JS.toUpperCase (CreatePaymentRequest.destination_currency request)) = Some cfg ->
  exists resp w', PaymentOrchestrator.createPayment request random w = (Ok resp, w').
Proof.
  intros Hids Hcfg.
  destruct (find (fun r => String.eqb (Payment.idempotency_key r)
                             (CreatePaymentRequest.idempotency_key request))
                 (payments w)) as [p | ] eqn:Hkey.
  - rewrite (createPayment_replay request random w p Hkey).
    rewrite paymentToResponse_eq. eexists. eexists. reflexivity.
  - destruct (getExchangeRate_shape (CreatePaymentRequest.source_currency request)
                (CreatePaymentRequest.destination_currency request) random w)
      as (rate & rows & Hrate).
    pose proof (ids_drawn_no_row w Hids) as Hid.
    pose proof (find_existsb_false _ _ _ Hid Hkey) as Hex.
    unfold PaymentOrchestrator.createPayment.
    unfold PaymentOrchestrator.getPaymentByIdempotencyKey, bind at 1, gets at 1.
    cbn beta iota. rewrite Hkey.
    unfold FeeEngine.isCurrencySupported, FeeEngine.getFeeConfig, bind at 1 2,
      gets at 1, ret at 1.
    cbn beta iota. rewrite Hcfg. cbn [negb].
    unfold bind at 1. rewrite Hrate.
    unfold bind at 1.
    rewrite (calculateFees_found (set_exchange_rates rows w) _ _ cfg Hcfg).
    unfold bind at 1, uuidv4. unfold bind at 1, gets at 1.
    unfold bind at 1, Database.insert_payment.
    cbn [Payment.id Payment.idempotency_key payments set_uuid_next set_exchange_rates
         FeeCalculation.total_fee clock uuid_next].
    rewrite Hex.
    destruct (CreatePaymentRequest.webhook_url request) as [[ | c s] | ];
      unfold bind, setTimeout, PaymentOrchestrator.getPaymentById, gets; simpl;
      rewrite (find_app_none _ _ _ Hid); simpl; rewrite Nat.eqb_refl;
      eexists; eexists; reflexivity.
Qed.

Section Near.
Local Open Scope Q_scope.


End Near.




(** C1.  If [createPayment R1] returned a payment, then in every later
    state a call [createPayment R2] with the same idempotency key (whatever
    the rest of [R2] is) returns normally the projection of the row stored
    under that key, whose id is the one returned for [R1], and leaves the
    whole world as it was: no payment row is inserted, and no settlement
    transaction, webhook or timer is created. *)
Theorem createPayment_idempotent :
  forall (w w1 w2 : World) (R1 R2 : CreatePaymentRequest.t) (random1 random2 : Q)
         (resp1 : PaymentResponse.t) (es : list Event),
    CreatePaymentRequest.idempotency_key R1 = CreatePaymentRequest.idempotency_key R2 ->
    PaymentOrchestrator.createPayment R1 random1 w = (Ok resp1, w1) ->
    run es w1 = Some w2 ->
    exists p,
      find (fun r => String.eqb (Payment.idempotency_key r)
                                (CreatePaymentRequest.idempotency_key R2))
           (payments w2) = Some p /\
      Payment.id p = PaymentResponse.id resp1 /\
      PaymentOrchestrator.createPayment R2 random2 w2 =
        (Ok (response_of p (clock w2)), w2).
Proof.
  intros w w1 w2 R1 R2 random1 random2 resp1 es Hk H1 Hrun.
  assert (K1 : key_id (CreatePaymentRequest.idempotency_key R1)
                      (PaymentResponse.id resp1) w1).
  { destruct (find (fun r => String.eqb (Payment.idempotency_key r)
                               (CreatePaymentRequest.idempotency_key R1))
                   (payments w)) as [p0 | ] eqn:Hkey.
    - rewrite (createPayment_replay R1 random1 w p0 Hkey) in H1.
      rewrite paymentToResponse_eq in H1. injection H1 as <- <-.
      exists p0. split; [exact Hkey | reflexivity].
    - destruct (createPayment_fresh R1 random1 w w1 resp1 Hkey H1)
        as (rate & cfg & _ & _ & Hpay & Hresp).
      exists (new_payment R1 rate cfg (uuid_next w) (CURRENT_TIMESTAMP w)).
      split; [ | rewrite Hresp; reflexivity].
      rewrite Hpay, (find_app_none _ _ _ Hkey). simpl.
      rewrite String.eqb_refl. reflexivity. }
  destruct (key_id_run _ _ es w1 w2 K1 Hrun) as [p [Hp Hid]].
  rewrite Hk in Hp.
  exists p. split; [exact Hp | ]. split; [exact Hid | ].
  rewrite (createPayment_replay R2 random2 w2 p Hp). apply paymentToResponse_eq.
Qed.

Lemma createPayment_idempotent_witness :
  exists p,
    Payment.id p = 0 /\
    PaymentOrchestrator.createPayment
      (CreatePaymentRequest.mk "u2" "key-1" 250 "USD" "GBP" None) 0.1 after_scenarioA
      = (Ok (response_of p (clock after_scenarioA)), after_scenarioA).
Proof.
  destruct (createPayment_idempotent initialWorld after_scenarioA after_scenarioA
              (scenarioA "u1" "key-1" None)
              (CreatePaymentRequest.mk "u2" "key-1" 250 "USD" "GBP" None)
              0.5 0.1
              (response_of
                 (new_payment (scenarioA "u1" "key-1" None) (JS.num 0.85)
                    (FeeConfig.mk 1 "EUR" 2.50 (JS.num 0.0299) 1.00 (Some 50.00%Q) 0) 0 0) 0)
              [] eq_refl ltac:(vm_compute; reflexivity) eq_refl)
    as (p & _ & Hid & H).
  exists p. split; [exact Hid | exact H].
Defined.

Section ScenarioA.
Local Open Scope Q_scope.

Lemma scenarioA_fee (cfg : FeeConfig.t) (mx rate : Q) :
    FeeConfig.base_fee cfg == 2.50 ->
    FeeConfig.percentage_fee cfg == JS.num 0.0299 ->
    FeeConfig.minimum_fee cfg == 1.00 ->
    FeeConfig.maximum_fee cfg = Some mx -> mx == 50.00 ->
    rate == JS.num 0.85 ->
    FeeEngine.totalFee cfg (JS.mul 100 rate) = JS.num 5.04.
Proof.
    intros Hb Hp Hm Hx Hmx Hr. rewrite totalFee_clamp.
    assert (Ht : JS.truthy mx = true).
    { unfold JS.truthy. destruct (Qeq_bool mx 0) eqn:E; [ | reflexivity].
      apply Qeq_bool_iff in E. rewrite Hmx in E. discriminate. }
    unfold Spec.effective_maximum, Spec.clamp. rewrite Hx, Ht.
    assert (Hraw : JS.add (FeeConfig.base_fee cfg)
                     (JS.mul (JS.mul 100 rate) (FeeConfig.percentage_fee cfg))
                   = JS.add 2.50 (JS.mul (JS.mul 100 (JS.num 0.85)) (JS.num 0.0299))).
    { apply add_comp; [exact Hb | ].
      rewrite (mul_comp (JS.mul 100 rate) (FeeConfig.percentage_fee cfg)
                        (JS.mul 100 (JS.num 0.85)) (JS.num 0.0299)).
      - reflexivity.
      - rewrite (mul_comp 100 rate 100 (JS.num 0.85)); [reflexivity | reflexivity | exact Hr].
      - exact Hp. }
    rewrite Hraw.
    transitivity (JS.round2 (JS.add 2.50 (JS.mul (JS.mul 100 (JS.num 0.85)) (JS.num 0.0299)))).
    - apply round2_comp. rewrite Hm, Hmx.
      rewrite Q.max_l by (vm_compute; discriminate).
      rewrite Q.min_l by (vm_compute; discriminate). reflexivity.
    - vm_compute. reflexivity.
Qed.

  (** C6.  A new request for 100 USD to EUR, with the rate service answering
      0.85 and the EUR schedule being base 2.50, 2.99 %, minimum 1.00 and
      maximum 50.00, is answered with destination amount 85.00, fee 5.04 and
      total 105.93, and the row persisted for it carries the same amounts.
      The amounts are the numbers these decimals denote. *)
Theorem scenarioA_amounts :
    forall (w w' : World) (user key : string) (url : option string) (random : Q)
           (resp : PaymentResponse.t) (cfg : FeeConfig.t) (mx rate : Q),
      find (fun r => String.eqb (Payment.idempotency_key r) key) (payments w) = None ->
      FeeEngine.select (fee_configs w) "EUR" = Some cfg ->
      FeeConfig.base_fee cfg == JS.num 2.50 ->
      FeeConfig.percentage_fee cfg == JS.num 0.0299 ->
      FeeConfig.minimum_fee cfg == JS.num 1.00 ->
      FeeConfig.maximum_fee cfg = Some mx -> mx == JS.num 50.00 ->
      eval (ExchangeRateService.getExchangeRate "USD" "EUR" random) w = Ok rate ->
      rate == JS.num 0.85 ->
      PaymentOrchestrator.createPayment (scenarioA user key url) random w = (Ok resp, w') ->
      PaymentResponse.destination_amount resp == JS.num 85.00 /\
      PaymentResponse.fee_amount resp == JS.num 5.04 /\
      PaymentResponse.total_amount resp == JS.num 105.93 /\
      exists p,
        In p (payments w') /\ Payment.id p = PaymentResponse.id resp /\
        Payment.destination_amount p == JS.num 85.00 /\
        Payment.fee_amount p == JS.num 5.04 /\
        Payment.total_amount p == JS.num 105.93.
Proof.
    intros w w' user key url random resp cfg mx rate
           Hkey Hcfg Hb Hp Hm Hx Hmx Hrate Hr H.
    assert (Hb' : FeeConfig.base_fee cfg == 2.50) by (rewrite Hb; vm_compute; reflexivity).
    assert (Hm' : FeeConfig.minimum_fee cfg == 1.00) by (rewrite Hm; vm_compute; reflexivity).
    assert (Hmx' : mx == 50.00) by (rewrite Hmx; vm_compute; reflexivity).
    destruct (createPayment_fresh (scenarioA user key url) random w w' resp Hkey H)
      as (rate' & cfg' & Hrate' & Hcfg' & Hpay & Hresp).
    assert (Hrate'' : eval (ExchangeRateService.getExchangeRate "USD" "EUR" random) w
                      = Ok rate') by exact Hrate'.
    assert (Hcfg'' : FeeEngine.select (fee_configs w) "EUR" = Some cfg') by exact Hcfg'.
    clear Hrate' Hcfg'.
    rewrite Hrate in Hrate''. injection Hrate'' as <-.
    rewrite Hcfg in Hcfg''. injection Hcfg'' as <-.
    set (np := new_payment (scenarioA user key url) rate cfg (uuid_next w)
                 (CURRENT_TIMESTAMP w)) in *.
    assert (D : Payment.destination_amount np == JS.num 85.00).
    { unfold np, new_payment, scenarioA.
      cbn [Payment.destination_amount CreatePaymentRequest.source_amount].
      rewrite (round2_comp (JS.mul 100 rate) (JS.mul 100 (JS.num 0.85))).
      - vm_compute. reflexivity.
      - rewrite (mul_comp 100 rate 100 (JS.num 0.85)); [reflexivity | reflexivity | exact Hr]. }
    assert (F : Payment.fee_amount np = JS.num 5.04).
    { unfold np, new_payment, scenarioA.
      cbn [Payment.fee_amount CreatePaymentRequest.source_amount].
      apply (scenarioA_fee cfg mx rate); assumption. }
    assert (T : Payment.total_amount np == JS.num 105.93).
    { unfold np, new_payment, scenarioA.
      cbn [Payment.total_amount CreatePaymentRequest.source_amount].
      rewrite (scenarioA_fee cfg mx rate) by assumption.
      rewrite (round2_comp (JS.add 100 (JS.div (JS.num 5.04) rate))
                           (JS.add 100 (JS.div (JS.num 5.04) (JS.num 0.85)))).
      - vm_compute. reflexivity.
      - rewrite (div_comp (JS.num 5.04) rate (JS.num 5.04) (JS.num 0.85));
          [reflexivity | reflexivity | exact Hr]. }
    assert (F' : Payment.fee_amount np == JS.num 5.04) by (rewrite F; reflexivity).
    subst resp. cbn [response_of PaymentResponse.destination_amount
                     PaymentResponse.fee_amount PaymentResponse.total_amount
                     PaymentResponse.id].
    split; [exact D | ]. split; [exact F' | ]. split; [exact T | ].
    exists np. split; [rewrite Hpay; apply in_or_app; right; left; reflexivity | ].
    split; [reflexivity | ]. split; [exact D | ]. split; [exact F' | exact T].
Qed.

Lemma scenarioA_amounts_witness :
    match eval (PaymentOrchestrator.createPayment (scenarioA "u1" "key-1" None) 0.5)
               initialWorld with
    | Ok resp =>
        PaymentResponse.destination_amount resp == JS.num 85.00 /\
        PaymentResponse.fee_amount resp == JS.num 5.04 /\
        PaymentResponse.total_amount resp == JS.num 105.93
    | Throw _ => False
    end.
Proof.
    assert (E : eval (PaymentOrchestrator.createPayment (scenarioA "u1" "key-1" None) 0.5)
                     initialWorld =
                Ok (response_of
                      (new_payment (scenarioA "u1" "key-1" None) (JS.num 0.85)
                         (FeeConfig.mk 1 "EUR" 2.50 (JS.num 0.0299) 1.00 (Some 50.00) 0)
                         0%nat 0%N) 0%N))
      by (vm_compute; reflexivity).
    rewrite E.
    destruct (scenarioA_amounts initialWorld after_scenarioA "u1" "key-1" None 0.5
                (response_of
                   (new_payment (scenarioA "u1" "key-1" None) (JS.num 0.85)
                      (FeeConfig.mk 1 "EUR" 2.50 (JS.num 0.0299) 1.00 (Some 50.00) 0)
                      0%nat 0%N) 0%N)
                (FeeConfig.mk 1 "EUR" 2.50 (JS.num 0.0299) 1.00 (Some 50.00) 0) 50.00
                (JS.num 0.85)
                ltac:(vm_compute; reflexivity) ltac:(vm_compute; reflexivity)
                ltac:(vm_compute; reflexivity) ltac:(vm_compute; reflexivity)
                ltac:(vm_compute; reflexivity) ltac:(vm_compute; reflexivity)
                ltac:(vm_compute; reflexivity) ltac:(vm_compute; reflexivity)
                ltac:(vm_compute; reflexivity) ltac:(vm_compute; reflexivity))
      as (D & F & T & _).
    exact (conj D (conj F T)).
Defined.
End ScenarioA.

Lemma find_id_map (f : Payment.t -> Payment.t) (q : Id) (rows : list Payment.t) :
  keeps f ->
  find (fun r => Payment.id r =? q)
       (map (fun r => if Payment.id r =? q then f r else r) rows) =
  option_map f (find (fun r => Payment.id r =? q) rows).
Proof.
  intros Hf. induction rows as [ | r rows IH]; simpl; [reflexivity | ].
  destruct (Payment.id r =? q) eqn:E.
  - destruct (Hf r) as [Ei _]. rewrite Ei, E. reflexivity.
  - rewrite E. exact IH.
Qed.

Lemma status_of_updatePaymentStatus (paymentId : Id) (s : PaymentStatus.t) (w : World) :
  status_of paymentId (exec (PaymentOrchestrator.updatePaymentStatus paymentId s) w) =
    option_map (fun _ => s) (status_of paymentId w).
Proof.
  unfold status_of, exec. simpl.
  rewrite (find_id_map _ _ _ (keeps_with_status s (CURRENT_TIMESTAMP w))).
  destruct (find _ (payments w)); reflexivity.
Qed.

Lemma cancelPayment_eq (paymentId : Id) (w : World) :
  PaymentOrchestrator.cancelPayment paymentId w =
    match status_of paymentId w with
    | None | Some PaymentStatus.COMPLETED | Some PaymentStatus.FAILED => (Ok false, w)
    | Some _ =>
        (Ok true,
         exec (PaymentOrchestrator.updatePaymentStatus paymentId PaymentStatus.CANCELLED) w)
    end.
Proof.
  unfold PaymentOrchestrator.cancelPayment, PaymentOrchestrator.getPaymentById,
    status_of, bind at 1, gets at 1.
  cbn beta iota.
  destruct (find (fun r => Payment.id r =? paymentId) (payments w)) as [p | ];
    [ | reflexivity].
  simpl option_map.
  destruct (Payment.status p); reflexivity.
Qed.

(** C10.  [cancelPayment] never throws.  It returns [false] exactly when the
    payment does not exist or its status is COMPLETED or FAILED, and then
    changes nothing.  On a payment that is already CANCELLED it returns
    [true] and performs the cancellation update again: the row is written
    with status CANCELLED, and a new status webhook is recorded and sent. *)
Theorem cancelPayment_result :
  forall (w : World) (paymentId : Id),
    (eval (PaymentOrchestrator.cancelPayment paymentId) w = Ok false \/
     eval (PaymentOrchestrator.cancelPayment paymentId) w = Ok true)
    /\
    (eval (PaymentOrchestrator.cancelPayment paymentId) w = Ok false <->
       (status_of paymentId w = None \/
        status_of paymentId w = Some PaymentStatus.COMPLETED \/
        status_of paymentId w = Some PaymentStatus.FAILED))
    /\
    (eval (PaymentOrchestrator.cancelPayment paymentId) w = Ok false ->
       exec (PaymentOrchestrator.cancelPayment paymentId) w = w)
    /\
    (status_of paymentId w = Some PaymentStatus.CANCELLED ->
       let w' := exec (PaymentOrchestrator.cancelPayment paymentId) w in
       eval (PaymentOrchestrator.cancelPayment paymentId) w = Ok true /\
       w' = exec (PaymentOrchestrator.updatePaymentStatus paymentId
                    PaymentStatus.CANCELLED) w /\
       status_of paymentId w' = Some PaymentStatus.CANCELLED /\
       webhooks w' =
         webhooks w ++
           [Webhook.mk (uuid_next w) paymentId WebhookEventType.PAYMENT_PROCESSING
              WebhookStatus.PENDING
              (WebhookPayload.mk (uuid_next w) paymentId
                 WebhookEventType.PAYMENT_PROCESSING (clock w)
                 (DataStatus PaymentStatus.CANCELLED))
              None 0 (CURRENT_TIMESTAMP w) None] /\
       inflight w' =
         inflight w ++
           [Request.mk (uuid_next w)
              (WebhookService.str_or (DEFAULT_WEBHOOK_URL w)
                                     "https://webhook.site/test")]).
Proof.
  intros w paymentId. unfold eval, exec.
  rewrite cancelPayment_eq.
  destruct (status_of paymentId w) as [s | ] eqn:Hs.
  - destruct s; simpl; (split; [auto | ]);
      (split; [split; [intros H; try discriminate H; auto
                      | intros [H | [H | H]]; try discriminate H; reflexivity] | ]);
      (split; [intros H; try discriminate H; reflexivity | ]);
      intros H; try discriminate H.
    split; [reflexivity | ]. split; [reflexivity | ].
    split; [ | split; reflexivity].
    change (status_of paymentId
              (exec (PaymentOrchestrator.updatePaymentStatus paymentId
                       PaymentStatus.CANCELLED) w) = Some PaymentStatus.CANCELLED).
    rewrite status_of_updatePaymentStatus, Hs. reflexivity.
  - simpl. split; [auto | ]. split; [split; auto | ].
    split; [reflexivity | discriminate].
Qed.

Lemma cancelPayment_result_witness :
  status_of 0 cancelled_once = Some PaymentStatus.CANCELLED /\
  eval (PaymentOrchestrator.cancelPayment 0) cancelled_once = Ok true /\
  length (webhooks (exec (PaymentOrchestrator.cancelPayment 0) cancelled_once)) =
    S (length (webhooks cancelled_once)).
Proof.
  destruct (cancelPayment_result cancelled_once 0) as (_ & _ & _ & H).
  assert (Hs : status_of 0 cancelled_once = Some PaymentStatus.CANCELLED) by reflexivity.
  destruct (H Hs) as (E & _ & _ & Hw & _).
  split; [exact Hs | ]. split; [exact E | ].
  rewrite Hw, length_app. simpl. lia.
Defined.

(** ** A payment with nothing in flight keeps its status *)

Section Quiet.
Variable pid : Id.
Variable s : PaymentStatus.t.

Lemma quiet_uuidv4 {B} (k : Id -> M B) :
    (forall a, a <> pid -> preserves (quiet pid s) (k a)) ->
    preserves (quiet pid s) (bind uuidv4 k).
Proof.
    intros Hk w H. unfold bind, uuidv4.
    assert (Hne : uuid_next w <> pid) by (destruct H as [H _]; lia).
    apply (Hk _ Hne). destruct H as (H1 & H2 & H3 & H4).
    repeat split; try assumption. simpl. lia.
Qed.

Lemma find_id_map_other (f : Payment.t -> Payment.t) (q : Id) (rows : list Payment.t) :
    keeps f -> q <> pid ->
    find (fun r => Payment.id r =? pid)
         (map (fun r => if Payment.id r =? q then f r else r) rows) =
    find (fun r => Payment.id r =? pid) rows.
Proof.
    intros Hf Hq. induction rows as [ | r rows IH]; simpl; [reflexivity | ].
    destruct (Nat.eqb_spec (Payment.id r) q) as [E | E].
    - destruct (Hf r) as [Ei _]. rewrite Ei.
      destruct (Nat.eqb_spec (Payment.id r) pid); [congruence | exact IH].
    - destruct (Payment.id r =? pid); [reflexivity | exact IH].
Qed.

Lemma quiet_update_payment (q : Id) (f : Payment.t -> Payment.t) :
    q <> pid -> keeps f -> preserves (quiet pid s) (Database.update_payment q f).
Proof.
    intros Hq Hf w (H1 & H2 & H3 & H4). repeat split; try assumption.
    unfold status_of in *. simpl. rewrite find_id_map_other; assumption.
Qed.

Lemma quiet_insert_payment (p : Payment.t) :
    preserves (quiet pid s) (Database.insert_payment p).
Proof.
    intros w (H1 & H2 & H3 & H4). unfold Database.insert_payment.
    destruct (existsb _ _); simpl; repeat split; try assumption.
    unfold status_of in *. simpl.
    destruct (find (fun r => Payment.id r =? pid) (payments w)) as [r | ] eqn:E;
      [ | discriminate].
    rewrite (find_app_some _ _ [p] r E). exact H4.
Qed.

Lemma quiet_insert_transaction (x : Transaction.t) :
    offramp_for pid x = false ->
    preserves (quiet pid s) (Database.insert_transaction x).
Proof.
    intros Hx w (H1 & H2 & H3 & H4). repeat split; try assumption.
    unfold no_offramp in *. simpl. rewrite forallb_app, H3. simpl.
    rewrite Hx. reflexivity.
Qed.

Lemma quiet_update_transaction (q : Id) (f : Transaction.t -> Transaction.t) :
    keeps_leg f -> preserves (quiet pid s) (Database.update_transaction q f).
Proof.
    intros Hf w (H1 & H2 & H3 & H4). repeat split; try assumption.
    unfold no_offramp in *. simpl. rewrite forallb_forall in *.
    intros y Hy. apply in_map_iff in Hy. destruct Hy as [x [<- Hx]].
    specialize (H3 x Hx). destruct (Transaction.id x =? q); [ | exact H3].
    unfold offramp_for in *. destruct (Hf x) as [E1 E2]. rewrite E1, E2. exact H3.
Qed.

Lemma quiet_setTimeout (j : Job) (d : N) :
    flow_job_for pid j = false -> preserves (quiet pid s) (setTimeout j d).
Proof.
    intros Hj w (H1 & H2 & H3 & H4). repeat split; try assumption.
    unfold no_flow in *. simpl. rewrite forallb_app, H2. simpl.
    rewrite Hj. reflexivity.
Qed.

Lemma quiet_setInterval (j : Job) (d : N) :
    flow_job_for pid j = false -> preserves (quiet pid s) (setInterval j d).
Proof.
    intros Hj w (H1 & H2 & H3 & H4). repeat split; try assumption.
    unfold no_flow in *. simpl. rewrite forallb_app, H2. simpl.
    rewrite Hj. reflexivity.
Qed.

Lemma forallb_filter {A} (f g : A -> bool) (l : list A) :
    forallb f l = true -> forallb f (filter g l) = true.
Proof.
    rewrite !forallb_forall. intros H x Hx. apply filter_In in Hx. apply H, Hx.
Qed.

Lemma quiet_clearInterval (h : nat) : preserves (quiet pid s) (clearInterval h).
Proof.
    intros w (H1 & H2 & H3 & H4). repeat split; try assumption.
    unfold no_flow in *. simpl. apply forallb_filter. exact H2.
Qed.

Lemma quiet_rearm (t : Timer.t) (w : World) :
    quiet pid s w -> quiet pid s (set_timers (rearm t (timers w)) w).
Proof.
    intros (H1 & H2 & H3 & H4). repeat split; try assumption.
    unfold no_flow in *. simpl. unfold rearm. destruct (Timer.period t).
    - rewrite forallb_forall in *. intros y Hy. apply in_map_iff in Hy.
      destruct Hy as [x [<- Hx]]. specialize (H2 x Hx).
      destruct (Timer.id x =? Timer.id t); exact H2.
    - apply forallb_filter. exact H2.
Qed.
End Quiet.

Lemma keeps_leg_with_status (st : TransactionStatus.t) (now : N) :
  keeps_leg (Transaction.with_status st now).
Proof. intros x. split; reflexivity. Qed.

Ltac frame_quiet :=
  solve [ unfold_leaves; intros ? ?; unfold quiet, no_flow, no_offramp, status_of in *;
          simpl; assumption ].

#[export] Hint Resolve quiet_update_payment quiet_insert_payment
  quiet_insert_transaction quiet_update_transaction quiet_setTimeout
  quiet_setInterval quiet_clearInterval keeps_leg_with_status : pres.
#[export] Hint Extern 5 (preserves (quiet _ _) _) => frame_quiet : pres.
#[export] Hint Extern 1 (offramp_for _ _ = false) =>
  unfold offramp_for; simpl; try reflexivity;
  match goal with H : ?a <> ?b |- _ =>
    apply Nat.eqb_neq; assumption end : pres.
#[export] Hint Extern 1 (flow_job_for _ _ = false) =>
  simpl; try reflexivity; apply Nat.eqb_neq; assumption : pres.

Ltac pres_quiet :=
  repeat first
    [ apply quiet_uuidv4; intros ? ?
    | pres_step
    | progress unfold_services ];
  eauto with pres.

Lemma quiet_flow (pid : Id) (s : PaymentStatus.t) (h : nat) (j : Job)
    (random : Q) (db_ok : bool) :
  flow_job_for pid j = false -> preserves (quiet pid s) (runJob h j random db_ok).
Proof.
  intros Hj. destruct j; cbn [runJob]; simpl in Hj;
    try (apply Nat.eqb_neq in Hj); pres_quiet.
Qed.

Lemma find_In {A} (f : A -> bool) (l : list A) (x : A) : find f l = Some x -> In x l.
Proof. intros H. apply find_some in H. apply H. Qed.

Lemma quiet_fire (pid : Id) (s : PaymentStatus.t) (e : Event) (w w' : World) :
  quiet pid s w -> fire e w = Some w' ->
  (e = ECancelPayment pid -> terminal s) ->
  quiet pid s w'.
Proof.
  intros H Hf Hc. destruct e; simpl in Hf.
  - injection Hf as <-. revert w H. change (preserves (quiet pid s)
      (PaymentOrchestrator.createPayment request random)). pres_quiet.
  - injection Hf as <-. destruct (Nat.eq_dec paymentId pid) as [-> | Hne].
    + unfold exec. rewrite cancelPayment_eq.
      destruct H as (H1 & H2 & H3 & H4). rewrite H4.
      destruct (Hc eq_refl) as [-> | ->]; simpl; repeat split; assumption.
    + revert w H. change (preserves (quiet pid s)
        (PaymentOrchestrator.cancelPayment paymentId)). pres_quiet.
  - injection Hf as <-. revert w H. change (preserves (quiet pid s)
      (WebhookService.retryWebhook webhookId newUrl)). pres_quiet.
  - unfold fireTimer in Hf.
    destruct (find (fun t => Timer.id t =? handle) (timers w)) as [t | ] eqn:E;
      [ | discriminate].
    destruct (Timer.due t <=? clock w)%N; [ | discriminate].
    injection Hf as <-. apply quiet_flow.
    + destruct H as (_ & H2 & _). unfold no_flow in H2.
      rewrite forallb_forall in H2. specialize (H2 t (find_In _ _ _ E)).
      apply negb_true_iff in H2. exact H2.
    + apply quiet_rearm. exact H.
  - destruct (nth_error (inflight w) index) as [r | ] eqn:E; [ | discriminate].
    injection Hf as <-.
    assert (H' : quiet pid s (set_inflight (remove_nth index (inflight w)) w)) by exact H.
    revert H'. generalize (set_inflight (remove_nth index (inflight w)) w).
    change (preserves (quiet pid s) (WebhookService.onResponse r ok)). pres_quiet.
  - destruct (forallb _ _); [ | discriminate]. injection Hf as <-. exact H.
Qed.

Lemma quiet_run (pid : Id) (s : PaymentStatus.t) (es : list Event) (w w' : World) :
  quiet pid s w -> run es w = Some w' ->
  (In (ECancelPayment pid) es -> terminal s) ->
  quiet pid s w'.
Proof.
  revert w. induction es as [ | e es IH]; intros w H Hr Hc; simpl in Hr.
  - injection Hr as <-. exact H.
  - destruct (fire e w) as [w1 | ] eqn:E; [ | discriminate].
    apply (IH w1); [ | exact Hr | intros Hin; apply Hc; right; exact Hin].
    apply (quiet_fire pid s e w w1 H E). intros ->. apply Hc. left. reflexivity.
Qed.

(** ** The poll that outlives its time limit, and the poll that outlives a
       cancellation *)

Lemma clear_timer_keeps_payments (handle checkInterval : nat) (random : Q)
    (db_ok : bool) (w : World) :
  payments (exec (runJob handle (JClearInterval checkInterval) random db_ok) w) =
    payments w.
Proof. reflexivity. Qed.

(** C4 (what the polling orchestrator does instead).  In the execution
    [stuck_onramp_trace] the onramp transaction is still [processing] when
    the 30-minute timer fires.  The timer only clears the interval: the
    payment is left in status PROCESSING with nothing queued for it, and no
    later event other than a cancellation of that payment changes its
    status; it is never marked FAILED. *)
Theorem onramp_timeout_leaves_processing :
  exists w,
    run stuck_onramp_trace initialWorld = Some w /\
    clock w = 1800000%N /\
    map Transaction.status (transactions w) = [TransactionStatus.PROCESSING] /\
    status_of 0 w = Some PaymentStatus.PROCESSING /\
    timers w = [] /\
    forall es w',
      run es w = Some w' -> ~ In (ECancelPayment 0) es ->
      status_of 0 w' = Some PaymentStatus.PROCESSING.
Proof.
  eexists. split; [vm_compute; reflexivity | ].
  split; [reflexivity | ]. split; [reflexivity | ]. split; [reflexivity | ].
  split; [reflexivity | ].
  intros es w' Hr Hc.
  match type of Hr with run es ?w = _ =>
    assert (Hq : quiet 0 PaymentStatus.PROCESSING w)
  end.
  { split; [vm_compute; lia | ]. repeat split. }
  destruct (quiet_run 0 PaymentStatus.PROCESSING es _ w' Hq Hr) as (_ & _ & _ & H).
  - intros Hin. contradiction.
  - exact H.
Qed.

Lemma onramp_timeout_leaves_processing_witness :
  exists w,
    run stuck_onramp_trace initialWorld = Some w /\
    forall w', run [EWait 60000] w = Some w' ->
               status_of 0 w' = Some PaymentStatus.PROCESSING.
Proof.
  destruct onramp_timeout_leaves_processing as (w & Hr & _ & _ & _ & _ & H).
  exists w. split; [exact Hr | ].
  intros w' Hw. apply (H [EWait 60000] w' Hw).
  intros [Hin | []]. discriminate Hin.
Defined.

(** C2 (what the polling orchestrator does instead).  In the execution
    [cancel_trace] the payment is CANCELLED while its onramp poll is still
    registered.  The next tick of that poll finds the onramp transaction
    completed, writes ONRAMP_COMPLETE and OFFRAMP_PROCESSING over CANCELLED
    and creates the offramp transaction; the polls then run on and the
    payment ends COMPLETED. *)
Theorem cancelled_payment_resumes :
  exists w1 w2 w3,
    run cancel_trace initialWorld = Some w1 /\
    status_of 0 w1 = Some PaymentStatus.CANCELLED /\
    existsb (offramp_for 0) (transactions w1) = false /\
    fire (ETimer 2 0%Q true) w1 = Some w2 /\
    status_of 0 w2 = Some PaymentStatus.OFFRAMP_PROCESSING /\
    existsb (offramp_for 0) (transactions w2) = true /\
    run cancel_trace_rest w1 = Some w3 /\
    status_of 0 w3 = Some PaymentStatus.COMPLETED.
Proof.
  eexists. eexists. eexists.
  split; [vm_compute; reflexivity | ].
  split; [reflexivity | ]. split; [reflexivity | ].
  split; [vm_compute; reflexivity | ].
  split; [reflexivity | ]. split; [reflexivity | ].
  split; [vm_compute; reflexivity | reflexivity].
Qed.

(** ** Webhook deliveries *)

Section Deliveries.

Lemma filter_length_le {A} (f : A -> bool) (l : list A) :
    length (filter f l) <= length l.
Proof.
    induction l as [ | a l IH]; simpl; [lia | ]. destruct (f a); simpl; lia.
Qed.

Lemma filter_filter_length {A} (f g : A -> bool) (l : list A) :
    length (filter f (filter g l)) <= length (filter f l).
Proof.
    induction l as [ | a l IH]; simpl; [lia | ].
    destruct (g a); simpl; destruct (f a); simpl; lia.
Qed.

  (** Removing an element that satisfies [f] shortens the filtered list. *)
Lemma filter_out_length {A} (f g : A -> bool) (l : list A) (a : A) :
    In a l -> f a = true -> g a = false ->
    S (length (filter f (filter g l))) <= length (filter f l).
Proof.
    induction l as [ | b l IH]; simpl; [contradiction | ].
    intros [-> | Hin] Hf Hg.
    - rewrite Hg, Hf. simpl. pose proof (filter_filter_length f g l). lia.
    - specialize (IH Hin Hf Hg). destruct (g b); simpl; destruct (f b); simpl; lia.
Qed.

Lemma remove_nth_filter_length {A} (f : A -> bool) (l : list A) (n : nat) (a : A) :
    nth_error l n = Some a ->
    length (filter f l) =
      length (filter f (remove_nth n l)) + (if f a then 1 else 0).
Proof.
    revert n. induction l as [ | b l IH]; intros [ | n] H; simpl in *;
      try discriminate.
    - injection H as ->. destruct (f a); simpl; lia.
    - specialize (IH n H). destruct (f b); simpl; lia.
Qed.

Lemma rearm_interval_filter (wid : Id) (id0 : nat) (p : N) (l : list Timer.t) :
    filter (retry_for wid)
      (map (fun x => if Timer.id x =? id0
                     then Timer.mk (Timer.id x) (Timer.due x + p)%N (Timer.period x)
                                   (Timer.job x)
                     else x) l) =
    map (fun x => if Timer.id x =? id0
                  then Timer.mk (Timer.id x) (Timer.due x + p)%N (Timer.period x)
                                (Timer.job x)
                  else x) (filter (retry_for wid) l).
Proof.
    induction l as [ | a l IH]; simpl; [reflexivity | ].
    assert (E : retry_for wid
                  (if Timer.id a =? id0
                   then Timer.mk (Timer.id a) (Timer.due a + p)%N (Timer.period a)
                                 (Timer.job a)
                   else a) = retry_for wid a).
    { destruct (Timer.id a =? id0); reflexivity. }
    rewrite E. destruct (retry_for wid a); simpl; rewrite IH; reflexivity.
Qed.

Lemma rearm_outstanding (t : Timer.t) (w : World) (wid : Id) :
    outstanding wid (set_timers (rearm t (timers w)) w) <= outstanding wid w.
Proof.
    unfold outstanding, rearm. simpl. destruct (Timer.period t).
    - rewrite rearm_interval_filter, length_map. lia.
    - pose proof (filter_filter_length (retry_for wid)
                    (fun x => negb (Timer.id x =? Timer.id t)) (timers w)). lia.
Qed.

Lemma delivery_ok_le (w w' : World) (x : Webhook.t) :
    outstanding (Webhook.id x) w' <= outstanding (Webhook.id x) w ->
    delivery_ok w x -> delivery_ok w' x.
Proof.
    unfold delivery_ok. intros Hle [H1 H2]. split; [exact H1 | ].
    destruct (Webhook.status x); intuition lia.
Qed.

  (** Fewer attempts outstanding, same rows: the discipline still holds. *)
Lemma deliveries_ok_le (w w' : World) :
    webhooks w' = webhooks w -> uuid_next w' = uuid_next w ->
    (forall wid, outstanding wid w' <= outstanding wid w) ->
    (forall t, In t (timers w') -> is_retry (Timer.job t) = true ->
               Timer.period t = None) ->
    deliveries_ok w -> deliveries_ok w'.
Proof.
    intros Hw Hu Hle Hp (H1 & H2 & _). split; [ | split].
    - rewrite Hw, Hu. intros x Hx. destruct (H1 x Hx) as [Ha Hb].
      split; [exact Ha | ]. apply (delivery_ok_le w); [apply Hle | exact Hb].
    - rewrite Hu. intros wid Hwid. specialize (H2 wid Hwid).
      specialize (Hle wid). lia.
    - exact Hp.
Qed.

Lemma deliveries_ok_rearm (t : Timer.t) (w : World) :
    deliveries_ok w -> deliveries_ok (set_timers (rearm t (timers w)) w).
Proof.
    intros H. apply (deliveries_ok_le w); try reflexivity; try exact H.
    - intros wid. apply rearm_outstanding.
    - destruct H as (_ & _ & H3). simpl. unfold rearm.
      intros u Hu Hr. destruct (Timer.period t).
      + apply in_map_iff in Hu. destruct Hu as [v [<- Hv]].
        destruct (Timer.id v =? Timer.id t); simpl in *; apply (H3 v Hv Hr).
      + apply filter_In in Hu. apply (H3 u (proj1 Hu) Hr).
Qed.

Lemma deliveries_ok_uuidv4 : preserves deliveries_ok uuidv4.
Proof.
    intros w (H1 & H2 & H3). split; [ | split]; simpl.
    - intros x Hx. destruct (H1 x Hx) as [Ha Hb]. split; [lia | exact Hb].
    - intros wid Hwid. apply H2. lia.
    - exact H3.
Qed.

Lemma deliveries_ok_clearInterval (h : nat) : preserves deliveries_ok (clearInterval h).
Proof.
    intros w H. apply (deliveries_ok_le w); try reflexivity; try exact H.
    - intros wid. unfold outstanding. simpl.
      pose proof (filter_filter_length (retry_for wid)
                    (fun x => negb (Timer.id x =? h)) (timers w)). lia.
    - destruct H as (_ & _ & H3). simpl. intros u Hu Hr.
      apply filter_In in Hu. apply (H3 u (proj1 Hu) Hr).
Qed.

Lemma outstanding_new_timer (wid : Id) (w : World) (t : Timer.t) (n : nat) :
    outstanding wid (set_timer_next n (set_timers (timers w ++ [t]) w)) =
      outstanding wid w + (if retry_for wid t then 1 else 0).
Proof.
    unfold outstanding. simpl. rewrite filter_app, length_app. simpl.
    destruct (retry_for wid t); simpl; lia.
Qed.

Lemma deliveries_ok_new_timer (w : World) (t : Timer.t) (n : nat) :
    is_retry (Timer.job t) = false ->
    deliveries_ok w ->
    deliveries_ok (set_timer_next n (set_timers (timers w ++ [t]) w)).
Proof.
    intros Hj H. apply (deliveries_ok_le w); try reflexivity; try exact H.
    - intros wid. rewrite outstanding_new_timer.
      unfold retry_for. destruct (Timer.job t); try discriminate; simpl; lia.
    - destruct H as (_ & _ & H3). simpl. intros u Hu Hr.
      apply in_app_or in Hu. destruct Hu as [Hu | [<- | []]].
      + apply (H3 u Hu Hr).
      + congruence.
Qed.

Lemma deliveries_ok_setTimeout (j : Job) (d : N) :
    is_retry j = false -> preserves deliveries_ok (setTimeout j d).
Proof. intros Hj w H. apply deliveries_ok_new_timer; assumption. Qed.

Lemma deliveries_ok_setInterval (j : Job) (d : N) :
    is_retry j = false -> preserves deliveries_ok (setInterval j d).
Proof. intros Hj w H. apply deliveries_ok_new_timer; assumption. Qed.

Lemma deliveries_ok_scheduleWebhook (paymentId : Id) (ev : WebhookEventType.t)
      (d : WebhookData) :
    preserves deliveries_ok (WebhookService.scheduleWebhook paymentId ev d).
Proof.
    intros w (H1 & H2 & H3).
    assert (Hout : forall wid,
      outstanding wid (snd (WebhookService.scheduleWebhook paymentId ev d w)) =
        outstanding wid w + (if uuid_next w =? wid then 1 else 0)).
    { intros wid. unfold outstanding. simpl. rewrite filter_app, length_app. simpl.
      unfold request_for at 2. simpl. destruct (uuid_next w =? wid); simpl; lia. }
    split; [ | split].
    - simpl webhooks. simpl uuid_next. intros x Hx.
      apply in_app_or in Hx. destruct Hx as [Hx | [<- | []]].
      + destruct (H1 x Hx) as [Ha Hb]. split; [lia | ].
        unfold delivery_ok in *. rewrite Hout.
        destruct (Nat.eqb_spec (uuid_next w) (Webhook.id x)); [lia | ].
        rewrite Nat.add_0_r. exact Hb.
      + simpl. split; [lia | ]. unfold delivery_ok. simpl. split; [lia | ].
        rewrite Hout, Nat.eqb_refl, (H2 (uuid_next w)) by lia. simpl. lia.
    - simpl uuid_next. intros wid Hwid. rewrite Hout, H2 by lia.
      destruct (Nat.eqb_spec (uuid_next w) wid); [lia | reflexivity].
    - exact H3.
Qed.

Lemma deliveries_ok_insert_payment (p : Payment.t) :
    preserves deliveries_ok (Database.insert_payment p).
Proof.
    intros w H. unfold Database.insert_payment.
    destruct (existsb _ _); simpl; exact H.
Qed.
End Deliveries.

Ltac frame_deliveries :=
  solve [ unfold_leaves; intros ? ?; unfold deliveries_ok, delivery_ok, outstanding in *;
          simpl; assumption ].

#[export] Hint Resolve deliveries_ok_uuidv4 deliveries_ok_clearInterval
  deliveries_ok_setTimeout deliveries_ok_setInterval
  deliveries_ok_scheduleWebhook deliveries_ok_insert_payment : pres.
#[export] Hint Extern 5 (preserves deliveries_ok _) => frame_deliveries : pres.
#[export] Hint Extern 1 (is_retry _ = false) => reflexivity : pres.

Ltac unfold_flows :=
  unfold PaymentOrchestrator.createPayment, PaymentOrchestrator.cancelPayment,
    PaymentOrchestrator.processPayment, PaymentOrchestrator.processOfframp,
    PaymentOrchestrator.onrampPoll, PaymentOrchestrator.offrampPoll,
    PaymentOrchestrator.monitorOnrampCompletion,
    PaymentOrchestrator.monitorOfframpCompletion,
    PaymentOrchestrator.updatePaymentStatus, PaymentOrchestrator.paymentToResponse,
    PaymentOrchestrator.getPaymentById, PaymentOrchestrator.getPaymentByIdempotencyKey,
    OnrampService.processUSDCollection, OnrampService.validateRequest,
    OnrampService.selectProvider, OnrampService.validateAmount,
    OnrampService.simulateAsyncProcessing, OnrampService.getTransactionStatus,
    OfframpService.processLocalCurrencyPayout, OfframpService.validateRequest,
    OfframpService.selectProvider, OfframpService.validateAmount,
    OfframpService.simulateAsyncProcessing, OfframpService.getTransactionStatus,
    FeeEngine.calculateFees, FeeEngine.isCurrencySupported, FeeEngine.getFeeConfig,
    ExchangeRateService.getExchangeRate, ExchangeRateService.getCachedRate,
    resolveTransaction, Date_now,
    Database.select_transaction, Database.select_webhook.

(** As [pres], with the operations of the webhook service kept whole. *)
Ltac pres_flows := repeat first [pres_step | progress unfold_flows]; eauto with pres.

Lemma deliveries_ok_job (h : nat) (j : Job) (random : Q) (db_ok : bool) :
  is_retry j = false -> preserves deliveries_ok (runJob h j random db_ok).
Proof.
  intros Hj. destruct j; cbn [runJob]; try discriminate Hj; pres_flows.
Qed.

Lemma deliveries_ok_update (w w' : World) (wid : Id) (g : Webhook.t -> Webhook.t) :
  deliveries_ok w ->
  webhooks w' = map (fun x => if Webhook.id x =? wid then g x else x) (webhooks w) ->
  uuid_next w' = uuid_next w ->
  (forall x, Webhook.id (g x) = Webhook.id x) ->
  (forall wid', wid' <> wid -> outstanding wid' w' <= outstanding wid' w) ->
  (forall x, In x (webhooks w) -> Webhook.id x = wid -> delivery_ok w' (g x)) ->
  (forall wid', uuid_next w <= wid' -> outstanding wid' w' = 0) ->
  (forall t, In t (timers w') -> is_retry (Timer.job t) = true -> Timer.period t = None) ->
  deliveries_ok w'.
Proof.
  intros (H1 & H2 & H3) Hw Hu Hg Hle Hrow Hfresh Hone. split; [ | split].
  - rewrite Hw, Hu. intros y Hy. apply in_map_iff in Hy. destruct Hy as [x [<- Hx]].
    destruct (H1 x Hx) as [Ha Hb].
    destruct (Nat.eqb_spec (Webhook.id x) wid) as [E | E].
    + split; [rewrite Hg; exact Ha | apply Hrow; assumption].
    + split; [exact Ha | ]. apply (delivery_ok_le w); [apply Hle; exact E | exact Hb].
  - rewrite Hu. exact Hfresh.
  - exact Hone.
Qed.

Lemma deliveries_ok_onResponse (w : World) (index : nat) (r : Request.t) (ok : bool) :
  deliveries_ok w -> nth_error (inflight w) index = Some r ->
  deliveries_ok (exec (WebhookService.onResponse r ok)
                      (set_inflight (remove_nth index (inflight w)) w)).
Proof.
  intros H Hr. pose proof H as (H1 & H2 & H3).
  set (wid := Request.webhookId r).
  set (w0 := set_inflight (remove_nth index (inflight w)) w).
  assert (O1 : forall wid', outstanding wid' w =
                 outstanding wid' w0 + (if wid =? wid' then 1 else 0)).
  { intros wid'. unfold outstanding. simpl.
    rewrite (remove_nth_filter_length (request_for wid') _ _ _ Hr).
    change (request_for wid' r) with (wid =? wid'). simpl. lia. }
  assert (Hlt : wid < uuid_next w).
  { destruct (Nat.lt_ge_cases wid (uuid_next w)) as [L | G]; [exact L | ].
    specialize (H2 wid G). rewrite (O1 wid), Nat.eqb_refl in H2. lia. }
  assert (Hrows : forall x, In x (webhooks w) -> Webhook.id x = wid ->
            Webhook.status x = WebhookStatus.PENDING /\
            Webhook.retry_count x <= 3 /\ outstanding wid w0 = 0).
  { intros x Hx Hid. destruct (H1 x Hx) as [_ [_ Hb]].
    rewrite Hid, (O1 wid), Nat.eqb_refl in Hb.
    destruct (Webhook.status x); intuition lia. }
  assert (Hle0 : forall wid', outstanding wid' w0 <= outstanding wid' w).
  { intros wid'. rewrite (O1 wid'). lia. }
  assert (H0 : deliveries_ok w0).
  { apply (deliveries_ok_le w); try reflexivity; assumption. }
  destruct ok.
  - (* delivered *)
    apply (deliveries_ok_update w _ wid
             (fun x => Webhook.mk (Webhook.id x) (Webhook.payment_id x)
                         (Webhook.event_type x) WebhookStatus.SENT (Webhook.payload x)
                         (Some true) (Webhook.retry_count x) (Webhook.created_at x)
                         (Some (CURRENT_TIMESTAMP w)))); try reflexivity; try assumption.
    + intros wid' _. apply Hle0.
    + intros x Hx Hid. destruct (Hrows x Hx Hid) as (_ & Hc & Ho).
      unfold delivery_ok. simpl. split; [lia | ]. rewrite Hid. exact Ho.
    + intros wid' Hw'. specialize (H2 wid' Hw'). specialize (Hle0 wid').
      change (outstanding wid' w0 = 0). lia.
  - (* refused *)
    unfold exec, WebhookService.onResponse, WebhookService.handleWebhookFailure,
      Database.select_webhook, bind at 1, gets at 1.
    cbn beta iota. fold wid.
    destruct (find (fun x => Webhook.id x =? wid) (webhooks w0)) as [x0 | ] eqn:E;
      [ | exact H0].
    apply find_some in E. destruct E as [Hx0 Hid0]. apply Nat.eqb_eq in Hid0.
    destruct (Hrows x0 Hx0 Hid0) as (Hs0 & Hc0 & Ho0).
    destruct (Webhook.retry_count x0 + 1 <=? WebhookService.maxRetries) eqn:Hretry.
    + apply Nat.leb_le in Hretry. unfold WebhookService.maxRetries in Hretry.
      set (delay := match nth_error WebhookService.retryDelays
                                   (Webhook.retry_count x0 + 1 - 1) with
                    | Some d => if (d =? 0)%N then 60000%N else d
                    | None => 60000%N
                    end).
      set (g := fun x => Webhook.mk (Webhook.id x) (Webhook.payment_id x)
                           (Webhook.event_type x) WebhookStatus.PENDING
                           (Webhook.payload x) (Some false)
                           (Webhook.retry_count x0 + 1) (Webhook.created_at x)
                           (Webhook.sent_at x)).
      set (wu := set_webhooks
                   (map (fun x => if Webhook.id x =? wid then g x else x) (webhooks w0))
                   w0).
      set (tnew := Timer.mk (timer_next wu) (clock wu + delay)%N None
                            (JWebhookRetry wid (Request.url r))).
      change (deliveries_ok
                (set_timer_next (S (timer_next wu))
                   (set_timers (timers wu ++ [tnew]) wu))).
      assert (Ou : forall wid', outstanding wid' wu = outstanding wid' w0)
        by (intros; reflexivity).
      apply (deliveries_ok_update w _ wid g); try reflexivity; try assumption.
      * intros wid' Hne. rewrite outstanding_new_timer, Ou.
        unfold retry_for, tnew. simpl.
        destruct (Nat.eqb_spec wid wid'); [congruence | ].
        rewrite Nat.add_0_r. apply Hle0.
      * intros x Hx Hid. unfold delivery_ok, g.
        cbn [Webhook.status Webhook.retry_count Webhook.id]. split; [lia | ].
        split; [ | lia]. rewrite Hid.
        rewrite outstanding_new_timer, Ou. unfold retry_for, tnew. simpl.
        rewrite Nat.eqb_refl. lia.
      * intros wid' Hw'. rewrite outstanding_new_timer, Ou.
        unfold retry_for, tnew. simpl.
        destruct (Nat.eqb_spec wid wid'); [lia | ].
        rewrite Nat.add_0_r. specialize (H2 wid' Hw'). specialize (Hle0 wid'). lia.
      * simpl. intros t Ht Hj. apply in_app_or in Ht. destruct Ht as [Ht | [<- | []]].
        -- apply (H3 t Ht Hj).
        -- reflexivity.
    + apply Nat.leb_gt in Hretry. unfold WebhookService.maxRetries in Hretry.
      apply (deliveries_ok_update w _ wid
               (fun x => Webhook.mk (Webhook.id x) (Webhook.payment_id x)
                           (Webhook.event_type x) WebhookStatus.FAILED
                           (Webhook.payload x) (Some false)
                           (Webhook.retry_count x0 + 1) (Webhook.created_at x)
                           (Webhook.sent_at x))); try reflexivity; try assumption.
      * intros wid' _. apply Hle0.
      * intros x Hx Hid. unfold delivery_ok. simpl. split; [lia | ].
        split; [ | lia]. rewrite Hid. exact Ho0.
      * intros wid' Hw'. specialize (H2 wid' Hw'). specialize (Hle0 wid').
        change (outstanding wid' w0 = 0). lia.
Qed.

Lemma deliveries_ok_retry_timer (w : World) (t : Timer.t) (wid : Id) (url : string) :
  deliveries_ok w -> In t (timers w) -> Timer.job t = JWebhookRetry wid url ->
  deliveries_ok (exec (WebhookService.sendWebhookAsync wid url)
                      (set_timers (rearm t (timers w)) w)).
Proof.
  intros H Ht Hj. pose proof H as (H1 & H2 & H3).
  assert (Hp : Timer.period t = None) by (apply H3; [exact Ht | rewrite Hj; reflexivity]).
  apply (deliveries_ok_le w); try reflexivity; try exact H.
  - intros wid'. unfold outstanding, exec, rearm. rewrite Hp. simpl.
    rewrite filter_app, length_app. simpl. unfold request_for at 2. simpl.
    destruct (Nat.eqb_spec wid wid') as [<- | Hne]; simpl.
    + pose proof (filter_out_length (retry_for wid)
                    (fun x => negb (Timer.id x =? Timer.id t)) (timers w) t Ht) as L.
      assert (R : retry_for wid t = true).
      { unfold retry_for. rewrite Hj. apply Nat.eqb_refl. }
      assert (G : negb (Timer.id t =? Timer.id t) = false)
        by (rewrite Nat.eqb_refl; reflexivity).
      specialize (L R G). lia.
    + pose proof (filter_filter_length (retry_for wid')
                    (fun x => negb (Timer.id x =? Timer.id t)) (timers w)). lia.
  - unfold exec, rearm. rewrite Hp. simpl. intros u Hu Hr.
    apply filter_In in Hu. apply (H3 u (proj1 Hu) Hr).
Qed.

Lemma deliveries_ok_fire (e : Event) (w w' : World) :
  deliveries_ok w -> fire e w = Some w' -> manual_retry e = false ->
  deliveries_ok w'.
Proof.
  intros H Hf Hm. destruct e; simpl in Hf; try discriminate Hm.
  - injection Hf as <-. revert w H.
    change (preserves deliveries_ok (PaymentOrchestrator.createPayment request random)).
    pres_flows.
  - injection Hf as <-. revert w H.
    change (preserves deliveries_ok (PaymentOrchestrator.cancelPayment paymentId)).
    pres_flows.
  - unfold fireTimer in Hf.
    destruct (find (fun t => Timer.id t =? handle) (timers w)) as [t | ] eqn:E;
      [ | discriminate].
    destruct (Timer.due t <=? clock w)%N; [ | discriminate].
    injection Hf as <-. apply find_In in E.
    destruct (Timer.job t) as [ | | | | | wid url] eqn:Hj;
      try (apply deliveries_ok_job; [reflexivity | apply deliveries_ok_rearm; exact H]).
    cbn [runJob]. apply deliveries_ok_retry_timer; assumption.
  - destruct (nth_error (inflight w) index) as [r | ] eqn:E; [ | discriminate].
    injection Hf as <-. apply deliveries_ok_onResponse; assumption.
  - destruct (forallb _ _); [ | discriminate]. injection Hf as <-. exact H.
Qed.

Lemma deliveries_ok_run (es : list Event) (w w' : World) :
  deliveries_ok w -> run es w = Some w' ->
  forallb (fun e => negb (manual_retry e)) es = true ->
  deliveries_ok w'.
Proof.
  revert w. induction es as [ | e es IH]; intros w H Hr Hm; simpl in Hr, Hm.
  - injection Hr as <-. exact H.
  - destruct (fire e w) as [w1 | ] eqn:E; [ | discriminate].
    apply andb_true_iff in Hm. destruct Hm as [Hm1 Hm2].
    apply negb_true_iff in Hm1.
    apply (IH w1); [ | exact Hr | exact Hm2].
    apply (deliveries_ok_fire e w w1); assumption.
Qed.

Lemma deliveries_ok_initial : deliveries_ok initialWorld.
Proof.
  split; [ | split].
  - intros x [].
  - intros wid _. reflexivity.
  - intros t [].
Qed.

Lemma retryWebhook_eq (webhookId : Id) (newUrl : option string) (w : World) :
  WebhookService.retryWebhook webhookId newUrl w =
    match find (fun r => Webhook.id r =? webhookId) (webhooks w) with
    | None => (Ok false, w)
    | Some x =>
        if WebhookStatus.eqb (Webhook.status x) WebhookStatus.SENT then (Ok false, w)
        else
          (Ok true,
           set_inflight
             (inflight w ++
                [Request.mk webhookId
                   (WebhookService.str_or newUrl "https://webhook.site/test")])
             (set_webhooks
                (map (fun r =>
                        if Webhook.id r =? webhookId
                        then Webhook.mk (Webhook.id r) (Webhook.payment_id r)
                               (Webhook.event_type r) WebhookStatus.PENDING
                               (Webhook.payload r) (Webhook.response r) 0
                               (Webhook.created_at r) (Webhook.sent_at r)
                        else r) (webhooks w)) w))
    end.
Proof.
  unfold WebhookService.retryWebhook, WebhookService.getWebhookStatus,
    Database.select_webhook, bind at 1, gets at 1.
  cbn beta iota.
  destruct (find (fun r => Webhook.id r =? webhookId) (webhooks w)) as [x | ];
    [ | reflexivity].
  destruct (WebhookStatus.eqb (Webhook.status x) WebhookStatus.SENT); reflexivity.
Qed.

(** C3 (as amended).  In every execution from start-up in which
    [retryWebhook] is not called: the stored retry count of a delivery never
    exceeds 4, one more than the maximum of 3 retries, and is at most 3 while
    the delivery is pending; a delivery marked sent has no request on the
    wire and no retry scheduled, so it is not attempted again; a delivery is
    marked failed with a stored count of exactly 4 and then has no request
    on the wire and no retry scheduled.  [retryWebhook] refuses a delivery
    marked sent and changes nothing; for any other delivery, a failed one
    included, it sets the status back to pending and the count to 0 and
    sends the request again. *)
Theorem webhook_retry_discipline :
  (forall (es : list Event) (w : World),
      run es initialWorld = Some w ->
      forallb (fun e => negb (manual_retry e)) es = true ->
      forall x, In x (webhooks w) ->
        Webhook.retry_count x <= 4 /\
        (Webhook.status x = WebhookStatus.PENDING ->
           Webhook.retry_count x <= 3 /\ outstanding (Webhook.id x) w <= 1) /\
        (Webhook.status x = WebhookStatus.SENT -> outstanding (Webhook.id x) w = 0) /\
        (Webhook.status x = WebhookStatus.FAILED ->
           Webhook.retry_count x = 4 /\ outstanding (Webhook.id x) w = 0))
  /\
  (forall (w : World) (webhookId : Id) (newUrl : option string) (x : Webhook.t),
      find (fun r => Webhook.id r =? webhookId) (webhooks w) = Some x ->
      (Webhook.status x = WebhookStatus.SENT ->
         WebhookService.retryWebhook webhookId newUrl w = (Ok false, w)) /\
      (Webhook.status x <> WebhookStatus.SENT ->
         let w' := exec (WebhookService.retryWebhook webhookId newUrl) w in
         eval (WebhookService.retryWebhook webhookId newUrl) w = Ok true /\
         inflight w' =
           inflight w ++
             [Request.mk webhookId
                (WebhookService.str_or newUrl "https://webhook.site/test")] /\
         forall y, In y (webhooks w') -> Webhook.id y = webhookId ->
                   Webhook.status y = WebhookStatus.PENDING /\
                   Webhook.retry_count y = 0)).
Proof.
  split.
  - intros es w Hr Hm x Hx.
    pose proof (deliveries_ok_run es initialWorld w deliveries_ok_initial Hr Hm)
      as (H1 & _ & _).
    destruct (H1 x Hx) as [_ [Hc Hs]]. split; [exact Hc | ].
    destruct (Webhook.status x).
    + split; [intros _; destruct Hs; split; assumption | ].
      split; intros E; discriminate E.
    + split; [intros E; discriminate E | ].
      split; [intros _; exact Hs | intros E; discriminate E].
    + split; [intros E; discriminate E | ].
      split; [intros E; discriminate E | ].
      intros _. destruct Hs. split; assumption.
  - intros w webhookId newUrl x Hx. split.
    + intros Hs. rewrite retryWebhook_eq, Hx, Hs. reflexivity.
    + intros Hs. unfold eval, exec. rewrite retryWebhook_eq, Hx.
      destruct (Webhook.status x) eqn:E; try congruence; simpl;
        (split; [reflexivity | ]); (split; [reflexivity | ]);
        intros y Hy Hid; apply in_map_iff in Hy; destruct Hy as [z [<- Hz]];
        (destruct (Nat.eqb_spec (Webhook.id z) webhookId) as [Ez | Ez];
         [split; reflexivity | simpl in Hid; congruence]).
Qed.

Lemma webhook_retry_discipline_witness :
  Forall (fun x => Webhook.retry_count x <= 4)
         (webhooks (world_after refused_webhook_trace)).
Proof.
  assert (Hr : run refused_webhook_trace initialWorld =
               Some (world_after refused_webhook_trace))
    by (vm_compute; reflexivity).
  assert (Hm : forallb (fun e => negb (manual_retry e)) refused_webhook_trace = true)
    by (vm_compute; reflexivity).
  apply Forall_forall. intros x Hx.
  destruct webhook_retry_discipline as [H _].
  apply (H refused_webhook_trace (world_after refused_webhook_trace) Hr Hm x Hx).
Defined.

(** C3, counterexample.  After the execution [refused_webhook_trace] the
    delivery with id 1 is marked failed with a stored retry count of 4, above
    the maximum of 3; and [retryWebhook] on that delivery returns [true],
    marks it pending with count 0 and puts a request for it on the wire. *)
Lemma refused_webhook_count_exceeds :
  run refused_webhook_trace initialWorld = Some (world_after refused_webhook_trace) /\
  (exists x,
      In x (webhooks (world_after refused_webhook_trace)) /\
      Webhook.id x = 1 /\
      Webhook.status x = WebhookStatus.FAILED /\
      Webhook.retry_count x = 4 /\
      ~ (Webhook.retry_count x <= WebhookService.maxRetries)) /\
  eval (WebhookService.retryWebhook 1 None) (world_after refused_webhook_trace) = Ok true /\
  map (fun x => (Webhook.id x, Webhook.status x, Webhook.retry_count x))
      (webhooks (exec (WebhookService.retryWebhook 1 None)
                      (world_after refused_webhook_trace)))
    = [(1, WebhookStatus.PENDING, 0); (2, WebhookStatus.PENDING, 0)] /\
  outstanding 1 (exec (WebhookService.retryWebhook 1 None)
                      (world_after refused_webhook_trace)) = 1.
Proof.
  assert (E : map (fun x => (Webhook.id x, Webhook.status x, Webhook.retry_count x))
                  (webhooks (world_after refused_webhook_trace))
              = [(1, WebhookStatus.FAILED, 4); (2, WebhookStatus.PENDING, 0)])
    by (vm_compute; reflexivity).
  split; [vm_compute; reflexivity | ].
  split.
  - revert E. generalize (webhooks (world_after refused_webhook_trace)).
    intros l E. destruct l as [ | x l]; [discriminate E | ].
    injection E as H1 H2 H3 _. exists x.
    split; [left; reflexivity | ]. split; [exact H1 | ]. split; [exact H2 | ].
    split; [exact H3 | ]. rewrite H3. unfold WebhookService.maxRetries. lia.
  - split; [vm_compute; reflexivity | ]. split; vm_compute; reflexivity.
Qed.

(** ** One job per payment *)

Lemma hoare_seq {A B} (P P' Q : World -> Prop) (m : M A) (k : A -> M B) :
  hoare P m P' -> (forall a, hoare P' (k a) Q) -> (forall w, P' w -> Q w) ->
  hoare P (bind m k) Q.
Proof. apply hoare_bind. Qed.

Lemma hoare_seq_pres {A B} (P Q : World -> Prop) (m : M A) (k : A -> M B) :
  preserves P m -> (forall a, hoare P (k a) Q) -> (forall w, P w -> Q w) ->
  hoare P (bind m k) Q.
Proof. intros H. apply hoare_bind. exact H. Qed.

Lemma hoare_ret {A} (P Q : World -> Prop) (a : A) :
  (forall w, P w -> Q w) -> hoare P (ret a) Q.
Proof. intros H w Hw. apply H. exact Hw. Qed.

Lemma hoare_throw {A} (P Q : World -> Prop) (e : string) :
  (forall w, P w -> Q w) -> hoare P (@throw A e) Q.
Proof. intros H w Hw. apply H. exact Hw. Qed.

Lemma hoare_pres {A} (P Q : World -> Prop) (m : M A) :
  preserves P m -> (forall w, P w -> Q w) -> hoare P m Q.
Proof. intros H HQ w Hw. apply HQ. apply H. exact Hw. Qed.

Section FlowCount.
Variable pid : Id.

Lemma no_flow_count (w : World) : no_flow pid w <-> flow_count pid w = 0.
Proof.
    unfold no_flow, flow_count, flow_timer.
    induction (timers w) as [ | t l IH]; simpl; [tauto | ].
    destruct (flow_job_for pid (Timer.job t)); simpl.
    - split; [discriminate | lia].
    - exact IH.
Qed.

Lemma no_flow_timers (w w' : World) :
    timers w' = timers w -> no_flow pid w -> no_flow pid w'.
Proof. unfold no_flow. intros ->. tauto. Qed.

Lemma flow_count_filter (g : Timer.t -> bool) (w : World) :
    flow_count pid (set_timers (filter g (timers w)) w) <= flow_count pid w.
Proof. unfold flow_count. simpl. apply filter_filter_length. Qed.

Lemma flow_count_new (w : World) (t : Timer.t) (n : nat) :
    flow_count pid (set_timer_next n (set_timers (timers w ++ [t]) w)) =
      flow_count pid w + (if flow_timer pid t then 1 else 0).
Proof.
    unfold flow_count. simpl. rewrite filter_app, length_app. simpl.
    destruct (flow_timer pid t); simpl; lia.
Qed.

Lemma flow_timer_rearm_map (id0 : nat) (p : N) (l : list Timer.t) :
    filter (flow_timer pid)
      (map (fun x => if Timer.id x =? id0
                     then Timer.mk (Timer.id x) (Timer.due x + p)%N (Timer.period x)
                                   (Timer.job x)
                     else x) l) =
    map (fun x => if Timer.id x =? id0
                  then Timer.mk (Timer.id x) (Timer.due x + p)%N (Timer.period x)
                                (Timer.job x)
                  else x) (filter (flow_timer pid) l).
Proof.
    induction l as [ | a l IH]; simpl; [reflexivity | ].
    assert (E : flow_timer pid
                  (if Timer.id a =? id0
                   then Timer.mk (Timer.id a) (Timer.due a + p)%N (Timer.period a)
                                 (Timer.job a)
                   else a) = flow_timer pid a).
    { destruct (Timer.id a =? id0); reflexivity. }
    rewrite E. destruct (flow_timer pid a); simpl; rewrite IH; reflexivity.
Qed.

Lemma flow_count_rearm (t : Timer.t) (w : World) :
    flow_count pid (set_timers (rearm t (timers w)) w) <= flow_count pid w.
Proof.
    unfold rearm. destruct (Timer.period t).
    - unfold flow_count. simpl. rewrite flow_timer_rearm_map, length_map. lia.
    - apply flow_count_filter.
Qed.
End FlowCount.

Lemma early_is_flow (pid : Id) (j : Job) :
  early_job pid j = true -> flow_job_for pid j = true.
Proof. destruct j; simpl; intros H; try exact H; discriminate H. Qed.

Lemma no_offramp_transactions (pid : Id) (w w' : World) :
  transactions w' = transactions w -> no_offramp pid w -> no_offramp pid w'.
Proof. unfold no_offramp. intros ->. tauto. Qed.

(** Any change that only removes timers keeps [flows_ok_at]. *)
Lemma flows_ok_at_shrink (st : option (Id * bool)) (w w' : World) :
  transactions w' = transactions w -> uuid_next w' = uuid_next w ->
  (forall t, In t (timers w') ->
     exists u, In u (timers w) /\ Timer.job u = Timer.job t /\
               Timer.period u = Timer.period t) ->
  (forall pid, flow_count pid w' <= flow_count pid w) ->
  flows_ok_at st w -> flows_ok_at st w'.
Proof.
  intros Ht Hu Hin Hc [(F1 & F2 & F3 & F4) Hst].
  assert (Hnf : forall pid, no_flow pid w -> no_flow pid w').
  { intros pid H. apply no_flow_count. apply no_flow_count in H.
    specialize (Hc pid). lia. }
  split; [split; [ | split; [ | split]] | ].
  - intros pid. specialize (Hc pid). specialize (F1 pid). lia.
  - intros t pid Hi He. destruct (Hin t Hi) as (u & Hu' & Hj & _).
    apply (no_offramp_transactions pid w); [exact Ht | ].
    apply (F2 u pid Hu'). rewrite Hj. exact He.
  - rewrite Hu. intros pid Hp. destruct (F3 pid Hp) as [A B].
    split; [apply Hnf; exact A | apply (no_offramp_transactions pid w); assumption].
  - intros t Hi. destruct (Hin t Hi) as (u & Hu' & Hj & Hp).
    specialize (F4 u Hu'). unfold one_shot_ok in *. rewrite <- Hj, <- Hp. exact F4.
  - destruct st as [[q early] | ]; [ | exact I].
    destruct Hst as (A & B & C). rewrite Hu. split; [apply Hnf; exact A | ].
    split; [exact B | ]. intros E. apply (no_offramp_transactions q w); auto.
Qed.

Lemma flows_ok_at_weaken (st : option (Id * bool)) (w : World) :
  flows_ok_at st w -> flows_ok_at None w.
Proof. intros [H _]. split; [exact H | exact I]. Qed.

Lemma flows_ok_at_late (q : Id) (w : World) :
  flows_ok_at (Some (q, true)) w -> flows_ok_at (Some (q, false)) w.
Proof.
  intros [H (A & B & _)]. split; [exact H | ].
  split; [exact A | ]. split; [exact B | discriminate].
Qed.

Section FlowLeaves.
Variable st : option (Id * bool).

Lemma flows_ok_at_rearm (t : Timer.t) (w : World) :
    flows_ok_at st w -> flows_ok_at st (set_timers (rearm t (timers w)) w).
Proof.
    apply flows_ok_at_shrink; try reflexivity.
    - simpl. unfold rearm. intros u Hu. destruct (Timer.period t).
      + apply in_map_iff in Hu. destruct Hu as [v [<- Hv]].
        exists v. split; [exact Hv | ].
        destruct (Timer.id v =? Timer.id t); split; reflexivity.
      + apply filter_In in Hu. exists u. split; [apply Hu | split; reflexivity].
    - intros pid. apply flow_count_rearm.
Qed.

Lemma flows_ok_at_clearInterval (h : nat) : preserves (flows_ok_at st) (clearInterval h).
Proof.
    intros w. apply flows_ok_at_shrink; try reflexivity.
    - simpl. intros u Hu. apply filter_In in Hu.
      exists u. split; [apply Hu | split; reflexivity].
    - intros pid. apply flow_count_filter.
Qed.

Lemma flows_ok_at_uuidv4 : preserves (flows_ok_at st) uuidv4.
Proof.
    intros w [(F1 & F2 & F3 & F4) Hst]. split; [split; [ | split; [ | split]] | ]; simpl.
    - exact F1.
    - exact F2.
    - intros pid Hp. apply F3. lia.
    - exact F4.
    - destruct st as [[q early] | ]; [ | exact I].
      destruct Hst as (A & B & C). split; [exact A | ]. split; [lia | exact C].
Qed.

  (** A timer that carries no payment. *)
Lemma flows_ok_at_new_timer (w : World) (t : Timer.t) (n : nat) :
    (forall pid, flow_job_for pid (Timer.job t) = false) ->
    flows_ok_at st w ->
    flows_ok_at st (set_timer_next n (set_timers (timers w ++ [t]) w)).
Proof.
    intros Hj [(F1 & F2 & F3 & F4) Hst].
    assert (Hc : forall pid,
      flow_count pid (set_timer_next n (set_timers (timers w ++ [t]) w)) =
        flow_count pid w).
    { intros pid. rewrite flow_count_new. unfold flow_timer. rewrite Hj. lia. }
    assert (Hnf : forall pid, no_flow pid w ->
      no_flow pid (set_timer_next n (set_timers (timers w ++ [t]) w))).
    { intros pid H. apply no_flow_count. rewrite Hc. apply no_flow_count. exact H. }
    split; [split; [ | split; [ | split]] | ].
    - intros pid. rewrite Hc. apply F1.
    - simpl. intros u pid Hu He. apply in_app_or in Hu.
      destruct Hu as [Hu | [<- | []]].
      + apply (F2 u pid Hu He).
      + apply early_is_flow in He. rewrite Hj in He. discriminate.
    - simpl. intros pid Hp. destruct (F3 pid Hp) as [A B].
      split; [apply Hnf; exact A | exact B].
    - simpl. intros u Hu. apply in_app_or in Hu.
      destruct Hu as [Hu | [<- | []]]; [apply (F4 u Hu) | ].
      unfold one_shot_ok. destruct (Timer.job t) as [p | | | | | ]; try exact I.
      specialize (Hj p). simpl in Hj.
      rewrite Nat.eqb_refl in Hj. discriminate.
    - destruct st as [[q early] | ]; [ | exact I].
      destruct Hst as (A & B & C). split; [apply Hnf; exact A | ].
      split; [exact B | exact C].
Qed.

Lemma flows_ok_at_setTimeout (j : Job) (d : N) :
    (forall pid, flow_job_for pid j = false) ->
    preserves (flows_ok_at st) (setTimeout j d).
Proof. intros Hj w H. apply flows_ok_at_new_timer; assumption. Qed.

Lemma flows_ok_at_setInterval (j : Job) (d : N) :
    (forall pid, flow_job_for pid j = false) ->
    preserves (flows_ok_at st) (setInterval j d).
Proof. intros Hj w H. apply flows_ok_at_new_timer; assumption. Qed.

  (** A transaction that is not a payout. *)
Lemma flows_ok_at_insert_transaction (x : Transaction.t) :
    (forall pid, offramp_for pid x = false) ->
    preserves (flows_ok_at st) (Database.insert_transaction x).
Proof.
    intros Hx w [(F1 & F2 & F3 & F4) Hst].
    assert (Hno : forall pid, no_offramp pid w ->
              no_offramp pid (snd (Database.insert_transaction x w))).
    { intros pid H. unfold no_offramp in *. simpl.
      rewrite forallb_app, H. simpl. rewrite Hx. reflexivity. }
    split; [split; [ | split; [ | split]] | ].
    - exact F1.
    - intros t pid Ht He. apply Hno. apply (F2 t pid Ht He).
    - intros pid Hp. destruct (F3 pid Hp) as [A B]. split; [exact A | apply Hno; exact B].
    - exact F4.
    - destruct st as [[q early] | ]; [ | exact I].
      destruct Hst as (A & B & C). split; [exact A | ]. split; [exact B | ].
      intros E. apply Hno. apply C. exact E.
Qed.

Lemma flows_ok_at_update_transaction (q : Id) (f : Transaction.t -> Transaction.t) :
    keeps_leg f -> preserves (flows_ok_at st) (Database.update_transaction q f).
Proof.
    intros Hf w [(F1 & F2 & F3 & F4) Hst].
    assert (Hno : forall pid, no_offramp pid w ->
              no_offramp pid (snd (Database.update_transaction q f w))).
    { intros pid H. unfold no_offramp in *. simpl. rewrite forallb_forall in *.
      intros y Hy. apply in_map_iff in Hy. destruct Hy as [x [<- Hx]].
      specialize (H x Hx). destruct (Transaction.id x =? q); [ | exact H].
      unfold offramp_for in *. destruct (Hf x) as [E1 E2]. rewrite E1, E2. exact H. }
    split; [split; [ | split; [ | split]] | ].
    - exact F1.
    - intros t pid Ht He. apply Hno. apply (F2 t pid Ht He).
    - intros pid Hp. destruct (F3 pid Hp) as [A B]. split; [exact A | apply Hno; exact B].
    - exact F4.
    - destruct st as [[p early] | ]; [ | exact I].
      destruct Hst as (A & B & C). split; [exact A | ]. split; [exact B | ].
      intros E. apply Hno. apply C. exact E.
Qed.

Lemma flows_ok_at_insert_payment (p : Payment.t) :
    preserves (flows_ok_at st) (Database.insert_payment p).
Proof.
    intros w H. unfold Database.insert_payment.
    destruct (existsb _ _); simpl; exact H.
Qed.
End FlowLeaves.

Ltac frame_flows :=
  solve [ unfold_leaves; intros ? ?;
          unfold flows_ok_at, flows_ok, flow_count, no_flow, no_offramp in *;
          simpl; assumption ].

#[export] Hint Resolve flows_ok_at_clearInterval flows_ok_at_uuidv4
  flows_ok_at_setTimeout flows_ok_at_setInterval flows_ok_at_insert_transaction
  flows_ok_at_update_transaction flows_ok_at_insert_payment : pres.
#[export] Hint Extern 5 (preserves (flows_ok_at _) _) => frame_flows : pres.
#[export] Hint Extern 1 (forall pid, flow_job_for pid _ = false) =>
  intro; reflexivity : pres.
#[export] Hint Extern 1 (forall pid, offramp_for pid _ = false) =>
  intro; reflexivity : pres.

(** *** The steps that start or end a stage *)

Lemma flows_ok_at_new_flow (q : Id) (early : bool) (w : World) (t : Timer.t) (n : nat) :
  (forall p, flow_job_for p (Timer.job t) = (q =? p)) ->
  (early_job q (Timer.job t) = true -> early = true) ->
  one_shot_ok t ->
  flows_ok_at (Some (q, early)) w ->
  flows_ok_at None (set_timer_next n (set_timers (timers w ++ [t]) w)).
Proof.
  intros Hj He Ho [(F1 & F2 & F3 & F4) (A & B & C)].
  split; [ | exact I]. split; [ | split; [ | split]].
  - intros pid. rewrite flow_count_new. unfold flow_timer. rewrite Hj.
    destruct (Nat.eqb_spec q pid) as [<- | Hne].
    + apply no_flow_count in A. lia.
    + specialize (F1 pid). lia.
  - simpl. intros u pid Hu Hu'. apply in_app_or in Hu.
    destruct Hu as [Hu | [<- | []]]; [apply (F2 u pid Hu Hu') | ].
    pose proof (early_is_flow _ _ Hu') as Hf. rewrite Hj in Hf.
    apply Nat.eqb_eq in Hf. subst pid. apply C. apply He. exact Hu'.
  - simpl. intros pid Hp. destruct (F3 pid Hp) as [A' B'].
    split; [ | exact B']. apply no_flow_count. rewrite flow_count_new.
    unfold flow_timer. rewrite Hj.
    destruct (Nat.eqb_spec q pid) as [<- | Hne]; [lia | ].
    apply no_flow_count in A'. lia.
  - simpl. intros u Hu. apply in_app_or in Hu.
    destruct Hu as [Hu | [<- | []]]; [apply (F4 u Hu) | exact Ho].
Qed.

Lemma flows_setTimeout_process (q : Id) (d : N) :
  hoare (flows_ok_at (Some (q, true))) (setTimeout (JProcessPayment q) d)
        (flows_ok_at None).
Proof.
  intros w H. apply (flows_ok_at_new_flow q true);
    [ intros p; reflexivity
    | simpl; intros E; first [reflexivity | discriminate E]
    | first [reflexivity | exact I]
    | exact H ].
Qed.

Lemma flows_setInterval_onramp (q tx : Id) (d : N) :
  hoare (flows_ok_at (Some (q, true))) (setInterval (JOnrampPoll q tx) d)
        (flows_ok_at None).
Proof.
  intros w H. apply (flows_ok_at_new_flow q true);
    [ intros p; reflexivity
    | simpl; intros E; first [reflexivity | discriminate E]
    | first [reflexivity | exact I]
    | exact H ].
Qed.

Lemma flows_setInterval_offramp (q tx : Id) (d : N) :
  hoare (flows_ok_at (Some (q, false))) (setInterval (JOfframpPoll q tx) d)
        (flows_ok_at None).
Proof.
  intros w H. apply (flows_ok_at_new_flow q false);
    [ intros p; reflexivity
    | simpl; intros E; first [reflexivity | discriminate E]
    | first [reflexivity | exact I]
    | exact H ].
Qed.

(** The payout's transaction is created when no earlier stage of the
    payment is queued. *)
Lemma flows_insert_offramp (q : Id) (x : Transaction.t) :
  Transaction.payment_id x = Some q ->
  preserves (flows_ok_at (Some (q, false))) (Database.insert_transaction x).
Proof.
  intros Hx w [(F1 & F2 & F3 & F4) (A & B & C)].
  assert (Hno : forall pid, pid <> q -> no_offramp pid w ->
            no_offramp pid (snd (Database.insert_transaction x w))).
  { intros pid Hne H. unfold no_offramp in *. simpl.
    rewrite forallb_app, H. simpl. unfold offramp_for. rewrite Hx.
    destruct (Nat.eqb_spec q pid) as [-> | _]; [contradiction | ].
    rewrite andb_false_r. reflexivity. }
  assert (Hq : forall t, In t (timers w) -> flow_job_for q (Timer.job t) = false).
  { intros t Ht. unfold no_flow in A. rewrite forallb_forall in A.
    specialize (A t Ht). destruct (flow_job_for q (Timer.job t)); [discriminate | reflexivity]. }
  split; [split; [ | split; [ | split]] | ].
  - exact F1.
  - intros t pid Ht He. apply Hno; [ | apply (F2 t pid Ht He)].
    intros ->. apply early_is_flow in He. rewrite (Hq t Ht) in He. discriminate.
  - intros pid Hp. destruct (F3 pid Hp) as [A' B']. split; [exact A' | ].
    apply Hno; [ | exact B']. simpl in Hp. lia.
  - exact F4.
  - split; [exact A | ]. split; [exact B | discriminate].
Qed.

(** The handle drawn for a new payment. *)
Lemma flows_uuidv4_fresh {B} (k : Id -> M B) (Q : World -> Prop) :
  (forall a, hoare (flows_ok_at (Some (a, true))) (k a) Q) ->
  hoare (flows_ok_at None) (bind uuidv4 k) Q.
Proof.
  intros Hk w H. unfold bind, uuidv4. apply Hk.
  pose proof (flows_ok_at_uuidv4 None w H) as [H' _].
  destruct H as [(_ & _ & F3 & _) _]. destruct (F3 (uuid_next w) (le_n _)) as [A C].
  split; [exact H' | ]. split; [exact A | ]. split; [simpl; lia | ].
  intros _. exact C.
Qed.

(** *** The job that runs *)

Lemma flow_timer_unique (q : Id) (l : list Timer.t) (t u : Timer.t) :
  length (filter (flow_timer q) l) <= 1 ->
  In t l -> flow_timer q t = true -> In u l -> flow_timer q u = true -> u = t.
Proof.
  induction l as [ | a l IH]; simpl; [contradiction | ].
  intros Hc Ht Hft Hu Hfu.
  assert (Hz : forall v, In v l -> flow_timer q v = true ->
                 1 <= length (filter (flow_timer q) l)).
  { intros v Hv Hfv. pose proof (filter_In (flow_timer q) v l) as [_ G].
    specialize (G (conj Hv Hfv)). destruct (filter (flow_timer q) l); [contradiction | ].
    simpl. lia. }
  destruct Ht as [-> | Ht], Hu as [-> | Hu].
  - reflexivity.
  - rewrite Hft in Hc. simpl in Hc. specialize (Hz u Hu Hfu). lia.
  - rewrite Hfu in Hc. simpl in Hc. specialize (Hz t Ht Hft). lia.
  - destruct (flow_timer q a); simpl in Hc; apply IH; auto; lia.
Qed.

Lemma flows_ok_own_fired (h : nat) (q : Id) (t : Timer.t) (w : World) :
  flows_ok w ->
  find (fun t => Timer.id t =? h) (timers w) = Some t ->
  early_job q (Timer.job t) = true ->
  flows_ok_own h q (set_timers (rearm t (timers w)) w).
Proof.
  intros H Hfind He.
  pose proof (find_some _ _ Hfind) as [Hin Hid]. apply Nat.eqb_eq in Hid.
  pose proof (early_is_flow _ _ He) as Hf.
  pose proof (flows_ok_at_rearm None t w (conj H I)) as [H' _].
  destruct H as (F1 & F2 & F3 & F4).
  split; [exact H' | ]. split; [ | split].
  - simpl. destruct (Nat.lt_ge_cases q (uuid_next w)) as [L | G]; [exact L | ].
    destruct (F3 q G) as [A _]. unfold no_flow in A. rewrite forallb_forall in A.
    specialize (A t Hin). rewrite Hf in A. discriminate.
  - apply (no_offramp_transactions q w); [reflexivity | ]. apply (F2 t q Hin He).
  - simpl. intros u Hu Hfu.
    assert (G : exists v, In v (timers w) /\ Timer.job v = Timer.job u /\
                          Timer.id v = Timer.id u).
    { unfold rearm in Hu. destruct (Timer.period t).
      - apply in_map_iff in Hu. destruct Hu as [v [<- Hv]]. exists v.
        split; [exact Hv | ]. destruct (Timer.id v =? Timer.id t); split; reflexivity.
      - apply filter_In in Hu. exists u. split; [apply Hu | split; reflexivity]. }
    destruct G as (v & Hv & Hj & Hi).
    assert (E : v = t).
    { apply (flow_timer_unique q (timers w)); auto.
      - apply (F1 q).
      - unfold flow_timer. rewrite Hj. exact Hfu. }
    subst v. rewrite <- Hi. exact Hid.
Qed.

Lemma flows_ok_own_cleared (h : nat) (q : Id) (w : World) (g : Timer.t -> bool) :
  (forall t, Timer.id t = h -> g t = false) ->
  flows_ok_own h q w ->
  flows_ok_at (Some (q, true)) (set_timers (filter g (timers w)) w).
Proof.
  intros Hg (H & B & C & D).
  assert (H' : flows_ok_at None (set_timers (filter g (timers w)) w)).
  { apply (flows_ok_at_shrink None w); try reflexivity.
    - simpl. intros u Hu. apply filter_In in Hu.
      exists u. split; [apply Hu | split; reflexivity].
    - intros pid. apply flow_count_filter.
    - split; [exact H | exact I]. }
  split; [apply H' | ]. split; [ | split; [exact B | intros _; exact C]].
  unfold no_flow. simpl. apply forallb_forall. intros u Hu.
  apply filter_In in Hu. destruct Hu as [Hu Hgu].
  destruct (flow_job_for q (Timer.job u)) eqn:E; [ | reflexivity].
  rewrite (Hg u (D u Hu E)) in Hgu. discriminate.
Qed.

Lemma flows_clearInterval_own (h : nat) (q : Id) :
  hoare (flows_ok_own h q) (clearInterval h) (flows_ok_at (Some (q, true))).
Proof.
  intros w H. apply (flows_ok_own_cleared h q w); [ | exact H].
  intros t ->. rewrite Nat.eqb_refl. reflexivity.
Qed.

Lemma flows_ok_own_weaken (h : nat) (q : Id) (w : World) :
  flows_ok_own h q w -> flows_ok_at None w.
Proof. intros [H _]. split; [exact H | exact I]. Qed.

(** *** The handlers *)

#[export] Hint Extern 2 (preserves (flows_ok_at (Some (_, false)))
                                  (Database.insert_transaction _)) =>
  apply flows_insert_offramp; reflexivity : pres.

Ltac flows_step :=
  lazymatch goal with
  | |- hoare (flows_ok_at _) (ret _) _ => apply hoare_ret; apply flows_ok_at_weaken
  | |- hoare (flows_ok_at _) (throw _) _ => apply hoare_throw; apply flows_ok_at_weaken
  | |- hoare (flows_ok_at None) (bind uuidv4 _) _ => apply flows_uuidv4_fresh; intro
  | |- hoare (flows_ok_at (Some (?q, true)))
             (bind (setTimeout (JProcessPayment ?q) _) _) _ =>
      apply (hoare_bind _ (flows_ok_at None));
      [apply flows_setTimeout_process | intro | trivial]
  | |- hoare (flows_ok_at (Some (?q, true)))
             (bind (setInterval (JOnrampPoll ?q _) _) _) _ =>
      apply (hoare_bind _ (flows_ok_at None));
      [apply flows_setInterval_onramp | intro | trivial]
  | |- hoare (flows_ok_at (Some (?q, false)))
             (bind (setInterval (JOfframpPoll ?q _) _) _) _ =>
      apply (hoare_bind _ (flows_ok_at None));
      [apply flows_setInterval_offramp | intro | trivial]
  | |- hoare (flows_ok_at ?st) (bind _ _) (flows_ok_at None) =>
      apply (hoare_seq_pres (flows_ok_at st));
      [solve [pres] | intro | apply flows_ok_at_weaken]
  | |- hoare (flows_ok_at ?st) (try_catch _ _) (flows_ok_at None) =>
      apply (hoare_try_catch _ (flows_ok_at None));
      [ | intro; apply hoare_pres; [solve [pres] | trivial] | trivial]
  | |- hoare _ (if ?b then _ else _) _ => destruct b
  | |- hoare _ (match ?x with _ => _ end) _ => destruct x
  | |- hoare _ (let _ := _ in _) _ => cbv zeta
  | |- hoare (flows_ok_at _) _ (flows_ok_at None) =>
      apply hoare_pres; [solve [pres] | apply flows_ok_at_weaken]
  end.

Lemma flows_processOfframp (q : Id) :
  hoare (flows_ok_at (Some (q, false))) (PaymentOrchestrator.processOfframp q)
        (flows_ok_at None).
Proof.
  unfold PaymentOrchestrator.processOfframp,
    PaymentOrchestrator.monitorOfframpCompletion.
  repeat flows_step.
Qed.

Lemma flows_processPayment (q : Id) :
  hoare (flows_ok_at (Some (q, true))) (PaymentOrchestrator.processPayment q)
        (flows_ok_at None).
Proof.
  unfold PaymentOrchestrator.processPayment,
    PaymentOrchestrator.monitorOnrampCompletion.
  repeat flows_step.
Qed.

Lemma flows_createPayment (request : CreatePaymentRequest.t) (random : Q) :
  preserves (flows_ok_at None) (PaymentOrchestrator.createPayment request random).
Proof.
  change (hoare (flows_ok_at None)
                (PaymentOrchestrator.createPayment request random) (flows_ok_at None)).
  unfold PaymentOrchestrator.createPayment.
  repeat flows_step.
Qed.

Lemma flows_onrampPoll (h : nat) (q tx : Id) :
  hoare (flows_ok_own h q) (PaymentOrchestrator.onrampPoll h q tx) (flows_ok_at None).
Proof.
  assert (Hfail : hoare (flows_ok_own h q)
                    (clearInterval h ;;;
                     PaymentOrchestrator.updatePaymentStatus q PaymentStatus.FAILED)
                    (flows_ok_at None)).
  { apply (hoare_conseq _ (flows_ok_at None) _ (flows_ok_at None));
      [ | apply flows_ok_own_weaken | trivial].
    apply hoare_pres; [solve [pres] | trivial]. }
  unfold PaymentOrchestrator.onrampPoll.
  apply (hoare_try_catch _ (flows_ok_at None));
    [ | intro; apply hoare_pres; [solve [pres] | trivial] | trivial].
  apply (hoare_seq_pres (flows_ok_own h q));
    [ unfold OnrampService.getTransactionStatus, Database.select_transaction;
      apply preserves_gets
    | intros [x | ]
    | apply flows_ok_own_weaken ].
  - destruct (TransactionStatus.eqb (Transaction.status x) TransactionStatus.COMPLETED).
    + apply (hoare_bind _ (flows_ok_at (Some (q, true))));
        [apply flows_clearInterval_own | intros _ | apply flows_ok_at_weaken].
      repeat flows_step.
      apply (hoare_conseq _ (flows_ok_at (Some (q, false))) _ (flows_ok_at None));
        [apply flows_processOfframp | apply flows_ok_at_late | trivial].
    + destruct (TransactionStatus.eqb (Transaction.status x) TransactionStatus.FAILED).
      * exact Hfail.
      * apply hoare_ret. apply flows_ok_own_weaken.
  - exact Hfail.
Qed.

Lemma flows_ok_fire (e : Event) (w w' : World) :
  flows_ok w -> fire e w = Some w' -> flows_ok w'.
Proof.
  intros H Hf.
  cut (flows_ok_at None w'); [intros G; apply G | ].
  assert (H0 : flows_ok_at None w) by (split; [exact H | exact I]).
  clear H. revert e w w' H0 Hf.
  apply (fire_preserves (flows_ok_at None)).
  - apply flows_createPayment.
  - intros paymentId. pres.
  - intros webhookId newUrl. pres.
  - intros handle random db_ok w t Hw Hfind.
    destruct (Timer.job t) as [q | q tx | q tx | c | tx rate | wid url] eqn:Ej;
      cbn [runJob].
    + apply flows_processPayment.
      pose proof (find_some _ _ Hfind) as [Hin Hid]. apply Nat.eqb_eq in Hid.
      assert (Hp : Timer.period t = None).
      { destruct Hw as [(_ & _ & _ & F4) _]. specialize (F4 t Hin).
        unfold one_shot_ok in F4. rewrite Ej in F4. exact F4. }
      assert (Ho : flows_ok_own handle q (set_timers (rearm t (timers w)) w)).
      { apply flows_ok_own_fired; [apply Hw | exact Hfind | ].
        rewrite Ej. simpl. apply Nat.eqb_refl. }
      unfold rearm in *. rewrite Hp in *.
      apply (flows_ok_own_cleared handle q w); [ | ].
      * intros u ->. rewrite Hid, Nat.eqb_refl. reflexivity.
      * destruct Ho as (_ & B & C & _). destruct Hw as [Hw _].
        split; [exact Hw | ]. split; [exact B | ]. split; [exact C | ].
        intros u Hu Hfu.
        assert (E : u = t).
        { apply (flow_timer_unique q (timers w)); auto.
          - apply Hw.
          - unfold flow_timer. rewrite Ej. simpl. apply Nat.eqb_refl. }
        subst u. exact Hid.
    + apply flows_onrampPoll. apply flows_ok_own_fired; [apply Hw | exact Hfind | ].
      rewrite Ej. simpl. apply Nat.eqb_refl.
    + revert Hw. generalize w. 
      assert (G : preserves (flows_ok_at None)
                    (PaymentOrchestrator.offrampPoll handle q tx)) by pres.
      intros w0 Hw0. apply G. apply flows_ok_at_rearm. exact Hw0.
    + apply flows_ok_at_clearInterval. apply flows_ok_at_rearm. exact Hw.
    + assert (G : preserves (flows_ok_at None)
                    (resolveTransaction tx rate random db_ok)) by pres.
      apply G. apply flows_ok_at_rearm. exact Hw.
    + assert (G : preserves (flows_ok_at None)
                    (WebhookService.sendWebhookAsync wid url)) by pres.
      apply G. apply flows_ok_at_rearm. exact Hw.
  - intros index ok w r Hw _.
    assert (G : preserves (flows_ok_at None) (WebhookService.onResponse r ok)) by pres.
    apply G. exact Hw.
  - intros w dt Hw. exact Hw.
Qed.

Lemma flows_ok_initial : flows_ok initialWorld.
Proof.
  split; [ | split; [ | split]].
  - intros pid. unfold flow_count. simpl. lia.
  - intros t pid [].
  - intros pid _. split; reflexivity.
  - intros t [].
Qed.

Lemma reachable_flows_ok (w : World) : reachable w -> flows_ok w.
Proof.
  revert w. apply (reachable_ind flows_ok).
  - exact flows_ok_initial.
  - intros e w w' H Hf. exact (flows_ok_fire e w w' H Hf).
Qed.

(** What the poll of [monitorOnrampCompletion] does on a failed transaction. *)
Lemma onrampPoll_failed (h : nat) (pid tx : Id) (x : Transaction.t) (w : World) :
  find (fun r => Transaction.id r =? tx) (transactions w) = Some x ->
  Transaction.status x = TransactionStatus.FAILED ->
  exec (PaymentOrchestrator.onrampPoll h pid tx) w =
    exec (PaymentOrchestrator.updatePaymentStatus pid PaymentStatus.FAILED)
         (exec (clearInterval h) w).
Proof.
  intros Hx Hs.
  unfold exec, PaymentOrchestrator.onrampPoll, try_catch.
  unfold bind at 1.
  unfold OnrampService.getTransactionStatus, Database.select_transaction, gets.
  cbn beta iota. rewrite Hx, Hs. cbn [TransactionStatus.eqb].
  reflexivity.
Qed.

(** In every state the server can reach, a payment has at most one of its
    stage jobs queued (the detached [processPayment], the onramp poll, the
    offramp poll), and as long as its [processPayment] or its onramp poll is
    queued no offramp transaction exists for it: the payout starts only after
    a poll has seen the onramp transaction completed. *)
Theorem payout_only_after_collection (w : World) (pid : Id) :
  reachable w ->
  flow_count pid w <= 1 /\
  forall t, In t (timers w) -> early_job pid (Timer.job t) = true ->
            no_offramp pid w.
Proof.
  intros H. destruct (reachable_flows_ok w H) as (F1 & F2 & _).
  split; [apply F1 | ]. intros t Ht He. exact (F2 t pid Ht He).
Qed.

Lemma payout_only_after_collection_witness :
  flow_count 0 (world_after failed_onramp_trace) <= 1 /\
  forall t, In t (timers (world_after failed_onramp_trace)) ->
            early_job 0 (Timer.job t) = true ->
            no_offramp 0 (world_after failed_onramp_trace).
Proof.
  apply (payout_only_after_collection (world_after failed_onramp_trace) 0).
  exists failed_onramp_trace. vm_compute. reflexivity.
Defined.

(* ================================================================== *)
(** * Further properties *)

(** ** The fee engine *)

Section FeeEngineMore.
Local Open Scope Q_scope.

Lemma clamp_mono (x y lo : Q) (hi : option Q) :
    x <= y -> Spec.clamp x lo hi <= Spec.clamp y lo hi.
Proof.
    intros H. unfold Spec.clamp.
    assert (M : Qmax x lo <= Qmax y lo) by (apply Q.max_le_compat_r; exact H).
    destruct hi as [h | ]; [apply Q.min_le_compat_r; exact M | exact M].
Qed.

Lemma totalFee_mono (cfg : FeeConfig.t) (a b : Q) :
    0 <= FeeConfig.percentage_fee cfg -> a <= b ->
    FeeEngine.totalFee cfg a <= FeeEngine.totalFee cfg b.
Proof.
    intros Hp Hab. rewrite !totalFee_clamp. apply round2_mono. apply clamp_mono.
    apply add_mono; [apply Qle_refl | ]. apply mul_mono_l; assumption.
Qed.

  (** The fee never decreases when the amount grows, for a schedule whose
      percentage is not negative. *)
Theorem calculateFees_monotone
      (w : World) (currency : string) (a b : Q) (cfg : FeeConfig.t) :
    FeeEngine.select (fee_configs w) (JS.toUpperCase currency) = Some cfg ->
    0 <= FeeConfig.percentage_fee cfg ->
    a <= b ->
    exists fa fb,
      eval (FeeEngine.calculateFees currency a) w = Ok fa /\
      eval (FeeEngine.calculateFees currency b) w = Ok fb /\
      FeeCalculation.total_fee fa <= FeeCalculation.total_fee fb.
Proof.
    intros Hcfg Hp Hab. unfold eval.
    rewrite (calculateFees_found w currency a cfg Hcfg).
    rewrite (calculateFees_found w currency b cfg Hcfg).
    eexists. eexists. split; [reflexivity | ]. split; [reflexivity | ].
    simpl. apply totalFee_mono; assumption.
Qed.

Lemma calculateFees_monotone_witness :
    exists fa fb,
      eval (FeeEngine.calculateFees "EUR" 85) initialWorld = Ok fa /\
      eval (FeeEngine.calculateFees "EUR" 850) initialWorld = Ok fb /\
      FeeCalculation.total_fee fa <= FeeCalculation.total_fee fb.
Proof.
    apply (calculateFees_monotone initialWorld "EUR" 85 850
             (FeeConfig.mk 1 "EUR" 2.50 (JS.num 0.0299) 1.00 (Some 50.00) 0)).
    - vm_compute. reflexivity.
    - vm_compute. discriminate.
    - discriminate.
Defined.

Lemma totalFee_within (cfg : FeeConfig.t) (amount mx : Q) :
    FeeConfig.maximum_fee cfg = Some mx ->
    JS.truthy mx = true ->
    JS.round2 (FeeConfig.minimum_fee cfg) == FeeConfig.minimum_fee cfg ->
    JS.round2 mx == mx ->
    FeeConfig.minimum_fee cfg <= mx ->
    FeeConfig.minimum_fee cfg <= FeeEngine.totalFee cfg amount /\
    FeeEngine.totalFee cfg amount <= mx.
Proof.
    intros Hmx Ht Wlo Whi Hle. rewrite totalFee_clamp.
    assert (E : Spec.effective_maximum cfg = Some mx).
    { unfold Spec.effective_maximum. rewrite Hmx, Ht. reflexivity. }
    rewrite E.
    set (raw := JS.add (FeeConfig.base_fee cfg)
                       (JS.mul amount (FeeConfig.percentage_fee cfg))).
    split.
    - rewrite <- Wlo at 1. apply round2_mono.
      unfold Spec.clamp. apply Q.min_glb; [apply Q.le_max_r | exact Hle].
    - rewrite <- Whi at 2. apply round2_mono. apply clamp_upper.
Qed.

  (** With each of the eight schedules the database is initialised with, the
      fee of every amount lies between the schedule's minimum and maximum. *)
Theorem default_fees_within_bounds (cfg : FeeConfig.t) (amount : Q) :
    In cfg defaultFeeConfigs ->
    exists mx,
      FeeConfig.maximum_fee cfg = Some mx /\
      FeeConfig.minimum_fee cfg <= FeeEngine.totalFee cfg amount /\
      FeeEngine.totalFee cfg amount <= mx.
Proof.
    intros Hin.
    unfold defaultFeeConfigs in Hin. simpl in Hin.
    repeat (destruct Hin as [<- | Hin];
      [ eexists; split; [reflexivity | ];
        apply totalFee_within;
          [ reflexivity | reflexivity
          | vm_compute; reflexivity | vm_compute; reflexivity
          | discriminate ]
      | ]).
    contradiction.
Qed.

Lemma default_fees_within_bounds_witness :
    exists mx,
      Some 50.00 = Some mx /\
      1.00 <= FeeEngine.totalFee
                (FeeConfig.mk 1 "EUR" 2.50 (JS.num 0.0299) 1.00 (Some 50.00) 0) 85 /\
      FeeEngine.totalFee
        (FeeConfig.mk 1 "EUR" 2.50 (JS.num 0.0299) 1.00 (Some 50.00) 0) 85 <= mx.
Proof.
    apply (default_fees_within_bounds
             (FeeConfig.mk 1 "EUR" 2.50 (JS.num 0.0299) 1.00 (Some 50.00) 0) 85).
    left. reflexivity.
Defined.

End FeeEngineMore.

Section FeeConfigs.
Local Open Scope Q_scope.

Lemma upper_ascii_idem (c : ascii) : JS.upper_ascii (JS.upper_ascii c) = JS.upper_ascii c.
Proof. destruct c as [[] [] [] [] [] [] [] []]; reflexivity. Qed.

Lemma toUpperCase_idem (s : string) : JS.toUpperCase (JS.toUpperCase s) = JS.toUpperCase s.
Proof.
    induction s as [ | c s IH]; simpl; [reflexivity | ].
    rewrite upper_ascii_idem, IH. reflexivity.
Qed.

  (** Currency codes are looked up in upper case: a code and its upper-case
      form are supported alike and are charged the same fee. *)
Theorem fee_lookup_ignores_case (w : World) (currency : string) (amount : Q) :
    eval (FeeEngine.isCurrencySupported currency) w =
      eval (FeeEngine.isCurrencySupported (JS.toUpperCase currency)) w /\
    match eval (FeeEngine.calculateFees currency amount) w,
          eval (FeeEngine.calculateFees (JS.toUpperCase currency) amount) w with
    | Ok f1, Ok f2 =>
        FeeCalculation.total_fee f1 = FeeCalculation.total_fee f2 /\
        FeeCalculation.base_fee f1 = FeeCalculation.base_fee f2 /\
        FeeCalculation.percentage_fee f1 = FeeCalculation.percentage_fee f2
    | Throw _, Throw _ => True
    | _, _ => False
    end.
Proof.
    unfold eval, FeeEngine.isCurrencySupported, FeeEngine.calculateFees,
      FeeEngine.getFeeConfig, bind, gets. simpl.
    rewrite toUpperCase_idem.
    destruct (FeeEngine.select (fee_configs w) (JS.toUpperCase currency)); simpl.
    - split; [reflexivity | ]. split; [reflexivity | ]. split; reflexivity.
    - split; [reflexivity | exact I].
Qed.

Lemma newest_In (l : list FeeConfig.t) (b : option FeeConfig.t) (y : FeeConfig.t) :
    FeeEngine.newest l b = Some y -> In y l \/ b = Some y.
Proof.
    revert b. induction l as [ | r l IH]; simpl; intros b H; [right; exact H | ].
    destruct b as [b0 | ].
    - destruct (FeeConfig.created_at b0 <? FeeConfig.created_at r)%N.
      + destruct (IH _ H) as [G | G]; [left; right; exact G | ].
        injection G as <-. left. left. reflexivity.
      + destruct (IH _ H) as [G | G]; [left; right; exact G | right; exact G].
    - destruct (IH _ H) as [G | G]; [left; right; exact G | ].
      injection G as <-. left. left. reflexivity.
Qed.

Lemma newest_app (l : list FeeConfig.t) (x : FeeConfig.t) (b : option FeeConfig.t) :
    FeeEngine.newest (l ++ [x]) b =
      match FeeEngine.newest l b with
      | Some y =>
          if (FeeConfig.created_at y <? FeeConfig.created_at x)%N then Some x else Some y
      | None => Some x
      end.
Proof.
    revert b. induction l as [ | r l IH]; simpl; intros b.
    - destruct b; reflexivity.
    - destruct b as [b0 | ].
      + destruct (FeeConfig.created_at b0 <? FeeConfig.created_at r)%N; apply IH.
      + apply IH.
Qed.

  (** A schedule written by [updateFeeConfig] in a later second than every
      stored schedule of the currency is the one [getFeeConfig] returns from
      then on (under the upper-case code), and the schedules of the other
      currencies are the ones returned before.  ([created_at] has a
      resolution of one second, and among rows of the same second the query
      returns the one stored first.) *)
Theorem updateFeeConfig_then_getFeeConfig
      (w : World) (currency : string) (baseFee percentageFee minimumFee : Q)
      (maximumFee : option Q) :
    (forall r, In r (fee_configs w) ->
               FeeConfig.currency r = JS.toUpperCase currency ->
               (FeeConfig.created_at r < CURRENT_TIMESTAMP w)%N) ->
    let w' := exec (FeeEngine.updateFeeConfig currency baseFee percentageFee
                      minimumFee maximumFee) w in
    (exists cfg,
        eval (FeeEngine.getFeeConfig currency) w' = Ok (Some cfg) /\
        FeeConfig.currency cfg = JS.toUpperCase currency /\
        FeeConfig.base_fee cfg = baseFee /\
        FeeConfig.percentage_fee cfg = percentageFee /\
        FeeConfig.minimum_fee cfg = minimumFee /\
        FeeConfig.maximum_fee cfg = maximumFee) /\
    (forall other,
        JS.toUpperCase other <> JS.toUpperCase currency ->
        eval (FeeEngine.getFeeConfig other) w' = eval (FeeEngine.getFeeConfig other) w).
Proof.
    intros Hold w'. subst w'.
    unfold exec, eval, FeeEngine.updateFeeConfig, FeeEngine.getFeeConfig, modify, gets.
    simpl. unfold FeeEngine.select. split.
    - rewrite filter_app. simpl. rewrite String.eqb_refl.
      rewrite newest_app.
      destruct (FeeEngine.newest
                  (filter (fun r => String.eqb (FeeConfig.currency r)
                                               (JS.toUpperCase currency))
                          (fee_configs w)) None) as [y | ] eqn:E.
      + destruct (newest_In _ _ _ E) as [Hin | Hb]; [ | discriminate].
        apply filter_In in Hin. destruct Hin as [Hin Hc].
        apply String.eqb_eq in Hc. specialize (Hold y Hin Hc).
        apply N.ltb_lt in Hold. simpl. rewrite Hold.
        eexists. split; [reflexivity | ]. repeat split.
      + eexists. split; [reflexivity | ]. repeat split.
    - intros other Hne. rewrite filter_app. simpl.
      destruct (String.eqb_spec (JS.toUpperCase currency) (JS.toUpperCase other))
        as [E | _]; [symmetry in E; contradiction | ].
      rewrite app_nil_r. reflexivity.
Qed.

Lemma updateFeeConfig_then_getFeeConfig_witness :
    exists cfg,
      eval (FeeEngine.getFeeConfig "eur")
           (exec (FeeEngine.updateFeeConfig "eur" 1 (JS.num 0.01) 0.50 None)
                 (set_clock 1000 initialWorld)) = Ok (Some cfg) /\
      FeeConfig.base_fee cfg = 1 /\ FeeConfig.maximum_fee cfg = None.
Proof.
    destruct (updateFeeConfig_then_getFeeConfig (set_clock 1000 initialWorld)
                "eur" 1 (JS.num 0.01) 0.50 None) as [(cfg & H & _ & Hb & _ & _ & Hm) _].
    - intros r Hin _. simpl in Hin.
      repeat (destruct Hin as [<- | Hin]; [reflexivity | ]). contradiction.
    - exists cfg. split; [exact H | ]. split; assumption.
Defined.

  (** [getFeeEstimate] and [calculateTotalAmount] quote the same three
      amounts, and fail alike when the currency has no schedule. *)
Theorem getFeeEstimate_agrees_with_calculateTotalAmount
      (w : World) (sourceAmount : Q) (sourceCurrency destinationCurrency : string)
      (exchangeRate : Q) :
    match FeeEngine.getFeeEstimate sourceAmount sourceCurrency destinationCurrency
            exchangeRate w,
          FeeEngine.calculateTotalAmount sourceAmount sourceCurrency destinationCurrency
            exchangeRate w with
    | (Ok est, w1), (Ok tot, w2) =>
        w1 = w /\ w2 = w /\
        FeeEstimate.destination_amount est = TotalAmount.destinationAmount tot /\
        FeeCalculation.total_fee (FeeEstimate.fee_breakdown est) =
          TotalAmount.feeAmount tot /\
        FeeEstimate.total_cost est = TotalAmount.totalAmount tot /\
        FeeEstimate.destination_amount est =
          JS.round2 (JS.mul sourceAmount exchangeRate) /\
        FeeEstimate.total_cost est =
          JS.round2 (JS.add sourceAmount
                       (JS.div (FeeCalculation.total_fee (FeeEstimate.fee_breakdown est))
                               exchangeRate))
    | (Throw e1, w1), (Throw e2, w2) =>
        w1 = w /\ w2 = w /\ e1 = e2 /\
        e1 = ("Fee configuration not found for currency: " ++ destinationCurrency)%string
    | _, _ => False
    end.
Proof.
    unfold FeeEngine.getFeeEstimate, FeeEngine.calculateTotalAmount.
    unfold bind.
    destruct (FeeEngine.select (fee_configs w) (JS.toUpperCase destinationCurrency))
      as [cfg | ] eqn:E.
    - rewrite (calculateFees_found w _ _ cfg E). simpl. repeat split.
    - rewrite (calculateFees_missing w _ _ E). repeat split.
Qed.

End FeeConfigs.

(** ** The rate service *)

Section RateCache.
Local Open Scope Q_scope.

Lemma rate_newest_none (l : list ExchangeRate.t) (b : option ExchangeRate.t) :
    ExchangeRateService.newest l b = None -> l = [] /\ b = None.
Proof.
    revert b. induction l as [ | r l IH]; simpl; intros b H; [auto | ].
    destruct b as [b0 | ].
    - destruct (ExchangeRate.created_at b0 <? ExchangeRate.created_at r)%N;
        destruct (IH _ H) as [_ G]; discriminate G.
    - destruct (IH _ H) as [_ G]. discriminate G.
Qed.

Lemma filter_nil {A} (f : A -> bool) (l : list A) :
    (forall x, In x l -> f x = false) -> filter f l = [].
Proof.
    induction l as [ | a l IH]; simpl; intros H; [reflexivity | ].
    rewrite (H a (or_introl eq_refl)). apply IH. intros x Hx. apply H. right. exact Hx.
Qed.

Lemma filter_all_false {A} (f : A -> bool) (l : list A) (x : A) :
    filter f l = [] -> In x l -> f x = false.
Proof.
    intros E Hin. destruct (f x) eqn:Hf; [ | reflexivity].
    assert (G : In x (filter f l)) by (apply filter_In; split; assumption).
    rewrite E in G. contradiction.
Qed.

  (** After a miss, the row [cacheRate] has written answers every call for
      the pair made before the row expires. *)
Lemma cached_after_miss (w w' : World) (src dst : string) (rate random : Q) :
    src <> dst ->
    eval (ExchangeRateService.getCachedRate src dst) w = Ok None ->
    exchange_rates w' =
      exchange_rates (exec (ExchangeRateService.cacheRate src dst rate) w) ->
    (clock w <= clock w')%N ->
    (clock w' < clock w + 900000)%N ->
    ExchangeRateService.getExchangeRate src dst random w' = (Ok rate, w').
Proof.
    intros Hne Hmiss Hrows Hge Hlt.
    unfold eval, ExchangeRateService.getCachedRate, gets in Hmiss. simpl in Hmiss.
    injection Hmiss as Hmiss. apply rate_newest_none in Hmiss. destruct Hmiss as [Hnil _].
    unfold ExchangeRateService.getExchangeRate.
    destruct (String.eqb_spec src dst) as [E | _]; [contradiction | ].
    unfold bind, ExchangeRateService.getCachedRate, gets. simpl.
    rewrite Hrows. unfold exec, ExchangeRateService.cacheRate, modify. simpl.
    rewrite filter_app. simpl. rewrite !String.eqb_refl. simpl.
    assert (Hl : (clock w' <? clock w + 900000)%N = true) by (apply N.ltb_lt; lia).
    rewrite Hl.
    rewrite filter_nil; [reflexivity | ].
    intros x Hx. apply filter_In in Hx. destruct Hx as [Hx _].
    pose proof (filter_all_false _ _ x Hnil Hx) as Hf. simpl in Hf.
    destruct (String.eqb (ExchangeRate.from_currency x) src &&
              String.eqb (ExchangeRate.to_currency x) dst); [ | reflexivity].
    simpl in *. apply N.ltb_ge in Hf. apply N.ltb_ge. lia.
Qed.

Lemma getExchangeRate_on_miss (w : World) (src dst : string) (random : Q) :
    src <> dst ->
    eval (ExchangeRateService.getCachedRate src dst) w = Ok None ->
    ExchangeRateService.getExchangeRate src dst random w =
      (Ok (ExchangeRateService.fetchExchangeRate (mockRates w) src dst random),
       exec (ExchangeRateService.cacheRate src dst
               (ExchangeRateService.fetchExchangeRate (mockRates w) src dst random)) w).
Proof.
    intros Hne Hmiss. unfold ExchangeRateService.getExchangeRate.
    destruct (String.eqb_spec src dst) as [E | _]; [contradiction | ].
    unfold eval in Hmiss. unfold bind at 1.
    destruct (ExchangeRateService.getCachedRate src dst w) as [r w0] eqn:Ec.
    simpl in Hmiss. subst r.
    unfold ExchangeRateService.getCachedRate, gets in Ec. injection Ec as _ <-.
    reflexivity.
Qed.

  (** A rate fetched on a cache miss is served unchanged, whatever
      [Math.random()] gives, by every call for the pair during the next 15
      minutes; 15 minutes after the fetch the cached row has expired. *)
Theorem fetched_rate_is_cached_15_minutes
      (w : World) (src dst : string) (random : Q) :
    src <> dst ->
    eval (ExchangeRateService.getCachedRate src dst) w = Ok None ->
    let rate := ExchangeRateService.fetchExchangeRate (mockRates w) src dst random in
    let w1 := exec (ExchangeRateService.getExchangeRate src dst random) w in
    eval (ExchangeRateService.getExchangeRate src dst random) w = Ok rate /\
    (forall (dt : N) (random' : Q),
        (dt < 900000)%N ->
        ExchangeRateService.getExchangeRate src dst random'
          (set_clock (clock w + dt) w1) = (Ok rate, set_clock (clock w + dt) w1)) /\
    eval (ExchangeRateService.getCachedRate src dst)
         (set_clock (clock w + 900000) w1) = Ok None.
Proof.
    intros Hne Hmiss rate w1.
    assert (E1 : ExchangeRateService.getExchangeRate src dst random w =
                 (Ok rate, exec (ExchangeRateService.cacheRate src dst rate) w))
      by (apply getExchangeRate_on_miss; assumption).
    assert (Ew : w1 = exec (ExchangeRateService.cacheRate src dst rate) w).
    { unfold w1, exec at 1. rewrite E1. reflexivity. }
    split; [unfold eval; rewrite E1; reflexivity | ]. split.
    - intros dt random' Hdt.
      apply (cached_after_miss w); try assumption.
      + simpl. rewrite Ew. reflexivity.
      + simpl. lia.
      + simpl. lia.
    - unfold eval, ExchangeRateService.getCachedRate, gets. simpl. rewrite Ew.
      unfold exec, ExchangeRateService.cacheRate, modify. simpl.
      unfold eval, ExchangeRateService.getCachedRate, gets in Hmiss. simpl in Hmiss.
      injection Hmiss as Hmiss. apply rate_newest_none in Hmiss. destruct Hmiss as [Hnil _].
      rewrite filter_app. simpl. rewrite !String.eqb_refl. simpl.
      rewrite N.ltb_irrefl. rewrite app_nil_r.
      rewrite filter_nil; [reflexivity | ].
      intros x Hx. apply filter_In in Hx. destruct Hx as [Hx _].
      pose proof (filter_all_false _ _ x Hnil Hx) as Hf. simpl in Hf.
      destruct (String.eqb (ExchangeRate.from_currency x) src &&
                String.eqb (ExchangeRate.to_currency x) dst); [ | reflexivity].
      simpl in *. apply N.ltb_ge in Hf. apply N.ltb_ge. lia.
Qed.

Lemma fetched_rate_is_cached_15_minutes_witness :
    exists rate,
      ExchangeRateService.getExchangeRate "USD" "EUR" 0.9
        (set_clock (clock initialWorld + 899999)
           (exec (ExchangeRateService.getExchangeRate "USD" "EUR" 0.5) initialWorld))
      = (Ok rate,
         set_clock (clock initialWorld + 899999)
           (exec (ExchangeRateService.getExchangeRate "USD" "EUR" 0.5) initialWorld)).
Proof.
    destruct (fetched_rate_is_cached_15_minutes initialWorld "USD" "EUR" 0.5)
      as (_ & H & _).
    - discriminate.
    - reflexivity.
    - eexists. apply (H 899999%N 0.9 eq_refl).
Defined.

  (** Calling [getExchangeRate] again at once returns the same rate and
      changes nothing, whether the first answer came from the cache or not. *)
Lemma getExchangeRate_repeat (w w1 : World) (src dst : string) (random random' rate : Q) :
    ExchangeRateService.getExchangeRate src dst random w = (Ok rate, w1) ->
    ExchangeRateService.getExchangeRate src dst random' w1 = (Ok rate, w1).
Proof.
    intros H.
    destruct (String.eqb_spec src dst) as [E | Hne].
    - unfold ExchangeRateService.getExchangeRate in *.
      rewrite (proj2 (String.eqb_eq src dst) E) in *. injection H as <- <-. reflexivity.
    - destruct (ExchangeRateService.newest
                  (filter (fun r =>
                     String.eqb (ExchangeRate.from_currency r) src &&
                     String.eqb (ExchangeRate.to_currency r) dst &&
                     (clock w <? ExchangeRate.expires_at r)%N) (exchange_rates w)) None)
        as [c | ] eqn:Ec.
      + unfold ExchangeRateService.getExchangeRate in *.
        destruct (String.eqb_spec src dst) as [E | _]; [contradiction | ].
        unfold bind, ExchangeRateService.getCachedRate, gets in *. simpl in *.
        rewrite Ec in H. injection H as <- <-. rewrite Ec. reflexivity.
      + assert (Hmiss : eval (ExchangeRateService.getCachedRate src dst) w = Ok None).
        { unfold eval, ExchangeRateService.getCachedRate, gets. simpl. rewrite Ec.
          reflexivity. }
        rewrite (getExchangeRate_on_miss w src dst random Hne Hmiss) in H.
        injection H as <- <-.
        apply (cached_after_miss w); try assumption.
        * reflexivity.
        * simpl. lia.
        * simpl. lia.
Qed.

End RateCache.

Section RateFacts.
Local Open Scope Q_scope.

  (** A fetched rate is the base rate moved by at most 2 % either way, then
      rounded to 5 decimals, the products and the rounding being those of
      the code's floating-point numbers. *)
Theorem fetchExchangeRate_within_2_percent
      (rates : JS.Obj (JS.Obj Q)) (src dst : string) (random : Q) :
    Spec.is_random random ->
    0 <= ExchangeRateService.getBaseRate rates src dst ->
    JS.round5 (JS.mul (ExchangeRateService.getBaseRate rates src dst) (JS.num 0.98)) <=
      ExchangeRateService.fetchExchangeRate rates src dst random /\
    ExchangeRateService.fetchExchangeRate rates src dst random <=
      JS.round5 (JS.mul (ExchangeRateService.getBaseRate rates src dst) (JS.num 1.02)).
Proof.
    intros Hr Hb. apply fetchExchangeRate_bounds; assumption.
Qed.

Lemma fetchExchangeRate_within_2_percent_witness :
    JS.round5 (JS.mul (ExchangeRateService.getBaseRate ExchangeRateService.initialRates
                         "USD" "EUR") (JS.num 0.98)) <=
      ExchangeRateService.fetchExchangeRate ExchangeRateService.initialRates
        "USD" "EUR" 0.25 /\
    ExchangeRateService.fetchExchangeRate ExchangeRateService.initialRates
        "USD" "EUR" 0.25 <=
      JS.round5 (JS.mul (ExchangeRateService.getBaseRate ExchangeRateService.initialRates
                           "USD" "EUR") (JS.num 1.02)).
Proof.
    apply (fetchExchangeRate_within_2_percent ExchangeRateService.initialRates
             "USD" "EUR" 0.25).
    - split; [discriminate | reflexivity].
    - vm_compute. discriminate.
Defined.

  (** The base rates after the constructor has added the reverse USD rates
      are reciprocal up to the rounding of the floating-point operations:
      for any two currencies of the table, the product of the two base
      rates, as the code would compute it, is within 2^-52 of 1.  It is not
      always 1: for EUR and JPY it is not. *)
Theorem base_rates_are_reciprocal (a b : string) :
    In a (map fst ExchangeRateService.initialRates) ->
    In b (map fst ExchangeRateService.initialRates) ->
    Qabs (JS.mul (ExchangeRateService.getBaseRate ExchangeRateService.initialRates a b)
                 (ExchangeRateService.getBaseRate ExchangeRateService.initialRates b a)
          - 1) <= 2 ^ (-52) /\
    ~ JS.mul (ExchangeRateService.getBaseRate ExchangeRateService.initialRates "EUR" "JPY")
             (ExchangeRateService.getBaseRate ExchangeRateService.initialRates "JPY" "EUR")
      == 1.
Proof.
    intros Ha Hb. split; [ | vm_compute; discriminate].
    assert (G : forallb (fun a =>
                  forallb (fun b =>
                    Qle_bool
                      (Qabs (JS.mul
                               (ExchangeRateService.getBaseRate
                                  ExchangeRateService.initialRates a b)
                               (ExchangeRateService.getBaseRate
                                  ExchangeRateService.initialRates b a) - 1))
                      (2 ^ (-52)))
                    (map fst ExchangeRateService.initialRates))
                  (map fst ExchangeRateService.initialRates) = true)
      by (vm_compute; reflexivity).
    rewrite forallb_forall in G. specialize (G a Ha).
    rewrite forallb_forall in G. specialize (G b Hb).
    apply Qle_bool_iff. exact G.
Qed.

Lemma base_rates_are_reciprocal_witness :
    Qabs (JS.mul (ExchangeRateService.getBaseRate ExchangeRateService.initialRates
                    "GBP" "CAD")
                 (ExchangeRateService.getBaseRate ExchangeRateService.initialRates
                    "CAD" "GBP")
          - 1) <= 2 ^ (-52).
Proof.
    apply (base_rates_are_reciprocal "GBP" "CAD").
    - vm_compute. tauto.
    - vm_compute. tauto.
Defined.

Lemma filter_filter_implied {A} (f g : A -> bool) (l : list A) :
    (forall x, f x = true -> g x = true) -> filter f (filter g l) = filter f l.
Proof.
    intros H. induction l as [ | a l IH]; simpl; [reflexivity | ].
    destruct (g a) eqn:Eg; simpl.
    - rewrite IH. reflexivity.
    - destruct (f a) eqn:Ef; [ | exact IH].
      rewrite (H a Ef) in Eg. discriminate.
Qed.

Lemma filter_split_length {A} (g : A -> bool) (l : list A) :
    (length (filter g l) + length (filter (fun x => negb (g x)) l) = length l)%nat.
Proof.
    induction l as [ | a l IH]; simpl; [reflexivity | ].
    destruct (g a); simpl; lia.
Qed.

  (** [cleanupExpiredRates] deletes exactly the rows that expired before now
      and answers their number; the cache answers every pair as before, and a
      second clean-up finds nothing to delete. *)
Theorem cleanupExpiredRates_keeps_cache_answers (w : World) :
    let w' := exec ExchangeRateService.cleanupExpiredRates w in
    eval ExchangeRateService.cleanupExpiredRates w =
      Ok (length (filter (fun r => (ExchangeRate.expires_at r <? clock w)%N)
                         (exchange_rates w))) /\
    (forall src dst,
        eval (ExchangeRateService.getCachedRate src dst) w' =
        eval (ExchangeRateService.getCachedRate src dst) w) /\
    (forall r, In r (exchange_rates w') <->
               In r (exchange_rates w) /\ (clock w <= ExchangeRate.expires_at r)%N) /\
    ExchangeRateService.cleanupExpiredRates w' = (Ok 0%nat, w').
Proof.
    intros w'. subst w'.
    unfold exec, eval, ExchangeRateService.cleanupExpiredRates. simpl.
    split; [ | split; [ | split]].
    - f_equal.
      pose proof (filter_split_length
                    (fun r => (ExchangeRate.expires_at r <? clock w)%N)
                    (exchange_rates w)) as E.
      lia.
    - intros src dst. unfold ExchangeRateService.getCachedRate, gets. simpl.
      rewrite filter_filter_implied; [reflexivity | ].
      intros x Hx. apply andb_prop in Hx. destruct Hx as [_ Hx].
      apply N.ltb_lt in Hx. apply negb_true_iff. apply N.ltb_ge. lia.
    - intros r. rewrite filter_In. rewrite negb_true_iff, N.ltb_ge. tauto.
    - rewrite (filter_filter_implied _ _ (exchange_rates w)); [ | auto].
      rewrite Nat.sub_diag. reflexivity.
Qed.

End RateFacts.

(** ** Quotes *)

Section Quotes.
Local Open Scope Q_scope.

  (** A quote is honoured: when [getFeeEstimate] has answered, a payment
      created at once for the same amount and currencies under a new
      idempotency key is accepted, and it carries the quoted rate, the quoted
      destination amount, the quoted fee and the quoted total, whatever
      [Math.random()] gives in between. *)
Theorem quote_matches_payment
      (w w1 : World) (request : CreatePaymentRequest.t) (random random' : Q)
      (est : FeeEstimate.t) :
    reachable w ->
    PaymentOrchestrator.getFeeEstimate
      (CreatePaymentRequest.source_amount request)
      (CreatePaymentRequest.source_currency request)
      (CreatePaymentRequest.destination_currency request) random w = (Ok est, w1) ->
    find (fun r => String.eqb (Payment.idempotency_key r)
                              (CreatePaymentRequest.idempotency_key request))
         (payments w) = None ->
    exists resp w2,
      PaymentOrchestrator.createPayment request random' w1 = (Ok resp, w2) /\
      PaymentResponse.exchange_rate resp = FeeEstimate.exchange_rate est /\
      PaymentResponse.destination_amount resp = FeeEstimate.destination_amount est /\
      PaymentResponse.fee_amount resp =
        FeeCalculation.total_fee (FeeEstimate.fee_breakdown est) /\
      PaymentResponse.total_amount resp = FeeEstimate.total_cost est.
Proof.
    intros Hreach Hest Hkey.
    destruct (reachable_basics w Hreach) as [Hids _].
    unfold PaymentOrchestrator.getFeeEstimate in Hest. unfold bind at 1 in Hest.
    destruct (getExchangeRate_shape (CreatePaymentRequest.source_currency request)
                (CreatePaymentRequest.destination_currency request) random w)
      as (rate & rows & Hrate).
    rewrite Hrate in Hest.
    unfold FeeEngine.getFeeEstimate in Hest. unfold bind at 1 in Hest.
    destruct (FeeEngine.select (fee_configs (set_exchange_rates rows w))
                (JS.toUpperCase (CreatePaymentRequest.destination_currency request)))
      as [cfg | ] eqn:Hcfg.
    2: { rewrite (calculateFees_missing _ _ _ Hcfg) in Hest. discriminate Hest. }
    rewrite (calculateFees_found _ _ _ cfg Hcfg) in Hest.
    injection Hest as <- <-.
    pose proof (getExchangeRate_repeat w (set_exchange_rates rows w) _ _ random random'
                  rate Hrate) as Hrep.
    destruct (createPayment_succeeds request random' (set_exchange_rates rows w) cfg)
      as (resp & w2 & Hc); [exact Hids | exact Hcfg | ].
    exists resp, w2. split; [exact Hc | ].
    destruct (createPayment_fresh request random' (set_exchange_rates rows w) w2 resp)
      as (rate' & cfg' & Hr' & Hcfg' & _ & Hresp); [exact Hkey | exact Hc | ].
    unfold eval in Hr'. rewrite Hrep in Hr'. simpl in Hr'. injection Hr' as <-.
    rewrite Hcfg in Hcfg'. injection Hcfg' as <-.
    subst resp. simpl. repeat split.
Qed.

Lemma quote_matches_payment_witness :
    match PaymentOrchestrator.getFeeEstimate 100 "USD" "EUR" 0.5 initialWorld with
    | (Ok est, w1) =>
        exists resp w2,
          PaymentOrchestrator.createPayment (scenarioA "u1" "key-1" None) 0.9 w1 =
            (Ok resp, w2) /\
          PaymentResponse.total_amount resp = FeeEstimate.total_cost est
    | (Throw _, _) => False
    end.
Proof.
    destruct (PaymentOrchestrator.getFeeEstimate 100 "USD" "EUR" 0.5 initialWorld)
      as [[est | e] w1] eqn:E.
    - destruct (quote_matches_payment initialWorld w1 (scenarioA "u1" "key-1" None)
                  0.5 0.9 est reachable_initial E eq_refl)
        as (resp & w2 & H & _ & _ & _ & Ht).
      exists resp, w2. split; assumption.
    - vm_compute in E. discriminate E.
Defined.

End Quotes.

(** ** Webhook deliveries *)

Section WebhookFacts.

Lemma find_map_webhook (g : Webhook.t -> Webhook.t) (webhookId : Id)
      (l : list Webhook.t) (y : Webhook.t) :
    find (fun r => Webhook.id r =? webhookId) (map g l) = Some y ->
    (forall r, Webhook.id (g r) = Webhook.id r) ->
    exists x, find (fun r => Webhook.id r =? webhookId) l = Some x /\ y = g x.
Proof.
    intros H Hg. induction l as [ | a l IH]; simpl in *; [discriminate | ].
    rewrite Hg in H. destruct (Webhook.id a =? webhookId).
    - injection H as <-. exists a. split; reflexivity.
    - apply IH. exact H.
Qed.

  (** The back-off of [handleWebhookFailure]: the first, second and third
      failure of a delivery leave it pending and schedule one retry 5 s, 15 s
      and 60 s later; a later failure marks it failed and schedules nothing;
      for an unknown delivery nothing happens at all. *)
Theorem handleWebhookFailure_backoff (w : World) (webhookId : Id) (url : string) :
    let w' := exec (WebhookService.handleWebhookFailure webhookId url) w in
    match find (fun r => Webhook.id r =? webhookId) (webhooks w) with
    | None => w' = w
    | Some x =>
        (forall y, find (fun r => Webhook.id r =? webhookId) (webhooks w') = Some y ->
                   Webhook.retry_count y = S (Webhook.retry_count x) /\
                   Webhook.status y =
                     (if Webhook.retry_count x <? 3 then WebhookStatus.PENDING
                      else WebhookStatus.FAILED)) /\
        timers w' =
          timers w ++
            match Webhook.retry_count x with
            | 0 => [Timer.mk (timer_next w) (clock w + 5000) None
                      (JWebhookRetry webhookId url)]
            | 1 => [Timer.mk (timer_next w) (clock w + 15000) None
                      (JWebhookRetry webhookId url)]
            | 2 => [Timer.mk (timer_next w) (clock w + 60000) None
                      (JWebhookRetry webhookId url)]
            | _ => []
            end
    end.
Proof.
    intros w'.
    assert (Ew : w' = exec (WebhookService.handleWebhookFailure webhookId url) w)
      by reflexivity.
    clearbody w'.
    unfold exec, WebhookService.handleWebhookFailure, Database.select_webhook in Ew.
    unfold bind at 1 in Ew. unfold gets at 1 in Ew. cbn beta iota in Ew.
    destruct (find (fun r => Webhook.id r =? webhookId) (webhooks w)) as [x | ] eqn:E.
    - pose proof (find_some _ _ E) as [_ Hid].
      rewrite !Nat.add_1_r in Ew. cbn [Nat.sub] in Ew. rewrite Nat.sub_0_r in Ew.
      destruct (Webhook.retry_count x) as [ | [ | [ | n]]] eqn:Ec; simpl in Ew;
        subst w'; simpl;
        (split;
         [ intros y Hy;
           destruct (find_map_webhook _ _ _ _ Hy) as (x0 & Hx0 & ->);
           [ intros r; destruct (Webhook.id r =? webhookId); reflexivity
           | rewrite E in Hx0; injection Hx0 as <-; rewrite Hid; simpl;
             rewrite ?Ec; split; reflexivity ]
         | rewrite ?app_nil_r; reflexivity ]).
    - subst w'. reflexivity.
Qed.





  (** Status webhooks do not go to the customer: the webhook that
      [updatePaymentStatus] schedules is sent to [DEFAULT_WEBHOOK_URL] (or to
      the test URL), never to the [webhook_url] of the request; and only
      PROCESSING, COMPLETED and FAILED have an event of their own, every
      other status (CANCELLED included) is announced as
      [PAYMENT_PROCESSING]. *)
Theorem status_webhook_url_and_event (w : World) (paymentId : Id)
      (status : PaymentStatus.t) :
    let w' := exec (PaymentOrchestrator.updatePaymentStatus paymentId status) w in
    inflight w' =
      inflight w ++
        [Request.mk (uuid_next w)
           (WebhookService.str_or (DEFAULT_WEBHOOK_URL w) "https://webhook.site/test")] /\
    exists x,
      webhooks w' = webhooks w ++ [x] /\
      Webhook.id x = uuid_next w /\
      Webhook.payment_id x = paymentId /\
      Webhook.status x = WebhookStatus.PENDING /\
      Webhook.retry_count x = 0 /\
      Webhook.event_type x =
        match status with
        | PaymentStatus.COMPLETED => WebhookEventType.PAYMENT_COMPLETED
        | PaymentStatus.FAILED => WebhookEventType.PAYMENT_FAILED
        | _ => WebhookEventType.PAYMENT_PROCESSING
        end.
Proof.
    intros w'. subst w'. split; [reflexivity | ].
    eexists. split; [reflexivity | ]. simpl.
    repeat split.
Qed.

End WebhookFacts.

(** ** The collection service *)

Section OnrampFacts.
Local Open Scope Q_scope.

Lemma Qle_bool_true (a b : Q) : a <= b -> Qle_bool a b = true.
Proof. intros H. apply Qle_bool_iff. exact H. Qed.

Lemma Qle_bool_lt_false (a b : Q) : b < a -> Qle_bool a b = false.
Proof.
    intros H. destruct (Qle_bool a b) eqn:E; [ | reflexivity].
    apply Qle_bool_iff in E. exfalso. apply (Qlt_not_le _ _ H). exact E.
Qed.

  (** With the payment method ["card"] the only candidate is Stripe, whatever
      the amount. *)
Lemma selectProvider_card (request : OnrampRequest.t) (w : World) :
    OnrampRequest.payment_method request = Some "card"%string ->
    exists p,
      OnrampService.selectProvider request w = (Ok p, w) /\
      ProviderInfo.provider p = "stripe"%string /\
      ProviderInfo.limits_min p = 1 /\ ProviderInfo.limits_max p = 10000 /\
      ProviderInfo.success_rate p = JS.num 0.98 /\ ProviderInfo.name p = "Stripe"%string.
Proof.
    intros Hm. unfold OnrampService.selectProvider. rewrite Hm. cbv zeta.
    cbn [OnrampService.providers filter existsb ProviderInfo.payment_methods
         String.eqb Ascii.eqb Bool.eqb orb andb].
    cbn [find].
    destruct (OnrampService.in_limits (OnrampRequest.amount request) _);
      cbn [fold_left]; eexists; (split; [reflexivity | ]); repeat split.
Qed.

Lemma card_collection_accepts (request : OnrampRequest.t) (w : World) :
    OnrampRequest.payment_method request = Some "card"%string ->
    OnrampRequest.currency request = "USD"%string ->
    1 <= OnrampRequest.amount request -> OnrampRequest.amount request <= 10000 ->
    exists resp,
      OnrampService.processUSDCollection request w =
        (Ok resp,
         set_timer_next (S (timer_next w))
           (set_timers
              (timers w ++
                 [Timer.mk (timer_next w) (clock w + 5000) None
                    (JResolve (uuid_next w) (JS.num 0.98))])
              (set_transactions
                 (transactions w ++
                    [Transaction.mk (uuid_next w) (Some (OnrampRequest.payment_id request))
                       TransactionType.ONRAMP (OnrampRequest.amount request) "USD"
                       TransactionStatus.PROCESSING "pi_" "stripe"
                       (CURRENT_TIMESTAMP w) (CURRENT_TIMESTAMP w)])
                 (set_uuid_next (S (uuid_next w)) w)))) /\
      SettlementResponse.transaction_id resp = uuid_next w /\
      SettlementResponse.provider resp = "stripe"%string.
Proof.
    intros Hm Hc Hlo Hhi.
    destruct (selectProvider_card request w Hm) as (p & Hp & P1 & P2 & P3 & P4 & P5).
    unfold OnrampService.processUSDCollection, OnrampService.validateRequest.
    unfold JS.le, JS.lt.
    assert (H0 : Qle_bool (OnrampRequest.amount request) 0 = false).
    { apply Qle_bool_lt_false. apply Qlt_le_trans with 1; [reflexivity | exact Hlo]. }
    rewrite H0. rewrite Hc. cbn [String.eqb Ascii.eqb Bool.eqb negb andb].
    rewrite (Qle_bool_true _ _ Hlo). cbn [negb].
    unfold bind at 1. unfold ret at 1. unfold bind at 1. rewrite Hp.
    unfold OnrampService.validateAmount, JS.lt, JS.gt. rewrite P2, P3.
    rewrite (Qle_bool_true _ _ Hlo), (Qle_bool_true _ _ Hhi). cbn [negb].
    unfold bind at 1. unfold ret at 1.
    unfold OnrampService.simulateAsyncProcessing, OnrampService.getProcessingDelay,
      OnrampService.generateExternalReference.
    rewrite P1, P4. cbn [String.eqb Ascii.eqb Bool.eqb andb].
    eexists. split; [reflexivity | ]. split; reflexivity.
Qed.

Lemma card_collection_rejects (request : OnrampRequest.t) (w : World) :
    OnrampRequest.payment_method request = Some "card"%string ->
    ~ (OnrampRequest.currency request = "USD"%string /\
       1 <= OnrampRequest.amount request /\ OnrampRequest.amount request <= 10000) ->
    exists e, OnrampService.processUSDCollection request w = (Throw e, w).
Proof.
    intros Hm Hn.
    destruct (selectProvider_card request w Hm) as (p & Hp & P1 & P2 & P3 & P4 & P5).
    unfold OnrampService.processUSDCollection, OnrampService.validateRequest.
    unfold JS.le, JS.lt.
    destruct (Qle_bool (OnrampRequest.amount request) 0) eqn:H0;
      [eexists; reflexivity | ].
    destruct (String.eqb_spec (OnrampRequest.currency request) "USD") as [Hc | Hc];
      cbn [negb]; [ | eexists; reflexivity].
    destruct (Qle_bool 1 (OnrampRequest.amount request)) eqn:H1;
      cbn [negb]; [ | eexists; reflexivity].
    unfold bind at 1. unfold ret at 1. unfold bind at 1. rewrite Hp.
    unfold OnrampService.validateAmount, JS.lt, JS.gt. rewrite P2, P3.
    rewrite H1. cbn [negb].
    destruct (Qle_bool (OnrampRequest.amount request) 10000) eqn:H2;
      cbn [negb]; [ | eexists; reflexivity].
    exfalso. apply Hn. split; [exact Hc | ].
    split; apply Qle_bool_iff; assumption.
Qed.

  (** The card collection, as [processPayment] requests it, succeeds exactly
      for USD amounts from 1 to 10000: it then records one onramp
      transaction in status [processing] with provider Stripe and schedules
      its resolution 5 s later; otherwise it throws and creates nothing. *)
Theorem card_collection_limits (request : OnrampRequest.t) (w : World) :
    OnrampRequest.payment_method request = Some "card"%string ->
    (OnrampRequest.currency request = "USD"%string /\
     1 <= OnrampRequest.amount request /\ OnrampRequest.amount request <= 10000 ->
     exists resp,
       OnrampService.processUSDCollection request w =
         (Ok resp,
          set_timer_next (S (timer_next w))
            (set_timers
               (timers w ++
                  [Timer.mk (timer_next w) (clock w + 5000) None
                     (JResolve (uuid_next w) (JS.num 0.98))])
               (set_transactions
                  (transactions w ++
                     [Transaction.mk (uuid_next w) (Some (OnrampRequest.payment_id request))
                        TransactionType.ONRAMP (OnrampRequest.amount request) "USD"
                        TransactionStatus.PROCESSING "pi_" "stripe"
                       (CURRENT_TIMESTAMP w) (CURRENT_TIMESTAMP w)])
                  (set_uuid_next (S (uuid_next w)) w)))) /\
       SettlementResponse.transaction_id resp = uuid_next w /\
       SettlementResponse.provider resp = "stripe"%string) /\
    (~ (OnrampRequest.currency request = "USD"%string /\
        1 <= OnrampRequest.amount request /\ OnrampRequest.amount request <= 10000) ->
     exists e, OnrampService.processUSDCollection request w = (Throw e, w)).
Proof.
    intros Hm. split.
    - intros (Hc & Hlo & Hhi). apply card_collection_accepts; assumption.
    - intros Hn. apply card_collection_rejects; assumption.
Qed.

Lemma card_collection_limits_witness :
    exists e,
      OnrampService.processUSDCollection
        (OnrampRequest.mk 0%nat (JS.num 10000.01) "USD" "u1" (Some "card"%string)) initialWorld =
      (Throw e, initialWorld).
Proof.
    destruct (card_collection_limits
                (OnrampRequest.mk 0%nat (JS.num 10000.01) "USD" "u1" (Some "card"%string))
                initialWorld eq_refl) as [_ H].
    apply H. intros (_ & _ & Hhi). simpl in Hhi. apply Hhi. reflexivity.
Defined.

Lemma updatePaymentStatus_ok (paymentId : Id) (s : PaymentStatus.t) (w : World) :
    PaymentOrchestrator.updatePaymentStatus paymentId s w =
      (Ok tt, exec (PaymentOrchestrator.updatePaymentStatus paymentId s) w).
Proof. reflexivity. Qed.

  (** A payment whose total is not a USD amount from 1 to 10000 is accepted
      by [createPayment] but cannot be collected: [processPayment] marks it
      FAILED without creating a transaction or a timer. *)
Theorem uncollectable_payment_fails (w : World) (paymentId : Id) (p : Payment.t) :
    find (fun r => Payment.id r =? paymentId) (payments w) = Some p ->
    ~ (Payment.source_currency p = "USD"%string /\
       1 <= Payment.total_amount p /\ Payment.total_amount p <= 10000) ->
    let w' := exec (PaymentOrchestrator.processPayment paymentId) w in
    status_of paymentId w' = Some PaymentStatus.FAILED /\
    transactions w' = transactions w /\
    timers w' = timers w.
Proof.
    intros Hp Hn w'.
    assert (Ew : w' =
              exec (PaymentOrchestrator.updatePaymentStatus paymentId PaymentStatus.FAILED)
                (exec (PaymentOrchestrator.updatePaymentStatus paymentId
                         PaymentStatus.PROCESSING) w)).
    { subst w'. unfold exec at 1. unfold PaymentOrchestrator.processPayment, try_catch.
      unfold bind at 1. rewrite updatePaymentStatus_ok.
      set (wA := exec (PaymentOrchestrator.updatePaymentStatus paymentId
                         PaymentStatus.PROCESSING) w).
      unfold bind at 1. unfold PaymentOrchestrator.getPaymentById at 1, gets at 1.
      assert (Hf : find (fun r => Payment.id r =? paymentId) (payments wA) =
                   Some (Payment.with_status PaymentStatus.PROCESSING (CURRENT_TIMESTAMP w) p)).
      { unfold wA, exec. simpl.
        rewrite (find_id_map _ _ _ (keeps_with_status PaymentStatus.PROCESSING (CURRENT_TIMESTAMP w))).
        rewrite Hp. reflexivity. }
      rewrite Hf. cbv zeta.
      destruct (card_collection_rejects
                  (OnrampRequest.mk paymentId
                     (Payment.total_amount
                        (Payment.with_status PaymentStatus.PROCESSING (CURRENT_TIMESTAMP w) p))
                     (Payment.source_currency
                        (Payment.with_status PaymentStatus.PROCESSING (CURRENT_TIMESTAMP w) p))
                     (Payment.user_id
                        (Payment.with_status PaymentStatus.PROCESSING (CURRENT_TIMESTAMP w) p))
                     (Some "card"%string)) wA eq_refl) as [e He].
      { simpl. exact Hn. }
      unfold bind at 1. rewrite He. reflexivity. }
    rewrite Ew. split; [ | split; reflexivity].
    rewrite !status_of_updatePaymentStatus. unfold status_of. rewrite Hp. reflexivity.
Qed.

Lemma uncollectable_payment_fails_witness :
    status_of 0%nat
      (exec (PaymentOrchestrator.processPayment 0%nat)
         (exec (PaymentOrchestrator.createPayment
                  (CreatePaymentRequest.mk "u1" "key-9" 20000 "USD" "EUR" None) 0.5)
               initialWorld))
    = Some PaymentStatus.FAILED.
Proof.
    assert (Hp : exists p,
              find (fun r => Payment.id r =? 0%nat)
                (payments
                   (exec (PaymentOrchestrator.createPayment
                            (CreatePaymentRequest.mk "u1" "key-9" 20000 "USD" "EUR" None)
                            0.5) initialWorld)) = Some p /\
              Qle_bool (Payment.total_amount p) 10000 = false).
    { eexists. split; [vm_compute; reflexivity | vm_compute; reflexivity]. }
    destruct Hp as (p & Hp & Hbig).
    apply (uncollectable_payment_fails _ 0%nat p Hp).
    intros (_ & _ & Hhi). apply Qle_bool_iff in Hhi. congruence.
Defined.

Lemma find_tx_map (f : Transaction.t -> Transaction.t) (transactionId : Id)
      (l : list Transaction.t) :
    (forall r, Transaction.id (f r) = Transaction.id r) ->
    find (fun r => Transaction.id r =? transactionId)
         (map (fun r => if Transaction.id r =? transactionId then f r else r) l) =
    option_map f (find (fun r => Transaction.id r =? transactionId) l).
Proof.
    intros Hf. induction l as [ | a l IH]; simpl; [reflexivity | ].
    destruct (Transaction.id a =? transactionId) eqn:Ea.
    - rewrite Hf, Ea. reflexivity.
    - rewrite Ea. exact IH.
Qed.

  (** [cancelTransaction] answers [true] exactly for a transaction that
      exists and is still [processing]; it then marks that transaction
      [failed] and touches nothing else, in particular not the timer of the
      provider's pending resolution; otherwise it changes nothing.  A second
      call therefore answers [false]. *)
Theorem cancelTransaction_result (w : World) (transactionId : Id) :
    let w' := exec (OnrampService.cancelTransaction transactionId) w in
    match find (fun r => Transaction.id r =? transactionId) (transactions w) with
    | Some x =>
        if TransactionStatus.eqb (Transaction.status x) TransactionStatus.PROCESSING
        then
          eval (OnrampService.cancelTransaction transactionId) w = Ok true /\
          transactions w' =
            map (fun r => if Transaction.id r =? transactionId
                          then Transaction.with_status TransactionStatus.FAILED
                                   (CURRENT_TIMESTAMP w) r
                          else r) (transactions w) /\
          timers w' = timers w /\ payments w' = payments w /\
          OnrampService.cancelTransaction transactionId w' = (Ok false, w')
        else OnrampService.cancelTransaction transactionId w = (Ok false, w)
    | None => OnrampService.cancelTransaction transactionId w = (Ok false, w)
    end.
Proof.
    intros w'.
    destruct (find (fun r => Transaction.id r =? transactionId) (transactions w))
      as [x | ] eqn:E.
    - destruct (TransactionStatus.eqb (Transaction.status x) TransactionStatus.PROCESSING)
        eqn:Es.
      + assert (Ec : OnrampService.cancelTransaction transactionId w =
                  (Ok true,
                   set_transactions
                     (map (fun r => if Transaction.id r =? transactionId
                                    then Transaction.with_status TransactionStatus.FAILED
                                           (CURRENT_TIMESTAMP w) r
                                    else r) (transactions w)) w)).
        { unfold OnrampService.cancelTransaction, OnrampService.getTransactionStatus,
            Database.select_transaction. unfold bind at 1. unfold gets at 1.
          rewrite E, Es. reflexivity. }
        subst w'. unfold eval, exec. rewrite Ec. simpl.
        split; [reflexivity | ]. split; [reflexivity | ].
        split; [reflexivity | ]. split; [reflexivity | ].
        unfold OnrampService.cancelTransaction, OnrampService.getTransactionStatus,
          Database.select_transaction. unfold bind at 1. unfold gets at 1. simpl.
        rewrite find_tx_map by reflexivity. rewrite E. reflexivity.
      + unfold OnrampService.cancelTransaction, OnrampService.getTransactionStatus,
          Database.select_transaction. unfold bind at 1. unfold gets at 1.
        rewrite E, Es. reflexivity.
    - unfold OnrampService.cancelTransaction, OnrampService.getTransactionStatus,
        Database.select_transaction. unfold bind at 1. unfold gets at 1.
      rewrite E. reflexivity.
Qed.

  (** The callback that resolves a transaction does not look at its status:
      a transaction that was cancelled (and so marked [failed]) is marked
      [completed] when the provider's resolution then succeeds. *)
Theorem resolution_overwrites_cancellation
      (w : World) (transactionId : Id) (x : Transaction.t) (success_rate random : Q) :
    find (fun r => Transaction.id r =? transactionId) (transactions w) = Some x ->
    Transaction.status x = TransactionStatus.PROCESSING ->
    JS.lt random success_rate = true ->
    let w1 := exec (OnrampService.cancelTransaction transactionId) w in
    let w2 := exec (resolveTransaction transactionId success_rate random true) w1 in
    option_map Transaction.status
      (find (fun r => Transaction.id r =? transactionId) (transactions w1)) =
      Some TransactionStatus.FAILED /\
    option_map Transaction.status
      (find (fun r => Transaction.id r =? transactionId) (transactions w2)) =
      Some TransactionStatus.COMPLETED.
Proof.
    intros E Es Hr w1 w2.
    assert (E1 : transactions w1 =
              map (fun r => if Transaction.id r =? transactionId
                            then Transaction.with_status TransactionStatus.FAILED
                                   (CURRENT_TIMESTAMP w) r
                            else r) (transactions w)).
    { subst w1. unfold exec, OnrampService.cancelTransaction,
        OnrampService.getTransactionStatus, Database.select_transaction.
      unfold bind at 1. unfold gets at 1. rewrite E, Es. reflexivity. }
    assert (E2 : transactions w2 =
              map (fun r => if Transaction.id r =? transactionId
                            then Transaction.with_status TransactionStatus.COMPLETED
                                   (CURRENT_TIMESTAMP w1) r
                            else r) (transactions w1)).
    { subst w2. unfold exec, resolveTransaction. rewrite Hr. reflexivity. }
    split.
    - rewrite E1, find_tx_map by reflexivity. rewrite E. reflexivity.
    - rewrite E2, find_tx_map by reflexivity. rewrite E1, find_tx_map by reflexivity.
      rewrite E. reflexivity.
Qed.

Lemma resolution_overwrites_cancellation_witness :
    option_map Transaction.status
      (find (fun r => Transaction.id r =? 2%nat)
         (transactions
            (exec (resolveTransaction 2%nat (JS.num 0.98) 0.5 true)
               (exec (OnrampService.cancelTransaction 2%nat)
                  (world_after [ ECreatePayment (scenarioA "u1" "key-1" None) 0.5;
                                 ETimer 0%nat 0 true ]))))) =
    Some TransactionStatus.COMPLETED.
Proof.
    assert (Hx : exists x,
              find (fun r => Transaction.id r =? 2%nat)
                (transactions
                   (world_after [ ECreatePayment (scenarioA "u1" "key-1" None) 0.5;
                                  ETimer 0%nat 0 true ])) = Some x /\
              Transaction.status x = TransactionStatus.PROCESSING).
    { eexists. split; [vm_compute; reflexivity | reflexivity]. }
    destruct Hx as (x & Hx & Hs).
    destruct (resolution_overwrites_cancellation _ 2%nat x (JS.num 0.98) 0.5 Hx Hs eq_refl)
      as [_ H].
    exact H.
Defined.

End OnrampFacts.

(** ** The payout service *)

Section OfframpFacts.
Local Open Scope Q_scope.

Lemma better_choice (b c : OfframpProviderInfo.t) :
    (better b c = b \/ better b c = c) /\
    OfframpProviderInfo.success_rate b <= OfframpProviderInfo.success_rate (better b c) /\
    OfframpProviderInfo.success_rate c <= OfframpProviderInfo.success_rate (better b c).
Proof.
    unfold better, JS.gt.
    destruct (Qle_bool (OfframpProviderInfo.success_rate c)
                       (OfframpProviderInfo.success_rate b)) eqn:E; simpl.
    - apply Qle_bool_iff in E.
      destruct (Qeq_bool (OfframpProviderInfo.success_rate c)
                         (OfframpProviderInfo.success_rate b)) eqn:Q.
      + apply Qeq_bool_iff in Q.
        destruct (_ <? _)%N.
        * split; [right; reflexivity | ]. split; [rewrite Q; apply Qle_refl | apply Qle_refl].
        * split; [left; reflexivity | ]. split; [apply Qle_refl | exact E].
      + split; [left; reflexivity | ]. split; [apply Qle_refl | exact E].
    - apply Qle_bool_false in E.
      split; [right; reflexivity | ]. split; [apply Qlt_le_weak; exact E | apply Qle_refl].
Qed.

Lemma fold_better (l : list OfframpProviderInfo.t) (b : OfframpProviderInfo.t) :
    In (fold_left better l b) (b :: l) /\
    forall q, In q (b :: l) ->
      OfframpProviderInfo.success_rate q <=
        OfframpProviderInfo.success_rate (fold_left better l b).
Proof.
    revert b. induction l as [ | c l IH]; intros b; simpl.
    - split; [left; reflexivity | ]. intros q [<- | []]. apply Qle_refl.
    - destruct (IH (better b c)) as [Hin Hmax].
      destruct (better_choice b c) as (Hc & Hb1 & Hc1).
      split.
      + destruct Hin as [Hin | Hin]; [ | right; right; exact Hin].
        rewrite <- Hin. destruct Hc as [-> | ->]; [left | right; left]; reflexivity.
      + intros q [Hq | [Hq | Hq]].
        * subst q.
          apply Qle_trans with (OfframpProviderInfo.success_rate (better b c));
            [exact Hb1 | apply Hmax; left; reflexivity].
        * subst q.
          apply Qle_trans with (OfframpProviderInfo.success_rate (better b c));
            [exact Hc1 | apply Hmax; left; reflexivity].
        * apply Hmax. right. exact Hq.
Qed.

Lemma suitable_filter (currency : string) (amount : Q)
      (ps : list OfframpProviderInfo.t) :
    filter (fun p => JS.ge amount (OfframpProviderInfo.limits_min p) &&
                     JS.le amount (OfframpProviderInfo.limits_max p))
      (filter (fun p => existsb (String.eqb currency)
                                (OfframpProviderInfo.supported_currencies p)) ps) =
    filter (suits currency amount) ps.
Proof.
    unfold suits. induction ps as [ | a l IH]; simpl; [reflexivity | ].
    destruct (existsb _ _); simpl; [ | exact IH].
    destruct (_ && _); simpl; rewrite IH; reflexivity.
Qed.

  (** [selectProvider] succeeds exactly when some provider supports the
      destination currency with the amount within its limits.  The provider
      it returns is such a provider, none of those has a higher success rate,
      and the amount check that follows in [processLocalCurrencyPayout]
      always passes on it. *)
Theorem offramp_selectProvider_best (request : OfframpRequest.t) (w : World) :
    let currency := OfframpRequest.destination_currency request in
    let amount :=
      JS.mul (OfframpRequest.amount request) (OfframpRequest.exchange_rate request) in
    match OfframpService.selectProvider request w with
    | (Ok p, w') =>
        w' = w /\
        In p OfframpService.providers /\
        suits currency amount p = true /\
        (forall q, In q OfframpService.providers -> suits currency amount q = true ->
                   OfframpProviderInfo.success_rate q <=
                     OfframpProviderInfo.success_rate p) /\
        OfframpService.validateAmount amount p w = (Ok tt, w)
    | (Throw _, w') =>
        w' = w /\
        forall q, In q OfframpService.providers -> suits currency amount q = false
    end.
Proof.
    intros currency amount.
    unfold OfframpService.selectProvider. cbv zeta.
    fold currency. fold amount.
    generalize OfframpService.providers. intros ps.
    pose proof (suitable_filter currency amount ps) as Hs.
    destruct (filter (fun p => existsb (String.eqb currency)
                                       (OfframpProviderInfo.supported_currencies p)) ps)
      as [ | a0 l0] eqn:Ea.
    - split; [reflexivity | ]. intros q Hq. simpl in Hs.
      destruct (suits currency amount q) eqn:E; [ | reflexivity].
      assert (G : In q (filter (suits currency amount) ps))
        by (apply filter_In; split; assumption).
      rewrite <- Hs in G. contradiction.
    - rewrite Hs.
      destruct (filter (suits currency amount) ps) as [ | first rest] eqn:Ef.
      + split; [reflexivity | ]. intros q Hq.
        destruct (suits currency amount q) eqn:E; [ | reflexivity].
        assert (G : In q (filter (suits currency amount) ps))
          by (apply filter_In; split; assumption).
        rewrite Ef in G. contradiction.
      + change (fold_left _ rest first) with (fold_left better rest first).
        destruct (fold_better rest first) as [Hin Hmax].
        rewrite <- Ef in Hin. apply filter_In in Hin. destruct Hin as [Hin Hsuit].
        split; [reflexivity | ]. split; [exact Hin | ]. split; [exact Hsuit | ].
        split.
        * intros q Hq Hqs. apply Hmax. rewrite <- Ef. apply filter_In.
          split; assumption.
        * unfold suits in Hsuit. apply andb_prop in Hsuit. destruct Hsuit as [_ Hl].
          apply andb_prop in Hl. destruct Hl as [H1 H2].
          unfold OfframpService.validateAmount, JS.lt, JS.gt.
          unfold JS.ge in H1. unfold JS.le in H2. rewrite H1, H2. reflexivity.
Qed.

End OfframpFacts.

(** ** Pages of payments *)

Section Pages.













End Pages.

(** ** Initialisation *)

Section Defaults.
Local Open Scope Q_scope.

  (** On an empty table at start-up [insertDefaultFeeConfigs] writes the
      eight schedules the server starts with. *)
Lemma insertDefaultFeeConfigs_initial :
    exec Database.insertDefaultFeeConfigs (set_fee_configs [] initialWorld) = initialWorld.
Proof. reflexivity. Qed.

Lemma newest_later (l : list FeeConfig.t) (x : FeeConfig.t) :
    (forall r, In r l -> (FeeConfig.created_at r < FeeConfig.created_at x)%N) ->
    FeeEngine.newest (l ++ [x]) None = Some x.
Proof.
    intros H. rewrite newest_app.
    destruct (FeeEngine.newest l None) as [y | ] eqn:E; [ | reflexivity].
    destruct (newest_In _ _ _ E) as [Hin | Hb]; [ | discriminate].
    specialize (H y Hin). apply N.ltb_lt in H. rewrite H. reflexivity.
Qed.

  (** [initialize] inserts the eight default schedules again each time it
      runs (the table has no key on the currency).  Run in a later second
      than the stored schedules were written ([created_at] has a resolution
      of one second), it makes [getFeeConfig] return the default schedule of
      each of the eight currencies again, whatever [updateFeeConfig] had
      stored for it. *)
Theorem insertDefaultFeeConfigs_shadows_updates (w : World) (d : FeeConfig.t) :
    (forall r, In r (fee_configs w) ->
               (FeeConfig.created_at r < CURRENT_TIMESTAMP w)%N) ->
    In d defaultFeeConfigs ->
    exists cfg,
      eval (FeeEngine.getFeeConfig (FeeConfig.currency d))
           (exec Database.insertDefaultFeeConfigs w) = Ok (Some cfg) /\
      FeeConfig.currency cfg = FeeConfig.currency d /\
      FeeConfig.base_fee cfg = FeeConfig.base_fee d /\
      FeeConfig.percentage_fee cfg = FeeConfig.percentage_fee d /\
      FeeConfig.minimum_fee cfg = FeeConfig.minimum_fee d /\
      FeeConfig.maximum_fee cfg = FeeConfig.maximum_fee d /\
      FeeConfig.created_at cfg = CURRENT_TIMESTAMP w.
Proof.
    intros Hold Hd.
    unfold eval, exec, Database.insertDefaultFeeConfigs, FeeEngine.getFeeConfig,
      modify, gets.
    cbn [fst snd fee_configs set_fee_configs fold_left].
    unfold FeeEngine.select.
    assert (Hf : forall c, (forall r, In r (filter (fun r => String.eqb (FeeConfig.currency r) c)
                                         (fee_configs w)) ->
                           (FeeConfig.created_at r < CURRENT_TIMESTAMP w)%N)).
    { intros c r Hr. apply filter_In in Hr. apply Hold. apply Hr. }
    unfold defaultFeeConfigs in Hd. simpl in Hd.
    repeat (destruct Hd as [<- | Hd];
      [ rewrite !filter_app;
        cbn [filter FeeConfig.currency JS.toUpperCase JS.upper_ascii nat_of_ascii
             ascii_of_nat String.eqb Ascii.eqb Bool.eqb andb app];
        simpl; rewrite ?app_nil_r;
        rewrite newest_later by (intros r Hr; simpl; apply (Hf _ r Hr));
        eexists; split; [reflexivity | ]; repeat split
      | ]).
    contradiction.
Qed.

Lemma insertDefaultFeeConfigs_shadows_updates_witness :
    exists cfg,
      eval (FeeEngine.getFeeConfig "EUR")
           (exec Database.insertDefaultFeeConfigs
              (set_clock 2000
                 (exec (FeeEngine.updateFeeConfig "EUR" 1 (JS.num 0.01) 0.50 None)
                       (set_clock 1000 initialWorld)))) = Ok (Some cfg) /\
      FeeConfig.base_fee cfg = 2.50.
Proof.
    destruct (insertDefaultFeeConfigs_shadows_updates
                (set_clock 2000
                   (exec (FeeEngine.updateFeeConfig "EUR" 1 (JS.num 0.01) 0.50 None)
                         (set_clock 1000 initialWorld)))
                (FeeConfig.mk 1 "EUR" 2.50 (JS.num 0.0299) 1.00 (Some 50.00) 0))
      as (cfg & H & _ & Hb & _).
    - intros r Hin. simpl in Hin.
      repeat (destruct Hin as [<- | Hin]; [reflexivity | ]). contradiction.
    - left. reflexivity.
    - exists cfg. split; [exact H | exact Hb].
Defined.

End Defaults.

(** ** Payment rows *)

Lemma find_id_map_any (g : Payment.t -> Payment.t) (i : Id) (rows : list Payment.t) :
  (forall r, Payment.id (g r) = Payment.id r) ->
  find (fun r => Payment.id r =? i) (map g rows) =
    option_map g (find (fun r => Payment.id r =? i) rows).
Proof.
  intros Hg. induction rows as [ | r rows IH]; simpl; [reflexivity | ].
  rewrite Hg. destruct (Payment.id r =? i); [reflexivity | exact IH].
Qed.

Lemma stored_update_payment (p : Payment.t) (q : Id) (f : Payment.t -> Payment.t) :
  keeps f -> preserves (stored p) (Database.update_payment q f).
Proof.
  intros Hf w (x & Hx & Hs). unfold stored. simpl.
  rewrite find_id_map_any.
  - rewrite Hx. simpl. eexists. split; [reflexivity | ].
    destruct (Payment.id x =? q); [ | exact Hs].
    destruct (Hf x) as (E1 & E2 & E3 & E4 & E5 & E6 & E7).
    destruct Hs as (S1 & S2 & S3 & S4 & S5 & S6 & S7).
    unfold same_terms. rewrite E1, E2, E3, E4, E5, E6, E7. repeat split; assumption.
  - intros r. destruct (Payment.id r =? q); [apply Hf | reflexivity].
Qed.

Lemma stored_insert_payment (p x : Payment.t) :
  preserves (stored p) (Database.insert_payment x).
Proof.
  intros w (y & Hy & Hs). unfold Database.insert_payment.
  destruct (existsb _ _); simpl; [exists y; split; assumption | ].
  exists y. split; [ | exact Hs]. simpl. apply find_app_some. exact Hy.
Qed.

Ltac frame_stored :=
  solve [ unfold_leaves; intros ? ?; unfold stored in *; simpl; assumption ].

#[export] Hint Resolve stored_update_payment stored_insert_payment : pres.
#[export] Hint Extern 5 (preserves (stored _) _) => frame_stored : pres.

Lemma stored_fire (p : Payment.t) (e : Event) (w w' : World) :
  stored p w -> fire e w = Some w' -> stored p w'.
Proof.
  apply fire_preserves_data; intros; try assumption; try solve [pres].
  destruct j; cbn [runJob]; pres.
Qed.

(** Whatever happens after a payment has been stored (processing,
    settlement, cancellation, webhooks, other payments), its row stays, with
    the same id, idempotency key, source and destination amounts, exchange
    rate, fee and total. *)
Theorem payment_terms_are_immutable
    (w w' : World) (es : list Event) (paymentId : Id) (p : Payment.t) :
  find (fun r => Payment.id r =? paymentId) (payments w) = Some p ->
  run es w = Some w' ->
  exists q,
    find (fun r => Payment.id r =? paymentId) (payments w') = Some q /\
    Payment.idempotency_key q = Payment.idempotency_key p /\
    Payment.source_amount q = Payment.source_amount p /\
    Payment.destination_amount q = Payment.destination_amount p /\
    Payment.exchange_rate q = Payment.exchange_rate p /\
    Payment.fee_amount q = Payment.fee_amount p /\
    Payment.total_amount q = Payment.total_amount p.
Proof.
  intros Hp Hr.
  pose proof (find_some _ _ Hp) as [_ Hid]. apply Nat.eqb_eq in Hid.
  assert (H0 : stored p w).
  { exists p. rewrite Hid. split; [exact Hp | ]. repeat split. }
  pose proof (run_preserves (stored p) (stored_fire p) es w w' H0 Hr)
    as (q & Hq & _ & S2 & S3 & S4 & S5 & S6 & S7).
  rewrite Hid in Hq. exists q. split; [exact Hq | ]. repeat split; assumption.
Qed.

Lemma payment_terms_are_immutable_witness :
  exists q,
    find (fun r => Payment.id r =? 0) (payments (world_after cancel_trace)) = Some q /\
    Payment.total_amount q = JS.num 105.93.
Proof.
  assert (Hp : exists p,
            find (fun r => Payment.id r =? 0) (payments after_scenarioA) = Some p /\
            Payment.total_amount p = JS.num 105.93).
  { eexists. split; [vm_compute; reflexivity | vm_compute; reflexivity]. }
  destruct Hp as (p & Hp & Ht).
  assert (Hr : run (tl cancel_trace) after_scenarioA = Some (world_after cancel_trace))
    by (vm_compute; reflexivity).
  destruct (payment_terms_are_immutable after_scenarioA (world_after cancel_trace)
              (tl cancel_trace) 0 p Hp Hr) as (q & Hq & _ & _ & _ & _ & _ & H7).
  exists q. split; [exact Hq | ]. rewrite H7. exact Ht.
Defined.

Lemma unique_update_payment (q : Id) (f : Payment.t -> Payment.t) :
  keeps f -> preserves unique_payments (Database.update_payment q f).
Proof.
  intros Hf w [H1 H2]. unfold unique_payments. simpl. rewrite !map_map.
  assert (E1 : map (fun x => Payment.id (if Payment.id x =? q then f x else x))
                   (payments w) = map Payment.id (payments w)).
  { apply map_ext. intros a. destruct (Payment.id a =? q); [apply Hf | reflexivity]. }
  assert (E2 : map (fun x => Payment.idempotency_key
                               (if Payment.id x =? q then f x else x))
                   (payments w) = map Payment.idempotency_key (payments w)).
  { apply map_ext. intros a. destruct (Payment.id a =? q); [apply Hf | reflexivity]. }
  rewrite E1, E2. split; assumption.
Qed.

Lemma NoDup_snoc {A} (l : list A) (x : A) :
  NoDup l -> ~ In x l -> NoDup (l ++ [x]).
Proof.
  induction l as [ | a l IH]; simpl; intros H Hn.
  - constructor; [intros [] | constructor].
  - inversion H as [ | ? ? Ha Hl]; subst. constructor.
    + intros Hin. apply in_app_or in Hin.
      destruct Hin as [Hin | [<- | []]]; [contradiction | ].
      apply Hn. left. reflexivity.
    + apply IH; [exact Hl | ]. intros Hx. apply Hn. right. exact Hx.
Qed.

Lemma unique_insert_payment (p : Payment.t) :
  preserves unique_payments (Database.insert_payment p).
Proof.
  intros w [H1 H2]. unfold Database.insert_payment.
  destruct (existsb _ _) eqn:E; simpl; [split; assumption | ].
  apply existsb_false_find in E. destruct E as [E1 E2].
  unfold unique_payments. simpl. rewrite !map_app. simpl.
  split; apply NoDup_snoc; try assumption.
  - intros Hin. apply in_map_iff in Hin. destruct Hin as (x & Hx & Hin).
    pose proof (find_none _ _ E1 x Hin) as G. simpl in G.
    rewrite Hx, Nat.eqb_refl in G. discriminate.
  - intros Hin. apply in_map_iff in Hin. destruct Hin as (x & Hx & Hin).
    pose proof (find_none _ _ E2 x Hin) as G. simpl in G.
    rewrite Hx, String.eqb_refl in G. discriminate.
Qed.

Ltac frame_unique :=
  solve [ unfold_leaves; intros ? ?; unfold unique_payments in *; simpl; assumption ].

#[export] Hint Resolve unique_update_payment unique_insert_payment : pres.
#[export] Hint Extern 5 (preserves unique_payments _) => frame_unique : pres.

Lemma unique_fire (e : Event) (w w' : World) :
  unique_payments w -> fire e w = Some w' -> unique_payments w'.
Proof.
  apply fire_preserves_data; intros; try assumption; try solve [pres].
  destruct j; cbn [runJob]; pres.
Qed.

(** In every state the server can reach, no two payment rows share an id or
    an idempotency key, and every row satisfies the two conservation
    equations as the code computes them, the product, the quotient, the sum
    and the rounding being floating-point operations: processing, settlement
    and cancellation only ever rewrite the status, the references and the
    update time of a row. *)
Theorem payment_rows_stay_consistent (w : World) :
  reachable w ->
  NoDup (map Payment.id (payments w)) /\
  NoDup (map Payment.idempotency_key (payments w)) /\
  forall p, In p (payments w) ->
    (Payment.destination_amount p ==
       JS.round2 (JS.mul (Payment.source_amount p) (Payment.exchange_rate p)))%Q /\
    (Payment.total_amount p ==
       JS.round2 (JS.add (Payment.source_amount p)
                         (JS.div (Payment.fee_amount p) (Payment.exchange_rate p))))%Q.
Proof.
  intros H.
  assert (U : unique_payments w).
  { revert w H. apply (reachable_ind unique_payments).
    - split; constructor.
    - intros e w w' Hw Hf. exact (unique_fire e w w' Hw Hf). }
  destruct U as [U1 U2]. split; [exact U1 | ]. split; [exact U2 | ].
  destruct (reachable_basics w H) as [_ Hc].
  intros p Hp. unfold all_conserved in Hc. rewrite Forall_forall in Hc.
  exact (Hc p Hp).
Qed.

Lemma payment_rows_stay_consistent_witness :
  NoDup (map Payment.id (payments (world_after cancel_trace))) /\
  NoDup (map Payment.idempotency_key (payments (world_after cancel_trace))).
Proof.
  destruct (payment_rows_stay_consistent (world_after cancel_trace)) as (H1 & H2 & _).
  - exists cancel_trace. vm_compute. reflexivity.
  - split; assumption.
Defined.

(** ** Queued jobs belong to payments that are not final *)

Section TripleRules.
Context {A B : Type}.
Variables (P R Qo Qt : World -> Prop).

Lemma triple_ret (a : A) :
    (forall w, P w -> Qo w) -> triple P (ret a) (outcome Qo Qt).
Proof. intros H w Hw. apply H. exact Hw. Qed.

Lemma triple_throw (e : string) :
    (forall w, P w -> Qt w) -> triple P (@throw A e) (outcome Qo Qt).
Proof. intros H w Hw. apply H. exact Hw. Qed.

Lemma triple_bind (m : M A) (k : A -> M B) :
    triple P m (outcome R Qt) ->
    (forall a, triple R (k a) (outcome Qo Qt)) ->
    triple P (bind m k) (outcome Qo Qt).
Proof.
    intros Hm Hk w Hw. unfold bind. specialize (Hm w Hw).
    destruct (m w) as [[a | e] w1]; simpl in *.
    - apply Hk. exact Hm.
    - exact Hm.
Qed.

Lemma triple_try_catch (m : M A) (h : string -> M A) :
    triple P m (outcome Qo R) ->
    (forall e, triple R (h e) (outcome Qo Qt)) ->
    triple P (try_catch m h) (outcome Qo Qt).
Proof.
    intros Hm Hh w Hw. unfold try_catch. specialize (Hm w Hw).
    destruct (m w) as [[a | e] w1]; simpl in *.
    - exact Hm.
    - apply Hh. exact Hm.
Qed.

Lemma triple_pres (m : M A) :
    preserves P m -> (forall w, P w -> Qo w) -> (forall w, P w -> Qt w) ->
    triple P m (outcome Qo Qt).
Proof.
    intros Hm Ho Ht w Hw. specialize (Hm w Hw).
    destruct (m w) as [[a | e] w1]; simpl in *; [apply Ho | apply Ht]; exact Hm.
Qed.

Lemma triple_total (m : M A) :
    hoare P m Qo -> never_throws m -> triple P m (outcome Qo Qt).
Proof.
    intros Hm Hn w Hw. specialize (Hm w Hw). destruct (Hn w) as [a Ha].
    destruct (m w) as [r w1]. simpl in *. subst r. exact Hm.
Qed.

Lemma triple_hoare (m : M A) :
    triple P m (outcome Qo Qo) -> hoare P m Qo.
Proof.
    intros Hm w Hw. specialize (Hm w Hw).
    destruct (m w) as [[a | e] w1]; exact Hm.
Qed.
End TripleRules.

Lemma triple_weaken {A} (P Qo Qo' Qt Qt' : World -> Prop) (m : M A) :
  triple P m (outcome Qo' Qt') ->
  (forall w, Qo' w -> Qo w) -> (forall w, Qt' w -> Qt w) ->
  triple P m (outcome Qo Qt).
Proof.
  intros Hm Ho Ht w Hw. specialize (Hm w Hw).
  destruct (m w) as [[a | e] w1]; simpl in *; [apply Ho | apply Ht]; exact Hm.
Qed.

Lemma triple_strengthen {A} (P P' : World -> Prop) (Q : Result A -> World -> Prop)
    (m : M A) :
  triple P' m Q -> (forall w, P w -> P' w) -> triple P m Q.
Proof. intros Hm HP w Hw. apply Hm. apply HP. exact Hw. Qed.

(** *** Statuses under updates *)

Lemma terminal_terminalb (s : PaymentStatus.t) : terminal s <-> terminalb s = true.
Proof.
  unfold terminal. destruct s; simpl; split; intros H;
    try reflexivity; try discriminate;
    try (destruct H as [H | H]; discriminate H);
    try (left; reflexivity); right; reflexivity.
Qed.

Lemma status_of_update_other (p q : Id) (f : Payment.t -> Payment.t) (w : World) :
  keeps f -> p <> q ->
  status_of q (snd (Database.update_payment p f w)) = status_of q w.
Proof.
  intros Hf Hne. unfold status_of. simpl.
  rewrite (find_id_map_other q f p _ Hf Hne). reflexivity.
Qed.

Lemma status_of_update_keep (p q : Id) (f : Payment.t -> Payment.t) (w : World) :
  keeps f -> (forall r, Payment.status (f r) = Payment.status r) ->
  status_of q (snd (Database.update_payment p f w)) = status_of q w.
Proof.
  intros Hf Hs. unfold status_of. simpl. rewrite find_id_map_any.
  - destruct (find _ (payments w)) as [r | ]; simpl; [ | reflexivity].
    destruct (Payment.id r =? p); [rewrite Hs | ]; reflexivity.
  - intros r. destruct (Payment.id r =? p); [apply Hf | reflexivity].
Qed.

Lemma status_of_update_status (q : Id) (s : PaymentStatus.t) (now : N) (w : World) :
  status_of q (snd (Database.update_payment q (Payment.with_status s now) w)) =
    option_map (fun _ => s) (status_of q w).
Proof.
  unfold status_of. simpl.
  rewrite (find_id_map _ _ _ (keeps_with_status s now)).
  destruct (find _ (payments w)); reflexivity.
Qed.

(** *** Leaves *)

Lemma no_flow_In (q : Id) (w : World) (t : Timer.t) :
  no_flow q w -> In t (timers w) -> flow_job_for q (Timer.job t) = false.
Proof.
  unfold no_flow. rewrite forallb_forall. intros H Hin.
  specialize (H t Hin). apply negb_true_iff in H. exact H.
Qed.

Lemma live_at_weaken (st : option (Id * bool)) (w : World) :
  live_at st w -> live_at None w.
Proof. intros [H _]. split; [exact H | exact I]. Qed.

Lemma live_at_unflag (q : Id) (l : bool) (w : World) :
  live_at (Some (q, l)) w -> live_at (Some (q, false)) w.
Proof. intros [H [H1 _]]. split; [exact H | ]. split; [exact H1 | discriminate]. Qed.

Lemma live_at_own (h : nat) (q : Id) (l : bool) (w : World) :
  live_at (Some (q, l)) w -> live_own h q w.
Proof.
  intros [H [H1 _]]. split; [exact H | ]. intros t Ht Hf.
  unfold flow_timer in Hf. rewrite (no_flow_In q w t H1 Ht) in Hf. discriminate.
Qed.

Lemma live_own_weaken (h : nat) (q : Id) (w : World) : live_own h q w -> live_at None w.
Proof. intros [H _]. split; [exact H | exact I]. Qed.

Lemma live_at_change (st : option (Id * bool)) (w w' : World) :
  (forall t, In t (timers w') -> exists u, In u (timers w) /\ Timer.job u = Timer.job t) ->
  (forall q, status_of q w' = status_of q w) ->
  live_at st w -> live_at st w'.
Proof.
  intros Ht Hs [H Hst].
  assert (Hl : forall q, live q w -> live q w').
  { intros q Hq s. rewrite Hs. apply Hq. }
  assert (Hn : forall q, no_flow q w -> no_flow q w').
  { intros q Hq. unfold no_flow. apply forallb_forall. intros t Hin.
    destruct (Ht t Hin) as (u & Hu & Hj). rewrite <- Hj.
    rewrite (no_flow_In q w u Hq Hu). reflexivity. }
  split.
  - intros t q Hin Hf. destruct (Ht t Hin) as (u & Hu & Hj).
    apply Hl. apply (H u q Hu). rewrite Hj. exact Hf.
  - destruct st as [[q l] | ]; [ | exact I]. destruct Hst as [H1 H2].
    split; [apply Hn; exact H1 | ]. intros E. apply Hl. apply H2. exact E.
Qed.

Section LiveLeaves.
Variable st : option (Id * bool).

Lemma live_at_rearm (t : Timer.t) (w : World) :
    live_at st w -> live_at st (set_timers (rearm t (timers w)) w).
Proof.
    apply live_at_change; [ | reflexivity].
    simpl. unfold rearm. intros u Hu. destruct (Timer.period t).
    - apply in_map_iff in Hu. destruct Hu as [v [<- Hv]].
      exists v. split; [exact Hv | ]. destruct (Timer.id v =? Timer.id t); reflexivity.
    - apply filter_In in Hu. exists u. split; [apply Hu | reflexivity].
Qed.

Lemma live_at_clearInterval (h : nat) : preserves (live_at st) (clearInterval h).
Proof.
    intros w. apply live_at_change; [ | reflexivity].
    simpl. intros u Hu. apply filter_In in Hu. exists u. split; [apply Hu | reflexivity].
Qed.

Lemma live_at_update_keep (p : Id) (f : Payment.t -> Payment.t) :
    keeps f -> (forall r, Payment.status (f r) = Payment.status r) ->
    preserves (live_at st) (Database.update_payment p f).
Proof.
    intros Hf Hs w. apply live_at_change.
    - intros t Ht. exists t. split; [exact Ht | reflexivity].
    - intros q. apply status_of_update_keep; assumption.
Qed.

Lemma live_at_new_timer (w : World) (t : Timer.t) (n : nat) :
    (forall p, flow_job_for p (Timer.job t) = false) ->
    live_at st w ->
    live_at st (set_timer_next n (set_timers (timers w ++ [t]) w)).
Proof.
    intros Hj [H Hst]. split.
    - intros u q Hu Hf. simpl in Hu. apply in_app_or in Hu.
      destruct Hu as [Hu | [<- | []]]; [exact (H u q Hu Hf) | ].
      rewrite Hj in Hf. discriminate.
    - destruct st as [[q l] | ]; [ | exact I]. destruct Hst as [H1 H2].
      split; [ | exact H2]. unfold no_flow in *. simpl.
      rewrite forallb_app, H1. simpl. rewrite Hj. reflexivity.
Qed.

Lemma live_at_setTimeout (j : Job) (d : N) :
    (forall p, flow_job_for p j = false) -> preserves (live_at st) (setTimeout j d).
Proof. intros Hj w H. apply live_at_new_timer; assumption. Qed.

Lemma live_at_setInterval (j : Job) (d : N) :
    (forall p, flow_job_for p j = false) -> preserves (live_at st) (setInterval j d).
Proof. intros Hj w H. apply live_at_new_timer; assumption. Qed.
End LiveLeaves.

Lemma live_at_new_flow (q : Id) (w : World) (t : Timer.t) (n : nat) :
  (forall p, flow_job_for p (Timer.job t) = (q =? p)) ->
  live_at (Some (q, true)) w ->
  live_at None (set_timer_next n (set_timers (timers w ++ [t]) w)).
Proof.
  intros Hj [H [_ Hl]]. split; [ | exact I].
  intros u p Hu Hf. simpl in Hu. apply in_app_or in Hu.
  destruct Hu as [Hu | [<- | []]]; [exact (H u p Hu Hf) | ].
  rewrite Hj in Hf. apply Nat.eqb_eq in Hf. subst p. apply Hl. reflexivity.
Qed.

Lemma live_setInterval_flow (q tx : Id) (d : N) (j : Job) :
  j = JOnrampPoll q tx \/ j = JOfframpPoll q tx ->
  hoare (live_at (Some (q, true))) (setInterval j d) (live_at None).
Proof.
  intros Hj w H. apply (live_at_new_flow q); [ | exact H].
  intros p. destruct Hj as [-> | ->]; reflexivity.
Qed.

Lemma live_setTimeout_process (q : Id) (d : N) :
  hoare (live_at (Some (q, true))) (setTimeout (JProcessPayment q) d) (live_at None).
Proof. intros w H. apply (live_at_new_flow q); [intros p; reflexivity | exact H]. Qed.

Lemma live_own_clearInterval (h : nat) (q : Id) :
  hoare (live_own h q) (clearInterval h) (live_at (Some (q, false))).
Proof.
  intros w [H Hown].
  destruct (live_at_clearInterval None h w (conj H I)) as [H' _].
  split; [exact H' | ]. split; [ | discriminate].
  unfold no_flow. simpl. apply forallb_forall. intros u Hu.
  apply filter_In in Hu. destruct Hu as [Hu Hid].
  destruct (flow_job_for q (Timer.job u)) eqn:E; [ | reflexivity].
  rewrite (Hown u Hu E), Nat.eqb_refl in Hid. discriminate.
Qed.

(** Writing a status into the row of the payment the handler runs for. *)
Lemma live_at_update_status (q : Id) (l : bool) (s : PaymentStatus.t) (now : N) :
  hoare (live_at (Some (q, l)))
        (Database.update_payment q (Payment.with_status s now))
        (live_at (Some (q, negb (terminalb s)))).
Proof.
  intros w [H [H1 _]]. split; [ | split].
  - intros t p Ht Hf. simpl in Ht.
    assert (Hne : q <> p).
    { intros ->. rewrite (no_flow_In p w t H1 Ht) in Hf. discriminate. }
    intros s0. rewrite (status_of_update_other q p _ w (keeps_with_status s now) Hne).
    apply (H t p Ht Hf).
  - exact H1.
  - intros E s0. rewrite status_of_update_status.
    destruct (status_of q w); simpl; [ | discriminate].
    intros G. injection G as <-. apply negb_true_iff in E. exact E.
Qed.

(** Writing a status that is not final into any row. *)
Lemma live_at_update_nonfinal (p : Id) (s : PaymentStatus.t) (now : N) :
  terminalb s = false ->
  preserves (live_at None) (Database.update_payment p (Payment.with_status s now)).
Proof.
  intros Hs w [H _]. split; [ | exact I].
  intros t q Ht Hf s0. simpl in Ht.
  destruct (Nat.eq_dec p q) as [-> | Hne].
  - rewrite status_of_update_status.
    destruct (status_of q w); simpl; [ | discriminate].
    intros G. injection G as <-. exact Hs.
  - rewrite (status_of_update_other p q _ w (keeps_with_status s now) Hne).
    apply (H t q Ht Hf).
Qed.

(** The row of a new payment. *)
Lemma live_at_insert_payment (a : Id) (l : bool) (x : Payment.t) :
  Payment.id x = a -> terminalb (Payment.status x) = false ->
  triple (live_at (Some (a, l))) (Database.insert_payment x)
         (outcome (live_at (Some (a, true))) (live_at (Some (a, l)))).
Proof.
  intros Hid Hs w [H [H1 H2]]. unfold Database.insert_payment.
  destruct (existsb _ _) eqn:E; simpl; [split; [exact H | split; assumption] | ].
  apply existsb_false_find in E. destruct E as [E _].
  assert (Hst : forall q, q <> a ->
            status_of q (set_payments (payments w ++ [x]) w) = status_of q w).
  { intros q Hq. unfold status_of. simpl.
    destruct (find (fun r => Payment.id r =? q) (payments w)) as [r | ] eqn:Er.
    - rewrite (find_app_some _ _ [x] r Er). reflexivity.
    - rewrite (find_app_none _ _ [x] Er). simpl.
      destruct (Nat.eqb_spec (Payment.id x) q); [congruence | reflexivity]. }
  split; [ | split].
  - intros t q Ht Hf. simpl in Ht.
    assert (Hne : q <> a).
    { intros ->. rewrite (no_flow_In a w t H1 Ht) in Hf. discriminate. }
    intros s0. rewrite (Hst q Hne). apply (H t q Ht Hf).
  - exact H1.
  - intros _ s0. unfold status_of. simpl. rewrite <- Hid.
    rewrite (find_app_none _ _ [x] E). simpl. rewrite Nat.eqb_refl. simpl.
    intros G. injection G as <-. exact Hs.
Qed.

Ltac frame_live :=
  solve [ unfold_leaves; intros ? ?;
          unfold live_at, live_jobs, live, no_flow, status_of in *;
          simpl; assumption ].

#[export] Hint Resolve live_at_clearInterval live_at_update_keep live_at_setTimeout
  live_at_setInterval live_at_update_nonfinal keeps_with_onramp_reference
  keeps_with_offramp_reference : pres.
#[export] Hint Extern 5 (preserves (live_at _) _) => frame_live : pres.
#[export] Hint Extern 1 (forall r, Payment.status (_ r) = Payment.status r) =>
  intro; reflexivity : pres.
#[export] Hint Extern 1 (terminalb _ = false) => reflexivity : pres.

(** *** The handlers *)

Lemma updatePaymentStatus_total (q : Id) (s : PaymentStatus.t) :
  never_throws (PaymentOrchestrator.updatePaymentStatus q s).
Proof. intros w. eexists. reflexivity. Qed.

Lemma live_updatePaymentStatus (q : Id) (l : bool) (s : PaymentStatus.t) :
  hoare (live_at (Some (q, l))) (PaymentOrchestrator.updatePaymentStatus q s)
        (live_at (Some (q, negb (terminalb s)))).
Proof.
  intros w H.
  assert (E : snd (PaymentOrchestrator.updatePaymentStatus q s w) =
              snd (WebhookService.scheduleWebhook q
                     (PaymentOrchestrator.getWebhookEventForStatus s) (DataStatus s)
                     (snd (Database.update_payment q
                             (Payment.with_status s (CURRENT_TIMESTAMP w)) w))))
    by reflexivity.
  rewrite E.
  assert (G : preserves (live_at (Some (q, negb (terminalb s))))
                (WebhookService.scheduleWebhook q
                   (PaymentOrchestrator.getWebhookEventForStatus s) (DataStatus s)))
    by pres.
  apply G. apply (live_at_update_status q l s (CURRENT_TIMESTAMP w) w H).
Qed.

Ltac live_side :=
  first
    [ exact (fun w H => H)
    | solve [intros ? ?; eapply live_at_weaken; eassumption]
    | solve [intros ? ?; eapply live_at_unflag; eassumption]
    | solve [intros ? ?; eapply live_at_own; eassumption]
    | solve [intros ? ?; eapply live_own_weaken; eassumption]
    | solve [intros ? [_ ?]; assumption]
    | solve [intros ? []] ].

Ltac total := intros ?; eexists; reflexivity.

Ltac live_leaf :=
  first [ solve [pres] | apply preserves_and; solve [pres] ].

Lemma live_uuidv4_fresh {B} (k : Id -> M B) (Q : Result B -> World -> Prop) :
  (forall a, triple (live_at (Some (a, false))) (k a) Q) ->
  triple (fun w => flows_ok_at None w /\ live_at None w) (bind uuidv4 k) Q.
Proof.
  intros Hk w [[(_ & _ & F3 & _) _] [H _]]. unfold bind, uuidv4. apply Hk.
  destruct (F3 (uuid_next w) (le_n _)) as [A _].
  split; [exact H | ]. split; [exact A | discriminate].
Qed.

Ltac live_step :=
  lazymatch goal with
  | |- triple _ (ret _) _ => apply triple_ret; live_side
  | |- triple _ (throw _) _ => apply triple_throw; live_side
  | |- triple _ (if ?b then _ else _) _ => destruct b
  | |- triple _ (match ?x with _ => _ end) _ => destruct x
  | |- triple _ (let _ := _ in _) _ => cbv zeta
  | |- triple (fun w => flows_ok_at None w /\ live_at None w) (bind uuidv4 _) _ =>
      apply live_uuidv4_fresh; intro
  | |- triple (live_at (Some (?q, ?l)))
              (bind (PaymentOrchestrator.updatePaymentStatus ?q ?s) _) _ =>
      apply (triple_bind _ (live_at (Some (q, negb (terminalb s)))));
      [ apply triple_total;
        [apply live_updatePaymentStatus | apply updatePaymentStatus_total]
      | intro; cbn [negb terminalb] ]
  | |- triple (live_at (Some (?q, ?l))) (PaymentOrchestrator.updatePaymentStatus ?q ?s) _ =>
      eapply triple_weaken;
      [ apply triple_total;
        [apply (live_updatePaymentStatus q l s) | apply updatePaymentStatus_total]
      | live_side | live_side ]
  | |- triple (live_at (Some (?q, _))) (PaymentOrchestrator.processOfframp ?q) _ =>
      fail "processOfframp"
  | |- triple (live_at (Some (?q, true))) (bind (setInterval ?j _) _) _ =>
      apply (triple_bind _ (live_at None));
      [ apply triple_total;
        [ eapply (live_setInterval_flow q);
          first [left; reflexivity | right; reflexivity]
        | total ]
      | intro ]
  | |- triple (live_at (Some (?q, true))) (bind (setTimeout (JProcessPayment ?q) _) _) _ =>
      apply (triple_bind _ (live_at None));
      [ apply triple_total; [apply live_setTimeout_process | total] | intro ]
  | |- triple (live_at None) (bind (setTimeout _ _) _) _ =>
      apply (triple_bind _ (live_at None));
      [ apply triple_total; [apply hoare_pres; [solve [pres] | trivial] | total]
      | intro ]
  | |- triple (live_own ?h ?q) (bind (clearInterval ?h) _) _ =>
      apply (triple_bind _ (live_at (Some (q, false))));
      [ apply triple_total; [apply live_own_clearInterval | total] | intro ]
  | |- triple (live_at (Some (?a, ?l))) (bind (Database.insert_payment _) _) _ =>
      apply (triple_bind _ (live_at (Some (a, true))));
      [ eapply triple_weaken;
        [ apply (live_at_insert_payment a l); reflexivity
        | live_side | live_side ]
      | intro ]
  | |- triple ?P (bind _ _) _ =>
      apply (triple_bind _ P); [apply triple_pres; [live_leaf | trivial | live_side] | intro]
  | |- triple _ _ _ =>
      apply triple_pres; [live_leaf | live_side | live_side]
  end.

Lemma live_processOfframp (q : Id) :
  triple (live_at (Some (q, false))) (PaymentOrchestrator.processOfframp q)
         (outcome (live_at None) impossible).
Proof.
  unfold PaymentOrchestrator.processOfframp,
    PaymentOrchestrator.monitorOfframpCompletion.
  apply (triple_try_catch _ (live_at (Some (q, false)))).
  - repeat live_step.
  - intro e. live_step.
Qed.

Lemma live_processPayment (q : Id) :
  triple (live_at (Some (q, false))) (PaymentOrchestrator.processPayment q)
         (outcome (live_at None) impossible).
Proof.
  unfold PaymentOrchestrator.processPayment,
    PaymentOrchestrator.monitorOnrampCompletion.
  apply (triple_try_catch _ (live_at (Some (q, false)))).
  - repeat live_step.
  - intro e. live_step.
Qed.

Lemma live_call_processOfframp (h : nat) (q : Id) (l : bool) :
  triple (live_at (Some (q, l))) (PaymentOrchestrator.processOfframp q)
         (outcome (live_at None) (live_own h q)).
Proof.
  eapply triple_weaken;
    [ eapply triple_strengthen; [apply live_processOfframp | ]
    | exact (fun w H => H) | intros w [] ].
  intros w H. eapply live_at_unflag. exact H.
Qed.

Lemma live_onrampPoll (h : nat) (q tx : Id) :
  triple (live_own h q) (PaymentOrchestrator.onrampPoll h q tx)
         (outcome (live_at None) (live_at None)).
Proof.
  unfold PaymentOrchestrator.onrampPoll.
  apply (triple_try_catch _ (live_own h q)).
  - apply (triple_bind _ (live_own h q)).
    + apply triple_pres; [ | trivial | trivial].
      unfold OnrampService.getTransactionStatus, Database.select_transaction.
      apply preserves_gets.
    + intros [x | ].
      * destruct (TransactionStatus.eqb (Transaction.status x) TransactionStatus.COMPLETED).
        -- live_step. live_step. live_step. apply live_call_processOfframp.
        -- destruct (TransactionStatus.eqb (Transaction.status x)
                       TransactionStatus.FAILED).
           ++ live_step. live_step.
           ++ live_step.
      * live_step. live_step.
  - intro e. live_step. live_step.
Qed.

Lemma live_offrampPoll (h : nat) (q tx : Id) :
  triple (live_own h q) (PaymentOrchestrator.offrampPoll h q tx)
         (outcome (live_at None) (live_at None)).
Proof.
  unfold PaymentOrchestrator.offrampPoll.
  apply (triple_try_catch _ (live_own h q)).
  - apply (triple_bind _ (live_own h q)).
    + apply triple_pres; [ | trivial | trivial].
      unfold OfframpService.getTransactionStatus, Database.select_transaction.
      apply preserves_gets.
    + intros [x | ].
      * destruct (TransactionStatus.eqb (Transaction.status x) TransactionStatus.COMPLETED).
        -- repeat live_step.
        -- destruct (TransactionStatus.eqb (Transaction.status x)
                       TransactionStatus.FAILED).
           ++ live_step. live_step.
           ++ live_step.
      * live_step. live_step.
  - intro e. live_step. live_step.
Qed.

Lemma live_createPayment (request : CreatePaymentRequest.t) (random : Q) :
  triple (fun w => flows_ok_at None w /\ live_at None w)
         (PaymentOrchestrator.createPayment request random)
         (outcome (live_at None) (live_at None)).
Proof.
  unfold PaymentOrchestrator.createPayment.
  repeat live_step.
Qed.

(** *** A payment with nothing queued keeps its status *)

Section Settled.
Variable pid : Id.
Variable s : PaymentStatus.t.

Lemma settled_uuidv4 {B} (k : Id -> M B) :
    (forall a, a <> pid -> preserves (settled pid s) (k a)) ->
    preserves (settled pid s) (bind uuidv4 k).
Proof.
    intros Hk w H. unfold bind, uuidv4.
    assert (Hne : uuid_next w <> pid) by (destruct H as [H _]; lia).
    apply (Hk _ Hne). destruct H as (H1 & H2 & H3).
    repeat split; try assumption. simpl. lia.
Qed.

Lemma settled_update_payment (q : Id) (f : Payment.t -> Payment.t) :
    q <> pid -> keeps f -> preserves (settled pid s) (Database.update_payment q f).
Proof.
    intros Hq Hf w (H1 & H2 & H3). repeat split; try assumption.
    unfold status_of in *. simpl. rewrite find_id_map_other; assumption.
Qed.

Lemma settled_insert_payment (p : Payment.t) :
    preserves (settled pid s) (Database.insert_payment p).
Proof.
    intros w (H1 & H2 & H3). unfold Database.insert_payment.
    destruct (existsb _ _); simpl; repeat split; try assumption.
    unfold status_of in *. simpl.
    destruct (find (fun r => Payment.id r =? pid) (payments w)) as [r | ] eqn:E;
      [ | discriminate].
    rewrite (find_app_some _ _ [p] r E). exact H3.
Qed.

Lemma settled_setTimeout (j : Job) (d : N) :
    flow_job_for pid j = false -> preserves (settled pid s) (setTimeout j d).
Proof.
    intros Hj w (H1 & H2 & H3). repeat split; try assumption.
    unfold no_flow in *. simpl. rewrite forallb_app, H2. simpl.
    rewrite Hj. reflexivity.
Qed.

Lemma settled_setInterval (j : Job) (d : N) :
    flow_job_for pid j = false -> preserves (settled pid s) (setInterval j d).
Proof.
    intros Hj w (H1 & H2 & H3). repeat split; try assumption.
    unfold no_flow in *. simpl. rewrite forallb_app, H2. simpl.
    rewrite Hj. reflexivity.
Qed.

Lemma settled_clearInterval (h : nat) : preserves (settled pid s) (clearInterval h).
Proof.
    intros w (H1 & H2 & H3). repeat split; try assumption.
    unfold no_flow in *. simpl. apply forallb_filter. exact H2.
Qed.

Lemma settled_rearm (t : Timer.t) (w : World) :
    settled pid s w -> settled pid s (set_timers (rearm t (timers w)) w).
Proof.
    intros (H1 & H2 & H3). repeat split; try assumption.
    unfold no_flow in *. simpl. unfold rearm. destruct (Timer.period t).
    - rewrite forallb_forall in *. intros y Hy. apply in_map_iff in Hy.
      destruct Hy as [x [<- Hx]]. specialize (H2 x Hx).
      destruct (Timer.id x =? Timer.id t); exact H2.
    - apply forallb_filter. exact H2.
Qed.
End Settled.

Ltac frame_settled :=
  solve [ unfold_leaves; intros ? ?; unfold settled, no_flow, status_of in *;
          simpl; assumption ].

#[export] Hint Resolve settled_update_payment settled_insert_payment settled_setTimeout
  settled_setInterval settled_clearInterval : pres.
#[export] Hint Extern 5 (preserves (settled _ _) _) => frame_settled : pres.

Ltac pres_settled :=
  repeat first
    [ apply settled_uuidv4; intros ? ?
    | pres_step
    | progress unfold_services ];
  eauto with pres.

Lemma settled_flow (pid : Id) (s : PaymentStatus.t) (h : nat) (j : Job)
    (random : Q) (db_ok : bool) :
  flow_job_for pid j = false -> preserves (settled pid s) (runJob h j random db_ok).
Proof.
  intros Hj. destruct j; cbn [runJob]; simpl in Hj;
    try (apply Nat.eqb_neq in Hj); pres_settled.
Qed.

Lemma settled_fire (pid : Id) (s : PaymentStatus.t) (e : Event) (w w' : World) :
  terminalb s = true ->
  settled pid s w -> fire e w = Some w' -> settled pid s w'.
Proof.
  intros Ht H Hf. destruct e; simpl in Hf.
  - injection Hf as <-. revert w H. change (preserves (settled pid s)
      (PaymentOrchestrator.createPayment request random)). pres_settled.
  - injection Hf as <-. destruct (Nat.eq_dec paymentId pid) as [-> | Hne].
    + unfold exec. rewrite cancelPayment_eq.
      destruct H as (H1 & H2 & H3). rewrite H3.
      destruct s; try discriminate Ht; simpl; repeat split; assumption.
    + revert w H. change (preserves (settled pid s)
        (PaymentOrchestrator.cancelPayment paymentId)). pres_settled.
  - injection Hf as <-. revert w H. change (preserves (settled pid s)
      (WebhookService.retryWebhook webhookId newUrl)). pres_settled.
  - unfold fireTimer in Hf.
    destruct (find (fun t => Timer.id t =? handle) (timers w)) as [t | ] eqn:E;
      [ | discriminate].
    destruct (Timer.due t <=? clock w)%N; [ | discriminate].
    injection Hf as <-. apply settled_flow.
    + destruct H as (_ & H2 & _). apply (no_flow_In pid w t H2 (find_In _ _ _ E)).
    + apply settled_rearm. exact H.
  - destruct (nth_error (inflight w) index) as [r | ] eqn:E; [ | discriminate].
    injection Hf as <-.
    assert (H' : settled pid s (set_inflight (remove_nth index (inflight w)) w))
      by exact H.
    revert H'. generalize (set_inflight (remove_nth index (inflight w)) w).
    change (preserves (settled pid s) (WebhookService.onResponse r ok)). pres_settled.
  - destruct (forallb _ _); [ | discriminate]. injection Hf as <-. exact H.
Qed.

(** *** Every event keeps the jobs live *)

Lemma own_fired (h : nat) (q : Id) (t : Timer.t) (w : World) :
  flows_ok w ->
  find (fun t => Timer.id t =? h) (timers w) = Some t ->
  flow_timer q t = true ->
  forall u, In u (rearm t (timers w)) -> flow_timer q u = true -> Timer.id u = h.
Proof.
  intros (F1 & _) Hfind Hf u Hu Hfu.
  pose proof (find_some _ _ Hfind) as [Hin Hid]. apply Nat.eqb_eq in Hid.
  assert (G : exists v, In v (timers w) /\ Timer.job v = Timer.job u /\
                        Timer.id v = Timer.id u).
  { unfold rearm in Hu. destruct (Timer.period t).
    - apply in_map_iff in Hu. destruct Hu as [v [<- Hv]]. exists v.
      split; [exact Hv | ]. destruct (Timer.id v =? Timer.id t); split; reflexivity.
    - apply filter_In in Hu. exists u. split; [apply Hu | split; reflexivity]. }
  destruct G as (v & Hv & Hj & Hi).
  assert (E : v = t).
  { apply (flow_timer_unique q (timers w)); auto.
    - apply (F1 q).
    - unfold flow_timer. rewrite Hj. exact Hfu. }
  subst v. rewrite <- Hi. exact Hid.
Qed.

Lemma no_flow_after_process (h : nat) (q : Id) (t : Timer.t) (w : World) :
  flows_ok w ->
  find (fun t => Timer.id t =? h) (timers w) = Some t ->
  Timer.job t = JProcessPayment q ->
  no_flow q (set_timers (rearm t (timers w)) w).
Proof.
  intros Hw Hfind Ej.
  pose proof (find_some _ _ Hfind) as [Hin Hid]. apply Nat.eqb_eq in Hid.
  assert (Hf : flow_timer q t = true).
  { unfold flow_timer. rewrite Ej. simpl. apply Nat.eqb_refl. }
  pose proof (own_fired h q t w Hw Hfind Hf) as Hown.
  assert (Hp : Timer.period t = None).
  { destruct Hw as (_ & _ & _ & F4). specialize (F4 t Hin).
    unfold one_shot_ok in F4. rewrite Ej in F4. exact F4. }
  unfold no_flow. simpl. apply forallb_forall. intros u Hu.
  destruct (flow_job_for q (Timer.job u)) eqn:E; [ | reflexivity].
  pose proof (Hown u Hu E) as Hi.
  unfold rearm in Hu. rewrite Hp in Hu. apply filter_In in Hu. destruct Hu as [_ Hu].
  rewrite Hi, Hid, Nat.eqb_refl in Hu. discriminate.
Qed.

Lemma live_fire (e : Event) (w w' : World) :
  flows_ok w -> live_jobs w -> fire e w = Some w' -> live_jobs w'.
Proof.
  intros Hflows Hlive Hf.
  cut (live_at None w'); [intros G; apply G | ].
  assert (H0 : live_at None w) by (split; [exact Hlive | exact I]).
  destruct e; simpl in Hf.
  - injection Hf as <-.
    apply (triple_hoare _ _ _ (live_createPayment request random)).
    split; [split; [exact Hflows | exact I] | exact H0].
  - injection Hf as <-.
    assert (G : preserves (live_at None) (PaymentOrchestrator.cancelPayment paymentId))
      by pres.
    apply G. exact H0.
  - injection Hf as <-.
    assert (G : preserves (live_at None)
                  (WebhookService.retryWebhook webhookId newUrl)) by pres.
    apply G. exact H0.
  - unfold fireTimer in Hf.
    destruct (find (fun t => Timer.id t =? handle) (timers w)) as [t | ] eqn:E;
      [ | discriminate].
    destruct (Timer.due t <=? clock w)%N; [ | discriminate].
    injection Hf as <-.
    pose proof (live_at_rearm None t w H0) as [Hl _].
    destruct (Timer.job t) as [q | q tx | q tx | c | tx rate | wid url] eqn:Ej;
      cbn [runJob].
    + apply (triple_hoare _ _ _
               (triple_weaken _ _ _ _ _ _ (live_processPayment q)
                  (fun w H => H) (fun w (H : impossible w) => match H with end))).
      split; [exact Hl | ]. split; [ | discriminate].
      apply (no_flow_after_process handle q t w Hflows E Ej).
    + apply (triple_hoare _ _ _ (live_onrampPoll handle q tx)).
      split; [exact Hl | ]. simpl. apply (own_fired handle q t w Hflows E).
      unfold flow_timer. rewrite Ej. simpl. apply Nat.eqb_refl.
    + apply (triple_hoare _ _ _ (live_offrampPoll handle q tx)).
      split; [exact Hl | ]. simpl. apply (own_fired handle q t w Hflows E).
      unfold flow_timer. rewrite Ej. simpl. apply Nat.eqb_refl.
    + apply live_at_clearInterval. split; [exact Hl | exact I].
    + assert (G : preserves (live_at None) (resolveTransaction tx rate random db_ok))
        by pres.
      apply G. split; [exact Hl | exact I].
    + assert (G : preserves (live_at None) (WebhookService.sendWebhookAsync wid url))
        by pres.
      apply G. split; [exact Hl | exact I].
  - destruct (nth_error (inflight w) index) as [r | ] eqn:E; [ | discriminate].
    injection Hf as <-.
    assert (G : preserves (live_at None) (WebhookService.onResponse r ok)) by pres.
    apply G. exact H0.
  - destruct (forallb _ _); [ | discriminate]. injection Hf as <-. exact H0.
Qed.

Lemma reachable_live_jobs (w : World) : reachable w -> flows_ok w /\ live_jobs w.
Proof.
  revert w. apply (reachable_ind (fun w => flows_ok w /\ live_jobs w)).
  - split; [exact flows_ok_initial | ]. intros t q [].
  - intros e w w' [H1 H2] Hf. split.
    + exact (flows_ok_fire e w w' H1 Hf).
    + exact (live_fire e w w' H1 H2 Hf).
Qed.

(** What the poll of [monitorOfframpCompletion] does on a completed
    transaction. *)
Lemma offrampPoll_completed (h : nat) (pid tx : Id) (x : Transaction.t) (w : World) :
  find (fun r => Transaction.id r =? tx) (transactions w) = Some x ->
  Transaction.status x = TransactionStatus.COMPLETED ->
  exec (PaymentOrchestrator.offrampPoll h pid tx) w =
    exec (WebhookService.scheduleWebhook pid WebhookEventType.PAYMENT_COMPLETED
            (DataTransaction (Transaction.id x)))
      (exec (PaymentOrchestrator.updatePaymentStatus pid PaymentStatus.COMPLETED)
         (exec (clearInterval h) w)).
Proof.
  intros Hx Hs.
  unfold exec, PaymentOrchestrator.offrampPoll, try_catch.
  unfold bind at 1.
  unfold OfframpService.getTransactionStatus, Database.select_transaction, gets.
  cbn beta iota. rewrite Hx, Hs. cbn [TransactionStatus.eqb].
  reflexivity.
Qed.

(** ** The Temporal activities and workflow *)

Section TemporalFacts.
Variable sched : N -> list Event.

Lemma sleep_clock (ms : N) (w : World) :
    (clock w + ms <= clock (snd (Temporal.sleep sched ms w)))%N /\
    fst (Temporal.sleep sched ms w) = Ok tt.
Proof.
    unfold Temporal.sleep. simpl. split; [lia | reflexivity].
Qed.

Lemma monitorLoop_answer (what : string) (startTime timeoutMs : N) (transactionId : Id)
      (fuel : nat) (w : World) (r : Result bool) (w' : World) :
    (startTime <= clock w)%N ->
    1 <= fuel ->
    (timeoutMs <= (clock w - startTime) + 5000 * N.of_nat (fuel - 1))%N ->
    Temporal.monitorLoop sched fuel what startTime timeoutMs transactionId w = (r, w') ->
    monitor_answer what transactionId (startTime + timeoutMs) r w'.
Proof.
    revert w. induction fuel as [ | fuel IH]; intros w Hs Hf Ht; [lia | ].
    cbn [Temporal.monitorLoop].
    unfold bind, Date_now, Database.select_transaction, gets, ret, throw.
    destruct (N.ltb_spec (clock w - startTime) timeoutMs) as [Hlt | Hge].
    - destruct (find (fun r => Transaction.id r =? transactionId) (transactions w))
        as [x | ] eqn:Ex.
      + destruct (Transaction.status x) eqn:Est; cbn [TransactionStatus.eqb].
        all: try (destruct (sleep_clock 5000 w) as [Hc Hok];
                  destruct (Temporal.sleep sched 5000 w) as [r1 w1]; simpl in Hc, Hok;
                  subst r1; intros E; apply (IH w1); [lia | lia | lia | exact E]).
        * intros E. injection E as <- <-. exists x. split; assumption.
        * intros E. injection E as <- <-. right. exists x. repeat split; assumption.
      + intros E. injection E as <- <-. left. split; [exact Ex | reflexivity].
    - intros E. injection E as <- <-. simpl. lia.
Qed.

Lemma enoughFuel_pos (timeoutMs : N) : 1 <= Temporal.enoughFuel timeoutMs.
Proof. unfold Temporal.enoughFuel. apply le_n_S, Nat.le_0_l. Qed.

Lemma enoughFuel_enough (timeoutMs now : N) :
    (timeoutMs <= now - now + 5000 * N.of_nat (Temporal.enoughFuel timeoutMs - 1))%N.
Proof.
    unfold Temporal.enoughFuel.
    pose proof (N.mul_succ_div_gt timeoutMs 5000) as G.
    revert G. generalize (timeoutMs / 5000)%N. intros q G.
    assert (E : N.of_nat (S (S (N.to_nat q)) - 1) = N.succ q) by lia.
    rewrite E. lia.
Qed.

  (** [monitorOnrampStatus] polls every 5 s.  It answers [true] only when it
      has just read the transaction as [completed], [false] only once the
      time-out has elapsed, and it throws exactly when it reads the
      transaction as missing or as [failed]; a transaction that stays
      [processing] therefore makes it answer [false] after the time-out. *)
Theorem monitorOnrampStatus_answer (paymentId transactionId : Id)
      (timeoutMinutes : N) (w : World) :
    monitor_answer "Onramp" transactionId (clock w + timeoutMinutes * 60 * 1000)
      (fst (Temporal.monitorOnrampStatus sched paymentId transactionId timeoutMinutes w))
      (snd (Temporal.monitorOnrampStatus sched paymentId transactionId timeoutMinutes w)).
Proof.
    unfold Temporal.monitorOnrampStatus, bind, Date_now, gets.
    cbn beta iota zeta.
    eapply monitorLoop_answer with (w := w); [ | | | apply surjective_pairing].
    - lia.
    - apply enoughFuel_pos.
    - apply enoughFuel_enough.
Qed.

Theorem monitorOfframpStatus_answer (paymentId transactionId : Id)
      (timeoutMinutes : N) (w : World) :
    monitor_answer "Offramp" transactionId (clock w + timeoutMinutes * 60 * 1000)
      (fst (Temporal.monitorOfframpStatus sched paymentId transactionId timeoutMinutes w))
      (snd (Temporal.monitorOfframpStatus sched paymentId transactionId timeoutMinutes w)).
Proof.
    unfold Temporal.monitorOfframpStatus, bind, Date_now, gets.
    cbn beta iota zeta.
    eapply monitorLoop_answer with (w := w); [ | | | apply surjective_pairing].
    - lia.
    - apply enoughFuel_pos.
    - apply enoughFuel_enough.
Qed.

End TemporalFacts.

(** ** The payment workflow *)

Section WorkflowFacts.
Variable sched : N -> list Event.

Lemma status_of_payments (q : Id) (w w' : World) :
    payments w' = payments w -> status_of q w' = status_of q w.
Proof. unfold status_of. intros ->. reflexivity. Qed.

Lemma handlePaymentFailure_marks_failed (paymentId : Id) (error : string)
      (webhookUrl : option string) (w : World) :
    exists w',
      Temporal.handlePaymentFailure paymentId error webhookUrl w = (Ok tt, w') /\
      status_of paymentId w' =
        option_map (fun _ => PaymentStatus.FAILED) (status_of paymentId w).
Proof.
    destruct webhookUrl as [[ | c u] | ]; eexists; (split; [reflexivity | ]).
    all: rewrite <- (status_of_update_status paymentId PaymentStatus.FAILED (CURRENT_TIMESTAMP w) w).
    all: apply status_of_payments; reflexivity.
Qed.

Lemma completion_marks_completed (paymentId : Id) (webhookUrl : option string)
      (transactionId : option Id) (w : World) :
    exists w',
      (Temporal.updatePaymentStatus paymentId PaymentStatus.COMPLETED ;;;
       Temporal.notify webhookUrl paymentId WebhookEventType.PAYMENT_COMPLETED
         PaymentStatus.COMPLETED transactionId ;;;
       ret (PaymentWorkflowResult.mk true paymentId PaymentStatus.COMPLETED None)) w =
        (Ok (PaymentWorkflowResult.mk true paymentId PaymentStatus.COMPLETED None), w') /\
      status_of paymentId w' =
        option_map (fun _ => PaymentStatus.COMPLETED) (status_of paymentId w).
Proof.
    destruct webhookUrl as [[ | c u] | ]; eexists; (split; [reflexivity | ]).
    all: rewrite <- (status_of_update_status paymentId PaymentStatus.COMPLETED (CURRENT_TIMESTAMP w) w).
    all: apply status_of_payments; reflexivity.
Qed.

  (** The workflow never throws.  It reports success only with status
      [completed] and no error; in every other case it reports the status
      [failed] together with the message of the error that stopped it.  The
      status it reports is the one it leaves stored for the payment. *)
Theorem paymentWorkflow_reports_stored_status (input : PaymentWorkflowInput.t)
      (random : Q) (w : World) :
    exists r w',
      Temporal.paymentWorkflow sched input random w = (Ok r, w') /\
      PaymentWorkflowResult.paymentId r = PaymentWorkflowInput.paymentId input /\
      (forall s, status_of (PaymentWorkflowInput.paymentId input) w' = Some s ->
                 s = PaymentWorkflowResult.status r) /\
      ((PaymentWorkflowResult.success r = true /\
        PaymentWorkflowResult.status r = PaymentStatus.COMPLETED /\
        PaymentWorkflowResult.error r = None)
       \/
       (PaymentWorkflowResult.success r = false /\
        PaymentWorkflowResult.status r = PaymentStatus.FAILED /\
        exists e, PaymentWorkflowResult.error r = Some e)).
Proof.
    unfold Temporal.paymentWorkflow, finally, try_catch, Temporal.cleanupPayment.
    cbn zeta.
    match goal with
    | |- context [match ?m w with _ => _ end] =>
        destruct (m w) as [[res | e] w0] eqn:Eb
    end.
    - apply bind_ok_inv in Eb. destruct Eb as (u1 & w1 & _ & Eb).
      apply bind_ok_inv in Eb. destruct Eb as (fc & w2 & _ & Eb).
      apply bind_ok_inv in Eb. destruct Eb as (u3 & w3 & _ & Eb).
      apply bind_ok_inv in Eb. destruct Eb as (u4 & w4 & _ & Eb).
      apply bind_ok_inv in Eb. destruct Eb as (on & w5 & _ & Eb).
      apply bind_ok_inv in Eb. destruct Eb as ([ | ] & w6 & _ & Eb);
        [ | discriminate Eb].
      cbn [negb] in Eb.
      apply bind_ok_inv in Eb. destruct Eb as (u7 & w7 & _ & Eb).
      apply bind_ok_inv in Eb. destruct Eb as (u8 & w8 & _ & Eb).
      apply bind_ok_inv in Eb. destruct Eb as (off & w9 & _ & Eb).
      apply bind_ok_inv in Eb. destruct Eb as ([ | ] & w10 & _ & Eb);
        [ | discriminate Eb].
      cbn [negb] in Eb.
      destruct (completion_marks_completed (PaymentWorkflowInput.paymentId input)
                  (PaymentWorkflowInput.webhookUrl input)
                  (Some (SettlementResponse.transaction_id off)) w10) as (w' & E & Hs).
      rewrite E in Eb. injection Eb as <- <-.
      eexists; eexists. unfold ret. split; [reflexivity | ].
      split; [reflexivity | ]. split.
      + intros s H. rewrite Hs in H. cbn [PaymentWorkflowResult.status].
        destruct (status_of _ w10); [ | discriminate H].
        injection H as <-. reflexivity.
      + left. repeat split.
    - unfold bind at 1.
      destruct (handlePaymentFailure_marks_failed (PaymentWorkflowInput.paymentId input) e
                  (PaymentWorkflowInput.webhookUrl input) w0) as (w' & E & Hs).
      rewrite E. unfold ret.
      eexists; eexists. split; [reflexivity | ].
      split; [reflexivity | ]. split.
      + intros s H. rewrite Hs in H. cbn [PaymentWorkflowResult.status].
        destruct (status_of _ w0); [ | discriminate H].
        injection H as <-. reflexivity.
      + right. repeat split. exists e. reflexivity.
Qed.

End WorkflowFacts.

(** ** Final statuses and suspended cancellations *)

Lemma cancelPayment_read_eq (paymentId : Id) (w : World) :
  Suspended.cancelPayment_read paymentId w =
    (Ok match status_of paymentId w with
        | None | Some PaymentStatus.COMPLETED | Some PaymentStatus.FAILED => false
        | Some _ => true
        end, w).
Proof.
  unfold Suspended.cancelPayment_read, PaymentOrchestrator.getPaymentById,
    status_of, bind at 1, gets at 1.
  cbn beta iota.
  destruct (find (fun r => Payment.id r =? paymentId) (payments w)) as [p | ];
    [ | reflexivity].
  simpl option_map.
  destruct (Payment.status p); reflexivity.
Qed.

Lemma cancelPayment_write_eq (paymentId : Id) (w : World) :
  Suspended.cancelPayment_write paymentId w =
    (Ok true,
     exec (PaymentOrchestrator.updatePaymentStatus paymentId PaymentStatus.CANCELLED) w).
Proof. reflexivity. Qed.

(** The two halves, run one after the other, are [cancelPayment]. *)
Lemma cancelPayment_halves (paymentId : Id) (w : World) :
  PaymentOrchestrator.cancelPayment paymentId w =
    match Suspended.cancelPayment_read paymentId w with
    | (Ok true, w') => Suspended.cancelPayment_write paymentId w'
    | (r, w') => (r, w')
    end.
Proof.
  rewrite cancelPayment_eq, cancelPayment_read_eq.
  destruct (status_of paymentId w) as [[ | | | | | | ] | ]; reflexivity.
Qed.

Lemma step_preserves (P : World -> Prop) :
  (forall e w w', P w -> fire e w = Some w' -> P w') ->
  (forall i, preserves P
               (PaymentOrchestrator.updatePaymentStatus i PaymentStatus.CANCELLED)) ->
  forall s st st', P (fst st) -> Suspended.step s st = Some st' -> P (fst st').
Proof.
  intros Hf Hu s [w l] st' HP Hs. destruct s as [e | i | i]; simpl in Hs.
  - destruct (fire e w) as [w1 | ] eqn:E; [ | discriminate].
    injection Hs as <-. simpl. exact (Hf e w w1 HP E).
  - rewrite cancelPayment_read_eq in Hs.
    destruct (match status_of i w with
              | None | Some PaymentStatus.COMPLETED | Some PaymentStatus.FAILED => false
              | Some _ => true
              end); injection Hs as <-; exact HP.
  - destruct (existsb (Nat.eqb i) l); [ | discriminate].
    injection Hs as <-. simpl. apply (Hu i w HP).
Qed.

Lemma steps_preserves (P : Suspended.State -> Prop) :
  (forall s st st', P st -> Suspended.step s st = Some st' -> P st') ->
  forall ss st st', P st -> Suspended.steps ss st = Some st' -> P st'.
Proof.
  intros H ss. induction ss as [ | s ss IH]; intros st st' HP Hr; simpl in Hr.
  - injection Hr as <-. exact HP.
  - destruct (Suspended.step s st) as [st1 | ] eqn:E; [ | discriminate].
    apply (IH st1 st'); [ | exact Hr]. exact (H s st st1 HP E).
Qed.

Lemma steps_app (ss1 ss2 : list Suspended.Step) (st : Suspended.State) :
  Suspended.steps (ss1 ++ ss2) st =
    match Suspended.steps ss1 st with
    | Some st1 => Suspended.steps ss2 st1
    | None => None
    end.
Proof.
  revert st. induction ss1 as [ | s ss1 IH]; intros st; simpl; [reflexivity | ].
  destruct (Suspended.step s st); [apply IH | reflexivity].
Qed.

(** A schedule without suspended calls is an execution of [run]. *)
Lemma steps_events (es : list Event) (w : World) (l : list Id) :
  Suspended.steps (map Suspended.SEvent es) (w, l) =
    option_map (fun w' => (w', l)) (run es w).
Proof.
  revert w. induction es as [ | e es IH]; intros w; simpl; [reflexivity | ].
  destruct (fire e w) as [w1 | ]; [apply IH | reflexivity].
Qed.

Lemma reachable_suspended (w : World) : reachable w -> Suspended.reachable (w, []).
Proof.
  intros [es H]. exists (map Suspended.SEvent es). rewrite steps_events, H. reflexivity.
Qed.

(** The invariants of the event loop hold under these schedules as well. *)
Lemma suspended_invariants (st : Suspended.State) :
  Suspended.reachable st ->
  ids_drawn (fst st) /\ flows_ok (fst st) /\ live_jobs (fst st).
Proof.
  intros [ss H]. revert H.
  apply (steps_preserves
           (fun st => ids_drawn (fst st) /\ flows_ok (fst st) /\ live_jobs (fst st))).
  - intros s st0 st1 HP Hs. revert s st0 st1 HP Hs.
    apply (step_preserves (fun w => ids_drawn w /\ flows_ok w /\ live_jobs w)).
    + intros e w w' (H1 & H2 & H3) Hf. split; [ | split].
      * exact (ids_drawn_fire e w w' H1 Hf).
      * exact (flows_ok_fire e w w' H2 Hf).
      * exact (live_fire e w w' H2 H3 Hf).
    + intros i w (H1 & H2 & H3). split; [ | split].
      * assert (G : preserves (ids_tracked [])
                      (PaymentOrchestrator.updatePaymentStatus i
                         PaymentStatus.CANCELLED)) by pres_ids.
        apply G. split; [exact H1 | constructor].
      * assert (G : preserves (flows_ok_at None)
                      (PaymentOrchestrator.updatePaymentStatus i
                         PaymentStatus.CANCELLED)) by pres.
        apply G. split; [exact H2 | exact I].
      * assert (G : preserves (live_at None)
                      (PaymentOrchestrator.updatePaymentStatus i
                         PaymentStatus.CANCELLED)) by pres.
        apply G. split; [exact H3 | exact I].
  - simpl. split; [constructor | ]. split; [exact flows_ok_initial | ].
    intros t q [].
Qed.

Lemma remove_first_In (i j : Id) (l : list Id) :
  In j (Suspended.remove_first i l) -> In j l.
Proof.
  induction l as [ | a l IH]; simpl; [tauto | ].
  destruct (a =? i); simpl; [tauto | ]. intros [H | H]; [left; exact H | right; auto].
Qed.

Lemma existsb_eqb_In (i : Id) (l : list Id) : existsb (Nat.eqb i) l = true <-> In i l.
Proof.
  rewrite existsb_exists. split.
  - intros (x & Hx & E). apply Nat.eqb_eq in E. subst x. exact Hx.
  - intros H. exists i. split; [exact H | apply Nat.eqb_refl].
Qed.

(** *** What a status update does to a payment with nothing queued *)

Lemma settled_updatePaymentStatus_same (pid : Id) (s s' : PaymentStatus.t) (w : World) :
  settled pid s w ->
  settled pid s' (exec (PaymentOrchestrator.updatePaymentStatus pid s') w).
Proof.
  intros (H1 & H2 & H3). split; [simpl; lia | ]. split; [exact H2 | ].
  rewrite status_of_updatePaymentStatus, H3. reflexivity.
Qed.

Lemma settled_updatePaymentStatus_other (pid i : Id) (s s' : PaymentStatus.t) :
  i <> pid -> preserves (settled pid s) (PaymentOrchestrator.updatePaymentStatus i s').
Proof. intros Hne. pres_settled. Qed.

Lemma quiet_updatePaymentStatus_same (pid : Id) (s s' : PaymentStatus.t) (w : World) :
  quiet pid s w ->
  quiet pid s' (exec (PaymentOrchestrator.updatePaymentStatus pid s') w).
Proof.
  intros (H1 & H2 & H3 & H4). split; [simpl; lia | ]. split; [exact H2 | ].
  split; [exact H3 | ].
  rewrite status_of_updatePaymentStatus, H4. reflexivity.
Qed.

Lemma quiet_updatePaymentStatus_other (pid i : Id) (s s' : PaymentStatus.t) :
  i <> pid -> preserves (quiet pid s) (PaymentOrchestrator.updatePaymentStatus i s').
Proof. intros Hne. pres_quiet. Qed.

Lemma settled_fire_unless_cancelled
    (pid : Id) (s : PaymentStatus.t) (e : Event) (w w' : World) :
  settled pid s w -> fire e w = Some w' ->
  e <> ECancelPayment pid ->
  settled pid s w'.
Proof.
  intros H Hf Hc. destruct e; simpl in Hf.
  - injection Hf as <-. revert w H. change (preserves (settled pid s)
      (PaymentOrchestrator.createPayment request random)). pres_settled.
  - injection Hf as <-. destruct (Nat.eq_dec paymentId pid) as [-> | Hne].
    + exfalso. apply Hc. reflexivity.
    + revert w H. change (preserves (settled pid s)
        (PaymentOrchestrator.cancelPayment paymentId)). pres_settled.
  - injection Hf as <-. revert w H. change (preserves (settled pid s)
      (WebhookService.retryWebhook webhookId newUrl)). pres_settled.
  - unfold fireTimer in Hf.
    destruct (find (fun t => Timer.id t =? handle) (timers w)) as [t | ] eqn:E;
      [ | discriminate].
    destruct (Timer.due t <=? clock w)%N; [ | discriminate].
    injection Hf as <-. apply settled_flow.
    + destruct H as (_ & H2 & _). apply (no_flow_In pid w t H2 (find_In _ _ _ E)).
    + apply settled_rearm. exact H.
  - destruct (nth_error (inflight w) index) as [r | ] eqn:E; [ | discriminate].
    injection Hf as <-.
    assert (H' : settled pid s (set_inflight (remove_nth index (inflight w)) w))
      by exact H.
    revert H'. generalize (set_inflight (remove_nth index (inflight w)) w).
    change (preserves (settled pid s) (WebhookService.onResponse r ok)). pres_settled.
  - destruct (forallb _ _); [ | discriminate]. injection Hf as <-. exact H.
Qed.

Lemma settled_cancelled_fire (pid : Id) (e : Event) (w w' : World) :
  settled pid PaymentStatus.CANCELLED w -> fire e w = Some w' ->
  settled pid PaymentStatus.CANCELLED w'.
Proof.
  intros H Hf.
  assert (D : e = ECancelPayment pid \/ e <> ECancelPayment pid).
  { destruct e; try (right; discriminate).
    destruct (Nat.eq_dec paymentId pid) as [-> | Hne]; [left; reflexivity | ].
    right. intros E. injection E as E. contradiction. }
  destruct D as [-> | Hne].
  - simpl in Hf. injection Hf as <-. unfold exec. rewrite cancelPayment_eq.
    destruct H as (H1 & H2 & H3). rewrite H3.
    apply (settled_updatePaymentStatus_same pid PaymentStatus.CANCELLED).
    repeat split; assumption.
  - exact (settled_fire_unless_cancelled pid _ e w w' H Hf Hne).
Qed.

Lemma quiet_cancelled_fire (pid : Id) (e : Event) (w w' : World) :
  quiet pid PaymentStatus.CANCELLED w -> fire e w = Some w' ->
  quiet pid PaymentStatus.CANCELLED w'.
Proof.
  intros H Hf.
  assert (D : e = ECancelPayment pid \/ e <> ECancelPayment pid).
  { destruct e; try (right; discriminate).
    destruct (Nat.eq_dec paymentId pid) as [-> | Hne]; [left; reflexivity | ].
    right. intros E. injection E as E. contradiction. }
  destruct D as [-> | Hne].
  - simpl in Hf. injection Hf as <-. unfold exec. rewrite cancelPayment_eq.
    destruct H as (H1 & H2 & H3 & H4). rewrite H4.
    apply (quiet_updatePaymentStatus_same pid PaymentStatus.CANCELLED).
    repeat split; assumption.
  - apply (quiet_fire pid _ e w w' H Hf). intros E. contradiction.
Qed.

(** With no call suspended on the payment, a final status stays. *)
Lemma settled_step (pid : Id) (s : PaymentStatus.t) (x : Suspended.Step)
    (st st' : Suspended.State) :
  terminalb s = true ->
  settled pid s (fst st) /\ ~ In pid (snd st) ->
  Suspended.step x st = Some st' ->
  settled pid s (fst st') /\ ~ In pid (snd st').
Proof.
  intros Ht [H Hn] Hs. destruct st as [w l]. simpl in H, Hn.
  destruct x as [e | i | i]; simpl in Hs.
  - destruct (fire e w) as [w1 | ] eqn:E; [ | discriminate].
    injection Hs as <-. simpl. split; [ | exact Hn].
    exact (settled_fire pid s e w w1 Ht H E).
  - rewrite cancelPayment_read_eq in Hs.
    destruct (Nat.eq_dec i pid) as [-> | Hne].
    + destruct H as (H1 & H2 & H3). rewrite H3 in Hs.
      destruct s; try discriminate Ht; injection Hs as <-; simpl;
        (split; [repeat split; assumption | exact Hn]).
    + destruct (match status_of i w with
                | None | Some PaymentStatus.COMPLETED | Some PaymentStatus.FAILED =>
                    false
                | Some _ => true
                end); injection Hs as <-; simpl; (split; [exact H | ]);
        [intros [G | G]; [contradiction | exact (Hn G)] | exact Hn].
  - destruct (existsb (Nat.eqb i) l) eqn:E; [ | discriminate].
    injection Hs as <-. simpl. apply existsb_eqb_In in E.
    assert (Hne : i <> pid) by (intros ->; exact (Hn E)).
    split.
    + apply (settled_updatePaymentStatus_other pid i s _ Hne w H).
    + intros G. apply Hn. exact (remove_first_In i pid l G).
Qed.

(** Whatever is suspended, the status stays what it is or becomes
    CANCELLED, and nothing is queued for the payment again. *)
Lemma settled_or_cancelled_step (pid : Id) (s : PaymentStatus.t) (x : Suspended.Step)
    (st st' : Suspended.State) :
  terminalb s = true ->
  settled_or_cancelled pid s (fst st) ->
  Suspended.step x st = Some st' ->
  settled_or_cancelled pid s (fst st').
Proof.
  intros Ht. revert x st st'.
  apply (step_preserves (settled_or_cancelled pid s)).
  - intros e w w' [H | H] Hf.
    + left. exact (settled_fire pid s e w w' Ht H Hf).
    + right. exact (settled_cancelled_fire pid e w w' H Hf).
  - intros i w H. destruct (Nat.eq_dec i pid) as [-> | Hne].
    + right. destruct H as [H | H];
        exact (settled_updatePaymentStatus_same pid _ PaymentStatus.CANCELLED w H).
    + destruct H as [H | H]; [left | right];
        exact (settled_updatePaymentStatus_other pid i _ _ Hne w H).
Qed.

Lemma quiet_or_cancelled_step (pid : Id) (s : PaymentStatus.t) (x : Suspended.Step)
    (st st' : Suspended.State) :
  terminal s ->
  quiet_or_cancelled pid s (fst st) ->
  Suspended.step x st = Some st' ->
  quiet_or_cancelled pid s (fst st').
Proof.
  intros Ht. revert x st st'.
  apply (step_preserves (quiet_or_cancelled pid s)).
  - intros e w w' [H | H] Hf.
    + left. apply (quiet_fire pid s e w w' H Hf). intros _. exact Ht.
    + right. exact (quiet_cancelled_fire pid e w w' H Hf).
  - intros i w H. destruct (Nat.eq_dec i pid) as [-> | Hne].
    + right. destruct H as [H | H];
        exact (quiet_updatePaymentStatus_same pid _ PaymentStatus.CANCELLED w H).
    + destruct H as [H | H]; [left | right];
        exact (quiet_updatePaymentStatus_other pid i _ _ Hne w H).
Qed.

(** The update of a suspended call writes CANCELLED whatever the status has
    become in the meantime. *)
Lemma suspended_write (pid : Id) (s : PaymentStatus.t) (st : Suspended.State) :
  status_of pid (fst st) = Some s ->
  In pid (snd st) ->
  exists w1,
    Suspended.step (Suspended.SCancelWrite pid) st =
      Some (w1, Suspended.remove_first pid (snd st)) /\
    status_of pid w1 = Some PaymentStatus.CANCELLED.
Proof.
  intros Hs Hin. destruct st as [w l]. cbn [fst snd] in *.
  apply existsb_eqb_In in Hin.
  exists (exec (PaymentOrchestrator.updatePaymentStatus pid PaymentStatus.CANCELLED) w).
  split.
  - unfold Suspended.step. cbn [fst snd]. rewrite Hin. reflexivity.
  - rewrite status_of_updatePaymentStatus, Hs. reflexivity.
Qed.

Lemma final_settled (st : Suspended.State) (pid : Id) (s : PaymentStatus.t) :
  Suspended.reachable st ->
  status_of pid (fst st) = Some s ->
  terminalb s = true ->
  settled pid s (fst st).
Proof.
  intros Hreach Hs Ht.
  destruct (suspended_invariants st Hreach) as (Hids & _ & Hlive).
  split; [ | split; [ | exact Hs]].
  - unfold status_of in Hs.
    destruct (find (fun r => Payment.id r =? pid) (payments (fst st))) as [p | ] eqn:E;
      [ | discriminate].
    pose proof (find_some _ _ E) as [Hin Hp]. apply Nat.eqb_eq in Hp.
    unfold ids_drawn in Hids. rewrite Forall_forall in Hids.
    specialize (Hids p Hin). lia.
  - unfold no_flow. apply forallb_forall. intros t Hin.
    destruct (flow_job_for pid (Timer.job t)) eqn:E; [ | reflexivity].
    pose proof (Hlive t pid Hin E s Hs) as G. congruence.
Qed.

Lemma final_after_steps (st st' : Suspended.State) (ss : list Suspended.Step)
    (pid : Id) (s : PaymentStatus.t) :
  terminalb s = true ->
  settled pid s (fst st) ->
  Suspended.steps ss st = Some st' ->
  (status_of pid (fst st') = Some s \/
   status_of pid (fst st') = Some PaymentStatus.CANCELLED) /\
  no_flow pid (fst st') /\
  (~ In pid (snd st) -> status_of pid (fst st') = Some s).
Proof.
  intros Ht H Hr. split; [ | split].
  - assert (G : settled_or_cancelled pid s (fst st')).
    { revert Hr. apply (steps_preserves (fun st => settled_or_cancelled pid s (fst st))).
      - intros x st0 st1. apply settled_or_cancelled_step. exact Ht.
      - left. exact H. }
    destruct G as [(_ & _ & G) | (_ & _ & G)]; [left | right]; exact G.
  - assert (G : settled_or_cancelled pid s (fst st')).
    { revert Hr. apply (steps_preserves (fun st => settled_or_cancelled pid s (fst st))).
      - intros x st0 st1. apply settled_or_cancelled_step. exact Ht.
      - left. exact H. }
    destruct G as [(_ & G & _) | (_ & G & _)]; exact G.
  - intros Hn.
    assert (G : settled pid s (fst st') /\ ~ In pid (snd st')).
    { revert Hr.
      apply (steps_preserves (fun st => settled pid s (fst st) /\ ~ In pid (snd st))).
      - intros x st0 st1. apply settled_step. exact Ht.
      - split; assumption. }
    destruct G as [(_ & _ & G) _]. exact G.
Qed.

(** COMPLETED and FAILED are final for every [cancelPayment] call that reads
    the row after the status was written, but not for a call suspended
    between its read and its update.  In every state the server can reach,
    calls of [cancelPayment] suspended at their [await] included, a payment
    that is COMPLETED or FAILED has none of its stage jobs queued.  Whatever
    happens afterwards its status stays what it is or becomes CANCELLED, and
    no job is queued for it again; it stays what it is when no call that
    read the row before is suspended; and the update of such a call, when
    there is one, does write CANCELLED over it. *)
Theorem final_status_is_final
    (st st' : Suspended.State) (ss : list Suspended.Step) (paymentId : Id)
    (s : PaymentStatus.t) :
  Suspended.reachable st ->
  status_of paymentId (fst st) = Some s ->
  s = PaymentStatus.COMPLETED \/ s = PaymentStatus.FAILED ->
  Suspended.steps ss st = Some st' ->
  no_flow paymentId (fst st) /\
  (status_of paymentId (fst st') = Some s \/
   status_of paymentId (fst st') = Some PaymentStatus.CANCELLED) /\
  no_flow paymentId (fst st') /\
  (~ In paymentId (snd st) -> status_of paymentId (fst st') = Some s) /\
  (In paymentId (snd st) ->
   exists w1,
     Suspended.step (Suspended.SCancelWrite paymentId) st =
       Some (w1, Suspended.remove_first paymentId (snd st)) /\
     status_of paymentId w1 = Some PaymentStatus.CANCELLED).
Proof.
  intros Hreach Hs Ht Hr.
  assert (Htb : terminalb s = true) by (destruct Ht as [-> | ->]; reflexivity).
  pose proof (final_settled st paymentId s Hreach Hs Htb) as H0.
  destruct (final_after_steps st st' ss paymentId s Htb H0 Hr) as (A & B & C).
  split; [apply H0 | ]. split; [exact A | ]. split; [exact B | ].
  split; [exact C | ].
  intros Hin. exact (suspended_write paymentId s st Hs Hin).
Qed.

(** The payment has been marked FAILED while a [cancelPayment] call that
    had read it as PROCESSING was suspended; the update of that call then
    writes CANCELLED. *)
Lemma final_status_is_final_witness :
  status_of 0 (fst (state_after cancel_race)) = Some PaymentStatus.FAILED /\
  snd (state_after cancel_race) = [0] /\
  no_flow 0 (fst (state_after cancel_race)) /\
  exists w1,
    Suspended.step (Suspended.SCancelWrite 0) (state_after cancel_race) = Some (w1, []) /\
    status_of 0 w1 = Some PaymentStatus.CANCELLED.
Proof.
  assert (Hreach : Suspended.reachable (state_after cancel_race)).
  { exists cancel_race. vm_compute. reflexivity. }
  assert (Hs : status_of 0 (fst (state_after cancel_race)) = Some PaymentStatus.FAILED)
    by (vm_compute; reflexivity).
  assert (Hl : snd (state_after cancel_race) = [0]) by (vm_compute; reflexivity).
  destruct (final_status_is_final (state_after cancel_race) (state_after cancel_race)
              [] 0 PaymentStatus.FAILED Hreach Hs (or_intror eq_refl) eq_refl)
    as (H1 & _ & _ & _ & H5).
  split; [exact Hs | ]. split; [exact Hl | ]. split; [exact H1 | ].
  destruct H5 as (w1 & E & G); [rewrite Hl; left; reflexivity | ].
  exists w1. split; [ | exact G]. rewrite E, Hl. reflexivity.
Defined.

Lemma reachable_steps (ss : list Suspended.Step) (st st' : Suspended.State) :
  Suspended.reachable st -> Suspended.steps ss st = Some st' -> Suspended.reachable st'.
Proof.
  intros [ss0 H0] H. exists (ss0 ++ ss). rewrite steps_app, H0. exact H.
Qed.

Lemma quiet_settled (pid : Id) (s : PaymentStatus.t) (w : World) :
  quiet pid s w -> settled pid s w.
Proof. intros (H1 & H2 & _ & H4). repeat split; assumption. Qed.

(** When a tick of the onramp poll finds the onramp transaction [failed], the
    payment is marked FAILED, nothing stays queued for it and it has no
    offramp transaction.  From then on, calls of [cancelPayment] suspended
    at their [await] included, no job is queued and no offramp transaction
    is created for it, and its status stays FAILED or becomes CANCELLED; it
    stays FAILED when no [cancelPayment] call that read the row before the
    tick is suspended. *)
Theorem onramp_failure_is_final
    (w w' : World) (suspended : list Id) (handle : nat) (pid tx : Id) (t : Timer.t)
    (x : Transaction.t) (random : Q) (db_ok : bool) (s : PaymentStatus.t) :
  Suspended.reachable (w, suspended) ->
  find (fun t => Timer.id t =? handle) (timers w) = Some t ->
  Timer.job t = JOnrampPoll pid tx ->
  find (fun r => Transaction.id r =? tx) (transactions w) = Some x ->
  Transaction.status x = TransactionStatus.FAILED ->
  status_of pid w = Some s ->
  fire (ETimer handle random db_ok) w = Some w' ->
  quiet pid PaymentStatus.FAILED w' /\
  forall ss st'',
    Suspended.steps ss (w', suspended) = Some st'' ->
    no_flow pid (fst st'') /\ no_offramp pid (fst st'') /\
    (status_of pid (fst st'') = Some PaymentStatus.FAILED \/
     status_of pid (fst st'') = Some PaymentStatus.CANCELLED) /\
    (~ In pid suspended -> status_of pid (fst st'') = Some PaymentStatus.FAILED).
Proof.
  intros Hreach Hfind Hjob Hx Hst Hs Hfire.
  destruct (suspended_invariants _ Hreach) as (_ & Hflows & _). simpl in Hflows.
  simpl in Hfire. unfold fireTimer in Hfire. rewrite Hfind in Hfire.
  destruct (Timer.due t <=? clock w)%N; [ | discriminate].
  rewrite Hjob in Hfire. cbn [runJob] in Hfire. injection Hfire as <-.
  assert (Ho : flows_ok_own handle pid (set_timers (rearm t (timers w)) w)).
  { apply flows_ok_own_fired; [exact Hflows | exact Hfind | ].
    rewrite Hjob. simpl. apply Nat.eqb_refl. }
  rewrite (onrampPoll_failed handle pid tx x); [ | exact Hx | exact Hst].
  pose proof (flows_clearInterval_own handle pid _ Ho) as Hc.
  assert (Hu : preserves (flows_ok_at (Some (pid, true)))
                 (PaymentOrchestrator.updatePaymentStatus pid PaymentStatus.FAILED))
    by pres.
  specialize (Hu _ Hc). destruct Hu as [_ (A & B & C)].
  assert (Hq : quiet pid PaymentStatus.FAILED
                 (exec (PaymentOrchestrator.updatePaymentStatus pid PaymentStatus.FAILED)
                    (exec (clearInterval handle)
                       (set_timers (rearm t (timers w)) w)))).
  { split; [exact B | ]. split; [exact A | ]. split; [apply C; reflexivity | ].
    rewrite status_of_updatePaymentStatus.
    change (status_of pid (exec (clearInterval handle)
                             (set_timers (rearm t (timers w)) w)))
      with (status_of pid w).
    rewrite Hs. reflexivity. }
  split; [exact Hq | ].
  intros ss st'' Hr.
  assert (G : quiet_or_cancelled pid PaymentStatus.FAILED (fst st'')).
  { revert Hr.
    apply (steps_preserves
             (fun st => quiet_or_cancelled pid PaymentStatus.FAILED (fst st))).
    - intros y st0 st1. apply quiet_or_cancelled_step. right. reflexivity.
    - left. exact Hq. }
  split; [destruct G as [G | G]; apply G | ].
  split; [destruct G as [G | G]; apply G | ].
  split; [destruct G as [(_ & _ & _ & G) | (_ & _ & _ & G)]; [left | right]; exact G | ].
  intros Hn.
  match type of Hr with Suspended.steps ss ?st0 = _ =>
    destruct (final_after_steps st0 st'' ss pid PaymentStatus.FAILED eq_refl
                (quiet_settled _ _ _ Hq) Hr) as (_ & _ & K)
  end.
  exact (K Hn).
Qed.

Lemma onramp_failure_is_final_witness :
  exists w',
    fire (ETimer 2 0%Q true) (fst (state_after cancel_race_before_tick)) = Some w' /\
    snd (state_after cancel_race_before_tick) = [0] /\
    quiet 0 PaymentStatus.FAILED w' /\
    forall st'',
      Suspended.steps [Suspended.SCancelWrite 0] (w', [0]) = Some st'' ->
      no_offramp 0 (fst st'') /\
      (status_of 0 (fst st'') = Some PaymentStatus.FAILED \/
       status_of 0 (fst st'') = Some PaymentStatus.CANCELLED).
Proof.
  assert (Hr : Suspended.reachable (fst (state_after cancel_race_before_tick), [0])).
  { exists cancel_race_before_tick. vm_compute. reflexivity. }
  assert (Hf : exists w',
             fire (ETimer 2 0%Q true) (fst (state_after cancel_race_before_tick))
               = Some w').
  { eexists. vm_compute. reflexivity. }
  destruct Hf as [w' Hf]. exists w'. split; [exact Hf | ].
  split; [vm_compute; reflexivity | ].
  assert (Hfind : exists t x,
             find (fun t => Timer.id t =? 2)
                  (timers (fst (state_after cancel_race_before_tick))) = Some t /\
             Timer.job t = JOnrampPoll 0 2 /\
             find (fun r => Transaction.id r =? 2)
                  (transactions (fst (state_after cancel_race_before_tick)))
               = Some x /\
             Transaction.status x = TransactionStatus.FAILED).
  { eexists. eexists. split; [vm_compute; reflexivity | ].
    split; [reflexivity | ]. split; [vm_compute; reflexivity | reflexivity]. }
  destruct Hfind as (t & x & H1 & H2 & H3 & H4).
  assert (Hs : status_of 0 (fst (state_after cancel_race_before_tick))
               = Some PaymentStatus.PROCESSING) by (vm_compute; reflexivity).
  destruct (onramp_failure_is_final (fst (state_after cancel_race_before_tick)) w' [0]
              2 0 2 t x 0%Q true PaymentStatus.PROCESSING Hr H1 H2 H3 H4 Hs Hf)
    as [Hq Hafter].
  split; [exact Hq | ].
  intros st'' Hst. destruct (Hafter _ st'' Hst) as (_ & A & B & _).
  split; assumption.
Defined.

(** When a tick of the offramp poll finds the offramp transaction completed,
    the payment is marked COMPLETED and a [PAYMENT_COMPLETED] webhook is
    scheduled for it as its newest delivery.  From then on, calls of
    [cancelPayment] suspended at their [await] included, its status stays
    COMPLETED or becomes CANCELLED; it stays COMPLETED when no
    [cancelPayment] call that read the row before the tick is suspended. *)
Theorem payout_completion_completes
    (w w' : World) (suspended : list Id) (handle : nat) (pid tx : Id) (t : Timer.t)
    (x : Transaction.t) (random : Q) (db_ok : bool) (s : PaymentStatus.t) :
  Suspended.reachable (w, suspended) ->
  find (fun t => Timer.id t =? handle) (timers w) = Some t ->
  Timer.job t = JOfframpPoll pid tx ->
  find (fun r => Transaction.id r =? tx) (transactions w) = Some x ->
  Transaction.status x = TransactionStatus.COMPLETED ->
  status_of pid w = Some s ->
  fire (ETimer handle random db_ok) w = Some w' ->
  status_of pid w' = Some PaymentStatus.COMPLETED /\
  (exists l y, webhooks w' = l ++ [y] /\
               Webhook.payment_id y = pid /\
               Webhook.event_type y = WebhookEventType.PAYMENT_COMPLETED /\
               Webhook.status y = WebhookStatus.PENDING) /\
  forall ss st'',
    Suspended.steps ss (w', suspended) = Some st'' ->
    (status_of pid (fst st'') = Some PaymentStatus.COMPLETED \/
     status_of pid (fst st'') = Some PaymentStatus.CANCELLED) /\
    (~ In pid suspended -> status_of pid (fst st'') = Some PaymentStatus.COMPLETED).
Proof.
  intros Hreach Hfind Hjob Hx Hst Hs Hfire.
  assert (Hreach' : Suspended.reachable (w', suspended)).
  { apply (reachable_steps [Suspended.SEvent (ETimer handle random db_ok)]
             (w, suspended) _ Hreach).
    cbn [Suspended.steps Suspended.step fst snd]. rewrite Hfire. reflexivity. }
  simpl in Hfire. unfold fireTimer in Hfire. rewrite Hfind in Hfire.
  destruct (Timer.due t <=? clock w)%N; [ | discriminate].
  rewrite Hjob in Hfire. cbn [runJob] in Hfire. injection Hfire as Hw'.
  rewrite (offrampPoll_completed handle pid tx x) in Hw'; [ | exact Hx | exact Hst].
  assert (Hc : status_of pid w' = Some PaymentStatus.COMPLETED).
  { rewrite <- Hw'.
    change (status_of pid
              (exec (PaymentOrchestrator.updatePaymentStatus pid PaymentStatus.COMPLETED)
                 (exec (clearInterval handle) (set_timers (rearm t (timers w)) w)))
            = Some PaymentStatus.COMPLETED).
    rewrite status_of_updatePaymentStatus.
    change (status_of pid (exec (clearInterval handle)
                             (set_timers (rearm t (timers w)) w)))
      with (status_of pid w).
    rewrite Hs. reflexivity. }
  split; [exact Hc | ]. split.
  - rewrite <- Hw'. unfold exec at 1. simpl.
    eexists. eexists. split; [reflexivity | ]. repeat split.
  - intros ss st'' Hr.
    pose proof (final_settled (w', suspended) pid PaymentStatus.COMPLETED Hreach' Hc
                  eq_refl) as H0.
    destruct (final_after_steps _ st'' ss pid PaymentStatus.COMPLETED eq_refl H0 Hr)
      as (A & _ & C).
    split; [exact A | exact C].
Qed.

Lemma payout_completion_completes_witness :
  exists w',
    fire (ETimer 5 0%Q true) (fst (state_after cancel_race_payout)) = Some w' /\
    snd (state_after cancel_race_payout) = [0] /\
    status_of 0 w' = Some PaymentStatus.COMPLETED /\
    exists st'',
      Suspended.steps [Suspended.SCancelWrite 0] (w', [0]) = Some st'' /\
      status_of 0 (fst st'') = Some PaymentStatus.CANCELLED.
Proof.
  assert (Hr : Suspended.reachable (fst (state_after cancel_race_payout), [0])).
  { exists cancel_race_payout. vm_compute. reflexivity. }
  assert (Hf : exists w',
             fire (ETimer 5 0%Q true) (fst (state_after cancel_race_payout)) = Some w').
  { eexists. vm_compute. reflexivity. }
  destruct Hf as [w' Hf]. exists w'. split; [exact Hf | ].
  split; [vm_compute; reflexivity | ].
  assert (Hfind : exists t x tx,
             find (fun t => Timer.id t =? 5)
                  (timers (fst (state_after cancel_race_payout))) = Some t /\
             Timer.job t = JOfframpPoll 0 tx /\
             find (fun r => Transaction.id r =? tx)
                  (transactions (fst (state_after cancel_race_payout))) = Some x /\
             Transaction.status x = TransactionStatus.COMPLETED).
  { eexists. eexists. eexists. split; [vm_compute; reflexivity | ].
    split; [reflexivity | ]. split; [vm_compute; reflexivity | reflexivity]. }
  destruct Hfind as (t & x & tx & H1 & H2 & H3 & H4).
  assert (Hs : exists s,
             status_of 0 (fst (state_after cancel_race_payout)) = Some s).
  { eexists. vm_compute. reflexivity. }
  destruct Hs as [s Hs].
  destruct (payout_completion_completes _ w' [0] 5 0 tx t x 0%Q true s
              Hr H1 H2 H3 H4 Hs Hf) as (Hc & _ & _).
  split; [exact Hc | ].
  destruct (suspended_write 0 PaymentStatus.COMPLETED (w', [0]) Hc
              (or_introl eq_refl)) as (w1 & E & G).
  exists (w1, []). split; [ | exact G].
  cbn [Suspended.steps]. rewrite E. reflexivity.
Defined.

Lemma quiet_cancelled_step (pid : Id) (x : Suspended.Step) (st st' : Suspended.State) :
  quiet pid PaymentStatus.CANCELLED (fst st) ->
  Suspended.step x st = Some st' ->
  quiet pid PaymentStatus.CANCELLED (fst st').
Proof.
  revert x st st'. apply (step_preserves (quiet pid PaymentStatus.CANCELLED)).
  - intros e w w' H Hf. exact (quiet_cancelled_fire pid e w w' H Hf).
  - intros i w H. destruct (Nat.eq_dec i pid) as [-> | Hne].
    + exact (quiet_updatePaymentStatus_same pid _ PaymentStatus.CANCELLED w H).
    + exact (quiet_updatePaymentStatus_other pid i _ _ Hne w H).
Qed.

(** C8, the schedule on which the code fails.  In [cancel_race] the payment
    is accepted and processed; a [cancelPayment] call reads its row, which
    says PROCESSING, and is suspended at its [await]; the provider fails the
    onramp transaction and the next tick of the onramp poll marks the
    payment FAILED.  The suspended call then performs its update: the
    payment is CANCELLED, not FAILED, and stays CANCELLED whatever follows.
    No offramp transaction is created for it. *)
Theorem suspended_cancel_overwrites_failure :
  exists st st',
    Suspended.steps cancel_race (initialWorld, []) = Some st /\
    map Transaction.status (transactions (fst st)) = [TransactionStatus.FAILED] /\
    status_of 0 (fst st) = Some PaymentStatus.FAILED /\
    Suspended.step (Suspended.SCancelWrite 0) st = Some st' /\
    status_of 0 (fst st') = Some PaymentStatus.CANCELLED /\
    forall ss st'',
      Suspended.steps ss st' = Some st'' ->
      status_of 0 (fst st'') = Some PaymentStatus.CANCELLED /\
      no_offramp 0 (fst st'').
Proof.
  eexists. eexists.
  split; [vm_compute; reflexivity | ].
  split; [reflexivity | ]. split; [reflexivity | ].
  split; [vm_compute; reflexivity | ].
  split; [reflexivity | ].
  intros ss st'' Hr.
  match type of Hr with Suspended.steps ss ?st0 = _ =>
    assert (Hq : quiet 0 PaymentStatus.CANCELLED (fst st0))
  end.
  { split; [vm_compute; lia | ]. repeat split. }
  assert (G : quiet 0 PaymentStatus.CANCELLED (fst st'')).
  { revert Hr.
    apply (steps_preserves (fun st => quiet 0 PaymentStatus.CANCELLED (fst st))).
    - intros y st0 st1. apply quiet_cancelled_step.
    - exact Hq. }
  destruct G as (_ & _ & G3 & G4). split; assumption.
Qed.

Lemma suspended_cancel_overwrites_failure_witness :
  exists st',
    Suspended.steps (cancel_race ++ [Suspended.SCancelWrite 0]) (initialWorld, [])
      = Some st' /\
    forall st'',
      Suspended.steps [Suspended.SEvent (EWait 60000)] st' = Some st'' ->
      status_of 0 (fst st'') = Some PaymentStatus.CANCELLED.
Proof.
  destruct suspended_cancel_overwrites_failure as (st & st' & H1 & _ & _ & H4 & _ & H6).
  exists st'. split.
  - rewrite steps_app, H1. cbn [Suspended.steps]. rewrite H4. reflexivity.
  - intros st'' Hr. apply (H6 _ st'' Hr).
Defined.
